(** * Spectral energy density engine (psa.core.sed_calculator and the legacy
    SDA.py script): a shallow embedding and its verified properties.

    Floating point numbers are idealised as exact reals: [float32], [float64]
    and [complex64] values are elements of [R] and [R * R], rounding and the
    non-finite values (inf, nan) are outside the model.  Integers are not
    idealised: a Python int is an element of [Z], a NumPy [int] is an int64,
    and an integer that the code stores in a [float32] array comes back
    rounded to 24 significant bits.  Arrays are lists in
    row-major nesting; where NumPy distinguishes shapes that nested lists
    cannot (an axis of length zero), the shape is carried along explicitly.
    Only records of level [warning] and [error] of the logger are kept. *)

From Stdlib Require Import Reals Lra Lia ZArith List String Ascii Bool Psatz.
Import ListNotations.
Local Open Scope string_scope.
Local Open Scope list_scope.
Local Open Scope R_scope.


(* ================================================================== *)
(** * Python values: exceptions, log records, the call monad           *)
(* ================================================================== *)

Inductive exn : Type :=
| ValueError (msg : string)
| IndexError
| TypeError (msg : string)
| ZeroDivisionError
| OverflowError (msg : string).

Inductive result (A : Type) : Type :=
| Ok (a : A)
| Raise (e : exn).
Arguments Ok {A} a.
Arguments Raise {A} e.

Inductive log_record : Type :=
| Warning (msg : string)
| Error (msg : string).

(** A call produces the log records it emitted, in order, and either a value
    or the exception that ended it. *)
Definition M (A : Type) : Type := (list log_record * result A)%type.

Definition ret {A} (a : A) : M A := ([], Ok a).
Definition raise {A} (e : exn) : M A := ([], Raise e).
Definition warn (msg : string) : M unit := ([Warning msg], Ok tt).
Definition log_error (msg : string) : M unit := ([Error msg], Ok tt).

Definition bind {A B} (m : M A) (f : A -> M B) : M B :=
  match m with
  | (l1, Ok a) => let '(l2, r) := f a in (l1 ++ l2, r)
  | (l1, Raise e) => (l1, Raise e)
  end.

Notation "x <- m ;; k" := (bind m (fun x => k))
  (at level 61, m at next level, right associativity).
Notation "m ;;; k" := (bind m (fun _ => k))
  (at level 61, right associativity).

Definition value {A} (m : M A) : result A := snd m.
Definition logged {A} (m : M A) : list log_record := fst m.

(* ================================================================== *)
(** * Real comparisons as booleans                                     *)
(* ================================================================== *)

Definition Rltb (x y : R) : bool := if Rlt_dec x y then true else false.
Definition Rleb (x y : R) : bool := if Rle_dec x y then true else false.
Definition Rgtb (x y : R) : bool := Rltb y x.
Definition Reqb (x y : R) : bool := if Req_dec_T x y then true else false.

(** [np.isclose(a, b)] with the default tolerances. *)
Definition isclose (a b : R) : bool :=
  Rleb (Rabs (a - b)) (1e-8 + 1e-5 * Rabs b).

(* ================================================================== *)
(** * Three-component vectors and complex numbers                      *)
(* ================================================================== *)

Definition vec3 : Type := (R * R * R)%type.

Definition dot (u v : vec3) : R :=
  let '(u0, u1, u2) := u in
  let '(v0, v1, v2) := v in
  u0 * v0 + u1 * v1 + u2 * v2.

Definition cross (u v : vec3) : vec3 :=
  let '(u0, u1, u2) := u in
  let '(v0, v1, v2) := v in
  (u1 * v2 - u2 * v1, u2 * v0 - u0 * v2, u0 * v1 - u1 * v0).

Definition vscale (s : R) (v : vec3) : vec3 :=
  let '(v0, v1, v2) := v in (s * v0, s * v1, s * v2).

Definition vdiv (v : vec3) (s : R) : vec3 :=
  let '(v0, v1, v2) := v in (v0 / s, v1 / s, v2 / s).

Definition vadd (u v : vec3) : vec3 :=
  let '(u0, u1, u2) := u in
  let '(v0, v1, v2) := v in
  (u0 + v0, u1 + v1, u2 + v2).

Definition vsub (u v : vec3) : vec3 :=
  let '(u0, u1, u2) := u in
  let '(v0, v1, v2) := v in
  (u0 - v0, u1 - v1, u2 - v2).

Definition vzero : vec3 := (0, 0, 0).

(** [np.linalg.norm] of a vector. *)
Definition norm (v : vec3) : R := sqrt (dot v v).

(** The component of a vector along polarisation axis 0, 1 or 2. *)
Definition comp (pol : nat) (v : vec3) : R :=
  let '(v0, v1, v2) := v in
  match pol with O => v0 | S O => v1 | _ => v2 end.

Definition C : Type := (R * R)%type.

Definition C0 : C := (0, 0).
Definition Cadd (z w : C) : C := (fst z + fst w, snd z + snd w).
Definition Cmul (z w : C) : C :=
  (fst z * fst w - snd z * snd w, fst z * snd w + snd z * fst w).
Definition Cscale (s : R) (z : C) : C := (s * fst z, s * snd z).
Definition Cdiv_real (z : C) (s : R) : C := (fst z / s, snd z / s).
(** [np.exp(1j * theta)] *)
Definition Cexp_i (theta : R) : C := (cos theta, sin theta).
(** [np.abs] of a complex number. *)
Definition Cabs (z : C) : R := sqrt (fst z * fst z + snd z * snd z).
Definition Csum (l : list C) : C := fold_left Cadd l C0.

(** One cell of a per-polarisation array: the last axis, of length 3. *)
Definition pol3 : Type := (C * C * C)%type.
Definition pol3_zero : pol3 := (C0, C0, C0).

(* ================================================================== *)
(** * The trajectory                                                   *)
(* ================================================================== *)

(** Modelled from the spec: psa.core.trajectory.Trajectory is not under
    src/.  The fields are the ones sed_calculator.py reads (positions,
    velocities, types, box_matrix, dt_ps, n_frames, n_atoms); as in the
    Trajectory dataclass of SDA.py and section 3 of the specification,
    positions and velocities are (n_frames, n_atoms, 3) arrays and the type
    labels a (n_atoms,) array. *)
Record Trajectory : Type := {
  positions : list (list vec3);
  velocities : list (list vec3);
  types : list Z;
  box_matrix : vec3 * vec3 * vec3;
  traj_dt_ps : option R
}.

Definition n_frames (traj : Trajectory) : nat := List.length (positions traj).
Definition n_atoms (traj : Trajectory) : nat := List.length (types traj).

(* ================================================================== *)
(** * SEDCalculator.__init__ (sed_calculator.py, lines 19-56)          *)
(* ================================================================== *)

Record SEDCalculator : Type := {
  traj : Trajectory;
  use_displacements : bool;
  dt_ps : R;
  a1 : vec3; a2 : vec3; a3 : vec3;
  b1 : vec3; b2 : vec3; b3 : vec3
}.

(** [np.vstack([b1, b2, b3])] *)
Definition recip_vecs_prim (self : SEDCalculator) : vec3 * vec3 * vec3 :=
  (b1 self, b2 self, b3 self).

(** [np.linalg.det] of the matrix whose rows are the three vectors. *)
Definition det3 (r0 r1 r2 : vec3) : R :=
  let '(a, b, c) := r0 in
  let '(d, e, f) := r1 in
  let '(g, h, i) := r2 in
  a * (e * i - f * h) - b * (d * i - f * g) + c * (d * h - e * g).

(** [np.linalg.matrix_rank(m) < 3]: over the reals a 3x3 matrix has rank
    below three exactly when its determinant vanishes. *)
Definition rank_below_3 (r0 r1 r2 : vec3) : bool := Reqb (det3 r0 r1 r2) 0.

Definition SEDCalculator_init (traj : Trajectory) (nx ny nz : Z)
    (use_displacements : bool) (dt_ps : option R) : M SEDCalculator :=
  if negb ((0 <? nx)%Z && (0 <? ny)%Z && (0 <? nz)%Z) then
    raise (ValueError "System dimensions (nx, ny, nz) must be positive.")
  else
    dt <- match dt_ps with
          | Some dt =>
              warn "Explicitly providing dt_ps to SEDCalculator is deprecated." ;;;
              ret dt
          | None =>
              match traj_dt_ps traj with
              | Some dt => ret dt
              | None => raise (ValueError "Timestep dt_ps not found in Trajectory object and not provided to SEDCalculator.")
              end
          end ;;
    if Rleb dt 0 then raise (ValueError "Timestep dt_ps must be positive.")
    else
      let '(L1, L2, L3) := box_matrix traj in
      let a1 := vdiv L1 (IZR nx) in
      let a2 := vdiv L2 (IZR ny) in
      let a3 := vdiv L3 (IZR nz) in
      if existsb (fun v => Rltb (norm v) 1e-9) [a1; a2; a3] then
        raise (ValueError "One or more primitive vectors (a1,a2,a3) near zero. Check nx,ny,nz or box matrix.")
      else
        let vol_prim := Rabs (dot a1 (cross a2 a3)) in
        (if isclose vol_prim 0 then
           if rank_below_3 a1 a2 a3 || isclose (det3 a1 a2 a3) 0 then
             raise (ValueError "Primitive cell vectors coplanar/collinear; volume zero.")
           else warn "Primitive cell volume very small."
         else ret tt) ;;;
        ret {| traj := traj;
               use_displacements := use_displacements;
               dt_ps := dt;
               a1 := a1; a2 := a2; a3 := a3;
               b1 := vscale (2 * PI / vol_prim) (cross a2 a3);
               b2 := vscale (2 * PI / vol_prim) (cross a3 a1);
               b3 := vscale (2 * PI / vol_prim) (cross a1 a2) |}.

(* ================================================================== *)
(** * NumPy array operations used by the engine                        *)
(* ================================================================== *)

Fixpoint zip_with {A B D} (f : A -> B -> D) (l : list A) (m : list B)
    : list D :=
  match l, m with
  | a :: l', b :: m' => f a b :: zip_with f l' m'
  | _, _ => []
  end.

(** [arr[idx]] for an integer index array [idx] (indices within range). *)
Definition take {A} (d : A) (arr : list A) (idx : list Z) : list A :=
  map (fun i => nth (Z.to_nat i) arr d) idx.

(** [row[s:e]] *)
Definition slice {A} (s e : nat) (row : list A) : list A :=
  firstn (e - s) (skipn s row).

(** [row[s:e] = new], for [new] of length [e - s]. *)
Definition set_slice {A} (s e : nat) (new row : list A) : list A :=
  firstn s row ++ new ++ skipn e row.

(** A two-axis array of cells, with its shape [(dim0, dim1)]; the cells of
    a (dim0, dim1, 3) array are the triples along the last axis. *)
Record grid (A : Type) : Type := {
  dim0 : nat;
  dim1 : nat;
  cells : list (list A)
}.
Arguments dim0 {A} g.
Arguments dim1 {A} g.
Arguments cells {A} g.
Arguments Build_grid {A} dim0 dim1 cells.

(** [np.zeros((n0, n1))], or [np.zeros((n0, n1, 3))] for triple cells. *)
Definition zeros {A} (z : A) (n0 n1 : nat) : grid A :=
  {| dim0 := n0; dim1 := n1; cells := repeat (repeat z n1) n0 |}.

(** [np.array([]).reshape(0, n1, 3)] *)
Definition empty_grid {A} (n1 : nat) : grid A :=
  {| dim0 := 0; dim1 := n1; cells := [] : list (list A) |}.

(** [full[:, s:e] = chunk] (and [full[:, s:e, :] = chunk]), for a chunk
    that has the rows of [full] and [e - s] columns. *)
Definition assign_cols {A} (s e : nat) (chunk full : grid A) : grid A :=
  {| dim0 := dim0 full; dim1 := dim1 full;
     cells := zip_with (set_slice s e) (cells chunk) (cells full) |}.

(** The shape is the one of the data. *)
Definition grid_wf {A} (g : grid A) : Prop :=
  List.length (cells g) = dim0 g /\
  Forall (fun row => List.length row = dim1 g) (cells g).

Definition pol3_add (p q : pol3) : pol3 :=
  let '(p0, p1, p2) := p in
  let '(q0, q1, q2) := q in
  (Cadd p0 q0, Cadd p1 q1, Cadd p2 q2).

Definition pol3_cmul (c : C) (p : pol3) : pol3 :=
  let '(p0, p1, p2) := p in (Cmul c p0, Cmul c p1, Cmul c p2).

Definition pol3_div (p : pol3) (s : R) : pol3 :=
  let '(p0, p1, p2) := p in (Cdiv_real p0 s, Cdiv_real p1 s, Cdiv_real p2 s).

(** [np.sum(np.abs(cell)**2, axis=-1)] *)
Definition pol3_power (p : pol3) : R :=
  let '(p0, p1, p2) := p in (Cabs p0) ^ 2 + (Cabs p1) ^ 2 + (Cabs p2) ^ 2.

(** [np.mean(frames, axis=0)] of a (n_t, n_atoms, 3) array. *)
Definition mean_axis0 (frames : list (list vec3)) : list vec3 :=
  match frames with
  | [] => []
  | f :: _ =>
      map (fun v => vdiv v (INR (List.length frames)))
          (fold_left (zip_with vadd) frames (repeat vzero (List.length f)))
  end.

(** [np.linspace(start, stop, num)], endpoint included: the samples are
    [start + i * step] with [step = (stop - start) / (num - 1)], the last
    one being set to [stop]. *)
Definition linspace (start stop : R) (num : nat) : list R :=
  match num with
  | O => []
  | S O => [start]
  | S (S m as n1) =>
      map (fun i => start + INR i * ((stop - start) / INR n1)) (seq 0 n1)
      ++ [stop]
  end.

(** [np.linspace(start, stop, num, endpoint=False)] *)
Definition linspace_open (start stop : R) (num : nat) : list R :=
  map (fun i => start + INR i * ((stop - start) / INR num)) (seq 0 num).

(** [np.outer(mags, v)] *)
Definition outer (mags : list R) (v : vec3) : list vec3 :=
  map (fun m => vscale m v) mags.

(** [np.fft.fftfreq(n, d)]: the integers 0 .. (n-1)//2, -(n//2) .. -1,
    each times [1 / (n * d)]. *)
Definition fftfreq (n : nat) (d : R) : list R :=
  let N := ((n - 1) / 2 + 1)%nat in
  let results :=
    map Z.of_nat (seq 0 N) ++
    map (fun i => (Z.of_nat i - Z.of_nat (n / 2))%Z) (seq 0 (n - N)) in
  map (fun i => IZR i * (1 / (INR n * d))) results.

(** The factor exp(-2 pi i w t / n) of the discrete Fourier transform. *)
Definition twiddle (n w t : nat) : C :=
  Cexp_i (- (2 * PI * INR w * INR t / INR n)).

(** [np.fft.fft(x, axis=0)] of a (n, n1, 3) array: output row [w] is the
    sum over [t] of input row [t] times exp(-2 pi i w t / n). *)
Definition fft_axis0 (n1 : nat) (x : list (list pol3)) : list (list pol3) :=
  let n := List.length x in
  map (fun w =>
         fold_left (zip_with pol3_add)
           (map (fun tr => map (pol3_cmul (twiddle n w (fst tr))) (snd tr))
                (combine (seq 0 n) x))
           (repeat pol3_zero n1))
      (seq 0 n).

(** [np.isin(xs, ys)] *)
Definition np_isin (xs ys : list Z) : list bool :=
  map (fun x => existsb (Z.eqb x) ys) xs.

(** [np.where(mask)[0]]: the positions at which the mask holds. *)
Fixpoint where_from (start : nat) (mask : list bool) : list Z :=
  match mask with
  | [] => []
  | b :: mask' =>
      if b then Z.of_nat start :: where_from (S start) mask'
      else where_from (S start) mask'
  end.
Definition np_where (mask : list bool) : list Z := where_from 0 mask.

(** [np.arange(n)] *)
Definition arange (n : nat) : list Z := map Z.of_nat (seq 0 n).

(** Insertion into a strictly increasing list, dropping duplicates. *)
Fixpoint insert_unique (x : Z) (l : list Z) : list Z :=
  match l with
  | [] => [x]
  | y :: l' =>
      if (x <? y)%Z then x :: l
      else if (x =? y)%Z then l
      else y :: insert_unique x l'
  end.

(** [np.unique]: the sorted distinct elements. *)
Definition np_unique (l : list Z) : list Z := fold_right insert_unique [] l.

(** [np.argmin]: the first position of the least element; an empty array
    raises ValueError. *)
Fixpoint argmin_from (best_i : nat) (best : R) (i : nat) (l : list R) : nat :=
  match l with
  | [] => best_i
  | x :: l' =>
      if Rltb x best then argmin_from i x (S i) l'
      else argmin_from best_i best (S i) l'
  end.
Definition argmin (l : list R) : M nat :=
  match l with
  | [] => raise (ValueError "attempt to get argmin of an empty sequence")
  | x :: l' => ret (argmin_from 0 x 1 l')
  end.

(** [max] of a list of reals (Python's builtin; an empty list raises). *)
Definition list_max (x : R) (l : list R) : R := fold_left Rmax l x.

(** [arr[i]]; IndexError outside the array. *)
Definition index {A} (arr : list A) (i : nat) : M A :=
  match nth_error arr i with
  | Some a => ret a
  | None => raise IndexError
  end.

(* ================================================================== *)
(** * Direction specifications                                         *)
(* ================================================================== *)

(** The values a direction may be given as.  A string comes with the number
    Python's [float] reads in it, when it reads one. *)
Inductive direction_spec : Type :=
| DirNumber (x : R)                       (* int or float *)
| DirStr (s : string) (as_float : option R)
| DirSeq (l : list R)                     (* list, tuple or ndarray *)
| DirDict (d : list (string * R))
| DirOther.

Definition lower_ascii (c : ascii) : ascii :=
  let n := nat_of_ascii c in
  if ((65 <=? n) && (n <=? 90))%nat then ascii_of_nat (n + 32) else c.

(** [str.lower] *)
Fixpoint lower (s : string) : string :=
  match s with
  | EmptyString => EmptyString
  | String c s' => String (lower_ascii c) (lower s')
  end.

(** [d.get(key, default)] *)
Fixpoint dict_get (key : string) (d : list (string * R)) (default : R) : R :=
  match d with
  | [] => default
  | (k, v) :: d' => if String.eqb k key then v else dict_get key d' default
  end.

(** [key in d] *)
Definition dict_mem (key : string) (d : list (string * R)) : bool :=
  existsb (fun kv => String.eqb (fst kv) key) d.

Definition deg2rad (x : R) : R := x * (PI / 180).

(** The unit vector at [angle] degrees from the x axis, in the xy plane. *)
Definition angle_vec (angle : R) : vec3 :=
  let rad := deg2rad angle in (cos rad, sin rad, 0).

Module SDA.

(** [parse_direction] of SDA.py (lines 239-288). *)
Definition parse_direction (direction : direction_spec) : M vec3 :=
  vec <- match direction with
         | DirNumber x => ret (angle_vec x)
         | DirStr s (Some angle) => ret (angle_vec angle)
         | DirStr s None =>
             let key := lower s in
             if String.eqb key "x" then ret (1, 0, 0)
             else if String.eqb key "y" then ret (0, 1, 0)
             else if String.eqb key "z" then ret (0, 0, 1)
             else raise (ValueError "Unknown direction string")
         | DirSeq [angle] => ret (angle_vec angle)
         | DirSeq [x; y; z] => ret (x, y, z)
         | DirSeq _ =>
             raise (ValueError "Direction vector must have 1 or 3 components")
         | DirDict d =>
             if dict_mem "angle" d then ret (angle_vec (dict_get "angle" d 0))
             else ret (dict_get "h" d 0, dict_get "k" d 0, dict_get "l" d 0)
         | DirOther => raise (ValueError "Unsupported direction format")
         end ;;
  if Rltb (norm vec) 1e-10 then
    raise (ValueError "Direction vector cannot be zero")
  else ret vec.

(** Column [j] of a 3x3 matrix given by its rows: [m[:, j]]. *)
Definition column (m : vec3 * vec3 * vec3) (j : nat) : vec3 :=
  let '(r0, r1, r2) := m in (comp j r0, comp j r1, comp j r2).

(** The lattice vectors [SDCalculator.__init__] of SDA.py derives (lines
    299-314) from the cell matrix of the trajectory's box.  A cell of
    volume zero gives non-finite reciprocal vectors there, which are
    outside the model. *)
Record SDCalculator : Type := {
  sd_a1 : vec3; sd_a2 : vec3; sd_a3 : vec3;
  recip_vectors : vec3 * vec3 * vec3
}.

Definition SDCalculator_init (cell_mat : vec3 * vec3 * vec3) (nx ny nz : Z)
    : M SDCalculator :=
  if ((nx <=? 0) || (ny <=? 0) || (nz <=? 0))%Z then
    raise (ValueError "System size dimensions must be positive integers")
  else
    let a1 := vdiv (column cell_mat 0) (IZR nx) in
    let a2 := vdiv (column cell_mat 1) (IZR ny) in
    let a3 := vdiv (column cell_mat 2) (IZR nz) in
    let volume := dot a1 (cross a2 a3) in
    let b1 := vdiv (vscale (2 * PI) (cross a2 a3)) volume in
    let b2 := vdiv (vscale (2 * PI) (cross a3 a1)) volume in
    let b3 := vdiv (vscale (2 * PI) (cross a1 a2)) volume in
    ret {| sd_a1 := a1; sd_a2 := a2; sd_a3 := a3;
           recip_vectors := (b1, b2, b3) |}.

End SDA.

(** Modelled from the spec: psa.utils.helpers.parse_direction, which
    sed_calculator.py imports, is not under src/.  The specification
    (section 4.2) has the direction normalised to a unit vector and accepts
    an angle in degrees, a 3-component vector or a symbolic axis or
    Miller-index-like specification, a zero-length result being rejected
    (section 9).  The accepted shapes and the rejection are those of
    [parse_direction] in SDA.py; the division by the norm is the one
    SDCalculator.get_k_path applies to its result there. *)
Definition parse_direction (direction : direction_spec) : M vec3 :=
  vec <- SDA.parse_direction direction ;;
  ret (vdiv vec (norm vec)).

(* ================================================================== *)
(** * SEDCalculator.get_k_path (sed_calculator.py, lines 86-125)       *)
(* ================================================================== *)

Definition get_k_path (self : SEDCalculator) (direction_spec : direction_spec)
    (bz_coverage : R) (n_k : Z) (lat_param : option R)
    : M (list R * list vec3) :=
  k_dir_unit <- parse_direction direction_spec ;;
  recip_extent <-
    (if match lat_param with None => true | Some l => Rleb l 1e-6 end then
       let b_proj_x := dot k_dir_unit (b1 self) in
       let b_proj_y := dot k_dir_unit (b2 self) in
       let b_proj_z := dot k_dir_unit (b3 self) in
       let max_projection :=
         list_max (Rabs b_proj_x) [Rabs b_proj_y; Rabs b_proj_z] in
       if Rgtb max_projection 1e-6 then ret max_projection
       else
         let norm_a1 := norm (a1 self) in
         if Rgtb norm_a1 1e-6 then
           warn "Reciprocal projections too small, using |a1| fallback." ;;;
           ret (2 * PI / norm_a1)
         else
           raise (ValueError "Invalid/small lattice_param for k-path & reciprocal projections too small for auto-detection.")
     else
       ret (2 * PI / match lat_param with Some l => l | None => 0 end)) ;;
  let k_max_val := bz_coverage * recip_extent in
  if (n_k <? 1)%Z then raise (ValueError "n_k (k-points) must be >= 1.")
  else
    let k_mags :=
      if (1 <? n_k)%Z then linspace 0 k_max_val (Z.to_nat n_k)
      else [if isclose k_max_val 0 then 0 else k_max_val] in
    let k_vecs := outer k_mags k_dir_unit in
    ret (k_mags, k_vecs).

(* ================================================================== *)
(** * SEDCalculator.get_k_grid (sed_calculator.py, lines 127-180)      *)
(* ================================================================== *)

Definition get_k_grid (plane : string) (k_range_x k_range_y : R * R)
    (n_kx n_ky : Z) (k_fixed_val : R)
    : M (list R * list vec3 * (Z * Z)) :=
  if ((n_kx <=? 0) || (n_ky <=? 0))%Z then
    raise (ValueError "Number of k-points (n_kx, n_ky) must be positive.")
  else
    let kx_vals := linspace (fst k_range_x) (snd k_range_x) (Z.to_nat n_kx) in
    let ky_vals := linspace (fst k_range_y) (snd k_range_y) (Z.to_nat n_ky) in
    k_vectors_list <-
      (if String.eqb (lower plane) "xy" then
         ret (flat_map (fun kx => map (fun ky => (kx, ky, k_fixed_val)) ky_vals)
                       kx_vals)
       else if String.eqb (lower plane) "yz" then
         ret (flat_map (fun ky => map (fun kz => (k_fixed_val, ky, kz)) ky_vals)
                       kx_vals)
       else if String.eqb (lower plane) "zx" then
         ret (flat_map (fun kz => map (fun kx => (kx, k_fixed_val, kz)) ky_vals)
                       kx_vals)
       else raise (ValueError "Invalid plane specified. Must be 'xy', 'yz', or 'zx'.")) ;;
    let k_grid_shape := (n_kx, n_ky) in
    let k_mags_for_grid : list R := [] in
    ret (k_mags_for_grid, k_vectors_list, k_grid_shape).

(* ================================================================== *)
(** * The SED result entity                                            *)
(* ================================================================== *)

(** The amplitude array: complex with a polarisation axis, shape
    (n_freq, n_k, 3), or real and polarisation-summed, shape (n_freq, n_k). *)
Inductive sed_array : Type :=
| ComplexArr (g : grid pol3)
| RealArr (g : grid R).

(** Modelled from the spec: psa.core.sed.SED is not under src/.  The
    result entity of section 3 of the specification, as a plain record of
    the arguments [calculate] passes to its constructor. *)
Record SED : Type := {
  sed : sed_array;
  freqs : list R;
  k_points : list R;
  k_vectors : list vec3;
  k_grid_shape : option (Z * Z);
  is_complex : bool;
  phase : option (grid R)
}.

(** Length of the first (frequency) and of the second (k) axis. *)
Definition sed_dim0 (a : sed_array) : nat :=
  match a with ComplexArr g => dim0 g | RealArr g => dim0 g end.
Definition sed_dim1 (a : sed_array) : nat :=
  match a with ComplexArr g => dim1 g | RealArr g => dim1 g end.

(* ================================================================== *)
(** * SEDCalculator._calculate_sed_for_group (lines 58-84)             *)
(* ================================================================== *)

(** [np.exp(1j * np.dot(k_vectors_3d, mean_pos_group.T))], shape
    (n_k, n_atoms of the group). *)
Definition phase_factors_exp (k_vectors_3d mean_pos_group : list vec3)
    : list (list C) :=
  map (fun k => map (fun r => Cexp_i (dot k r)) mean_pos_group) k_vectors_3d.

(** One entry of [np.einsum('ta,ak->tk', data[:, :, pol], phase.T)]: the sum
    over the atoms of the frame of the datum along [pol] times the phase
    factor of the atom. *)
Definition einsum_entry (pol : nat) (frame : list vec3) (phase_k : list C) : C :=
  Csum (zip_with (fun v ph => Cscale (comp pol v) ph) frame phase_k).

Definition _calculate_sed_for_group (self : SEDCalculator)
    (k_vectors_3d : list vec3) (group_atom_indices : list Z)
    (mean_pos_all : list vec3) : grid pol3 :=
  let n_t := n_frames (traj self) in
  if (List.length group_atom_indices =? 0)%nat then
    zeros pol3_zero n_t (List.length k_vectors_3d)
  else
    let mean_pos_group := take vzero mean_pos_all group_atom_indices in
    let data_ft_group :=
      if use_displacements self then
        map (fun frame =>
               zip_with vsub (take vzero frame group_atom_indices) mean_pos_group)
            (positions (traj self))
      else
        map (fun frame => take vzero frame group_atom_indices)
            (velocities (traj self)) in
    let n_k_vecs := List.length k_vectors_3d in
    let phase := phase_factors_exp k_vectors_3d mean_pos_group in
    let sed_tk_pol_group :=
      map (fun frame =>
             map (fun phase_k => (einsum_entry 0 frame phase_k,
                                  einsum_entry 1 frame phase_k,
                                  einsum_entry 2 frame phase_k)) phase)
          data_ft_group in
    if (0 <? n_t)%nat then
      {| dim0 := n_t; dim1 := n_k_vecs;
         cells := map (map (fun p => pol3_div p (INR n_t)))
                      (fft_axis0 n_k_vecs sed_tk_pol_group) |}
    else empty_grid n_k_vecs.

(* ================================================================== *)
(** * SEDCalculator.calculate (lines 182-336)                          *)
(* ================================================================== *)

(** An item of a Python list given as a basis: an int, a list of ints, or
    something else. *)
Inductive py_item : Type :=
| PyInt (z : Z)
| PyList (l : list Z)
| PyOther.

(** A basis argument that is not None: a Python list, an int, a NumPy
    array of integers (its number of axes and its elements), or a value of
    another type. *)
Inductive basis_arg : Type :=
| BList (items : list py_item)
| BInt (z : Z)
| BArray (ndim : nat) (data : list Z)
| BOther.

Definition is_list (item : py_item) : bool :=
  match item with PyList _ => true | _ => false end.
Definition is_int (item : py_item) : bool :=
  match item with PyInt _ => true | _ => false end.
Definition as_list (item : py_item) : list Z :=
  match item with PyList l => l | _ => [] end.
Definition as_int (item : py_item) : Z :=
  match item with PyInt z => z | _ => 0%Z end.

(** The values of a NumPy [int], which is an int64. *)
Definition is_int64 (z : Z) : bool :=
  ((-9223372036854775808 <=? z) && (z <=? 9223372036854775807))%Z.

(** [np.asarray(l, dtype=int)] of a list of Python ints: an int outside
    int64 ends the conversion in OverflowError. *)
Definition asarray_int (l : list Z) : M (list Z) :=
  if forallb is_int64 l then ret l
  else raise (OverflowError "Python int too large to convert to C long").

(** [for x in l: s = body(x, s)] *)
Fixpoint for_each {A S} (l : list A) (body : A -> S -> M S) (s : S) : M S :=
  match l with
  | [] => ret s
  | a :: l' => s' <- body a s ;; for_each l' body s'
  end.

(** Lines 215-227. *)
Definition processed_basis_atom_types (basis_atom_types : basis_arg)
    (summation_mode : string) : M (list (list Z)) :=
  match basis_atom_types with
  | BList items =>
      if (0 <? List.length items)%nat then
        if forallb is_list items then ret (map as_list items)
        else if forallb is_int items then
          if String.eqb summation_mode "incoherent" then
            ret (map (fun t => [as_int t]) items)
          else ret [map as_int items]
        else raise (ValueError "basis_atom_types must be a list of ints or a list of lists of ints.")
      else ret []
  | BInt t => ret [[t]]
  | _ => ret []
  end.

(** Lines 229-234. *)
Definition type_groups (types : list Z) (processed : list (list Z))
    (atom_groups : list (list Z)) : M (list (list Z)) :=
  for_each processed
    (fun type_group atom_groups =>
       let indices := np_where (np_isin types type_group) in
       if (0 <? List.length indices)%nat then ret (atom_groups ++ [indices])
       else warn "No atoms found for type group. Skipping." ;;; ret atom_groups)
    atom_groups.

(** Lines 237-254.  The lists are converted one after the other, all of
    them before any bounds check of lines 256-260; the elements of an array
    are of a signed integer type, which [astype(int)] leaves as they are. *)
Definition processed_basis_atom_indices (basis_atom_indices : basis_arg)
    : M (list (list Z)) :=
  match basis_atom_indices with
  | BList items =>
      if (List.length items =? 0)%nat then ret []
      else if forallb is_list items then
        for_each (map as_list items)
          (fun sublist processed =>
             arr <- asarray_int sublist ;;
             if (0 <? List.length arr)%nat then ret (processed ++ [arr])
             else ret processed)
          []
      else if forallb is_int items then
        arr <- asarray_int (map as_int items) ;;
        if (0 <? List.length arr)%nat then ret [arr] else ret []
      else raise (ValueError "basis_atom_indices must be a list of ints or a list of lists of ints.")
  | BArray ndim data =>
      if ((ndim =? 1) && (0 <? List.length data))%nat then ret [data]
      else
        warn "Unsupported np.ndarray format for basis_atom_indices. Using all atoms if no other basis defined." ;;;
        ret []
  | _ => ret []
  end.

(** Lines 256-260. *)
Definition index_groups (n_atoms_tot : nat) (processed : list (list Z))
    (atom_groups : list (list Z)) : M (list (list Z)) :=
  for_each processed
    (fun grp_idx atom_groups =>
       if existsb (fun i => (Z.of_nat n_atoms_tot <=? i)%Z) grp_idx
          || existsb (fun i => (i <? 0)%Z) grp_idx then
         raise (ValueError "Atom indices in basis out of bounds.")
       else if (0 <? List.length grp_idx)%nat then ret (atom_groups ++ [grp_idx])
       else ret atom_groups)
    atom_groups.

(** Lines 208-266: the atom groups of a call. *)
Definition determine_atom_groups (self : SEDCalculator)
    (basis_atom_indices basis_atom_types : option basis_arg)
    (summation_mode : string) : M (list (list Z)) :=
  let n_atoms_tot := n_atoms (traj self) in
  atom_groups <-
    match basis_atom_types with
    | Some bt =>
        match basis_atom_indices with
        | Some _ =>
            warn "Both basis_atom_types and basis_atom_indices provided. Using basis_atom_types."
        | None => ret tt
        end ;;;
        processed <- processed_basis_atom_types bt summation_mode ;;
        type_groups (types (traj self)) processed []
    | None =>
        match basis_atom_indices with
        | Some bi =>
            processed <- processed_basis_atom_indices bi ;;
            index_groups n_atoms_tot processed []
        | None => ret []
        end
    end ;;
  if (List.length atom_groups =? 0)%nat then
    ret (atom_groups ++ [arange n_atoms_tot])
  else ret atom_groups.

(** Lines 297-302: the atoms of a coherent sum. *)
Definition final_group_indices (atom_groups : list (list Z)) : list Z :=
  if (1 <? List.length atom_groups)%nat then np_unique (List.concat atom_groups)
  else match atom_groups with
       | [g] => g
       | _ => []
       end.

(** Lines 288-311: one k-chunk, coherent summation. *)
Definition coherent_chunk (self : SEDCalculator) (k_vectors_3d : list vec3)
    (atom_groups : list (list Z)) (mean_pos_all : list vec3)
    (actual_k_chunk_size num_k_vectors : nat)
    (i_chunk : nat) (full_sed_data : grid pol3) : M (grid pol3) :=
  let start_idx := (i_chunk * actual_k_chunk_size)%nat in
  let end_idx := Nat.min ((i_chunk + 1) * actual_k_chunk_size) num_k_vectors in
  let current_k_vectors_chunk := slice start_idx end_idx k_vectors_3d in
  if (List.length current_k_vectors_chunk =? 0)%nat then ret full_sed_data
  else
    let final_group_indices := final_group_indices atom_groups in
    if (List.length final_group_indices =? 0)%nat then
      warn "Final atom group for SED k-chunk is empty. SED chunk will be zero." ;;;
      ret full_sed_data
    else
      let sed_chunk_data :=
        _calculate_sed_for_group self current_k_vectors_chunk
                                 final_group_indices mean_pos_all in
      ret (assign_cols start_idx end_idx sed_chunk_data full_sed_data).

(** [acc += np.sum(np.abs(g)**2, axis=-1)] *)
Definition add_power (acc : grid R) (g : grid pol3) : grid R :=
  {| dim0 := dim0 acc; dim1 := dim1 acc;
     cells := zip_with (zip_with (fun a p => a + pol3_power p))
                       (cells acc) (cells g) |}.

(** Lines 316-325: the intensities of the groups, summed, for the
    k-vectors of one chunk. *)
Definition summed_intensity (self : SEDCalculator) (atom_groups : list (list Z))
    (mean_pos_all : list vec3) (n_freqs : nat)
    (current_k_vectors_chunk : list vec3) : grid R :=
  fold_left
    (fun summed grp_indices =>
       if (List.length grp_indices =? 0)%nat then summed
       else
         add_power summed
           (_calculate_sed_for_group self current_k_vectors_chunk
                                     grp_indices mean_pos_all))
    atom_groups
    (zeros 0 n_freqs (List.length current_k_vectors_chunk)).

(** Lines 288-327: one k-chunk, incoherent summation. *)
Definition incoherent_chunk (self : SEDCalculator) (k_vectors_3d : list vec3)
    (atom_groups : list (list Z)) (mean_pos_all : list vec3) (n_freqs : nat)
    (actual_k_chunk_size num_k_vectors : nat)
    (i_chunk : nat) (full_sed_data : grid R) : M (grid R) :=
  let start_idx := (i_chunk * actual_k_chunk_size)%nat in
  let end_idx := Nat.min ((i_chunk + 1) * actual_k_chunk_size) num_k_vectors in
  let current_k_vectors_chunk := slice start_idx end_idx k_vectors_3d in
  if (List.length current_k_vectors_chunk =? 0)%nat then ret full_sed_data
  else
    let summed_intensity_chunk :=
      summed_intensity self atom_groups mean_pos_all n_freqs
                       current_k_vectors_chunk in
    ret (assign_cols start_idx end_idx summed_intensity_chunk full_sed_data).

Definition calculate (self : SEDCalculator)
    (k_points_mags : list R) (k_vectors_3d : list vec3)
    (basis_atom_indices basis_atom_types : option basis_arg)
    (summation_mode : string) (k_grid_shape : option (Z * Z))
    (k_chunk_size : Z) : M SED :=
  if negb (String.eqb summation_mode "coherent"
           || String.eqb summation_mode "incoherent") then
    raise (ValueError "summation_mode must be 'coherent' or 'incoherent'")
  else
    let n_t := n_frames (traj self) in
    let n_atoms_tot := n_atoms (traj self) in
    if ((n_t =? 0) || (n_atoms_tot =? 0))%nat then
      warn "Cannot calculate SED: 0 frames or 0 atoms." ;;;
      ret {| sed := ComplexArr (empty_grid 0);
             freqs := [];
             k_points := k_points_mags;
             k_vectors := k_vectors_3d;
             k_grid_shape := k_grid_shape;
             is_complex := true;
             phase := None |}
    else
      let mean_pos_all := mean_axis0 (positions (traj self)) in
      let freqs := if (0 <? n_t)%nat then fftfreq n_t (dt_ps self) else [] in
      atom_groups <- determine_atom_groups self basis_atom_indices
                       basis_atom_types summation_mode ;;
      let num_k_vectors := List.length k_vectors_3d in
      let actual_k_chunk_size :=
        if (0 <? num_k_vectors)%nat then
          Z.to_nat (Z.min (Z.max 1 k_chunk_size) (Z.of_nat num_k_vectors))
        else 1%nat in
      let num_chunks :=
        if (0 <? num_k_vectors)%nat then
          ((num_k_vectors + actual_k_chunk_size - 1) / actual_k_chunk_size)%nat
        else 0%nat in
      let is_complex_output :=
        String.eqb summation_mode "coherent"
        || (List.length atom_groups <=? 1)%nat in
      (if (num_k_vectors =? 0)%nat then
         warn "k_vectors_3d is empty. Returning SED object with empty SED data."
       else ret tt) ;;;
      full_sed_data <-
        (if is_complex_output then
           g <- for_each (seq 0 num_chunks)
                  (coherent_chunk self k_vectors_3d atom_groups mean_pos_all
                                  actual_k_chunk_size num_k_vectors)
                  (zeros pol3_zero (List.length freqs) num_k_vectors) ;;
           ret (ComplexArr g)
         else
           g <- for_each (seq 0 num_chunks)
                  (incoherent_chunk self k_vectors_3d atom_groups mean_pos_all
                                    (List.length freqs)
                                    actual_k_chunk_size num_k_vectors)
                  (zeros 0 (List.length freqs) num_k_vectors) ;;
           ret (RealArr g)) ;;
      ret {| sed := full_sed_data;
             freqs := freqs;
             k_points := k_points_mags;
             k_vectors := k_vectors_3d;
             k_grid_shape := k_grid_shape;
             is_complex := is_complex_output;
             phase := None |}.

(* ================================================================== *)
(** * SEDCalculator.calculate_chiral_phase (lines 338-371)             *)
(* ================================================================== *)

(** An array of any number of axes: its shape and its elements in
    row-major order. *)
Record ndarray (A : Type) : Type := {
  nd_shape : list nat;
  nd_data : list A
}.
Arguments nd_shape {A} n.
Arguments nd_data {A} n.
Arguments Build_ndarray {A} nd_shape nd_data.

(** [arr.size] *)
Definition nd_size {A} (arr : ndarray A) : nat :=
  fold_right Nat.mul 1%nat (nd_shape arr).

(** [np.arctan2(y, x)], with values in (-pi, pi]. *)
Definition arctan2 (y x : R) : R :=
  if Rltb 0 x then atan (y / x)
  else if Rltb x 0 then
    if Rleb 0 y then atan (y / x) + PI else atan (y / x) - PI
  else if Rltb 0 y then PI / 2
  else if Rltb y 0 then - (PI / 2)
  else 0.

(** [np.angle(z)] *)
Definition np_angle (z : C) : R := arctan2 (snd z) (fst z).

(** [x % m] on floats: the remainder has the sign of [m]. *)
Definition np_mod (x m : R) : R := x - IZR (Zfloor (x / m)) * m.

(** Line 347. *)
Definition wrap_phase (delta_p : R) : R := np_mod (delta_p + PI) (2 * PI) - PI.
(** Line 348, on one element. *)
Definition fold_q2 (delta_p : R) : R :=
  if Rgtb delta_p (PI / 2) then PI - delta_p else delta_p.
(** Line 349, on one element. *)
Definition fold_q3 (delta_p : R) : R :=
  if Rltb delta_p (- PI / 2) then - PI - delta_p else delta_p.

(** [np.clip(x, lo, hi)] *)
Definition clip (x lo hi : R) : R := Rmin (Rmax x lo) hi.

(** [for x in l: out.append(f(x))], in the call monad. *)
Fixpoint map_M {A B} (f : A -> M B) (l : list A) : M (list B) :=
  match l with
  | [] => ret []
  | a :: l' => b <- f a ;; bs <- map_M f l' ;; ret (b :: bs)
  end.

(** Lines 356-370: one cell of the modes other than "C". *)
Definition chiral_cell (angle_range_opt : string) (z1 z2 : C) : M R :=
  let '(v1r, v1i) := z1 in
  let '(v2r, v2i) := z2 in
  let m1sq := v1r ^ 2 + v1i ^ 2 in
  let m2sq := v2r ^ 2 + v2i ^ 2 in
  if Rltb m1sq 1e-18 || Rltb m2sq 1e-18 then ret 0
  else
    let m1 := sqrt m1sq in
    let m2 := sqrt m2sq in
    if String.eqb angle_range_opt "A" then
      ret (acos (clip ((v1r * v2r + v1i * v2i) / (m1 * m2)) (-1) 1))
    else if String.eqb angle_range_opt "B" then
      ret (asin (clip ((v1r * v2i - v1i * v2r) / (m1 * m2)) (-1) 1))
    else warn "Unknown angle_range_opt. Angle=0." ;;; ret 0.

Definition calculate_chiral_phase (Z1 Z2 : ndarray C)
    (angle_range_opt : string) : M (ndarray R) :=
  if negb (if list_eq_dec Nat.eq_dec (nd_shape Z1) (nd_shape Z2)
           then true else false) then
    raise (ValueError "Z1 and Z2 shapes must match for chiral phase.")
  else if (nd_size Z1 =? 0)%nat then
    ret {| nd_shape := nd_shape Z1; nd_data := [] |}
  else if String.eqb angle_range_opt "C" then
    let p1 := map np_angle (nd_data Z1) in
    let p2 := map np_angle (nd_data Z2) in
    let delta_p := zip_with Rminus p1 p2 in
    let delta_p := map wrap_phase delta_p in
    match nd_shape Z1 with
    | [] =>
        (* on arrays without an axis [np.angle] gives NumPy scalars, and
           the assignment [delta_p[...] = ...] of line 348 is refused *)
        raise (TypeError "numpy scalar object does not support item assignment")
    | _ :: _ =>
        let delta_p := map fold_q2 delta_p in
        let delta_p := map fold_q3 delta_p in
        ret {| nd_shape := nd_shape Z1; nd_data := delta_p |}
    end
  else
    match nd_shape Z1 with
    | [nw; nk] =>
        out_phase <- map_M (fun zz => chiral_cell angle_range_opt (fst zz) (snd zz))
                           (combine (nd_data Z1) (nd_data Z2)) ;;
        ret {| nd_shape := [nw; nk]; nd_data := out_phase |}
    | _ => raise (ValueError "wrong number of values to unpack")
    end.

(* ================================================================== *)
(** * SEDCalculator.ised (lines 373-538)                               *)
(* ================================================================== *)

(** [arr[i] = x]; nothing is stored outside the array. *)
Fixpoint upd {A} (i : nat) (x : A) (arr : list A) : list A :=
  match arr, i with
  | [], _ => []
  | _ :: arr', O => x :: arr'
  | a :: arr', S i' => a :: upd i' x arr'
  end.

(** [arr[idx] = vals] for an integer index array: where an index occurs
    more than once the last value stored remains. *)
Definition fancy_assign {A} (idx : list Z) (vals : list A) (arr : list A)
    : list A :=
  fold_left (fun acc iv => upd (Z.to_nat (fst iv)) (snd iv) acc)
            (combine idx vals) arr.

(** [v[pol] = x] *)
Definition set_comp (pol : nat) (v : vec3) (x : R) : vec3 :=
  let '(v0, v1, v2) := v in
  match pol with
  | O => (x, v1, v2)
  | S O => (v0, x, v2)
  | _ => (v0, v1, x)
  end.

(** [frame[idx, pol] += xs], on one frame of the wiggles:
    [frame[idx, pol] = frame[idx, pol] + xs]. *)
Definition add_at_pol (pol : nat) (idx : list Z) (xs : list R)
    (frame : list vec3) : list vec3 :=
  let old := take vzero frame idx in
  fancy_assign idx
    (zip_with (fun v x => set_comp pol v (comp pol v + x)) old xs) frame.

(** [frame[idx, :3] *= f], on one frame. *)
Definition scale_at (f : R) (idx : list Z) (frame : list vec3) : list vec3 :=
  fancy_assign idx (map (vscale f) (take vzero frame idx)) frame.

(** [frame[idx, :3] /= f], on one frame. *)
Definition div_at (f : R) (idx : list Z) (frame : list vec3) : list vec3 :=
  fancy_assign idx (map (fun v => vdiv v f) (take vzero frame idx)) frame.

(** A basis of [ised]: a list of ints or a list of lists of ints. *)
Inductive ised_basis : Type :=
| FlatList (l : list Z)
| GroupList (l : list (list Z)).

(** [b and len(b) > 0] *)
Definition basis_given (b : option ised_basis) : bool :=
  match b with
  | Some (FlatList (_ :: _)) | Some (GroupList (_ :: _)) => true
  | _ => false
  end.

(** The rescale factor: a string, a number, or something else. *)
Inductive rescale_arg : Type :=
| RescaleStr (s : string)
| RescaleNum (x : R)
| RescaleOther.

Definition is_auto (rescale_factor : rescale_arg) : bool :=
  match rescale_factor with
  | RescaleStr s => String.eqb (lower s) "auto"
  | _ => false
  end.

(** Lines 389-429: the groups to reconstruct. *)
Definition recon_groups (n_atoms_total : nat) (sys_atom_types : list Z)
    (basis_atom_idx_ised basis_atom_types_ised : option ised_basis)
    : M (list (list Z)) :=
  let out_of_bounds (grp_arr : list Z) :=
    existsb (fun i => (Z.of_nat n_atoms_total <=? i)%Z) grp_arr
    || existsb (fun i => (i <? 0)%Z) grp_arr in
  if basis_given basis_atom_idx_ised then
    groups <-
      match basis_atom_idx_ised with
      | Some (GroupList l) =>
          for_each l
            (fun grp_idx groups =>
               grp_arr <- asarray_int grp_idx ;;
               if out_of_bounds grp_arr then
                 raise (ValueError "Atom indices in group out of bounds.")
               else if (0 <? List.length grp_arr)%nat then ret (groups ++ [grp_arr])
               else ret groups)
            []
      | Some (FlatList basis_atom_idx) =>
          grp_arr <- asarray_int basis_atom_idx ;;
          if out_of_bounds grp_arr then
            raise (ValueError "Atom indices out of bounds.")
          else if (0 <? List.length grp_arr)%nat then ret [grp_arr]
          else ret []
      | None => ret []
      end ;;
    (if basis_given basis_atom_types_ised then
       warn "iSED: atom_indices and atom_types provided. Using atom_indices."
     else ret tt) ;;;
    ret groups
  else if basis_given basis_atom_types_ised then
    let by_types (msg : string) (tgs : list (list Z)) :=
      for_each tgs
        (fun type_grp groups =>
           let grp_idx := np_where (np_isin sys_atom_types type_grp) in
           if (0 <? List.length grp_idx)%nat then ret (groups ++ [grp_idx])
           else warn msg ;;; ret groups)
        [] in
    match basis_atom_types_ised with
    | Some (GroupList l) => by_types "No atoms for type group in iSED." l
    | Some (FlatList l) =>
        by_types "No atoms for type in iSED."
                 (map (fun atom_type_val => [atom_type_val]) l)
    | None => ret []
    end
  else ret [arange n_atoms_total].

(** [np.amax] of the absolute values of the components of a
    (frames, atoms, 3) array; an empty array raises. *)
Definition amax_abs (arr : list (list vec3)) : M R :=
  match flat_map (fun v => [Rabs (comp 0 v); Rabs (comp 1 v); Rabs (comp 2 v)])
                 (List.concat arr) with
  | [] => raise (ValueError "zero-size array to reduction operation maximum which has no identity")
  | x :: l => ret (list_max x l)
  end.

(** [np.std] of all the components of a (frames, atoms, 3) array. *)
Definition np_std (arr : list (list vec3)) : R :=
  let xs := flat_map (fun v => [comp 0 v; comp 1 v; comp 2 v])
                     (List.concat arr) in
  let n := INR (List.length xs) in
  let mean := fold_left Rplus xs 0 / n in
  sqrt (fold_left Rplus (map (fun x => (Rabs (x - mean)) ^ 2) xs) 0 / n).

(** What the loop over the groups carries from one group to the next. *)
Record ised_state : Type := {
  wiggles : list (list vec3);
  recon_done : bool;
  max_wiggle_amp_all : R;
  std_dev_sum : R;
  n_atoms_recon_sum : nat
}.

(** Lines 451-508: one group of the reconstruction.  The spectrum kept for
    the optional plot is not part of the model. *)
Definition ised_group (self : SEDCalculator) (k_mags_ised : list R)
    (k_vecs_ised : list vec3) (avg_pos : list vec3) (pos_proj_k_dir : list R)
    (time_p : list R) (k_match_idx : nat) (k_actual : R) (w_target : R)
    (rescale_factor : rescale_arg)
    (grp_atom_idx : list Z) (st : ised_state) : M ised_state :=
  if (List.length grp_atom_idx =? 0)%nat then ret st
  else
    sed_object_group <- calculate self k_mags_ised k_vecs_ised
                          (Some (BArray 1 grp_atom_idx)) None "coherent"
                          None 500 ;;
    let freqs_group := freqs sed_object_group in
    w_match_idx <- argmin (map (fun f => Rabs (f - w_target)) freqs_group) ;;
    wig <- for_each [0; 1; 2]%nat
             (fun pol_ax wig =>
                complex_amp_grp <-
                  match sed sed_object_group with
                  | ComplexArr g =>
                      row <- index (cells g) w_match_idx ;;
                      cell <- index row k_match_idx ;;
                      ret (let '(c0, c1, c2) := cell in
                           match pol_ax with O => c0 | S O => c1 | _ => c2 end)
                  | RealArr _ => raise IndexError
                  end ;;
                let proj_pos_grp := take 0 pos_proj_k_dir grp_atom_idx in
                let recon_motion_comp :=
                  map (fun t =>
                         map (fun p => fst (Cmul complex_amp_grp
                                              (Cexp_i (t - k_actual * p))))
                             proj_pos_grp)
                      time_p in
                ret (zip_with (add_at_pol pol_ax grp_atom_idx)
                              recon_motion_comp wig))
             (wiggles st) ;;
    if is_auto rescale_factor then
      max_amp_grp <- amax_abs (map (fun frame => take vzero frame grp_atom_idx) wig) ;;
      let orig_disp_grp :=
        map (fun frame => zip_with vsub (take vzero frame grp_atom_idx)
                                        (take vzero avg_pos grp_atom_idx))
            (positions (traj self)) in
      ret {| wiggles := wig; recon_done := true;
             max_wiggle_amp_all := Rmax (max_wiggle_amp_all st) max_amp_grp;
             std_dev_sum := std_dev_sum st
                            + np_std orig_disp_grp * INR (List.length grp_atom_idx);
             n_atoms_recon_sum := (n_atoms_recon_sum st
                                   + List.length grp_atom_idx)%nat |}
    else
      ret {| wiggles := wig; recon_done := true;
             max_wiggle_amp_all := max_wiggle_amp_all st;
             std_dev_sum := std_dev_sum st;
             n_atoms_recon_sum := n_atoms_recon_sum st |}.

(** Lines 515-531: the rescaling of the reconstructed field. *)
Definition ised_rescale (rescale_factor : rescale_arg)
    (all_recon_idx : list Z) (st : ised_state) : M (list (list vec3)) :=
  if (0 <? List.length all_recon_idx)%nat then
    if is_auto rescale_factor then
      if Rgtb (max_wiggle_amp_all st) 1e-9 then
        let w1 := map (div_at (max_wiggle_amp_all st) all_recon_idx) (wiggles st) in
        let avg_std_dev_disp :=
          if (0 <? n_atoms_recon_sum st)%nat
          then std_dev_sum st / INR (n_atoms_recon_sum st) else 0 in
        if Rgtb avg_std_dev_disp 1e-9 then
          ret (map (scale_at avg_std_dev_disp all_recon_idx) w1)
        else ret w1
      else
        warn "iSED: Max wiggle amp near zero. Auto-rescaling ineffective." ;;;
        ret (wiggles st)
    else
      match rescale_factor with
      | RescaleNum f => ret (map (scale_at f all_recon_idx) (wiggles st))
      | _ => ret (wiggles st)
      end
  else
    warn "iSED: No atoms reconstructed, skipping rescaling." ;;;
    ret (wiggles st).

(** Lines 383-515: the reconstruction, up to the rescaling: the state the
    loop over the groups ends in with the indices of the reconstructed
    atoms, or [None] when the reconstruction is given up (lines 431-433
    and 510-512). *)
Definition ised_reconstruct (self : SEDCalculator)
    (k_dir_spec : direction_spec) (k_target w_target char_len_k_path : R)
    (nk_on_path : Z) (bz_cov_ised : R)
    (basis_atom_idx_ised basis_atom_types_ised : option ised_basis)
    (rescale_factor : rescale_arg) (n_recon_frames : Z)
    : M (option (ised_state * list Z)) :=
  let avg_pos := mean_axis0 (positions (traj self)) in
  let sys_atom_types := types (traj self) in
  let n_atoms_total := n_atoms (traj self) in
  k_dir_unit <- parse_direction k_dir_spec ;;
  recon_atom_groups <- recon_groups n_atoms_total sys_atom_types
                         basis_atom_idx_ised basis_atom_types_ised ;;
  if (List.length recon_atom_groups =? 0)%nat then
    log_error "iSED: No atom groups for reconstruction. Aborting." ;;;
    ret None
  else
    kk <- get_k_path self
            (let '(x, y, z) := k_dir_unit in DirSeq [x; y; z])
            bz_cov_ised nk_on_path (Some char_len_k_path) ;;
    let '(k_mags_ised, k_vecs_ised) := kk in
    if (n_recon_frames <? 0)%Z then
      raise (ValueError "negative dimensions are not allowed")
    else
      let wiggles0 :=
        repeat (repeat vzero n_atoms_total) (Z.to_nat n_recon_frames) in
      let time_p := linspace_open 0 (2 * PI) (Z.to_nat n_recon_frames) in
      let pos_proj_k_dir := map (fun r => dot r k_dir_unit) avg_pos in
      k_match_idx <- argmin (map (fun k => Rabs (k - k_target)) k_mags_ised) ;;
      k_actual <- index k_mags_ised k_match_idx ;;
      st <- for_each recon_atom_groups
              (ised_group self k_mags_ised k_vecs_ised avg_pos pos_proj_k_dir
                          time_p k_match_idx k_actual w_target rescale_factor)
              {| wiggles := wiggles0; recon_done := false;
                 max_wiggle_amp_all := 0; std_dev_sum := 0;
                 n_atoms_recon_sum := 0 |} ;;
      if negb (recon_done st) then
        log_error "iSED: No reconstruction performed (empty atom groups?)." ;;;
        ret None
      else
        (if (Z.to_nat n_recon_frames =? 0)%nat then raise IndexError
         else ret tt) ;;;
        let all_recon_idx :=
          if existsb (fun g => (0 <? List.length g)%nat) recon_atom_groups
          then np_unique (List.concat recon_atom_groups) else [] in
        ret (Some (st, all_recon_idx)).

(** The reconstructed displacement field of [ised], [wiggles[:, :, :3]] as
    it stands when the positions to dump are formed (line 533); [None]
    when the reconstruction is given up. *)
Definition ised_displacements (self : SEDCalculator)
    (k_dir_spec : direction_spec) (k_target w_target char_len_k_path : R)
    (nk_on_path : Z) (bz_cov_ised : R)
    (basis_atom_idx_ised basis_atom_types_ised : option ised_basis)
    (rescale_factor : rescale_arg) (n_recon_frames : Z)
    : M (option (list (list vec3))) :=
  r <- ised_reconstruct self k_dir_spec k_target w_target char_len_k_path
         nk_on_path bz_cov_ised basis_atom_idx_ised basis_atom_types_ised
         rescale_factor n_recon_frames ;;
  match r with
  | None => ret None
  | Some (st, all_recon_idx) =>
      w <- ised_rescale rescale_factor all_recon_idx st ;;
      ret (Some w)
  end.

(** Modelled from the spec: psa.io.writer.out_to_qdump is not under src/.
    What [ised] hands to the dump-writer collaborator of section 6 of the
    specification: the positions of every synthetic frame, the atom types
    and the box matrix. *)
Record qdump : Type := {
  final_pos_dump : list (list vec3);
  atom_types_dump : list Z;
  dump_box : vec3 * vec3 * vec3
}.

(** An integer stored in a [float32] array and read back with
    [astype(int)], as the atom types are at lines 514 and 534: the integer
    rounded to 24 significant bits, to the nearest and on a tie to the even
    significand.  Up to 2^24 in absolute value nothing changes.  (From
    2^63 - 2^38 on the rounded value is 2^63, which does not fit an int64
    and which [astype] turns into a platform-dependent value: outside the
    model.) *)
Definition float32_of_int (n : Z) : Z :=
  let a := Z.abs n in
  let e := (Z.log2 a - 23)%Z in
  if (e <=? 0)%Z then n
  else
    let q := Z.shiftr a e in
    let r := Z.land a (Z.ones e) in
    let half := Z.shiftl 1 (e - 1) in
    let q' := if (r <? half)%Z then q
              else if (half <? r)%Z then (q + 1)%Z
              else if Z.even q then q else (q + 1)%Z in
    (Z.sgn n * Z.shiftl q' e)%Z.

(** [ised], without the optional plot: the dump written, if any. *)
Definition ised (self : SEDCalculator)
    (k_dir_spec : direction_spec) (k_target w_target char_len_k_path : R)
    (nk_on_path : Z) (bz_cov_ised : R)
    (basis_atom_idx_ised basis_atom_types_ised : option ised_basis)
    (rescale_factor : rescale_arg) (n_recon_frames : Z) : M (option qdump) :=
  w <- ised_displacements self k_dir_spec k_target w_target char_len_k_path
         nk_on_path bz_cov_ised basis_atom_idx_ised basis_atom_types_ised
         rescale_factor n_recon_frames ;;
  match w with
  | None => ret None
  | Some wig =>
      let avg_pos := mean_axis0 (positions (traj self)) in
      ret (Some {| final_pos_dump := map (fun frame => zip_with vadd avg_pos frame) wig;
                   atom_types_dump := map float32_of_int (types (traj self));
                   dump_box := box_matrix (traj self) |})
  end.

(* ================================================================== *)
(** * Processing all k-vectors in one batch                            *)
(* ================================================================== *)

(** The output array when [T] is applied once, to all the k-vectors, and
    its result stored in the zero-initialised array. *)
Definition one_batch {A} (T : list vec3 -> grid A) (z : A) (n_freqs : nat)
    (k_vectors_3d : list vec3) : grid A :=
  let num_k_vectors := List.length k_vectors_3d in
  if (num_k_vectors =? 0)%nat then zeros z n_freqs num_k_vectors
  else assign_cols 0 num_k_vectors (T k_vectors_3d)
                   (zeros z n_freqs num_k_vectors).

(** [calculate] as the specification describes its result: the same
    validation, frequency axis and atom groups, the k-axis processed in a
    single batch. *)
Definition calculate_one_batch (self : SEDCalculator)
    (k_points_mags : list R) (k_vectors_3d : list vec3)
    (basis_atom_indices basis_atom_types : option basis_arg)
    (summation_mode : string) (k_grid_shape : option (Z * Z)) : M SED :=
  if negb (String.eqb summation_mode "coherent"
           || String.eqb summation_mode "incoherent") then
    raise (ValueError "summation_mode must be 'coherent' or 'incoherent'")
  else
    let n_t := n_frames (traj self) in
    let n_atoms_tot := n_atoms (traj self) in
    if ((n_t =? 0) || (n_atoms_tot =? 0))%nat then
      warn "Cannot calculate SED: 0 frames or 0 atoms." ;;;
      ret {| sed := ComplexArr (empty_grid 0);
             freqs := [];
             k_points := k_points_mags;
             k_vectors := k_vectors_3d;
             k_grid_shape := k_grid_shape;
             is_complex := true;
             phase := None |}
    else
      let mean_pos_all := mean_axis0 (positions (traj self)) in
      let freqs := if (0 <? n_t)%nat then fftfreq n_t (dt_ps self) else [] in
      atom_groups <- determine_atom_groups self basis_atom_indices
                       basis_atom_types summation_mode ;;
      let is_complex_output :=
        String.eqb summation_mode "coherent"
        || (List.length atom_groups <=? 1)%nat in
      let full_sed_data :=
        if is_complex_output then
          let final := final_group_indices atom_groups in
          ComplexArr
            (if (List.length final =? 0)%nat then
               zeros pol3_zero (List.length freqs) (List.length k_vectors_3d)
             else
               one_batch (fun ks => _calculate_sed_for_group self ks final
                                                             mean_pos_all)
                         pol3_zero (List.length freqs) k_vectors_3d)
        else
          RealArr
            (one_batch (summed_intensity self atom_groups mean_pos_all
                                         (List.length freqs))
                       0 (List.length freqs) k_vectors_3d) in
      ret {| sed := full_sed_data;
             freqs := freqs;
             k_points := k_points_mags;
             k_vectors := k_vectors_3d;
             k_grid_shape := k_grid_shape;
             is_complex := is_complex_output;
             phase := None |}.

(* ================================================================== *)
(** * Total power of a result                                          *)
(* ================================================================== *)

(** The power at every (frequency, k) index: the squared magnitude summed
    over the polarisation axis for a complex result, the stored intensity
    for a real one. *)
Definition total_power (a : sed_array) : list (list R) :=
  match a with
  | ComplexArr g => map (map pol3_power) (cells g)
  | RealArr g => cells g
  end.

(* ================================================================== *)
(** * Auxiliary definitions of the proofs                              *)
(* ================================================================== *)

(** The row that has the first [m] cells of [r] and the others of [z]. *)
Definition merge_row {A} (m : nat) (r z : list A) : list A :=
  firstn m r ++ skipn m z.

(** The effect of one turn of the k-chunk loop on the output array, for a
    loop whose chunk [i] is computed by [T] from the k-vectors of the chunk:
    the common shape of the coherent and of the incoherent branch. *)
Definition chunk_step {A} (T : list vec3 -> grid A) (ks : list vec3)
    (c : nat) (i : nat) (full : grid A) : grid A :=
  let s := (i * c)%nat in
  let e := Nat.min ((i + 1) * c) (List.length ks) in
  if (List.length (slice s e ks) =? 0)%nat then full
  else assign_cols s e (T (slice s e ks)) full.

(** The atoms whose type label is in [type_group] (line 230). *)
Definition atoms_of_types (types type_group : list Z) : list Z :=
  np_where (np_isin types type_group).

Definition nonempty {A} (l : list A) : bool := (0 <? List.length l)%nat.

(** A calculator over a trajectory of one frame and two atoms, of types 1
    and 2, in a cubic box of side 10. *)
Definition two_atom_traj : Trajectory :=
  {| positions := [[(0, 0, 0); (5, 5, 5)]];
     velocities := [[(1, 0, 0); (0, 1, 0)]];
     types := [1%Z; 2%Z];
     box_matrix := ((10, 0, 0), (0, 10, 0), (0, 0, 10));
     traj_dt_ps := Some 1 |}.

Definition two_atom_calc : SEDCalculator :=
  {| traj := two_atom_traj; use_displacements := false; dt_ps := 1;
     a1 := (10, 0, 0); a2 := (0, 10, 0); a3 := (0, 0, 10);
     b1 := (2 * PI / 10, 0, 0); b2 := (0, 2 * PI / 10, 0);
     b3 := (0, 0, 2 * PI / 10) |}.

(** A trajectory without frames, and a calculator over it. *)
Definition no_frame_traj : Trajectory :=
  {| positions := []; velocities := []; types := [1%Z; 2%Z];
     box_matrix := ((10, 0, 0), (0, 10, 0), (0, 0, 10));
     traj_dt_ps := Some 1 |}.

Definition no_frame_calc : SEDCalculator :=
  {| traj := no_frame_traj; use_displacements := false; dt_ps := 1;
     a1 := (10, 0, 0); a2 := (0, 10, 0); a3 := (0, 0, 10);
     b1 := (2 * PI / 10, 0, 0); b2 := (0, 2 * PI / 10, 0);
     b3 := (0, 0, 2 * PI / 10) |}.

(** The record of the conflict between the two basis arguments. *)
Definition both_basis_warning : log_record :=
  Warning "Both basis_atom_types and basis_atom_indices provided. Using basis_atom_types.".

(** The characteristic reciprocal extent [get_k_path] settles on (lines
    91-118), when it does. *)
Definition recip_extent_of (self : SEDCalculator) (k_dir_unit : vec3)
    (lat_param : option R) : option R :=
  if match lat_param with None => true | Some l => Rleb l 1e-6 end then
    let max_projection :=
      list_max (Rabs (dot k_dir_unit (b1 self)))
               [Rabs (dot k_dir_unit (b2 self)); Rabs (dot k_dir_unit (b3 self))] in
    if Rgtb max_projection 1e-6 then Some max_projection
    else if Rgtb (norm (a1 self)) 1e-6 then Some (2 * PI / norm (a1 self))
    else None
  else Some (2 * PI / match lat_param with Some l => l | None => 0 end).

(** The magnitudes of a k-path of [n_k >= 1] points up to [k_max_val]
    (line 123). *)
Definition k_mags_of (k_max_val : R) (n_k : Z) : list R :=
  if (1 <? n_k)%Z then linspace 0 k_max_val (Z.to_nat n_k)
  else [if isclose k_max_val 0 then 0 else k_max_val].

(** A list of reals in non-decreasing order. *)
Fixpoint non_decreasing (l : list R) : Prop :=
  match l with
  | [] => True
  | x :: l' =>
      match l' with
      | [] => True
      | y :: _ => x <= y /\ non_decreasing l'
      end
  end.

(** The unit vector the axis name "x" is parsed to. *)
Definition x_axis : vec3 := vdiv (1, 0, 0) (norm (1, 0, 0)).

(** The 1 x 1 arrays holding -i and 1. *)
Definition Z_minus_i : ndarray C := {| nd_shape := [1; 1]%nat; nd_data := [(0, -1)] |}.
Definition Z_one : ndarray C := {| nd_shape := [1; 1]%nat; nd_data := [(1, 0)] |}.

(** The frames in which every atom that no index of [S] names is at rest. *)
Definition zero_outside (S : list Z) (W : list (list vec3)) : Prop :=
  Forall (fun frame =>
            forall i, (forall j, In j S -> Z.to_nat j <> i) ->
                      nth i frame vzero = vzero) W.

(** Whether some index of [idx] names position [i]. *)
Definition names (idx : list Z) (i : nat) : bool :=
  existsb (fun j => (Z.to_nat j =? i)%nat) idx.

(** A trajectory whose box is the unit cube with its first two edges
    exchanged: a left-handed cell of volume one. *)
Definition left_handed_traj : Trajectory :=
  {| positions := []; velocities := []; types := [];
     box_matrix := ((0, 1, 0), (1, 0, 0), (0, 0, 1));
     traj_dt_ps := Some 1 |}.

(** The signed volume of the primitive cell of a calculator. *)
Definition cell_volume (self : SEDCalculator) : R :=
  dot (a1 self) (cross (a2 self) (a3 self)).

(** The velocities are given for the frames the positions are given for. *)
Definition traj_wf (traj : Trajectory) : Prop :=
  List.length (velocities traj) = List.length (positions traj).

(** The array of a result. *)
Definition sed_array_wf (a : sed_array) : Prop :=
  match a with ComplexArr g => grid_wf g | RealArr g => grid_wf g end.

(** The timestep a construction settles on (lines 26-35): the one given,
    else the one of the trajectory. *)
Definition resolved_dt (traj : Trajectory) (dt_ps : option R) : option R :=
  match dt_ps with
  | Some dt => Some dt
  | None => traj_dt_ps traj
  end.

(** The primitive vectors a construction derives from the box (lines
    40-41). *)
Definition prim_vectors (traj : Trajectory) (nx ny nz : Z)
    : vec3 * vec3 * vec3 :=
  let '(L1, L2, L3) := box_matrix traj in
  (vdiv L1 (IZR nx), vdiv L2 (IZR ny), vdiv L3 (IZR nz)).

(** Sample [i] of [np.linspace(start, stop, num)] in closed form. *)
Definition linspace_at (start stop : R) (num i : nat) : R :=
  match num with
  | S (S _) => start + INR i * ((stop - start) / INR (num - 1))
  | _ => start
  end.

(** The vector [get_k_grid] forms from a sample [u] of the first range,
    a sample [v] of the second and the fixed component (lines 159-170). *)
Definition grid_vector (plane : string) (u v k_fixed_val : R) : vec3 :=
  if String.eqb (lower plane) "xy" then (u, v, k_fixed_val)
  else if String.eqb (lower plane) "yz" then (k_fixed_val, u, v)
  else (v, k_fixed_val, u).

(** The amplitude array of a call of [calculate] whose atom groups are
    [atom_groups], on a trajectory with frames (lines 268-327), the
    k-vectors taken in one batch. *)
Definition result_array (self : SEDCalculator) (k_vectors_3d : list vec3)
    (summation_mode : string) (atom_groups : list (list Z)) : sed_array :=
  let n_freqs := List.length (fftfreq (n_frames (traj self)) (dt_ps self)) in
  let mean_pos_all := mean_axis0 (positions (traj self)) in
  if String.eqb summation_mode "coherent"
     || (List.length atom_groups <=? 1)%nat then
    let final := final_group_indices atom_groups in
    ComplexArr
      (if (List.length final =? 0)%nat then
         zeros pol3_zero n_freqs (List.length k_vectors_3d)
       else
         one_batch (fun ks => _calculate_sed_for_group self ks final mean_pos_all)
                   pol3_zero n_freqs k_vectors_3d)
  else
    RealArr (one_batch (summed_intensity self atom_groups mean_pos_all n_freqs)
                       0 n_freqs k_vectors_3d).

(** The entry at frequency index [w] and k index [k] of a two-axis array
    of reals. *)
Definition cell_at (rows : list (list R)) (w k : nat) : R :=
  nth k (nth w rows []) 0.

(** [s * Z] for a real scalar [s]. *)
Definition nd_scale (s : R) (arr : ndarray C) : ndarray C :=
  {| nd_shape := nd_shape arr; nd_data := map (Cscale s) (nd_data arr) |}.

(** A field of [m] frames of [na] atoms each. *)
Definition field_shape (m na : nat) (W : list (list vec3)) : Prop :=
  List.length W = m /\ Forall (fun frame => List.length frame = na) W.

(** [m.T] for a 3x3 matrix given by its rows. *)
Definition transpose (m : vec3 * vec3 * vec3) : vec3 * vec3 * vec3 :=
  (SDA.column m 0, SDA.column m 1, SDA.column m 2).

(** [-v] *)
Definition vneg (v : vec3) : vec3 := vscale (-1) v.

(* ================================================================== *)
(** * The rest of the legacy script SDA.py                             *)
(* ================================================================== *)

Module Legacy.

(** The trajectory of SDA.py (lines 64-88), without its box.  The arrays
    are taken with the shapes the dataclass documents: the positions and
    the velocities are (n_frames, n_atoms, 3) arrays, n_frames being the
    number of timesteps and n_atoms the number of type labels; arrays of
    other shapes, which NumPy broadcasts or rejects, are outside the
    model. *)
Record Trajectory : Type := {
  positions : list (list vec3);
  velocities : list (list vec3);
  types : list Z;
  timesteps : list R
}.

Definition n_frames (traj : Trajectory) : nat := List.length (timesteps traj).
Definition n_atoms (traj : Trajectory) : nat := List.length (types traj).

(** [SDCalculator.get_k_path] (lines 316-333).  A lattice parameter given
    as 0.0 ends the division by the Python float in ZeroDivisionError; a
    first primitive vector of length zero gives non-finite values there,
    which are outside the model. *)
Definition get_k_path (self : SDA.SDCalculator) (direction : direction_spec)
    (bz_coverage : R) (n_k : Z) (lattice_parameter : option R)
    : M (list R * list vec3) :=
  dir_vector <- SDA.parse_direction direction ;;
  let norm_v := norm dir_vector in
  let dir_vector := vdiv dir_vector norm_v in
  recip <- match lattice_parameter with
           | None => ret (2 * PI / norm (SDA.sd_a1 self))
           | Some l => if Reqb l 0 then raise ZeroDivisionError
                       else ret (2 * PI / l)
           end ;;
  let k_max := bz_coverage * recip in
  if (n_k <? 0)%Z then
    raise (ValueError "Number of samples must be non-negative.")
  else
    let k_points := linspace 0 k_max (Z.to_nat n_k) in
    let k_vectors := outer k_points dir_vector in
    ret (k_points, k_vectors).

(** [cell[alpha] = x] for a cell of the last axis. *)
Definition set_pol (alpha : nat) (cell : pol3) (x : C) : pol3 :=
  let '(c0, c1, c2) := cell in
  match alpha with
  | O => (x, c1, c2)
  | S O => (c0, x, c2)
  | _ => (c0, c1, x)
  end.

(** [sed[:, ik, alpha] = col], for [ik] within the second axis. *)
Definition assign_column (ik alpha : nat) (col : list C)
    (sed : list (list pol3)) : list (list pol3) :=
  zip_with (fun x row => upd ik (set_pol alpha (nth ik row pol3_zero) x) row)
           col sed.

(** [np.sum(data_array[..., alpha] * phase, axis=1)] *)
Definition projected_sum (alpha : nat) (data_array : list (list vec3))
    (phase : list C) : list C :=
  map (fun frame =>
         Csum (zip_with (fun v ph => Cscale (comp alpha v) ph) frame phase))
      data_array.

(** [SDCalculator.calculate_sd] (lines 335-355); the fields of [self] that
    the method reads are its first three arguments. *)
Definition calculate_sd (traj : Trajectory) (use_velocities : bool)
    (dt_ps : R) (k_points : list R) (k_vectors : list vec3)
    : M (list (list pol3) * list R) :=
  let n_t := n_frames traj in
  let mean_positions := mean_axis0 (positions traj) in
  let sed := repeat (repeat pol3_zero (List.length k_points)) n_t in
  let data_array :=
    if use_velocities then velocities traj
    else map (fun frame => zip_with vsub frame mean_positions)
             (positions traj) in
  sed <- for_each (combine (seq 0 (List.length k_vectors)) k_vectors)
           (fun ik_kvec sed =>
              let phase :=
                map (fun r => Cexp_i (dot r (snd ik_kvec))) mean_positions in
              for_each [0; 1; 2]%nat
                (fun alpha sed =>
                   if (fst ik_kvec <? List.length k_points)%nat then
                     ret (assign_column (fst ik_kvec) alpha
                            (projected_sum alpha data_array phase) sed)
                   else raise IndexError)
                sed)
           sed ;;
  let dt_s := dt_ps * 1e-12 in
  if (n_t =? 0)%nat then
    raise (ValueError "Invalid number of FFT data points (0) specified.")
  else
    let sed_w := fft_axis0 (List.length k_points) sed in
    if Reqb (INR n_t * dt_s) 0 then raise ZeroDivisionError
    else
      let freqs := map (fun f => f * 1e-12) (fftfreq n_t dt_s) in
      ret (sed_w, freqs).

(** [TimeDomainFilter.__init__] (lines 427-431). *)
Record TimeDomainFilter : Type := {
  dt_ps : R;
  dt_s : R
}.

Definition TimeDomainFilter_init (dt_ps : R) : M TimeDomainFilter :=
  if Rleb dt_ps 0 then raise (ValueError "Time step must be positive.")
  else ret {| dt_ps := dt_ps; dt_s := dt_ps * 1e-12 |}.

(** [np.fft.fft] of a real series. *)
Definition fft (x : list R) : list C :=
  let n := List.length x in
  map (fun w =>
         Csum (zip_with (fun t v => Cscale v (twiddle n w t)) (seq 0 n) x))
      (seq 0 n).

(** [np.fft.ifft] *)
Definition ifft (X : list C) : list C :=
  let n := List.length X in
  map (fun t =>
         Cdiv_real
           (Csum (zip_with
                    (fun w V => Cmul V (Cexp_i (2 * PI * INR w * INR t / INR n)))
                    (seq 0 n) X))
           (INR n))
      (seq 0 n).

(** The Gaussian weight of a frequency (line 448). *)
Definition freq_window (w_center w_sigma freq : R) : R :=
  exp (- 0.5 * ((freq - w_center) / w_sigma) ^ 2).

(** Lines 453-457: a time series, filtered. *)
Definition filtered_series (window : list R) (time_series : list R) : list R :=
  let fft_vals := fft time_series in
  let fft_filtered := zip_with (fun v g => Cscale g v) fft_vals window in
  map fst (ifft fft_filtered).

(** [TimeDomainFilter.filter_in_frequency] (lines 433-459), on a
    (n_frames, n_atoms, 3) array: every series [data[:, i_atom, alpha]] is
    filtered and stored at its place in the output. *)
Definition filter_in_frequency (self : TimeDomainFilter)
    (data : list (list vec3)) (w_min w_max : R) : M (list (list vec3)) :=
  let n_frames := List.length data in
  let n_atoms := List.length (hd [] data) in
  if Reqb (INR n_frames * dt_s self) 0 then raise ZeroDivisionError
  else
    let freqs := map (fun f => f * 1e-12) (fftfreq n_frames (dt_s self)) in
    let w_center := 0.5 * (w_min + w_max) in
    let w_sigma := if Rgtb w_max w_min then (w_max - w_min) / 6 else 0 in
    if Rltb w_sigma 1e-14 then
      warn "Filter width too small; returning original data." ;;;
      ret data
    else
      let window := map (freq_window w_center w_sigma) freqs in
      let series (i_atom alpha : nat) : list R :=
        filtered_series window
          (map (fun frame => comp alpha (nth i_atom frame vzero)) data) in
      ret (map (fun t =>
                  map (fun i_atom =>
                         (nth t (series i_atom 0%nat) 0,
                          nth t (series i_atom 1%nat) 0,
                          nth t (series i_atom 2%nat) 0))
                      (seq 0 n_atoms))
               (seq 0 n_frames)).

(** [np.abs(sed).sum(axis=-1)] on one cell. *)
Definition amplitude (cell : pol3) : R :=
  let '(c0, c1, c2) := cell in Cabs c0 + Cabs c1 + Cabs c2.

(** The four lists [gather_3d_data] appends to. *)
Definition gathered : Type := (list R * list R * list R * list R)%type.

(** [gather_3d_data] (lines 504-534). *)
Definition gather_3d_data (k_vectors_list : list (list vec3))
    (freqs_list : list (list R)) (sed_list : list (list (list pol3)))
    (intensity_threshold : R) : M gathered :=
  for_each (combine freqs_list (combine k_vectors_list sed_list))
    (fun dataset acc =>
       let '(freqs, (kvecs, sed)) := dataset in
       let intensity_3d := map (map amplitude) sed in
       for_each (seq 0 (List.length freqs))
         (fun i_f acc =>
            for_each (seq 0 (List.length kvecs))
              (fun i_k acc =>
                 row <- index intensity_3d i_f ;;
                 amp <- index row i_k ;;
                 kvec <- index kvecs i_k ;;
                 freq <- index freqs i_f ;;
                 let '(kx_vals, ky_vals, freq_vals, amp_vals) := acc in
                 ret (kx_vals ++ [comp 0 kvec], ky_vals ++ [comp 1 kvec],
                      freq_vals ++ [freq], amp_vals ++ [amp]))
              acc)
         acc)
    ([], [], [], []).

End Legacy.

(** The cell the loop of [calculate_sd] stores for a frame of the data and
    a k-vector (lines 347-350). *)
Definition legacy_cell (mean_positions frame : list vec3) (kvec : vec3)
    : pol3 :=
  let phase := map (fun r => Cexp_i (dot r kvec)) mean_positions in
  (Csum (zip_with (fun v ph => Cscale (comp 0 v) ph) frame phase),
   Csum (zip_with (fun v ph => Cscale (comp 1 v) ph) frame phase),
   Csum (zip_with (fun v ph => Cscale (comp 2 v) ph) frame phase)).

(** A trajectory of SDA.py with at least one frame and one atom, and the
    shapes its dataclass documents. *)
Definition legacy_wf (tr : Legacy.Trajectory) : Prop :=
  (0 < Legacy.n_frames tr)%nat /\ (0 < Legacy.n_atoms tr)%nat /\
  List.length (Legacy.positions tr) = Legacy.n_frames tr /\
  List.length (Legacy.velocities tr) = Legacy.n_frames tr /\
  Forall (fun frame => List.length frame = Legacy.n_atoms tr)
         (Legacy.positions tr) /\
  Forall (fun frame => List.length frame = Legacy.n_atoms tr)
         (Legacy.velocities tr).

(** One frame of two atoms, as a trajectory of SDA.py. *)
Definition legacy_two_atom_traj : Legacy.Trajectory :=
  {| Legacy.positions := [[(0, 0, 0); (5, 5, 5)]];
     Legacy.velocities := [[(1, 0, 0); (0, 1, 0)]];
     Legacy.types := [1%Z; 2%Z];
     Legacy.timesteps := [0] |}.

(** The four lists of [gather_3d_data] have [n] entries each, and no
    amplitude is negative. *)
Definition gathered_ok (n : nat) (g : Legacy.gathered) : Prop :=
  let '(kx_vals, ky_vals, freq_vals, amp_vals) := g in
  List.length kx_vals = n /\ List.length ky_vals = n /\
  List.length freq_vals = n /\ List.length amp_vals = n /\
  Forall (fun amp => 0 <= amp) amp_vals.

(** The number of (frequency, k) points of the data sets that
    [gather_3d_data] goes through. *)
Definition gathered_count
    (datasets : list (list R * (list vec3 * list (list pol3)))) : nat :=
  fold_right (fun dataset acc =>
                (List.length (fst dataset)
                 * List.length (fst (snd dataset)) + acc)%nat)
             0%nat datasets.

(* ================================================================== *)
(** * The example script examples/chiral_sed_analysis.py               *)
(* ================================================================== *)

(** The component of a cell along polarisation axis 0, 1 or 2. *)
Definition pol_at (pol : nat) (cell : pol3) : C :=
  let '(c0, c1, c2) := cell in
  match pol with O => c0 | S O => c1 | _ => c2 end.

(** [sed[:, :, pol]]: a real, polarisation-summed array has two axes
    only. *)
Definition slice_pol (a : sed_array) (pol : nat) : M (ndarray C) :=
  match a with
  | ComplexArr g =>
      ret {| nd_shape := [dim0 g; dim1 g];
             nd_data := map (pol_at pol) (List.concat (cells g)) |}
  | RealArr _ => raise IndexError
  end.

(** What [main] of the example computes between the loading of the
    trajectory and the plots (lines 35-74): the calculator, the k-path
    along [1, 0, 0], the coherent SED of the types 1 and 2, and the chiral
    phase between its x and y polarisations. *)
Definition chiral_example (trajectory : Trajectory) : M (SED * ndarray R) :=
  calculator <- SEDCalculator_init trajectory 60 60 1 false None ;;
  kk <- get_k_path calculator (DirSeq [1; 0; 0]) 4 250 (Some 2.491) ;;
  sed_object <- calculate calculator (fst kk) (snd kk) None
                  (Some (BList [PyInt 1; PyInt 2])) "coherent" None 500 ;;
  Z1 <- slice_pol (sed sed_object) 0 ;;
  Z2 <- slice_pol (sed sed_object) 1 ;;
  phase <- calculate_chiral_phase Z1 Z2 "C" ;;
  ret (sed_object, phase).

(** A list of integers in strictly increasing order. *)
Fixpoint increasing (l : list Z) : Prop :=
  match l with
  | [] => True
  | x :: l' => (forall y, In y l' -> (x < y)%Z) /\ increasing l'
  end.

(** Line 262-264: all the atoms when no group is left. *)
Definition with_fallback (n_atoms_tot : nat) (atom_groups : list (list Z))
    : list (list Z) :=
  if (List.length atom_groups =? 0)%nat
  then atom_groups ++ [arange n_atoms_tot] else atom_groups.


(** The three polarisations of one (frame, k) entry of
    [_calculate_sed_for_group]. *)
Definition einsum_cell (frame : list vec3) (phase_k : list C) : pol3 :=
  (einsum_entry 0 frame phase_k, einsum_entry 1 frame phase_k,
   einsum_entry 2 frame phase_k).

(** The two-atom calculator, working on displacements. *)
Definition two_atom_displacement_calc : SEDCalculator :=
  {| traj := two_atom_traj; use_displacements := true; dt_ps := 1;
     a1 := (10, 0, 0); a2 := (0, 10, 0); a3 := (0, 0, 10);
     b1 := (2 * PI / 10, 0, 0); b2 := (0, 2 * PI / 10, 0);
     b3 := (0, 0, 2 * PI / 10) |}.
(* ================================================================== *)
(** * Properties                                                       *)
(* ================================================================== *)

Lemma Rltb_true x y : Rltb x y = true <-> x < y.
Proof. unfold Rltb; destruct (Rlt_dec x y); split; intros; try easy. Qed.

Lemma Rltb_false x y : Rltb x y = false <-> y <= x.
Proof. unfold Rltb; destruct (Rlt_dec x y); split; intros; try easy; lra. Qed.

Lemma Rleb_true x y : Rleb x y = true <-> x <= y.
Proof. unfold Rleb; destruct (Rle_dec x y); split; intros; try easy. Qed.

Lemma Rleb_false x y : Rleb x y = false <-> y < x.
Proof. unfold Rleb; destruct (Rle_dec x y); split; intros; try easy; lra. Qed.

Lemma isclose_0_true x : isclose x 0 = true <-> Rabs x <= 1e-8.
Proof.
  unfold isclose. rewrite Rleb_true, Rminus_0_r, Rabs_R0. split; lra.
Qed.

Lemma isclose_0_false x : isclose x 0 = false <-> 1e-8 < Rabs x.
Proof.
  unfold isclose. rewrite Rleb_false, Rminus_0_r, Rabs_R0. split; lra.
Qed.

Lemma det3_triple (u v w : vec3) : det3 u v w = dot u (cross v w).
Proof.
  destruct u as [[u0 u1] u2], v as [[v0 v1] v2], w as [[w0 w1] w2].
  unfold det3, dot, cross. ring.
Qed.

(** ** The reciprocal vectors of [SEDCalculator.__init__] *)

Section Reciprocal.

Variables (tr : Trajectory) (nx ny nz : Z) (ud : bool) (dt : option R).
Variable self : SEDCalculator.
Hypothesis Hinit : value (SEDCalculator_init tr nx ny nz ud dt) = Ok self.

Local Abbreviation V := (cell_volume self).

(** What a successful construction stores. *)
Lemma init_fields :
  a1 self = vdiv (fst (fst (box_matrix tr))) (IZR nx) /\
  a2 self = vdiv (snd (fst (box_matrix tr))) (IZR ny) /\
  a3 self = vdiv (snd (box_matrix tr)) (IZR nz) /\
  b1 self = vscale (2 * PI / Rabs V) (cross (a2 self) (a3 self)) /\
  b2 self = vscale (2 * PI / Rabs V) (cross (a3 self) (a1 self)) /\
  b3 self = vscale (2 * PI / Rabs V) (cross (a1 self) (a2 self)) /\
  1e-8 < Rabs V.
Proof.
  revert Hinit. unfold cell_volume, SEDCalculator_init.
  destruct (negb _); [discriminate|].
  destruct (box_matrix tr) as [[L1 L2] L3]; cbn [fst snd].
  set (m := match dt with Some _ => _ | None => _ end).
  destruct m as [l0 [d|e]]; cbn [bind]; [|discriminate].
  destruct (Rleb d 0); [cbn; discriminate|].
  destruct (existsb _ _); [cbn; discriminate|].
  destruct (isclose (Rabs _) 0) eqn:Hc.
  - apply isclose_0_true in Hc.
    assert (Hd : isclose (det3 (vdiv L1 (IZR nx)) (vdiv L2 (IZR ny))
                               (vdiv L3 (IZR nz))) 0 = true).
    { apply isclose_0_true. rewrite det3_triple.
      rewrite Rabs_Rabsolu in Hc. exact Hc. }
    rewrite Hd, orb_true_r. cbn. discriminate.
  - apply isclose_0_false in Hc. rewrite Rabs_Rabsolu in Hc.
    cbn. intros H; injection H as <-. cbn. repeat split; auto.
Qed.

Lemma init_volume_nonzero : V <> 0.
Proof.
  destruct init_fields as (_ & _ & _ & _ & _ & _ & HV).
  intros E. rewrite E, Rabs_R0 in HV. lra.
Qed.

(** [b_i . a_j] is [2 pi] times the sign of the cell's orientation on
    the diagonal and zero off it. *)
Lemma reciprocal_signed :
  let s := V / Rabs V in
  dot (b1 self) (a1 self) = s * (2 * PI) /\
  dot (b2 self) (a2 self) = s * (2 * PI) /\
  dot (b3 self) (a3 self) = s * (2 * PI) /\
  dot (b1 self) (a2 self) = 0 /\ dot (b1 self) (a3 self) = 0 /\
  dot (b2 self) (a1 self) = 0 /\ dot (b2 self) (a3 self) = 0 /\
  dot (b3 self) (a1 self) = 0 /\ dot (b3 self) (a2 self) = 0.
Proof.
  destruct init_fields as (_ & _ & _ & H1 & H2 & H3 & HV).
  assert (HV0 : Rabs V <> 0) by lra.
  rewrite H1, H2, H3. revert HV0. unfold cell_volume. clear.
  destruct (a1 self) as [[x0 x1] x2], (a2 self) as [[y0 y1] y2],
           (a3 self) as [[z0 z1] z2].
  cbn [dot cross vscale] in *.
  set (A := Rabs _) in *. intros HA. cbv zeta.
  repeat split; field; exact HA.
Qed.

End Reciprocal.

(** The construction succeeds, without a log record, on a cell whose edge
    vectors are not short and whose volume is not small. *)
Lemma init_succeeds tr nx ny nz ud d :
  (0 < nx)%Z -> (0 < ny)%Z -> (0 < nz)%Z ->
  traj_dt_ps tr = Some d -> 0 < d ->
  let v1 := vdiv (fst (fst (box_matrix tr))) (IZR nx) in
  let v2 := vdiv (snd (fst (box_matrix tr))) (IZR ny) in
  let v3 := vdiv (snd (box_matrix tr)) (IZR nz) in
  1e-9 <= norm v1 -> 1e-9 <= norm v2 -> 1e-9 <= norm v3 ->
  1e-8 < Rabs (dot v1 (cross v2 v3)) ->
  SEDCalculator_init tr nx ny nz ud None =
  ([], Ok {| traj := tr; use_displacements := ud; dt_ps := d;
             a1 := v1; a2 := v2; a3 := v3;
             b1 := vscale (2 * PI / Rabs (dot v1 (cross v2 v3))) (cross v2 v3);
             b2 := vscale (2 * PI / Rabs (dot v1 (cross v2 v3))) (cross v3 v1);
             b3 := vscale (2 * PI / Rabs (dot v1 (cross v2 v3))) (cross v1 v2) |}).
Proof.
  intros Hx Hy Hz Hdt Hd v1 v2 v3 N1 N2 N3 HV.
  unfold SEDCalculator_init.
  apply Z.ltb_lt in Hx, Hy, Hz. rewrite Hx, Hy, Hz, Hdt. cbn [andb negb].
  destruct (box_matrix tr) as [[L1 L2] L3]. cbn [fst snd] in *.
  cbn [bind ret app].
  assert (E0 : Rleb d 0 = false) by (apply Rleb_false; lra).
  rewrite E0. fold v1 v2 v3.
  assert (E1 : existsb (fun v => Rltb (norm v) 1e-9) [v1; v2; v3] = false).
  { cbn [existsb].
    assert (F1 : Rltb (norm v1) 1e-9 = false) by (apply Rltb_false; lra).
    assert (F2 : Rltb (norm v2) 1e-9 = false) by (apply Rltb_false; lra).
    assert (F3 : Rltb (norm v3) 1e-9 = false) by (apply Rltb_false; lra).
    rewrite F1, F2, F3. reflexivity. }
  rewrite E1.
  assert (E2 : isclose (Rabs (dot v1 (cross v2 v3))) 0 = false).
  { apply isclose_0_false. rewrite Rabs_Rabsolu. exact HV. }
  rewrite E2. reflexivity.
Qed.

(** C1 (the code departs from the claim).  On the left-handed unit cell
    with nx = ny = nz = 1, [SEDCalculator.__init__] succeeds and stores
    reciprocal vectors with b1 . a1 = - 2 pi instead of 2 pi: the volume
    that normalises them is taken in absolute value. *)
Theorem C1_reciprocal_left_handed_cell :
  exists self,
    SEDCalculator_init left_handed_traj 1 1 1 false None = ([], Ok self) /\
    a1 self = (0 / 1, 1 / 1, 0 / 1) /\
    dot (b1 self) (a1 self) = - (2 * PI) /\
    dot (b1 self) (a1 self) <> 2 * PI.
Proof.
  assert (S1 : forall x, x = 1 -> 1e-9 <= sqrt x).
  { intros x ->. rewrite sqrt_1. lra. }
  assert (A1 : forall x, x = -1 -> Rabs x = 1).
  { intros x ->. rewrite Rabs_left; lra. }
  eexists. split.
  - apply (init_succeeds left_handed_traj 1 1 1 false 1); try lia; try reflexivity;
      try lra; unfold norm; cbn [left_handed_traj box_matrix fst snd vdiv dot cross].
    + apply S1. field.
    + apply S1. field.
    + apply S1. field.
    + rewrite A1 by field. lra.
  - cbn [a1 b1 left_handed_traj box_matrix fst snd vdiv dot cross vscale].
    rewrite A1 by field. split; [reflexivity|].
    assert (E : forall x, x = - (2 * PI) -> x = - (2 * PI) /\ x <> 2 * PI).
    { intros x ->. split; [reflexivity|]. pose proof PI_RGT_0. lra. }
    apply E. field.
Qed.

(** On a right-handed cell the stored vectors are the reciprocal basis:
    b_i . a_j = 2 pi delta_ij. *)
Lemma reciprocal_duality_right_handed tr nx ny nz ud dt self :
  value (SEDCalculator_init tr nx ny nz ud dt) = Ok self ->
  0 < dot (a1 self) (cross (a2 self) (a3 self)) ->
  dot (b1 self) (a1 self) = 2 * PI /\
  dot (b2 self) (a2 self) = 2 * PI /\
  dot (b3 self) (a3 self) = 2 * PI /\
  dot (b1 self) (a2 self) = 0 /\ dot (b1 self) (a3 self) = 0 /\
  dot (b2 self) (a1 self) = 0 /\ dot (b2 self) (a3 self) = 0 /\
  dot (b3 self) (a1 self) = 0 /\ dot (b3 self) (a2 self) = 0.
Proof.
  intros Hinit Hpos.
  pose proof (reciprocal_signed _ _ _ _ _ _ _ Hinit) as H. cbv zeta in H.
  unfold cell_volume in H.
  rewrite (Rabs_right _ (Rgt_ge _ _ Hpos)) in H.
  replace (dot (a1 self) (cross (a2 self) (a3 self)) /
           dot (a1 self) (cross (a2 self) (a3 self))) with 1 in H
    by (field; lra).
  rewrite !Rmult_1_l in H. exact H.
Qed.

(** On a left-handed cell every diagonal product is - 2 pi. *)
Lemma reciprocal_duality_left_handed tr nx ny nz ud dt self :
  value (SEDCalculator_init tr nx ny nz ud dt) = Ok self ->
  cell_volume self < 0 ->
  dot (b1 self) (a1 self) = - (2 * PI) /\
  dot (b2 self) (a2 self) = - (2 * PI) /\
  dot (b3 self) (a3 self) = - (2 * PI).
Proof.
  intros Hinit Hneg.
  pose proof (reciprocal_signed _ _ _ _ _ _ _ Hinit) as H. cbv zeta in H.
  rewrite (Rabs_left _ Hneg) in H.
  replace (cell_volume self / - cell_volume self) with (-1) in H
    by (field; lra).
  destruct H as (H1 & H2 & H3 & _). rewrite H1, H2, H3.
  repeat split; ring.
Qed.


(* ------------------------------------------------------------------ *)
(** ** Lists: [zip_with], slices, loops                                *)
(* ------------------------------------------------------------------ *)

Lemma zip_with_length {A B D} (f : A -> B -> D) l m :
  List.length (zip_with f l m) = Nat.min (List.length l) (List.length m).
Proof.
  revert m; induction l as [|a l IH]; intros [|b m]; cbn; auto.
Qed.

Lemma zip_with_map_l {A A' B D} (f : A' -> B -> D) (g : A -> A') l m :
  zip_with f (map g l) m = zip_with (fun a b => f (g a) b) l m.
Proof.
  revert m; induction l as [|a l IH]; intros [|b m]; cbn; auto.
  now rewrite IH.
Qed.

Lemma zip_with_map_r {A B B' D} (f : A -> B' -> D) (g : B -> B') l m :
  zip_with f l (map g m) = zip_with (fun a b => f a (g b)) l m.
Proof.
  revert m; induction l as [|a l IH]; intros [|b m]; cbn; auto.
  now rewrite IH.
Qed.

Lemma map_zip_with {A B D E} (g : D -> E) (f : A -> B -> D) l m :
  map g (zip_with f l m) = zip_with (fun a b => g (f a b)) l m.
Proof.
  revert m; induction l as [|a l IH]; intros [|b m]; cbn; auto.
  now rewrite IH.
Qed.

Lemma zip_with_zip_r {A B D E} (f : A -> D -> E) (h : A -> B -> D) l m :
  zip_with f l (zip_with h l m) = zip_with (fun a b => f a (h a b)) l m.
Proof.
  revert m; induction l as [|a l IH]; intros [|b m]; cbn; auto.
  now rewrite IH.
Qed.

Lemma zip_with_ext_Forall {A B D} (f g : A -> B -> D) (P : A -> Prop)
    (Q : B -> Prop) l m :
  (forall a b, P a -> Q b -> f a b = g a b) ->
  Forall P l -> Forall Q m -> zip_with f l m = zip_with g l m.
Proof.
  intros E Hl; revert m; induction Hl as [|a l Pa Hl IH]; intros [|b m] Hm;
    cbn; auto.
  inversion Hm; subst. f_equal; auto.
Qed.

Lemma zip_with_firstn {A B D} (f : A -> B -> D) n l m :
  firstn n (zip_with f l m) = zip_with f (firstn n l) (firstn n m).
Proof.
  revert l m; induction n as [|n IH]; intros [|a l] [|b m]; cbn; auto.
  now rewrite IH.
Qed.

Lemma zip_with_skipn {A B D} (f : A -> B -> D) n l m :
  skipn n (zip_with f l m) = zip_with f (skipn n l) (skipn n m).
Proof.
  revert l m; induction n as [|n IH]; intros [|a l] [|b m]; cbn; auto.
  now destruct (skipn n l).
Qed.

Lemma zip_with_slice {A B D} (f : A -> B -> D) s e l m :
  slice s e (zip_with f l m) = zip_with f (slice s e l) (slice s e m).
Proof. unfold slice. now rewrite zip_with_skipn, zip_with_firstn. Qed.

Lemma slice_map {A B} (f : A -> B) s e l :
  slice s e (map f l) = map f (slice s e l).
Proof. unfold slice. now rewrite skipn_map, firstn_map. Qed.

Lemma slice_length {A} s e (l : list A) :
  (e <= List.length l)%nat -> List.length (slice s e l) = (e - s)%nat.
Proof.
  intros H. unfold slice. rewrite length_firstn, length_skipn. lia.
Qed.

Lemma slice_repeat {A} (z : A) s e n :
  (e <= n)%nat -> slice s e (repeat z n) = repeat z (e - s).
Proof.
  intros H. unfold slice.
  assert (Hs : forall k m, skipn k (repeat z m) = repeat z (m - k)).
  { induction k as [|k IH]; intros [|m]; cbn; auto. }
  assert (Hf : forall k m, (k <= m)%nat -> firstn k (repeat z m) = repeat z k).
  { induction k as [|k IH]; intros [|m] Hk; cbn; auto; try lia.
    f_equal. apply IH. lia. }
  rewrite Hs, Hf; auto. lia.
Qed.

Lemma slice_all {A} (l : list A) : slice 0 (List.length l) l = l.
Proof. unfold slice. cbn. rewrite Nat.sub_0_r. apply firstn_all. Qed.

Lemma set_slice_merge {A} s e (r z : list A) :
  (s <= e)%nat -> (e <= List.length r)%nat -> (e <= List.length z)%nat ->
  set_slice s e (slice s e r) (merge_row s r z) = merge_row e r z.
Proof.
  intros Hse Her Hez. unfold set_slice, slice, merge_row.
  assert (L : List.length (firstn s r) = s) by (rewrite length_firstn; lia).
  rewrite firstn_app, L, Nat.sub_diag, firstn_O, app_nil_r.
  rewrite firstn_firstn, Nat.min_id.
  rewrite skipn_app, L.
  replace (skipn e (firstn s r)) with (@nil A)
    by (symmetry; apply skipn_all2; lia).
  rewrite skipn_skipn. replace (e - s + s)%nat with e by lia. cbn [app].
  rewrite app_assoc. f_equal.
  rewrite <- (firstn_skipn s (firstn e r)) at 1.
  rewrite firstn_firstn. replace (Nat.min s e) with s by lia. f_equal.
  rewrite skipn_firstn_comm. reflexivity.
Qed.

Lemma merge_row_all {A} (r z : list A) n :
  List.length r = n -> List.length z = n -> merge_row n r z = r.
Proof.
  intros Hr Hz. unfold merge_row.
  rewrite firstn_all2 by lia. rewrite skipn_all2 by lia. apply app_nil_r.
Qed.

Lemma for_each_value {A S} (f : A -> S -> S) (body : A -> S -> M S) l s :
  (forall a s, value (body a s) = Ok (f a s)) ->
  value (for_each l body s) = Ok (fold_left (fun s a => f a s) l s).
Proof.
  intros H. revert s. induction l as [|a l IH]; intros s; cbn; auto.
  specialize (H a s). unfold value in *. destruct (body a s) as [l1 r].
  cbn in H. subst r. cbn.
  specialize (IH (f a s)). destruct (for_each l body (f a s)) as [l2 r2].
  cbn in *. exact IH.
Qed.

Lemma value_bind_ok {A B} (m : M A) (k : A -> M B) a :
  value m = Ok a -> value (bind m k) = value (k a).
Proof.
  unfold value, bind. destruct m as [l [x|e]]; cbn; intros H; [|discriminate].
  injection H as ->. now destruct (k a).
Qed.

Lemma value_bind_raise {A B} (m : M A) (k : A -> M B) e :
  value m = Raise e -> value (bind m k) = Raise e.
Proof.
  unfold value, bind. destruct m as [l [x|e']]; cbn; intros H; [discriminate|].
  now injection H as ->.
Qed.

(* ------------------------------------------------------------------ *)
(** ** The array operations on small inputs                            *)
(* ------------------------------------------------------------------ *)

Example np_unique_sorts_and_dedups :
  np_unique [3; 1; 3; 2; 1]%Z = [1; 2; 3]%Z.
Proof. reflexivity. Qed.

Example np_where_isin_picks_positions :
  np_where (np_isin [1; 2; 1; 3]%Z [1; 3]%Z) = [0; 2; 3]%Z.
Proof. reflexivity. Qed.

Example set_slice_stores_a_chunk :
  set_slice 1 3 [7; 8]%nat [0; 0; 0; 0]%nat = [0; 7; 8; 0]%nat.
Proof. reflexivity. Qed.

Example fancy_assign_last_value_remains :
  fancy_assign [1; 1; 0]%Z [5; 6; 7]%nat [0; 0; 0]%nat = [7; 6; 0]%nat.
Proof. reflexivity. Qed.

Example lower_plane_name : lower "XY" = "xy".
Proof. reflexivity. Qed.

Example final_group_merges :
  final_group_indices [[2; 0]; [1; 2]]%Z = [0; 1; 2]%Z.
Proof. reflexivity. Qed.

(** [get_k_grid("xy", (-1, 1), (-1, 1), 3, 3, 0.0)]: nine vectors in the
    plane z = 0, shape (3, 3), no magnitudes. *)
Example get_k_grid_xy_3_by_3 :
  exists vecs,
    value (get_k_grid "xy" (-1, 1) (-1, 1) 3 3 0) = Ok ([], vecs, (3, 3)%Z) /\
    List.length vecs = 9%nat /\
    Forall (fun v => comp 2 v = 0) vecs.
Proof.
  eexists. split; [reflexivity|]. split; [reflexivity|].
  repeat constructor.
Qed.

(* ------------------------------------------------------------------ *)
(** ** The k-chunk loop                                                *)
(* ------------------------------------------------------------------ *)

Lemma chunk_count_bounds nk c :
  (1 <= c)%nat -> (1 <= nk)%nat ->
  let q := ((nk + c - 1) / c)%nat in
  (1 <= q)%nat /\ (nk <= q * c)%nat /\
  (forall n, (n < q)%nat -> (n * c < nk)%nat).
Proof.
  intros Hc Hnk q.
  assert (Hc0 : c <> 0%nat) by lia.
  pose proof (Nat.div_mod_eq (nk + c - 1) c) as E. fold q in E.
  pose proof (Nat.mod_upper_bound (nk + c - 1) c Hc0) as U.
  repeat split.
  - destruct q; [cbn in E; lia | lia].
  - nia.
  - intros n Hn. nia.
Qed.

Section ChunkLoop.

Context {A : Type}.
Variable T : list vec3 -> grid A.
Variable ks : list vec3.
Variable z : A.
Variable nf : nat.

Local Abbreviation nk := (List.length ks).
Local Abbreviation R0 := (cells (T ks)).
Local Abbreviation Z0 := (repeat (repeat z (List.length ks)) nf).

Hypothesis T_slice : forall s e, (e <= nk)%nat ->
  cells (T (slice s e ks)) = map (slice s e) R0.
Hypothesis T_rows : Forall (fun row => List.length row = nk) R0.

Lemma zeros_rows : Forall (fun row : list A => List.length row = nk) Z0.
Proof.
  apply Forall_forall. intros row Hin. apply repeat_spec in Hin. subst row.
  apply repeat_length.
Qed.

Lemma chunk_step_first c full :
  (1 <= c <= nk)%nat -> cells full = Z0 ->
  cells (chunk_step T ks c 0 full) = zip_with (merge_row c) R0 Z0.
Proof.
  intros Hc Hfull. unfold chunk_step. cbn [Nat.mul Nat.add]. rewrite Nat.add_0_r.
  fold nk. rewrite Nat.min_l by lia.
  rewrite slice_length by (fold nk; lia).
  replace (c - 0 =? 0)%nat with false by (symmetry; apply Nat.eqb_neq; lia).
  cbn [assign_cols cells]. rewrite T_slice by lia. rewrite Hfull.
  rewrite zip_with_map_l.
  apply zip_with_ext_Forall with (P := fun r => List.length r = nk)
                                 (Q := fun r => List.length r = nk);
    auto using zeros_rows.
  intros r z0 Hr Hz.
  rewrite <- (set_slice_merge 0 c r z0) by lia. reflexivity.
Qed.

Lemma chunk_step_next c n full :
  (1 <= c)%nat -> (n * c < nk)%nat ->
  cells full = zip_with (merge_row (n * c)) R0 Z0 ->
  cells (chunk_step T ks c n full) =
  zip_with (merge_row (Nat.min ((n + 1) * c) nk)) R0 Z0.
Proof.
  intros Hc Hn Hfull. unfold chunk_step. fold nk.
  set (e := Nat.min ((n + 1) * c) nk).
  assert (He : (n * c < e <= nk)%nat) by (subst e; lia).
  rewrite slice_length by (fold nk; lia).
  replace (e - n * c =? 0)%nat with false by (symmetry; apply Nat.eqb_neq; lia).
  cbn [assign_cols cells]. rewrite T_slice by lia. rewrite Hfull.
  rewrite zip_with_map_l.
  rewrite (zip_with_zip_r (fun a d => set_slice (n * c) e (slice (n * c) e a) d)).
  apply zip_with_ext_Forall with (P := fun r => List.length r = nk)
                                 (Q := fun r => List.length r = nk);
    auto using zeros_rows.
  intros r z0 Hr Hz. apply set_slice_merge; lia.
Qed.

Lemma chunk_step_shape c n full :
  dim0 (chunk_step T ks c n full) = dim0 full /\
  dim1 (chunk_step T ks c n full) = dim1 full.
Proof. unfold chunk_step. destruct (_ =? _)%nat; cbn; auto. Qed.

Lemma chunk_loop_invariant c n :
  (1 <= c <= nk)%nat -> (n <= (nk + c - 1) / c)%nat ->
  let full := fold_left (fun s i => chunk_step T ks c i s) (seq 0 n)
                        (zeros z nf nk) in
  dim0 full = nf /\ dim1 full = nk /\
  cells full = match n with
               | O => Z0
               | S _ => zip_with (merge_row (Nat.min (n * c) nk)) R0 Z0
               end.
Proof.
  intros Hc. destruct (chunk_count_bounds nk c) as (Hq1 & Hq2 & Hq3); try lia.
  induction n as [|n IH]; intros Hn full.
  - subst full. cbn. auto.
  - subst full. rewrite seq_S, fold_left_app. cbn [fold_left Nat.add].
    destruct IH as (D0 & D1 & IH); [lia|].
    set (prev := fold_left _ _ _) in *.
    destruct (chunk_step_shape c n prev) as [S0 S1].
    rewrite S0, S1. repeat split; auto.
    destruct n as [|n].
    + rewrite (chunk_step_first c prev) by (auto; lia).
      cbn [Nat.mul]. rewrite Nat.add_0_r. rewrite Nat.min_l by lia. reflexivity.
    + assert (Hlt : (S n * c < nk)%nat) by (apply Hq3; lia).
      rewrite Nat.min_l in IH by lia.
      rewrite (chunk_step_next c (S n) prev) by (auto; lia).
      replace (S n + 1)%nat with (S (S n)) by lia. reflexivity.
Qed.

(** However the k-axis is cut into chunks, the loop leaves in the output
    array what [T] computes from all the k-vectors at once. *)
Lemma chunk_loop c :
  (1 <= c <= nk)%nat ->
  fold_left (fun s i => chunk_step T ks c i s) (seq 0 ((nk + c - 1) / c))
            (zeros z nf nk) =
  {| dim0 := nf; dim1 := nk; cells := zip_with (fun r _ => r) R0 Z0 |}.
Proof.
  intros Hc. destruct (chunk_count_bounds nk c) as (Hq1 & Hq2 & Hq3); try lia.
  destruct (chunk_loop_invariant c ((nk + c - 1) / c) Hc (le_n _))
    as (D0 & D1 & Hcells).
  set (full := fold_left _ _ _) in *. destruct full as [d0 d1 cs].
  cbn in *. subst d0 d1. f_equal.
  destruct ((nk + c - 1) / c)%nat as [|q] eqn:Eq; [lia|].
  rewrite Nat.min_r in Hcells by lia. rewrite Hcells.
  apply zip_with_ext_Forall with (P := fun r => List.length r = nk)
                                 (Q := fun r => List.length r = nk);
    auto using zeros_rows.
  intros r z0 Hr Hz. apply merge_row_all; auto.
Qed.

End ChunkLoop.

(* ------------------------------------------------------------------ *)
(** ** The projection of a group acts on each k-vector separately      *)
(* ------------------------------------------------------------------ *)

Lemma fold_zip_with_slice {A} (f : A -> A -> A) s e rows init :
  slice s e (fold_left (zip_with f) rows init) =
  fold_left (zip_with f) (map (slice s e) rows) (slice s e init).
Proof.
  revert init. induction rows as [|r rows IH]; intros init; cbn; auto.
  rewrite IH, zip_with_slice. reflexivity.
Qed.

Lemma fold_zip_with_length {A} (f : A -> A -> A) n rows init :
  Forall (fun r => List.length r = n) rows -> List.length init = n ->
  List.length (fold_left (zip_with f) rows init) = n.
Proof.
  intros H. revert init. induction H as [|r rows Hr H IH]; intros init Hi;
    cbn; auto.
  apply IH. rewrite zip_with_length. lia.
Qed.

Lemma combine_map_r {A B D} (f : B -> D) (l : list A) (m : list B) :
  combine l (map f m) = map (fun p => (fst p, f (snd p))) (combine l m).
Proof.
  revert m. induction l as [|a l IH]; intros [|b m]; cbn; auto.
  now rewrite IH.
Qed.

Lemma fft_axis0_slice s e n1 x :
  (e <= n1)%nat ->
  fft_axis0 (e - s) (map (slice s e) x) = map (slice s e) (fft_axis0 n1 x).
Proof.
  intros He. unfold fft_axis0. rewrite length_map, map_map.
  apply map_ext. intros w.
  rewrite fold_zip_with_slice, slice_repeat by exact He.
  f_equal. rewrite combine_map_r, !map_map. apply map_ext. intros [t row].
  cbn [fst snd]. now rewrite slice_map.
Qed.

Lemma fft_axis0_rows n1 x :
  Forall (fun r => List.length r = n1) x ->
  Forall (fun r => List.length r = n1) (fft_axis0 n1 x).
Proof.
  intros H. unfold fft_axis0. apply Forall_forall. intros row Hin.
  apply in_map_iff in Hin. destruct Hin as (w & <- & _).
  apply fold_zip_with_length; [|apply repeat_length].
  apply Forall_forall. intros r Hr. apply in_map_iff in Hr.
  destruct Hr as ([t r0] & <- & Hin). cbn [snd]. rewrite length_map.
  apply in_combine_r in Hin. rewrite Forall_forall in H. auto.
Qed.

Lemma sed_for_group_slice self ks grp mp s e :
  (e <= List.length ks)%nat ->
  cells (_calculate_sed_for_group self (slice s e ks) grp mp) =
  map (slice s e) (cells (_calculate_sed_for_group self ks grp mp)).
Proof.
  intros He. unfold _calculate_sed_for_group.
  rewrite (slice_length s e ks He).
  destruct (List.length grp =? 0)%nat.
  - cbn [zeros cells]. rewrite map_repeat, slice_repeat by exact He. reflexivity.
  - destruct (0 <? n_frames (traj self))%nat; [|reflexivity].
    cbn [cells]. unfold phase_factors_exp.
    set (data := if use_displacements self then _ else _).
    set (cell := fun frame phase_k => (einsum_entry 0 frame phase_k,
                   einsum_entry 1 frame phase_k, einsum_entry 2 frame phase_k)).
    set (ph := fun k : vec3 => map (fun r => Cexp_i (dot k r)) (take vzero mp grp)).
    transitivity (map (map (fun p => pol3_div p (INR (n_frames (traj self)))))
                   (map (slice s e)
                      (fft_axis0 (List.length ks)
                         (map (fun frame => map (cell frame) (map ph ks)) data)))).
    + f_equal. rewrite <- (fft_axis0_slice s e (List.length ks)) by exact He.
      f_equal. rewrite map_map. apply map_ext. intros frame.
      now rewrite !slice_map.
    + rewrite !map_map. apply map_ext. intros row. now rewrite slice_map.
Qed.

Lemma sed_for_group_rows self ks grp mp :
  Forall (fun row => List.length row = List.length ks)
         (cells (_calculate_sed_for_group self ks grp mp)).
Proof.
  unfold _calculate_sed_for_group.
  destruct (List.length grp =? 0)%nat.
  - cbn [zeros cells]. apply Forall_forall. intros row Hin.
    apply repeat_spec in Hin. subst row. apply repeat_length.
  - destruct (0 <? n_frames (traj self))%nat; [|constructor].
    cbn [cells]. apply Forall_forall. intros row Hin.
    apply in_map_iff in Hin. destruct Hin as (r & <- & Hin).
    rewrite length_map. revert r Hin. apply Forall_forall.
    apply fft_axis0_rows. apply Forall_forall. intros r Hin.
    apply in_map_iff in Hin. destruct Hin as (frame & <- & _).
    unfold phase_factors_exp. now rewrite !length_map.
Qed.

Lemma sed_for_group_shape self ks grp mp :
  (0 < n_frames (traj self))%nat ->
  dim0 (_calculate_sed_for_group self ks grp mp) = n_frames (traj self) /\
  dim1 (_calculate_sed_for_group self ks grp mp) = List.length ks.
Proof.
  intros H. unfold _calculate_sed_for_group.
  destruct (List.length grp =? 0)%nat; [cbn; auto|].
  apply Nat.ltb_lt in H. rewrite H. cbn. auto.
Qed.

Lemma add_power_slice s e (A1 A2 : grid R) (G1 G2 : grid pol3) :
  cells A2 = map (slice s e) (cells A1) ->
  cells G2 = map (slice s e) (cells G1) ->
  cells (add_power A2 G2) = map (slice s e) (cells (add_power A1 G1)).
Proof.
  intros HA HG. cbn [add_power cells]. rewrite HA, HG.
  rewrite zip_with_map_l, zip_with_map_r, map_zip_with.
  revert G1 G2 HG. generalize (cells A1). clear.
  intros l G1 _ _. generalize (cells G1). clear.
  induction l as [|a l IH]; intros [|g m]; cbn; auto.
  rewrite IH, zip_with_slice. reflexivity.
Qed.

Lemma summed_intensity_slice self groups mp nf ks s e :
  (e <= List.length ks)%nat ->
  cells (summed_intensity self groups mp nf (slice s e ks)) =
  map (slice s e) (cells (summed_intensity self groups mp nf ks)).
Proof.
  intros He. unfold summed_intensity.
  assert (H0 : cells (zeros 0 nf (List.length (slice s e ks))) =
               map (slice s e) (cells (zeros 0 nf (List.length ks)))).
  { cbn [zeros cells]. rewrite slice_length by exact He.
    rewrite map_repeat, slice_repeat by exact He. reflexivity. }
  revert H0. generalize (zeros 0 nf (List.length (slice s e ks))).
  generalize (zeros 0 nf (List.length ks)).
  induction groups as [|g groups IH]; intros acc1 acc2 Hacc; cbn [fold_left].
  - exact Hacc.
  - apply IH. destruct (List.length g =? 0)%nat; [exact Hacc|].
    apply add_power_slice; [exact Hacc|]. apply sed_for_group_slice; exact He.
Qed.

Lemma summed_intensity_rows self groups mp nf ks :
  Forall (fun row => List.length row = List.length ks)
         (cells (summed_intensity self groups mp nf ks)).
Proof.
  unfold summed_intensity.
  assert (H0 : Forall (fun row => List.length row = List.length ks)
                      (cells (zeros 0 nf (List.length ks)))).
  { cbn [zeros cells]. apply Forall_forall. intros row Hin.
    apply repeat_spec in Hin. subst row. apply repeat_length. }
  revert H0. generalize (zeros 0 nf (List.length ks)).
  induction groups as [|g groups IH]; intros acc Hacc; cbn [fold_left].
  - exact Hacc.
  - apply IH. destruct (List.length g =? 0)%nat; [exact Hacc|].
    cbn [add_power cells].
    pose proof (sed_for_group_rows self ks g mp) as HG.
    revert Hacc HG. generalize (cells acc).
    generalize (cells (_calculate_sed_for_group self ks g mp)).
    intros G l Hl. revert G. induction Hl as [|a l Ha Hl IHl];
      intros [|p G] HG; cbn; constructor.
    + inversion HG; subst. rewrite zip_with_length. lia.
    + apply IHl. now inversion HG.
Qed.

Lemma one_batch_cells {A} (T : list vec3 -> grid A) z nf ks :
  (1 <= List.length ks)%nat ->
  Forall (fun row => List.length row = List.length ks) (cells (T ks)) ->
  one_batch T z nf ks =
  {| dim0 := nf; dim1 := List.length ks;
     cells := zip_with (fun r _ => r) (cells (T ks))
                       (repeat (repeat z (List.length ks)) nf) |}.
Proof.
  intros Hk Hrows. unfold one_batch.
  replace (List.length ks =? 0)%nat with false
    by (symmetry; apply Nat.eqb_neq; lia).
  unfold assign_cols. cbn [zeros dim0 dim1 cells]. f_equal.
  apply zip_with_ext_Forall
    with (P := fun r => List.length r = List.length ks)
         (Q := fun r : list A => List.length r = List.length ks); auto.
  - intros r z0 Hr Hz. unfold set_slice. cbn [firstn app].
    rewrite skipn_all2 by lia. apply app_nil_r.
  - apply Forall_forall. intros row Hin. apply repeat_spec in Hin.
    subst row. apply repeat_length.
Qed.

(** The loop over the chunks computes the one-batch array, whatever the
    chunk size. *)
Lemma chunk_loop_one_batch {A} (T : list vec3 -> grid A) z nf ks c :
  (forall s e, (e <= List.length ks)%nat ->
     cells (T (slice s e ks)) = map (slice s e) (cells (T ks))) ->
  Forall (fun row => List.length row = List.length ks) (cells (T ks)) ->
  (1 <= c <= List.length ks)%nat ->
  fold_left (fun s i => chunk_step T ks c i s)
            (seq 0 ((List.length ks + c - 1) / c))
            (zeros z nf (List.length ks)) =
  one_batch T z nf ks.
Proof.
  intros Hs Hr Hc. rewrite one_batch_cells by (auto; lia).
  apply chunk_loop; auto.
Qed.

(* ------------------------------------------------------------------ *)
(** ** [calculate]: the k-chunk size does not show in the result       *)
(* ------------------------------------------------------------------ *)

Lemma fold_left_id {A S} (l : list A) (s : S) :
  fold_left (fun s _ => s) l s = s.
Proof. induction l; cbn; auto. Qed.

Lemma coherent_chunk_value self ks groups mp c i full :
  value (coherent_chunk self ks groups mp c (List.length ks) i full) =
  Ok (if (List.length (final_group_indices groups) =? 0)%nat then full
      else chunk_step (fun ks' => _calculate_sed_for_group self ks'
                                    (final_group_indices groups) mp)
                      ks c i full).
Proof.
  unfold coherent_chunk, chunk_step.
  destruct (List.length (slice _ _ ks) =? 0)%nat;
    destruct (List.length (final_group_indices groups) =? 0)%nat; reflexivity.
Qed.

Lemma incoherent_chunk_value self ks groups mp nf c i full :
  value (incoherent_chunk self ks groups mp nf c (List.length ks) i full) =
  Ok (chunk_step (summed_intensity self groups mp nf) ks c i full).
Proof.
  unfold incoherent_chunk, chunk_step.
  destruct (List.length (slice _ _ ks) =? 0)%nat; reflexivity.
Qed.

(** The chunk size the loop uses and the number of its turns (lines
    269-272), as functions of [k_chunk_size]. *)
Lemma actual_chunk_size_bounds k_chunk_size nk :
  (1 <= nk)%nat ->
  (1 <= Z.to_nat (Z.min (Z.max 1 k_chunk_size) (Z.of_nat nk)) <= nk)%nat.
Proof. intros H. lia. Qed.

Lemma coherent_loop_value self ks groups mp nf k_chunk_size :
  let nk := List.length ks in
  let c := if (0 <? nk)%nat
           then Z.to_nat (Z.min (Z.max 1 k_chunk_size) (Z.of_nat nk))
           else 1%nat in
  let num_chunks := if (0 <? nk)%nat then ((nk + c - 1) / c)%nat else 0%nat in
  value (for_each (seq 0 num_chunks) (coherent_chunk self ks groups mp c nk)
                  (zeros pol3_zero nf nk)) =
  Ok (if (List.length (final_group_indices groups) =? 0)%nat
      then zeros pol3_zero nf nk
      else one_batch (fun ks' => _calculate_sed_for_group self ks'
                                   (final_group_indices groups) mp)
                     pol3_zero nf ks).
Proof.
  intros nk c num_chunks.
  rewrite (for_each_value
             (fun i full =>
                if (List.length (final_group_indices groups) =? 0)%nat then full
                else chunk_step (fun ks' => _calculate_sed_for_group self ks'
                                    (final_group_indices groups) mp) ks c i full))
    by (intros; apply coherent_chunk_value).
  f_equal.
  destruct (List.length (final_group_indices groups) =? 0)%nat.
  - apply fold_left_id.
  - subst num_chunks c. destruct (0 <? nk)%nat eqn:Hnk.
    + apply Nat.ltb_lt in Hnk.
      apply chunk_loop_one_batch.
      * intros s e He. apply sed_for_group_slice; exact He.
      * apply sed_for_group_rows.
      * apply actual_chunk_size_bounds. exact Hnk.
    + apply Nat.ltb_ge in Hnk. cbn [seq fold_left]. unfold one_batch.
      fold nk. replace (nk =? 0)%nat with true
        by (symmetry; apply Nat.eqb_eq; lia). reflexivity.
Qed.

Lemma incoherent_loop_value self ks groups mp nf k_chunk_size :
  let nk := List.length ks in
  let c := if (0 <? nk)%nat
           then Z.to_nat (Z.min (Z.max 1 k_chunk_size) (Z.of_nat nk))
           else 1%nat in
  let num_chunks := if (0 <? nk)%nat then ((nk + c - 1) / c)%nat else 0%nat in
  value (for_each (seq 0 num_chunks)
                  (incoherent_chunk self ks groups mp nf c nk)
                  (zeros 0 nf nk)) =
  Ok (one_batch (summed_intensity self groups mp nf) 0 nf ks).
Proof.
  intros nk c num_chunks.
  rewrite (for_each_value
             (fun i full => chunk_step (summed_intensity self groups mp nf)
                                       ks c i full))
    by (intros; apply incoherent_chunk_value).
  f_equal. subst num_chunks c. destruct (0 <? nk)%nat eqn:Hnk.
  - apply Nat.ltb_lt in Hnk.
    apply chunk_loop_one_batch.
    + intros s e He. apply summed_intensity_slice; exact He.
    + apply summed_intensity_rows.
    + apply actual_chunk_size_bounds. exact Hnk.
  - apply Nat.ltb_ge in Hnk. cbn [seq fold_left]. unfold one_batch.
    fold nk. replace (nk =? 0)%nat with true
      by (symmetry; apply Nat.eqb_eq; lia). reflexivity.
Qed.

Lemma value_ret {A} (a : A) : value (ret a) = Ok a.
Proof. reflexivity. Qed.

Lemma value_bind {A B} (m : M A) (k : A -> M B) :
  value (bind m k) =
  match value m with Ok a => value (k a) | Raise e => Raise e end.
Proof.
  destruct (value m) eqn:E.
  - now apply value_bind_ok.
  - now apply value_bind_raise.
Qed.

(** [calculate] returns what the one-batch computation returns. *)
Lemma calculate_value self k_points_mags k_vectors_3d
    basis_atom_indices basis_atom_types summation_mode k_grid_shape
    (k_chunk_size : Z) :
  value (calculate self k_points_mags k_vectors_3d basis_atom_indices
                   basis_atom_types summation_mode k_grid_shape k_chunk_size) =
  value (calculate_one_batch self k_points_mags k_vectors_3d
                   basis_atom_indices basis_atom_types summation_mode
                   k_grid_shape).
Proof.
  unfold calculate, calculate_one_batch.
  destruct (negb _); [reflexivity|].
  destruct (_ || _)%bool; [reflexivity|].
  rewrite !value_bind.
  destruct (value (determine_atom_groups _ _ _ _)) as [groups|e]; [|reflexivity].
  rewrite value_bind.
  assert (Hw : value (if (List.length k_vectors_3d =? 0)%nat
                      then warn "k_vectors_3d is empty. Returning SED object with empty SED data."
                      else ret tt) = Ok tt)
    by (destruct (_ =? _)%nat; reflexivity).
  rewrite Hw, value_bind.
  destruct (String.eqb summation_mode "coherent"
            || (List.length groups <=? 1)%nat)%bool.
  - rewrite value_bind, coherent_loop_value. reflexivity.
  - rewrite value_bind, incoherent_loop_value. reflexivity.
Qed.

(** C2.  For every trajectory, k-vector list, basis selection, summation
    mode and k_chunk_size, what [calculate] returns (the SED entity, or the
    exception raised) is what processing all the k-vectors in one batch
    returns: the chunk boundaries do not show in the result. *)
Theorem C2_chunk_size_transparent self k_points_mags k_vectors_3d
    basis_atom_indices basis_atom_types summation_mode k_grid_shape
    (k_chunk_size : Z) :
  value (calculate self k_points_mags k_vectors_3d basis_atom_indices
                   basis_atom_types summation_mode k_grid_shape k_chunk_size) =
  value (calculate_one_batch self k_points_mags k_vectors_3d
                   basis_atom_indices basis_atom_types summation_mode
                   k_grid_shape).
Proof. apply calculate_value. Qed.

(* ------------------------------------------------------------------ *)
(** ** Atom groups                                                     *)
(* ------------------------------------------------------------------ *)

Lemma type_groups_value types processed acc :
  value (type_groups types processed acc) =
  Ok (acc ++ filter nonempty (map (atoms_of_types types) processed)).
Proof.
  unfold type_groups. revert acc.
  induction processed as [|tg rest IH]; intros acc; cbn [for_each map filter].
  - cbn. now rewrite app_nil_r.
  - fold (atoms_of_types types tg). unfold nonempty at 1.
    destruct (0 <? List.length (atoms_of_types types tg))%nat.
    + rewrite value_bind. cbn [value ret snd]. rewrite IH.
      now rewrite <- app_assoc.
    + rewrite value_bind, value_bind. cbn [value warn ret snd]. apply IH.
Qed.

Lemma where_from_nil start mask :
  where_from start mask = [] <-> forallb negb mask = true.
Proof.
  revert start. induction mask as [|b mask IH]; intros start; cbn.
  - tauto.
  - destruct b; cbn; [split; discriminate|]. apply IH.
Qed.

Lemma where_from_ext start m1 m2 :
  m1 = m2 -> where_from start m1 = where_from start m2.
Proof. now intros ->. Qed.

Lemma atoms_of_types_nil types tg :
  atoms_of_types types tg = [] <->
  (forall x, In x types -> ~ In x tg).
Proof.
  unfold atoms_of_types, np_where, np_isin. rewrite where_from_nil.
  rewrite forallb_forall. split.
  - intros H x Hx Hin.
    assert (E : existsb (Z.eqb x) tg = true).
    { apply existsb_exists. exists x. split; auto. apply Z.eqb_refl. }
    assert (Hm : In true (map (fun x => existsb (Z.eqb x) tg) types)).
    { apply in_map_iff. exists x. auto. }
    specialize (H true Hm). discriminate.
  - intros H b Hb. apply in_map_iff in Hb. destruct Hb as (x & <- & Hx).
    apply negb_true_iff. destruct (existsb _ _) eqn:E; auto.
    apply existsb_exists in E. destruct E as (y & Hy & Hxy).
    apply Z.eqb_eq in Hxy. subst y. exfalso. eapply H; eauto.
Qed.

Lemma nonempty_false {A} (l : list A) : nonempty l = false <-> l = [].
Proof. unfold nonempty. destruct l; cbn; split; auto; discriminate. Qed.

(** When the types of a flat list are taken one by one and at most one of
    them (counted with its repetitions) labels any atom, the atoms of that
    type are the atoms of all the listed types together. *)
Lemma single_type_group types ts :
  match filter nonempty (map (fun t => atoms_of_types types [t]) ts) with
  | [] => atoms_of_types types ts = []
  | [g] => atoms_of_types types ts = g
  | _ => True
  end.
Proof.
  induction ts as [|t ts IH]; cbn [map filter].
  - apply atoms_of_types_nil. intros x _ [].
  - destruct (nonempty (atoms_of_types types [t])) eqn:Ht.
    + destruct (filter _ _) as [|g rest] eqn:Hf; [|exact I].
      rewrite atoms_of_types_nil in IH.
      unfold atoms_of_types, np_where. apply where_from_ext.
      unfold np_isin. apply map_ext_in. intros x Hx. cbn [existsb].
      destruct (existsb (Z.eqb x) ts) eqn:E; [|reflexivity].
      apply existsb_exists in E. destruct E as (y & Hy & Hxy).
      apply Z.eqb_eq in Hxy. subst y. exfalso. eapply IH; eauto.
    + apply nonempty_false in Ht. rewrite atoms_of_types_nil in Ht.
      assert (E : atoms_of_types types (t :: ts) = atoms_of_types types ts).
      { unfold atoms_of_types, np_where. apply where_from_ext.
        unfold np_isin. apply map_ext_in. intros x Hx. cbn [existsb].
        destruct (Z.eqb x t) eqn:Ext; [|reflexivity].
        apply Z.eqb_eq in Ext. subst t. exfalso. apply (Ht x Hx). now left. }
      rewrite E. exact IH.
Qed.

(** The groups of a call, before the fall-back to all the atoms. *)
Lemma determine_atom_groups_value self bi bt mode :
  value (determine_atom_groups self bi bt mode) =
  match
    match bt with
    | Some b =>
        match value (processed_basis_atom_types b mode) with
        | Ok p => Ok (filter nonempty
                        (map (atoms_of_types (types (traj self))) p))
        | Raise e => Raise e
        end
    | None =>
        match bi with
        | Some b => value (processed <- processed_basis_atom_indices b ;;
                           index_groups (n_atoms (traj self)) processed [])
        | None => Ok []
        end
    end
  with
  | Ok groups =>
      Ok (if (List.length groups =? 0)%nat
          then groups ++ [arange (n_atoms (traj self))] else groups)
  | Raise e => Raise e
  end.
Proof.
  unfold determine_atom_groups. rewrite value_bind.
  destruct bt as [b|].
  - rewrite value_bind.
    assert (Hw : value (match bi with
                        | Some _ => warn "Both basis_atom_types and basis_atom_indices provided. Using basis_atom_types."
                        | None => ret tt
                        end) = Ok tt) by (destruct bi; reflexivity).
    rewrite Hw, value_bind.
    destruct (value (processed_basis_atom_types b mode)) as [p|e]; [|reflexivity].
    rewrite type_groups_value. cbn [app].
    destruct (List.length _ =? 0)%nat; reflexivity.
  - destruct bi as [b|].
    + destruct (value (_ <- processed_basis_atom_indices b ;; _)) as [groups|e];
        [|reflexivity].
      destruct (List.length _ =? 0)%nat; reflexivity.
    + reflexivity.
Qed.

Lemma filter_nonempty_In {A} (g : list A) l rest :
  filter nonempty l = g :: rest -> nonempty g = true.
Proof.
  intros H. assert (Hin : In g (filter nonempty l)) by (rewrite H; now left).
  apply filter_In in Hin. tauto.
Qed.

(** A selection that gives one group in incoherent mode gives the same
    group in coherent mode. *)
Lemma single_group_both_modes self bi bt g :
  value (determine_atom_groups self bi bt "incoherent") = Ok [g] ->
  value (determine_atom_groups self bi bt "coherent") = Ok [g].
Proof.
  rewrite !determine_atom_groups_value.
  destruct bt as [b|]; [|auto].
  destruct b as [items|t|nd data|]; cbn [processed_basis_atom_types]; auto.
  destruct (0 <? List.length items)%nat; auto.
  destruct (forallb is_list items); auto.
  destruct (forallb is_int items); auto.
  cbn [String.eqb Ascii.eqb Bool.eqb value ret snd map filter].
  rewrite map_map.
  set (tys := types (traj self)).
  pose proof (single_type_group tys (map as_int items)) as H.
  rewrite map_map in H.
  destruct (filter nonempty _) as [|g1 [|g2 rest]] eqn:Hf.
  - rewrite H. cbn. auto.
  - rewrite H. rewrite (filter_nonempty_In g1 _ [] Hf). cbn. auto.
  - cbn. intros E. discriminate E.
Qed.

Lemma calculate_one_batch_single_group self kp ks bi bt mode gs g :
  (mode = "coherent" \/ mode = "incoherent") ->
  value (determine_atom_groups self bi bt mode) = Ok [g] ->
  exists arr,
    value (calculate_one_batch self kp ks bi bt mode gs) =
    Ok {| sed := ComplexArr arr;
          freqs := if ((n_frames (traj self) =? 0)
                       || (n_atoms (traj self) =? 0))%nat then []
                   else fftfreq (n_frames (traj self)) (dt_ps self);
          k_points := kp; k_vectors := ks; k_grid_shape := gs;
          is_complex := true; phase := None |} /\
    arr = if ((n_frames (traj self) =? 0) || (n_atoms (traj self) =? 0))%nat
          then empty_grid 0
          else if (List.length g =? 0)%nat
          then zeros pol3_zero
                     (List.length (fftfreq (n_frames (traj self)) (dt_ps self)))
                     (List.length ks)
          else one_batch (fun ks' => _calculate_sed_for_group self ks' g
                                       (mean_axis0 (positions (traj self))))
                         pol3_zero
                         (List.length (fftfreq (n_frames (traj self)) (dt_ps self)))
                         ks.
Proof.
  intros Hmode Hg. unfold calculate_one_batch.
  assert (Hm : negb (String.eqb mode "coherent" || String.eqb mode "incoherent")
               = false) by (destruct Hmode; subst mode; reflexivity).
  rewrite Hm.
  destruct ((n_frames (traj self) =? 0) || (n_atoms (traj self) =? 0))%nat
    eqn:Hdeg.
  - eexists. split; reflexivity.
  - rewrite value_bind, Hg.
    cbn [List.length Nat.leb]. rewrite orb_true_r.
    apply orb_false_iff in Hdeg. destruct Hdeg as [Hnt _].
    apply Nat.eqb_neq in Hnt.
    replace (0 <? n_frames (traj self))%nat with true
      by (symmetry; apply Nat.ltb_lt; lia).
    cbn [final_group_indices List.length Nat.ltb Nat.leb].
    eexists. split; reflexivity.
Qed.

(** C3.  When the basis selection yields exactly one atom group, the
    incoherent and the coherent call both return, and return the same
    complex per-polarisation result (the coherent path is taken in both
    modes), so that the total power, the squared magnitude summed over the
    polarisation axis, is the same at every (frequency, k) index. *)
Theorem C3_single_group_modes_agree self k_points_mags k_vectors_3d
    basis_atom_indices basis_atom_types k_grid_shape k_chunk_size g :
  value (determine_atom_groups self basis_atom_indices basis_atom_types
                               "incoherent") = Ok [g] ->
  exists incoherent coherent,
    value (calculate self k_points_mags k_vectors_3d basis_atom_indices
             basis_atom_types "incoherent" k_grid_shape k_chunk_size)
      = Ok incoherent /\
    value (calculate self k_points_mags k_vectors_3d basis_atom_indices
             basis_atom_types "coherent" k_grid_shape k_chunk_size)
      = Ok coherent /\
    is_complex incoherent = true /\ is_complex coherent = true /\
    incoherent = coherent /\
    total_power (sed coherent) = total_power (sed incoherent).
Proof.
  intros Hinc. pose proof (single_group_both_modes _ _ _ _ Hinc) as Hcoh.
  rewrite !calculate_value.
  destruct (calculate_one_batch_single_group self k_points_mags k_vectors_3d
              basis_atom_indices basis_atom_types "incoherent" k_grid_shape g)
    as (arr1 & E1 & A1); auto.
  destruct (calculate_one_batch_single_group self k_points_mags k_vectors_3d
              basis_atom_indices basis_atom_types "coherent" k_grid_shape g)
    as (arr2 & E2 & A2); auto.
  rewrite E1, E2. subst arr1 arr2.
  do 2 eexists. repeat split; reflexivity.
Qed.

(** The two calls on the two-atom trajectory with the types [1, 3], of
    which only type 1 labels an atom. *)
Lemma C3_single_group_modes_agree_witness :
  exists incoherent coherent,
    value (calculate two_atom_calc [0] [(0, 0, 0)] None
             (Some (BList [PyInt 1; PyInt 3])) "incoherent" None 500)
      = Ok incoherent /\
    value (calculate two_atom_calc [0] [(0, 0, 0)] None
             (Some (BList [PyInt 1; PyInt 3])) "coherent" None 500)
      = Ok coherent /\
    is_complex incoherent = true /\ is_complex coherent = true /\
    incoherent = coherent /\
    total_power (sed coherent) = total_power (sed incoherent).
Proof.
  apply (C3_single_group_modes_agree two_atom_calc [0] [(0, 0, 0)] None
           (Some (BList [PyInt 1; PyInt 3])) None 500 [0%Z]).
  reflexivity.
Defined.

(* ------------------------------------------------------------------ *)
(** ** Both basis arguments given                                      *)
(* ------------------------------------------------------------------ *)

Lemma bind_assoc {A B D} (m : M A) (f : A -> M B) (g : B -> M D) :
  bind (bind m f) g = bind m (fun a => bind (f a) g).
Proof.
  destruct m as [l [a|e]]; cbn; auto.
  destruct (f a) as [l2 [b|e]]; cbn; auto.
  - destruct (g b) as [l3 r]. now rewrite app_assoc.
Qed.

Lemma bind_warn {A} msg (m : M A) :
  bind (warn msg) (fun _ => m) = (Warning msg :: fst m, snd m).
Proof. unfold bind, warn. now destruct m. Qed.

Lemma bind_cons {A B} (r : log_record) (m : M A) (k : A -> M B) :
  bind (r :: fst m, snd m) k = (r :: fst (bind m k), snd (bind m k)).
Proof.
  destruct m as [l [a|e]]; cbn; auto. now destruct (k a).
Qed.

Lemma bind_ret_l {A B} (a : A) (k : A -> M B) : bind (ret a) k = k a.
Proof. unfold bind, ret. now destruct (k a). Qed.

Lemma determine_atom_groups_both self bi bt mode :
  determine_atom_groups self (Some bi) (Some bt) mode =
  (both_basis_warning :: fst (determine_atom_groups self None (Some bt) mode),
   snd (determine_atom_groups self None (Some bt) mode)).
Proof.
  unfold determine_atom_groups, both_basis_warning.
  rewrite !bind_assoc, bind_warn, bind_ret_l. reflexivity.
Qed.

(** C4 (as the code has it).  When both basis arguments are given, the
    type labels take precedence: the call returns what the call without
    basis_atom_indices returns (the indices are not even validated), and
    its log is the log of that call with one more record, the warning of
    the conflict, unless the call ends before the basis is looked at (an
    invalid summation mode, no frames or no atoms). *)
Theorem C4_types_take_precedence self k_points_mags k_vectors_3d
    basis_atom_indices basis_atom_types summation_mode k_grid_shape
    k_chunk_size :
  let both := calculate self k_points_mags k_vectors_3d
                (Some basis_atom_indices) (Some basis_atom_types)
                summation_mode k_grid_shape k_chunk_size in
  let types_only := calculate self k_points_mags k_vectors_3d
                None (Some basis_atom_types)
                summation_mode k_grid_shape k_chunk_size in
  value both = value types_only /\
  logged both =
    if negb (String.eqb summation_mode "coherent"
             || String.eqb summation_mode "incoherent")
       || ((n_frames (traj self) =? 0) || (n_atoms (traj self) =? 0))%nat
    then logged types_only
    else both_basis_warning :: logged types_only.
Proof.
  cbv zeta. unfold calculate.
  destruct (negb _); [cbn; auto|].
  destruct ((n_frames (traj self) =? 0) || (n_atoms (traj self) =? 0))%nat;
    [cbn; auto|].
  cbn [orb]. rewrite determine_atom_groups_both, bind_cons.
  unfold value, logged. cbn [fst snd]. auto.
Qed.

(** C4 (the claim fails).  On the two-atom trajectory, with indices [0] and
    types [2] both given, the group is atom 1 (from the types), not atom 0;
    and with the out-of-range indices [5] beside the types [2] the call
    returns, where the call with these indices alone raises. *)
Lemma C4_indices_do_not_take_precedence :
  value (determine_atom_groups two_atom_calc (Some (BList [PyInt 0]))
           (Some (BList [PyInt 2])) "coherent") = Ok [[1%Z]] /\
  value (determine_atom_groups two_atom_calc (Some (BList [PyInt 0]))
           None "coherent") = Ok [[0%Z]] /\
  value (calculate two_atom_calc [0] [(0, 0, 0)] (Some (BList [PyInt 5]))
           (Some (BList [PyInt 2])) "coherent" None 500) <>
  value (calculate two_atom_calc [0] [(0, 0, 0)] (Some (BList [PyInt 5]))
           None "coherent" None 500).
Proof.
  split; [reflexivity|]. split; [reflexivity|].
  rewrite !calculate_value. unfold calculate_one_batch.
  cbn [String.eqb Ascii.eqb Bool.eqb orb negb].
  change ((n_frames (traj two_atom_calc) =? 0)
          || (n_atoms (traj two_atom_calc) =? 0))%nat with false.
  cbv iota. rewrite !value_bind.
  assert (E1 : value (determine_atom_groups two_atom_calc
                        (Some (BList [PyInt 5])) (Some (BList [PyInt 2]))
                        "coherent") = Ok [[1%Z]]) by reflexivity.
  assert (E2 : value (determine_atom_groups two_atom_calc
                        (Some (BList [PyInt 5])) None "coherent") =
               Raise (ValueError "Atom indices in basis out of bounds."))
    by reflexivity.
  rewrite E1, E2. cbn [value ret snd]. discriminate.
Qed.

(* ------------------------------------------------------------------ *)
(** ** A flat list of types is grouped according to the mode           *)
(* ------------------------------------------------------------------ *)

Lemma forallb_is_int_PyInt l : forallb is_int (map PyInt l) = true.
Proof. induction l; cbn; auto. Qed.

Lemma map_as_int_PyInt l : map as_int (map PyInt l) = l.
Proof. induction l; cbn; f_equal; auto. Qed.

Lemma processed_types_flat t ts :
  value (processed_basis_atom_types (BList (map PyInt (t :: ts))) "incoherent")
    = Ok (map (fun x => [x]) (t :: ts)) /\
  value (processed_basis_atom_types (BList (map PyInt (t :: ts))) "coherent")
    = Ok [t :: ts].
Proof.
  unfold processed_basis_atom_types.
  rewrite forallb_is_int_PyInt.
  cbn [map List.length Nat.ltb Nat.leb forallb is_list andb
       String.eqb Ascii.eqb Bool.eqb as_int value ret snd].
  rewrite map_as_int_PyInt, map_map. cbn [as_int]. split; reflexivity.
Qed.

(** C10.  A flat list of integer types [t :: ts] given as basis_atom_types
    is read as one type group per listed type in incoherent mode and as a
    single group of all the listed types in coherent mode; the atom groups
    of the call follow (type groups without atoms being dropped, all atoms
    taken when none is left).  On the two-atom trajectory the selector
    [1, 2] so denotes the groups [0], [1] in incoherent mode and the one
    group [0, 1] in coherent mode. *)
Theorem C10_flat_types_grouping_depends_on_mode self t ts :
  let basis := BList (map PyInt (t :: ts)) in
  let labels := types (traj self) in
  let fallback (groups : list (list Z)) :=
    if (List.length groups =? 0)%nat
    then groups ++ [arange (n_atoms (traj self))] else groups in
  value (processed_basis_atom_types basis "incoherent")
    = Ok (map (fun x => [x]) (t :: ts)) /\
  value (processed_basis_atom_types basis "coherent") = Ok [t :: ts] /\
  value (determine_atom_groups self None (Some basis) "incoherent")
    = Ok (fallback (filter nonempty
                      (map (fun x => atoms_of_types labels [x]) (t :: ts)))) /\
  value (determine_atom_groups self None (Some basis) "coherent")
    = Ok (fallback (filter nonempty [atoms_of_types labels (t :: ts)])) /\
  value (determine_atom_groups two_atom_calc None
           (Some (BList [PyInt 1; PyInt 2])) "incoherent")
    = Ok [[0%Z]; [1%Z]] /\
  value (determine_atom_groups two_atom_calc None
           (Some (BList [PyInt 1; PyInt 2])) "coherent")
    = Ok [[0%Z; 1%Z]].
Proof.
  cbv zeta. destruct (processed_types_flat t ts) as [Hi Hc].
  split; [exact Hi|]. split; [exact Hc|].
  rewrite !determine_atom_groups_value, Hi, Hc, map_map.
  repeat split; reflexivity.
Qed.

(* ------------------------------------------------------------------ *)
(** ** The shape of the result                                         *)
(* ------------------------------------------------------------------ *)

Lemma one_batch_shape {A} (T : list vec3 -> grid A) z nf ks :
  dim0 (one_batch T z nf ks) = nf /\
  dim1 (one_batch T z nf ks) = List.length ks.
Proof. unfold one_batch. destruct (_ =? _)%nat; cbn; auto. Qed.

Lemma fftfreq_length n d : (1 <= n)%nat -> List.length (fftfreq n d) = n.
Proof.
  intros Hn. unfold fftfreq. rewrite length_map, length_app, !length_map, !length_seq.
  assert (H : ((n - 1) / 2 + 1 <= n)%nat).
  { pose proof (Nat.div_mod_eq (n - 1) 2).
    pose proof (Nat.mod_upper_bound (n - 1) 2). lia. }
  lia.
Qed.

Lemma linspace_length a b n : List.length (linspace a b n) = n.
Proof.
  destruct n as [|[|n]]; cbn [linspace List.length]; auto.
  rewrite length_app, length_map, length_seq. cbn. lia.
Qed.

Lemma flat_map_length_const {A B} (f : A -> list B) l n :
  (forall a, List.length (f a) = n) ->
  List.length (flat_map f l) = (List.length l * n)%nat.
Proof.
  intros H. induction l as [|a l IH]; cbn; auto.
  rewrite length_app, H, IH. lia.
Qed.

(** A grid of k-vectors has rows x cols vectors and carries that shape. *)
Lemma get_k_grid_shape plane rx ry n_kx n_ky k_fixed :
  match value (get_k_grid plane rx ry n_kx n_ky k_fixed) with
  | Ok (mags, vecs, shape) =>
      mags = [] /\ shape = (n_kx, n_ky) /\ (0 < n_kx)%Z /\ (0 < n_ky)%Z /\
      Z.of_nat (List.length vecs) = (n_kx * n_ky)%Z
  | Raise _ =>
      (n_kx <= 0)%Z \/ (n_ky <= 0)%Z \/
      (lower plane <> "xy" /\ lower plane <> "yz" /\ lower plane <> "zx")
  end.
Proof.
  unfold get_k_grid.
  destruct (n_kx <=? 0)%Z eqn:Hx; [cbn; left; now apply Z.leb_le|].
  destruct (n_ky <=? 0)%Z eqn:Hy; [cbn; right; left; now apply Z.leb_le|].
  apply Z.leb_gt in Hx, Hy. cbn [orb]. rewrite value_bind.
  assert (L : forall (f : R -> R -> vec3),
             Z.of_nat (List.length
               (flat_map (fun u => map (f u)
                    (linspace (fst ry) (snd ry) (Z.to_nat n_ky)))
                  (linspace (fst rx) (snd rx) (Z.to_nat n_kx)))) =
             (n_kx * n_ky)%Z).
  { intros f.
    rewrite (flat_map_length_const _ _ (Z.to_nat n_ky))
      by (intros; now rewrite length_map, linspace_length).
    rewrite linspace_length. lia. }
  destruct (String.eqb (lower plane) "xy") eqn:E1.
  { cbn. repeat split; auto; try lia. }
  destruct (String.eqb (lower plane) "yz") eqn:E2.
  { cbn. repeat split; auto; try lia. }
  destruct (String.eqb (lower plane) "zx") eqn:E3.
  { cbn. repeat split; auto; try lia. }
  cbn. right. right. apply String.eqb_neq in E1, E2, E3. auto.
Qed.

(** C8 (as the code has it).  A call of [calculate] raises only for an
    invalid summation mode or, on a trajectory with frames and atoms, for
    an invalid basis.  The entity it returns carries the k magnitudes,
    k-vectors and grid shape it was given, and the first axis of its
    amplitude array is as long as its frequency axis.  On a trajectory with
    frames and atoms the frequency axis has one entry per frame and the
    k-axis one entry per k-vector supplied.  Without frames or without
    atoms the entity is the empty one: amplitude array of shape (0, 0, 3)
    and empty frequency axis, whatever the number of k-vectors.  The
    k-vectors [get_k_grid] returns are rows x cols in number, for the grid
    shape (rows, cols) it returns with them. *)
Theorem C8_shape_of_result self k_points_mags k_vectors_3d basis_atom_indices
    basis_atom_types summation_mode grid_shape k_chunk_size :
  (let valid_mode := String.eqb summation_mode "coherent"
                    || String.eqb summation_mode "incoherent" in
  let degenerate := ((n_frames (traj self) =? 0)
                     || (n_atoms (traj self) =? 0))%nat in
  match value (calculate self k_points_mags k_vectors_3d basis_atom_indices
                 basis_atom_types summation_mode grid_shape k_chunk_size) with
  | Ok r =>
      valid_mode = true /\
      k_points r = k_points_mags /\ k_vectors r = k_vectors_3d /\
      k_grid_shape r = grid_shape /\
      sed_dim0 (sed r) = List.length (freqs r) /\
      if degenerate then
        sed r = ComplexArr (empty_grid 0) /\ freqs r = [] /\
        sed_dim0 (sed r) = 0%nat /\ sed_dim1 (sed r) = 0%nat
      else
        List.length (freqs r) = n_frames (traj self) /\
        sed_dim1 (sed r) = List.length (k_vectors r)
  | Raise e =>
      valid_mode = false \/
      (degenerate = false /\
       value (determine_atom_groups self basis_atom_indices basis_atom_types
                                    summation_mode) = Raise e)
  end) /\
  forall plane k_range_x k_range_y n_kx n_ky k_fixed_val,
    match value (get_k_grid plane k_range_x k_range_y n_kx n_ky k_fixed_val) with
    | Ok (mags, vecs, shape) =>
        shape = (n_kx, n_ky) /\
        Z.of_nat (List.length vecs) = (fst shape * snd shape)%Z
    | Raise _ => True
    end.
Proof.
  split.
  2:{ intros plane rx ry n_kx n_ky kf.
      pose proof (get_k_grid_shape plane rx ry n_kx n_ky kf) as H.
      destruct (value (get_k_grid plane rx ry n_kx n_ky kf)) as [[[m v] sh]|e];
        [|exact I].
      destruct H as (_ & -> & _ & _ & H). now split. }
  cbv zeta. rewrite calculate_value. unfold calculate_one_batch.
  destruct (String.eqb summation_mode "coherent"
            || String.eqb summation_mode "incoherent")%bool eqn:Hmode;
    cbn [negb]; [|cbn; auto].
  destruct ((n_frames (traj self) =? 0) || (n_atoms (traj self) =? 0))%nat
    eqn:Hdeg.
  - cbn. repeat split; reflexivity.
  - rewrite value_bind.
    destruct (value (determine_atom_groups _ _ _ _)) as [groups|e]; [|auto].
    apply orb_false_iff in Hdeg. destruct Hdeg as [Hnt _].
    apply Nat.eqb_neq in Hnt.
    replace (0 <? n_frames (traj self))%nat with true
      by (symmetry; apply Nat.ltb_lt; lia).
    cbn [value ret snd k_points k_vectors k_grid_shape sed freqs].
    rewrite fftfreq_length by lia.
    repeat split; auto;
      destruct (String.eqb summation_mode "coherent"
                || (List.length groups <=? 1)%nat)%bool;
      cbn [sed_dim0 sed_dim1];
      try destruct (List.length (final_group_indices groups) =? 0)%nat;
      try apply one_batch_shape; reflexivity.
Qed.

(** C8 (the claim fails).  On a trajectory without frames, a call with two
    k-vectors returns an entity whose amplitude array has a k-axis of
    length 0, not 2. *)
Lemma C8_no_frame_k_axis_mismatch :
  exists r,
    value (calculate no_frame_calc [0; 1] [(0, 0, 0); (1, 0, 0)] None None
             "coherent" None 500) = Ok r /\
    sed_dim1 (sed r) = 0%nat /\ List.length (k_vectors r) = 2%nat /\
    sed_dim1 (sed r) <> List.length (k_vectors r).
Proof.
  eexists. split; [reflexivity|]. cbn. repeat split; auto.
Qed.

(* ------------------------------------------------------------------ *)
(** ** The k-path                                                      *)
(* ------------------------------------------------------------------ *)

Lemma get_k_path_value self d bz n_k lat :
  value (get_k_path self d bz n_k lat) =
  match value (parse_direction d) with
  | Raise e => Raise e
  | Ok u =>
      match recip_extent_of self u lat with
      | None => Raise (ValueError "Invalid/small lattice_param for k-path & reciprocal projections too small for auto-detection.")
      | Some extent =>
          if (n_k <? 1)%Z then Raise (ValueError "n_k (k-points) must be >= 1.")
          else Ok (k_mags_of (bz * extent) n_k,
                   outer (k_mags_of (bz * extent) n_k) u)
      end
  end.
Proof.
  unfold get_k_path. rewrite value_bind.
  destruct (value (parse_direction d)) as [u|e]; [|reflexivity].
  rewrite value_bind. unfold recip_extent_of.
  destruct (match lat with None => true | Some l => Rleb l 1e-6 end).
  - destruct (Rgtb _ 1e-6).
    + cbn [value ret snd]. destruct (n_k <? 1)%Z; reflexivity.
    + destruct (Rgtb _ 1e-6).
      * rewrite value_bind. cbn [value warn ret snd].
        destruct (n_k <? 1)%Z; reflexivity.
      * reflexivity.
  - cbn [value ret snd]. destruct (n_k <? 1)%Z; reflexivity.
Qed.

Lemma Rgtb_true x y : Rgtb x y = true <-> y < x.
Proof. apply Rltb_true. Qed.

Lemma list_max_ge x l : x <= list_max x l.
Proof.
  unfold list_max. revert x. induction l as [|y l IH]; intros x; cbn; [lra|].
  eapply Rle_trans; [apply Rmax_l | apply IH].
Qed.

(** The reciprocal extent is positive. *)
Lemma recip_extent_pos self u lat extent :
  recip_extent_of self u lat = Some extent -> 0 < extent.
Proof.
  unfold recip_extent_of. pose proof PI_RGT_0 as Hpi.
  destruct lat as [l|].
  - destruct (Rleb l 1e-6) eqn:Hl.
    + destruct (Rgtb _ 1e-6) eqn:Hm.
      * intros H; injection H as <-. apply Rgtb_true in Hm.
        unfold list_max in *; cbn [fold_left] in *. lra.
      * destruct (Rgtb (norm (a1 self)) 1e-6) eqn:Hn; [|intros H0; discriminate H0].
        intros H; injection H as <-. apply Rgtb_true in Hn.
        apply Rdiv_lt_0_compat; lra.
    + intros H; injection H as <-. apply Rleb_false in Hl.
      apply Rdiv_lt_0_compat; lra.
  - destruct (Rgtb _ 1e-6) eqn:Hm.
    + intros H; injection H as <-. apply Rgtb_true in Hm.
      unfold list_max in *; cbn [fold_left] in *. lra.
    + destruct (Rgtb (norm (a1 self)) 1e-6) eqn:Hn; [|intros H0; discriminate H0].
      intros H; injection H as <-. apply Rgtb_true in Hn.
      apply Rdiv_lt_0_compat; lra.
Qed.

Lemma non_decreasing_app_last l x :
  non_decreasing l -> (forall y, In y l -> y <= x) -> non_decreasing (l ++ [x]).
Proof.
  induction l as [|a l IH]; intros Hl Hx; [exact I|].
  destruct l as [|b l].
  - cbn. split; auto. apply Hx. now left.
  - destruct Hl as [Hab Hl]. change (a <= b /\ non_decreasing ((b :: l) ++ [x])).
    split; auto. apply IH; auto. intros y Hy. apply Hx. now right.
Qed.

Lemma non_decreasing_map_seq (f : nat -> R) s n :
  (forall i, f i <= f (S i)) -> non_decreasing (map f (seq s n)).
Proof.
  intros Hf. revert s. induction n as [|n IH]; intros s; cbn; auto.
  destruct n as [|n]; cbn; auto. split; [apply Hf|]. apply (IH (S s)).
Qed.

Lemma linspace_non_decreasing stop n :
  0 <= stop -> non_decreasing (linspace 0 stop n).
Proof.
  intros Hs. destruct n as [|[|n]]; cbn [linspace non_decreasing]; auto.
  set (n1 := S n).
  assert (Hn1 : 0 < INR n1) by (apply lt_0_INR; subst n1; lia).
  assert (Hstep : 0 <= (stop - 0) / INR n1).
  { apply Rmult_le_pos; [lra|]. left. now apply Rinv_0_lt_compat. }
  apply non_decreasing_app_last.
  - apply non_decreasing_map_seq. intros i. rewrite S_INR. nra.
  - intros y Hy. apply in_map_iff in Hy. destruct Hy as (i & <- & Hi).
    apply in_seq in Hi.
    assert (Hi' : INR i <= INR n1) by (apply le_INR; lia).
    replace stop with (0 + INR n1 * ((stop - 0) / INR n1)) at 2
      by (field; lra).
    nra.
Qed.

Lemma linspace_first stop n :
  (2 <= n)%nat -> nth 0 (linspace 0 stop n) 0 = 0.
Proof.
  intros Hn. destruct n as [|[|n]]; try lia. cbn. lra.
Qed.

Lemma linspace_last start stop n :
  (2 <= n)%nat -> last (linspace start stop n) 0 = stop.
Proof.
  intros Hn. destruct n as [|[|n]]; try lia.
  cbn [linspace]. apply last_last.
Qed.

Lemma dot_self_nonneg v : 0 <= dot v v.
Proof. destruct v as [[x y] z]. cbn. nra. Qed.

Lemma norm_nonneg v : 0 <= norm v.
Proof. apply sqrt_pos. Qed.

Lemma norm_vscale m u : norm (vscale m u) = Rabs m * norm u.
Proof.
  unfold norm. destruct u as [[x y] z]. cbn [vscale dot].
  replace (m * x * (m * x) + m * y * (m * y) + m * z * (m * z))
    with (m² * (x * x + y * y + z * z)) by (unfold Rsqr; ring).
  rewrite sqrt_mult; [|apply Rle_0_sqr | nra].
  now rewrite sqrt_Rsqr_abs.
Qed.

Lemma norm_vdiv_self v : norm v <> 0 -> norm (vdiv v (norm v)) = 1.
Proof.
  intros Hn. unfold norm at 1. 
  assert (E : dot (vdiv v (norm v)) (vdiv v (norm v)) = 1).
  { pose proof (sqrt_sqrt (dot v v) (dot_self_nonneg v)) as Hs.
    fold (norm v) in Hs. destruct v as [[x y] z]. cbn [vdiv dot] in *.
    set (n := norm (x, y, z)) in *.
    replace (x / n * (x / n) + y / n * (y / n) + z / n * (z / n))
      with ((x * x + y * y + z * z) / (n * n)) by (field; exact Hn).
    rewrite <- Hs. field. exact Hn. }
  rewrite E. apply sqrt_1.
Qed.

(** The direction of the modelled helper is a unit vector. *)
Lemma parse_direction_unit d u :
  value (parse_direction d) = Ok u -> norm u = 1.
Proof.
  unfold parse_direction. rewrite value_bind.
  destruct (value (SDA.parse_direction d)) as [vec|e] eqn:E; [|discriminate].
  cbn [value ret snd]. intros H; injection H as <-.
  apply norm_vdiv_self.
  unfold SDA.parse_direction in E. rewrite value_bind in E.
  match type of E with
  | match value ?m with _ => _ end = _ => destruct (value m) as [w|e']
  end; [|discriminate].
  destruct (Rltb (norm w) 1e-10) eqn:Hw; [discriminate|].
  cbn in E. injection E as <-. apply Rltb_false in Hw. lra.
Qed.

Lemma k_mags_of_length k_max n_k :
  (1 <= n_k)%Z -> List.length (k_mags_of k_max n_k) = Z.to_nat n_k.
Proof.
  intros Hn. unfold k_mags_of. destruct (1 <? n_k)%Z eqn:E.
  - apply linspace_length.
  - apply Z.ltb_ge in E. cbn. lia.
Qed.

Lemma linspace_nonneg stop n x :
  0 <= stop -> In x (linspace 0 stop n) -> 0 <= x.
Proof.
  intros Hs. destruct n as [|[|n]]; cbn [linspace In].
  - tauto.
  - intros [<-|[]]. lra.
  - rewrite in_app_iff. intros [Hin|[<-|[]]]; [|exact Hs].
    apply in_map_iff in Hin. destruct Hin as (i & <- & _).
    assert (0 <= INR i) by apply pos_INR.
    assert (0 < INR (S n)) by (apply lt_0_INR; lia).
    assert (0 <= (stop - 0) / INR (S n)).
    { apply Rmult_le_pos; [lra|]. left. now apply Rinv_0_lt_compat. }
    nra.
Qed.

Lemma k_mags_of_nonneg k_max n_k x :
  0 <= k_max -> In x (k_mags_of k_max n_k) -> 0 <= x.
Proof.
  intros Hk. unfold k_mags_of. destruct (1 <? n_k)%Z.
  - now apply linspace_nonneg.
  - intros [<-|[]]. destruct (isclose k_max 0); lra.
Qed.

Lemma k_mags_of_non_decreasing k_max n_k :
  0 <= k_max -> non_decreasing (k_mags_of k_max n_k).
Proof.
  intros Hk. unfold k_mags_of. destruct (1 <? n_k)%Z.
  - now apply linspace_non_decreasing.
  - exact I.
Qed.

(** What a call of [get_k_path] that returns has computed. *)
Lemma get_k_path_returns self d bz n_k lat k_mags k_vecs :
  value (get_k_path self d bz n_k lat) = Ok (k_mags, k_vecs) ->
  exists u extent,
    value (parse_direction d) = Ok u /\
    recip_extent_of self u lat = Some extent /\
    (1 <= n_k)%Z /\
    k_mags = k_mags_of (bz * extent) n_k /\
    k_vecs = outer k_mags u.
Proof.
  rewrite get_k_path_value.
  destruct (value (parse_direction d)) as [u|e]; [|discriminate].
  destruct (recip_extent_of self u lat) as [extent|] eqn:Hext; [|discriminate].
  destruct (n_k <? 1)%Z eqn:Hn; [discriminate|].
  intros H; injection H as <- <-. apply Z.ltb_ge in Hn.
  exists u, extent. repeat split; auto.
Qed.

(** C6 (as the code has it).  For every call of [get_k_path] that returns,
    n_k >= 1 and the magnitude sequence has length n_k.  With [extent] the
    reciprocal extent of the call (2 pi over the lattice parameter given,
    or the auto-derived value; it is positive): when n_k > 1 the first
    magnitude is 0 and the last is bz_coverage * extent; when n_k = 1 the
    single magnitude is bz_coverage * extent, unless that value is within
    1e-8 of zero, in which case it is 0; and the sequence is non-decreasing
    when bz_coverage >= 0. *)
Theorem C6_k_path_magnitudes self d bz n_k lat k_mags k_vecs :
  value (get_k_path self d bz n_k lat) = Ok (k_mags, k_vecs) ->
  exists u extent,
    value (parse_direction d) = Ok u /\
    recip_extent_of self u lat = Some extent /\ 0 < extent /\
    (1 <= n_k)%Z /\
    List.length k_mags = Z.to_nat n_k /\
    ((1 < n_k)%Z -> nth 0 k_mags 0 = 0 /\ last k_mags 0 = bz * extent) /\
    (n_k = 1%Z ->
       k_mags = [if isclose (bz * extent) 0 then 0 else bz * extent]) /\
    (1e-8 < Rabs (bz * extent) -> last k_mags 0 = bz * extent) /\
    (0 <= bz -> non_decreasing k_mags).
Proof.
  intros H. apply get_k_path_returns in H.
  destruct H as (u & extent & Hu & Hext & Hn & -> & _).
  pose proof (recip_extent_pos _ _ _ _ Hext) as Hpos.
  exists u, extent. repeat split; auto.
  - now apply k_mags_of_length.
  - unfold k_mags_of. apply Z.ltb_lt in H. rewrite H.
    apply linspace_first. apply Z.ltb_lt in H. lia.
  - unfold k_mags_of. apply Z.ltb_lt in H. rewrite H.
    apply linspace_last. apply Z.ltb_lt in H. lia.
  - intros ->. reflexivity.
  - intros Hbig. unfold k_mags_of. destruct (1 <? n_k)%Z eqn:E.
    + apply linspace_last. apply Z.ltb_lt in E. lia.
    + apply isclose_0_false in Hbig. rewrite Hbig. reflexivity.
  - intros Hbz. apply k_mags_of_non_decreasing. nra.
Qed.

(** C5 (as the code has it).  For every call of [get_k_path] that returns,
    the direction has been normalised to a unit vector [u], there are as
    many k-vectors as magnitudes, the i-th k-vector is the i-th magnitude
    times [u], and its Euclidean norm is the absolute value of the i-th
    magnitude: the magnitude itself when bz_coverage >= 0. *)
Theorem C5_k_vectors_along_unit_direction self d bz n_k lat k_mags k_vecs :
  value (get_k_path self d bz n_k lat) = Ok (k_mags, k_vecs) ->
  exists u,
    value (parse_direction d) = Ok u /\ norm u = 1 /\
    (1 <= n_k)%Z /\
    List.length k_mags = Z.to_nat n_k /\
    List.length k_vecs = List.length k_mags /\
    forall i, (i < List.length k_mags)%nat ->
      nth i k_vecs vzero = vscale (nth i k_mags 0) u /\
      norm (nth i k_vecs vzero) = Rabs (nth i k_mags 0) /\
      (0 <= bz -> norm (nth i k_vecs vzero) = nth i k_mags 0).
Proof.
  intros H. apply get_k_path_returns in H.
  destruct H as (u & extent & Hu & Hext & Hn & -> & ->).
  pose proof (recip_extent_pos _ _ _ _ Hext) as Hpos.
  pose proof (parse_direction_unit _ _ Hu) as Hunit.
  exists u. repeat split; auto.
  - now apply k_mags_of_length.
  - unfold outer. apply length_map.
  - unfold outer.
    rewrite (nth_indep _ vzero (vscale 0 u)) by (now rewrite length_map).
    apply (map_nth (fun m => vscale m u)).
  - unfold outer.
    rewrite (nth_indep _ vzero (vscale 0 u)) by (now rewrite length_map).
    rewrite (map_nth (fun m => vscale m u)), norm_vscale, Hunit. ring.
  - intros Hbz. unfold outer.
    rewrite (nth_indep _ vzero (vscale 0 u)) by (now rewrite length_map).
    rewrite (map_nth (fun m => vscale m u)), norm_vscale, Hunit.
    rewrite Rabs_right; [ring|]. apply Rle_ge.
    apply (k_mags_of_nonneg (bz * extent) n_k); [nra|]. now apply nth_In.
Qed.

(** *** Calls along the x axis with lattice parameter 1 *)

Lemma norm_100 : norm (1, 0, 0) = 1.
Proof.
  unfold norm. cbn [dot].
  replace (1 * 1 + 0 * 0 + 0 * 0) with 1 by ring. apply sqrt_1.
Qed.

Lemma parse_direction_x : value (parse_direction (DirStr "x" None)) = Ok x_axis.
Proof.
  unfold parse_direction. rewrite value_bind.
  assert (E : value (SDA.parse_direction (DirStr "x" None)) = Ok (1, 0, 0)).
  { unfold SDA.parse_direction. rewrite value_bind.
    assert (L : lower "x" = "x") by reflexivity. rewrite L.
    cbn [String.eqb Ascii.eqb Bool.eqb value ret snd].
    replace (Rltb (norm (1, 0, 0)) 1e-10) with false; [reflexivity|].
    symmetry. apply Rltb_false. rewrite norm_100. lra. }
  rewrite E. reflexivity.
Qed.

Lemma recip_extent_lat_1 self u : recip_extent_of self u (Some 1) = Some (2 * PI / 1).
Proof.
  unfold recip_extent_of.
  replace (Rleb 1 1e-6) with false; [reflexivity|].
  symmetry. apply Rleb_false. lra.
Qed.

Lemma get_k_path_x self bz n_k :
  (1 <= n_k)%Z ->
  value (get_k_path self (DirStr "x" None) bz n_k (Some 1)) =
  Ok (k_mags_of (bz * (2 * PI / 1)) n_k,
      outer (k_mags_of (bz * (2 * PI / 1)) n_k) x_axis).
Proof.
  intros Hn. rewrite get_k_path_value, parse_direction_x, recip_extent_lat_1.
  replace (n_k <? 1)%Z with false; [reflexivity|].
  symmetry. apply Z.ltb_ge. lia.
Qed.

(** The path of three points along x, lattice parameter 1, full coverage. *)
Lemma C6_k_path_magnitudes_witness :
  exists u extent,
    value (parse_direction (DirStr "x" None)) = Ok u /\
    recip_extent_of two_atom_calc u (Some 1) = Some extent /\ 0 < extent /\
    (1 <= 3)%Z /\
    List.length (k_mags_of (1 * (2 * PI / 1)) 3) = Z.to_nat 3 /\
    ((1 < 3)%Z -> nth 0 (k_mags_of (1 * (2 * PI / 1)) 3) 0 = 0 /\
                  last (k_mags_of (1 * (2 * PI / 1)) 3) 0 = 1 * extent) /\
    (3%Z = 1%Z ->
       k_mags_of (1 * (2 * PI / 1)) 3 =
       [if isclose (1 * extent) 0 then 0 else 1 * extent]) /\
    (1e-8 < Rabs (1 * extent) ->
       last (k_mags_of (1 * (2 * PI / 1)) 3) 0 = 1 * extent) /\
    (0 <= 1 -> non_decreasing (k_mags_of (1 * (2 * PI / 1)) 3)).
Proof.
  apply (C6_k_path_magnitudes two_atom_calc (DirStr "x" None) 1 3 (Some 1)
           (k_mags_of (1 * (2 * PI / 1)) 3)
           (outer (k_mags_of (1 * (2 * PI / 1)) 3) x_axis)).
  apply get_k_path_x. lia.
Defined.

(** The same path, for its k-vectors. *)
Lemma C5_k_vectors_along_unit_direction_witness :
  exists u,
    value (parse_direction (DirStr "x" None)) = Ok u /\ norm u = 1 /\
    (1 <= 3)%Z /\
    List.length (k_mags_of (1 * (2 * PI / 1)) 3) = Z.to_nat 3 /\
    List.length (outer (k_mags_of (1 * (2 * PI / 1)) 3) x_axis) =
    List.length (k_mags_of (1 * (2 * PI / 1)) 3) /\
    forall i, (i < List.length (k_mags_of (1 * (2 * PI / 1)) 3))%nat ->
      nth i (outer (k_mags_of (1 * (2 * PI / 1)) 3) x_axis) vzero =
      vscale (nth i (k_mags_of (1 * (2 * PI / 1)) 3) 0) u /\
      norm (nth i (outer (k_mags_of (1 * (2 * PI / 1)) 3) x_axis) vzero) =
      Rabs (nth i (k_mags_of (1 * (2 * PI / 1)) 3) 0) /\
      (0 <= 1 ->
       norm (nth i (outer (k_mags_of (1 * (2 * PI / 1)) 3) x_axis) vzero) =
       nth i (k_mags_of (1 * (2 * PI / 1)) 3) 0).
Proof.
  apply (C5_k_vectors_along_unit_direction two_atom_calc (DirStr "x" None) 1 3
           (Some 1)).
  apply get_k_path_x. lia.
Defined.

(** C6 (the claim fails).  Along x with lattice parameter 1: with
    bz_coverage = -1 and n_k = 2 the call returns the magnitudes 0 and
    - 2 pi, a decreasing sequence; with bz_coverage = 1e-9 and n_k = 1 it
    returns the single magnitude 0, not bz_coverage times the reciprocal
    extent 2 pi. *)
Lemma C6_k_path_not_monotone_nor_exact :
  (exists k_mags k_vecs,
     value (get_k_path two_atom_calc (DirStr "x" None) (-1) 2 (Some 1)) =
       Ok (k_mags, k_vecs) /\
     k_mags = [0 + 0 * ((-1 * (2 * PI / 1) - 0) / 1); -1 * (2 * PI / 1)] /\
     ~ non_decreasing k_mags) /\
  (exists k_mags k_vecs,
     value (get_k_path two_atom_calc (DirStr "x" None) 1e-9 1 (Some 1)) =
       Ok (k_mags, k_vecs) /\
     k_mags = [0] /\
     last k_mags 0 <> 1e-9 * (2 * PI / 1)).
Proof.
  pose proof PI_RGT_0 as Hpi. pose proof PI_4 as Hpi4. split.
  - do 2 eexists. split; [apply get_k_path_x; lia|].
    split; [reflexivity|].
    change (k_mags_of (-1 * (2 * PI / 1)) 2)
      with [0 + 0 * ((-1 * (2 * PI / 1) - 0) / 1); -1 * (2 * PI / 1)].
    cbn [non_decreasing]. intros [H _]. lra.
  - do 2 eexists. split; [apply get_k_path_x; lia|].
    unfold k_mags_of. cbn [Z.ltb Z.compare Pos.compare].
    replace (isclose (1e-9 * (2 * PI / 1)) 0) with true.
    + split; [reflexivity|]. cbn. lra.
    + symmetry. apply isclose_0_true. rewrite Rabs_right; lra.
Qed.

(** C5 (the claim fails).  Along x with lattice parameter 1, bz_coverage
    = -1 and n_k = 2, the second magnitude is - 2 pi and the norm of the
    second k-vector is not: a norm is not negative. *)
Lemma C5_norm_is_not_negative_magnitude :
  exists k_mags k_vecs,
    value (get_k_path two_atom_calc (DirStr "x" None) (-1) 2 (Some 1)) =
      Ok (k_mags, k_vecs) /\
    nth 1 k_mags 0 = -1 * (2 * PI / 1) /\
    norm (nth 1 k_vecs vzero) <> nth 1 k_mags 0.
Proof.
  pose proof PI_RGT_0 as Hpi.
  do 2 eexists. split; [apply get_k_path_x; lia|].
  split; [reflexivity|].
  pose proof (norm_nonneg (nth 1 (outer (k_mags_of (-1 * (2 * PI / 1)) 2)
                                        x_axis) vzero)) as Hn.
  change (k_mags_of (-1 * (2 * PI / 1)) 2)
    with [0 + 0 * ((-1 * (2 * PI / 1) - 0) / 1); -1 * (2 * PI / 1)] in *.
  cbn [outer map nth] in *. lra.
Qed.

(* ------------------------------------------------------------------ *)
(** ** The chiral phase, mode "C"                                      *)
(* ------------------------------------------------------------------ *)

Lemma np_mod_bounds x m : 0 < m -> 0 <= np_mod x m < m.
Proof.
  intros Hm. unfold np_mod.
  pose proof (Zfloor_bound (x / m)) as [H1 H2].
  assert (E : x = x / m * m) by (field; lra).
  remember (x / m) as y eqn:Hy. clear Hy.
  remember (IZR (Zfloor y)) as q eqn:Hq. clear Hq.
  subst x. split; nra.
Qed.

Lemma wrap_phase_bounds d : - PI <= wrap_phase d < PI.
Proof.
  unfold wrap_phase. pose proof PI_RGT_0.
  pose proof (np_mod_bounds (d + PI) (2 * PI)). lra.
Qed.

Lemma fold_q2_bounds d : - PI <= d < PI -> - PI <= fold_q2 d <= PI / 2.
Proof.
  intros Hd. unfold fold_q2. pose proof PI_RGT_0.
  destruct (Rgtb d (PI / 2)) eqn:E.
  - apply Rgtb_true in E. lra.
  - apply Rltb_false in E. lra.
Qed.

Lemma fold_q3_bounds d :
  - PI <= d <= PI / 2 -> - (PI / 2) <= fold_q3 d <= PI / 2.
Proof.
  intros Hd. unfold fold_q3. pose proof PI_RGT_0.
  destruct (Rltb d (- PI / 2)) eqn:E.
  - apply Rltb_true in E. lra.
  - apply Rltb_false in E. lra.
Qed.

(** C7 (as the code has it).  For arrays of the same shape with at least
    one axis the mode "C" call returns an array of that shape, every
    element of which lies in the closed interval from - pi/2 to pi/2; the
    call raises only when the shapes differ or when the arrays have no axis
    (shape ()), where the folding of line 348 is refused. *)
Theorem C7_chiral_phase_C_range Z1 Z2 :
  match value (calculate_chiral_phase Z1 Z2 "C") with
  | Ok out =>
      nd_shape Z1 = nd_shape Z2 /\ nd_shape out = nd_shape Z1 /\
      Forall (fun x => - (PI / 2) <= x <= PI / 2) (nd_data out) /\
      nd_shape Z1 <> []
  | Raise _ => nd_shape Z1 <> nd_shape Z2 \/ nd_shape Z1 = []
  end.
Proof.
  unfold calculate_chiral_phase.
  destruct (list_eq_dec Nat.eq_dec (nd_shape Z1) (nd_shape Z2)) as [E|NE];
    cbn [negb]; [|left; exact NE].
  destruct (nd_size Z1 =? 0)%nat eqn:Hs.
  { cbn. repeat split; auto. intros H0. unfold nd_size in Hs.
    rewrite H0 in Hs. discriminate Hs. }
  cbn [String.eqb Ascii.eqb Bool.eqb].
  destruct (nd_shape Z1) as [|n0 sh] eqn:Hsh; [right; reflexivity|].
  cbn [value ret snd nd_shape nd_data].
  repeat split; auto; [|discriminate].
  apply Forall_forall. intros x Hx.
  apply in_map_iff in Hx. destruct Hx as (d2 & <- & Hx).
  apply in_map_iff in Hx. destruct Hx as (d1 & <- & Hx).
  apply in_map_iff in Hx. destruct Hx as (d0 & <- & _).
  apply fold_q3_bounds, fold_q2_bounds, wrap_phase_bounds.
Qed.

(** C7 (the claim fails).  For Z1 = -i and Z2 = 1 the phase difference is
    - pi/2; it is neither wrapped nor folded, and the output - pi/2 is not
    strictly greater than - pi/2. *)
Lemma C7_minus_half_pi_is_reached :
  exists out x,
    value (calculate_chiral_phase Z_minus_i Z_one "C") = Ok out /\
    nd_data out = [x] /\ x = - (PI / 2) /\ ~ (- (PI / 2) < x <= PI / 2).
Proof.
  pose proof PI_RGT_0 as Hpi.
  assert (A1 : np_angle (0, -1) = - (PI / 2)).
  { unfold np_angle, arctan2. cbn [fst snd].
    replace (Rltb 0 0) with false by (symmetry; apply Rltb_false; lra).
    replace (Rltb 0 (-1)) with false by (symmetry; apply Rltb_false; lra).
    replace (Rltb (-1) 0) with true by (symmetry; apply Rltb_true; lra).
    reflexivity. }
  assert (A2 : np_angle (1, 0) = 0).
  { unfold np_angle, arctan2. cbn [fst snd].
    replace (Rltb 0 1) with true by (symmetry; apply Rltb_true; lra).
    replace (0 / 1) with 0 by field. apply atan_0. }
  assert (W : wrap_phase (- (PI / 2) - 0) = - (PI / 2)).
  { unfold wrap_phase, np_mod.
    replace (Zfloor ((- (PI / 2) - 0 + PI) / (2 * PI))) with 0%Z.
    - lra.
    - symmetry. apply Zfloor_eq.
      replace ((- (PI / 2) - 0 + PI) / (2 * PI)) with (1 / 4) by (field; lra).
      lra. }
  assert (F2 : fold_q2 (- (PI / 2)) = - (PI / 2)).
  { unfold fold_q2.
    replace (Rgtb (- (PI / 2)) (PI / 2)) with false; [reflexivity|].
    symmetry. apply Rltb_false. lra. }
  assert (F3 : fold_q3 (- (PI / 2)) = - (PI / 2)).
  { unfold fold_q3.
    replace (Rltb (- (PI / 2)) (- PI / 2)) with false; [reflexivity|].
    symmetry. apply Rltb_false. lra. }
  exists {| nd_shape := [1; 1]%nat; nd_data := [- (PI / 2)] |}, (- (PI / 2)).
  split; [|split; [reflexivity|split; [reflexivity|lra]]].
  unfold calculate_chiral_phase.
  destruct (list_eq_dec Nat.eq_dec (nd_shape Z_minus_i) (nd_shape Z_one))
    as [_|NE]; [|exfalso; apply NE; reflexivity].
  cbn [negb nd_size nd_shape Z_minus_i Z_one fold_right Nat.mul Nat.add
       Nat.eqb String.eqb Ascii.eqb Bool.eqb nd_data map zip_with value ret snd].
  unfold Rminus at 1. fold (Rminus (np_angle (0, -1)) (np_angle (1, 0))).
  rewrite A1, A2, W, F2, F3. reflexivity.
Qed.

(* ------------------------------------------------------------------ *)
(** ** Index arrays: assignment through an index array                 *)
(* ------------------------------------------------------------------ *)

Lemma upd_length {A} i (x : A) arr : List.length (upd i x arr) = List.length arr.
Proof.
  revert i. induction arr as [|a arr IH]; intros [|i]; cbn; auto.
Qed.

Lemma nth_upd {A} k i (x d : A) arr :
  nth i (upd k x arr) d =
  if ((k =? i) && (i <? List.length arr))%nat then x else nth i arr d.
Proof.
  revert k i. induction arr as [|a arr IH]; intros [|k] [|i]; cbn; auto;
    try (now rewrite andb_false_r).
Qed.

Lemma fancy_assign_length {A} idx (vals arr : list A) :
  List.length (fancy_assign idx vals arr) = List.length arr.
Proof.
  unfold fancy_assign. revert arr. generalize (combine idx vals).
  induction l as [|[j v] l IH]; intros arr; cbn; auto.
  now rewrite IH, upd_length.
Qed.

Lemma nth_fancy_assign_other {A} idx (vals arr : list A) i d :
  names idx i = false ->
  nth i (fancy_assign idx vals arr) d = nth i arr d.
Proof.
  unfold fancy_assign, names.
  revert vals arr. induction idx as [|j idx IH]; intros vals arr H; cbn; auto.
  destruct vals as [|v vals]; cbn; auto.
  cbn in H. apply orb_false_iff in H. destruct H as [Hj H].
  rewrite IH by exact H. rewrite nth_upd, Hj. reflexivity.
Qed.

Lemma nth_fancy_assign_map {A} (g : A -> A) idx (src arr : list A) i d :
  nth i (fancy_assign idx (map g (take d src idx)) arr) d =
  if names idx i && (i <? List.length arr)%nat then g (nth i src d)
  else nth i arr d.
Proof.
  unfold fancy_assign, names, take. rewrite map_map.
  revert arr. induction idx as [|j idx IH]; intros arr; [reflexivity|].
  cbn [map combine fold_left fst snd existsb].
  rewrite IH, upd_length, nth_upd.
  destruct (Z.to_nat j =? i)%nat eqn:Ej; cbn [orb andb].
  - apply Nat.eqb_eq in Ej. rewrite Ej.
    destruct (existsb _ idx); cbn [andb];
      destruct (i <? List.length arr)%nat; reflexivity.
  - reflexivity.
Qed.

Lemma nth_scale_at f idx frame i :
  nth i (scale_at f idx frame) vzero =
  if names idx i && (i <? List.length frame)%nat
  then vscale f (nth i frame vzero) else nth i frame vzero.
Proof. unfold scale_at. apply nth_fancy_assign_map. Qed.

Lemma vscale_2_1 v : vscale 2 (vscale 1 v) = vscale 2 v.
Proof. destruct v as [[x y] z]. cbn. f_equal; [f_equal|]; ring. Qed.

Lemma vscale_vzero f : vscale f vzero = vzero.
Proof. cbn. unfold vzero. f_equal; [f_equal|]; ring. Qed.

Lemma names_false_iff idx i :
  names idx i = false <-> (forall j, In j idx -> Z.to_nat j <> i).
Proof.
  unfold names. split.
  - intros H j Hj E.
    assert (existsb (fun j => (Z.to_nat j =? i)%nat) idx = true).
    { apply existsb_exists. exists j. split; auto. now apply Nat.eqb_eq. }
    congruence.
  - intros H. destruct (existsb _ idx) eqn:E; auto.
    apply existsb_exists in E. destruct E as (j & Hj & Ej).
    apply Nat.eqb_eq in Ej. exfalso. eapply H; eauto.
Qed.

(** On a frame at rest outside [idx], scaling the atoms of [idx] by 2 is
    scaling every atom by 2 after scaling the atoms of [idx] by 1. *)
Lemma scale_at_2_1 idx frame :
  (forall i, names idx i = false -> nth i frame vzero = vzero) ->
  scale_at 2 idx frame = map (vscale 2) (scale_at 1 idx frame).
Proof.
  intros Hz.
  apply (nth_ext _ _ vzero (vscale 2 vzero)).
  - unfold scale_at. now rewrite length_map, !fancy_assign_length.
  - intros i Hi. rewrite (map_nth (vscale 2)), !nth_scale_at.
    unfold scale_at in Hi. rewrite fancy_assign_length in Hi.
    apply Nat.ltb_lt in Hi. rewrite Hi, andb_true_r.
    destruct (names idx i) eqn:E.
    + now rewrite vscale_2_1.
    + rewrite (Hz i E). now rewrite vscale_vzero.
Qed.

Lemma at_rest_doubles frame :
  (forall i, nth i frame vzero = vzero) -> frame = map (vscale 2) frame.
Proof.
  intros Hz. apply (nth_ext _ _ vzero (vscale 2 vzero)).
  - now rewrite length_map.
  - intros i _. rewrite (map_nth (vscale 2)), Hz. now rewrite vscale_vzero.
Qed.

(* ------------------------------------------------------------------ *)
(** ** The reconstruction leaves the other atoms at rest               *)
(* ------------------------------------------------------------------ *)

Lemma for_each_invariant {A S} (P : S -> Prop) (l : list A)
    (body : A -> S -> M S) s s' :
  (forall a s0 s1, In a l -> P s0 -> value (body a s0) = Ok s1 -> P s1) ->
  P s -> value (for_each l body s) = Ok s' -> P s'.
Proof.
  revert s. induction l as [|a l IH]; intros s Hbody Hs; cbn [for_each].
  - cbn. intros H; injection H as <-. exact Hs.
  - rewrite value_bind. destruct (value (body a s)) as [s1|e] eqn:E;
      [|discriminate].
    apply IH.
    + intros a0 s0 s2 Hin. apply Hbody. now right.
    + eapply Hbody; eauto. now left.
Qed.

Lemma Forall_zip_with_r {A B} (P : B -> Prop) (f : A -> B -> B) l m :
  (forall a b, P b -> P (f a b)) -> Forall P m -> Forall P (zip_with f l m).
Proof.
  intros Hf Hm. revert l. induction Hm as [|b m Hb Hm IH]; intros [|a l];
    cbn; constructor; auto.
Qed.

Lemma insert_unique_In x y l : In y (insert_unique x l) <-> y = x \/ In y l.
Proof.
  induction l as [|z l IH]; cbn.
  - intuition.
  - destruct (x <? z)%Z; [cbn; intuition|].
    destruct (x =? z)%Z eqn:E.
    + apply Z.eqb_eq in E. subst z. cbn. intuition.
    + cbn. rewrite IH. intuition.
Qed.

Lemma np_unique_In y l : In y (np_unique l) <-> In y l.
Proof.
  unfold np_unique. induction l as [|x l IH]; cbn; [tauto|].
  rewrite insert_unique_In, IH. intuition.
Qed.

Lemma zero_outside_add_at_pol S pol grp recon W :
  (forall j, In j grp -> In j S) ->
  zero_outside S W ->
  zero_outside S (zip_with (add_at_pol pol grp) recon W).
Proof.
  intros Hsub HW. unfold zero_outside in *.
  apply Forall_zip_with_r; [|exact HW].
  intros xs frame Hframe i Hi. unfold add_at_pol.
  rewrite nth_fancy_assign_other.
  - apply Hframe, Hi.
  - apply names_false_iff. intros j Hj. apply Hi, Hsub, Hj.
Qed.

Lemma ised_group_zero_outside S self km kv avg proj tp kmi ka wt rf grp st st' :
  (forall j, In j grp -> In j S) ->
  zero_outside S (wiggles st) ->
  value (ised_group self km kv avg proj tp kmi ka wt rf grp st) = Ok st' ->
  zero_outside S (wiggles st').
Proof.
  intros Hsub Hst. unfold ised_group.
  destruct (List.length grp =? 0)%nat.
  { cbn. intros H; injection H as <-. exact Hst. }
  rewrite value_bind. destruct (value (calculate _ _ _ _ _ _ _ _)) as [so|e];
    [|discriminate].
  rewrite value_bind. destruct (value (argmin _)) as [wmi|e]; [|discriminate].
  rewrite value_bind.
  match goal with
  | |- match value (for_each ?l ?body ?s0) with _ => _ end = _ -> _ =>
      destruct (value (for_each l body s0)) as [wig|e] eqn:Hwig;
        [|discriminate];
      assert (Hz : zero_outside S wig)
  end.
  { eapply (for_each_invariant (zero_outside S)); [|exact Hst|exact Hwig].
    intros pol w0 w1 _ Hw0. cbv beta. rewrite value_bind.
    match goal with
    | |- match ?v with _ => _ end = _ -> _ =>
        destruct v as [amp|e]; [|discriminate]
    end.
    cbn [value ret snd]. intros H; injection H as <-.
    now apply zero_outside_add_at_pol. }
  destruct (is_auto rf).
  - rewrite value_bind. destruct (value (amax_abs _)) as [mx|e]; [|discriminate].
    cbn. intros H; injection H as <-. exact Hz.
  - cbn. intros H; injection H as <-. exact Hz.
Qed.

Lemma zero_outside_zeros S n m : zero_outside S (repeat (repeat vzero n) m).
Proof.
  unfold zero_outside. apply Forall_forall. intros frame Hin.
  apply repeat_spec in Hin. subst frame. intros i _.
  destruct (Nat.lt_ge_cases i n) as [Hi|Hi].
  - apply nth_repeat_lt. exact Hi.
  - apply nth_overflow. now rewrite repeat_length.
Qed.

(** After the loop over the groups, the atoms that [all_recon_idx] does
    not name have not moved. *)
Lemma ised_reconstruct_zero_outside self d kt wt cl nk bz bi bt rf n st idx :
  value (ised_reconstruct self d kt wt cl nk bz bi bt rf n) = Ok (Some (st, idx)) ->
  zero_outside idx (wiggles st).
Proof.
  unfold ised_reconstruct. rewrite value_bind.
  destruct (value (parse_direction d)) as [u|e]; [|discriminate].
  rewrite value_bind.
  destruct (value (recon_groups _ _ _ _)) as [groups|e]; [|discriminate].
  destruct (List.length groups =? 0)%nat; [cbn; discriminate|].
  rewrite value_bind. destruct (value (get_k_path _ _ _ _ _)) as [[km kv]|e];
    [|discriminate].
  destruct (n <? 0)%Z; [discriminate|].
  rewrite value_bind. destruct (value (argmin _)) as [kmi|e]; [|discriminate].
  rewrite value_bind. destruct (value (index _ _)) as [ka|e]; [|discriminate].
  rewrite value_bind.
  match goal with
  | |- match value (for_each ?l ?body ?s0) with _ => _ end = _ -> _ =>
      destruct (value (for_each l body s0)) as [st1|e] eqn:Hloop;
        [|discriminate]
  end.
  destruct (negb (recon_done st1)); [cbn; discriminate|].
  rewrite value_bind. destruct (Z.to_nat n =? 0)%nat; [discriminate|].
  cbn [value ret snd]. intros H. injection H as <- <-.
  assert (Hz : zero_outside (List.concat groups) (wiggles st1)).
  { eapply (for_each_invariant
              (fun s => zero_outside (List.concat groups) (wiggles s)));
      [| |exact Hloop].
    - intros grp s0 s1 Hin Hs0. apply ised_group_zero_outside; auto.
      intros j Hj. apply in_concat. exists grp. auto.
    - apply zero_outside_zeros. }
  destruct (existsb _ groups) eqn:Hex.
  - unfold zero_outside in *. eapply Forall_impl; [|exact Hz].
    intros frame Hf i Hi. apply Hf. intros j Hj. apply Hi.
    now apply np_unique_In.
  - unfold zero_outside in *. eapply Forall_impl; [|exact Hz].
    intros frame Hf i _. apply Hf. intros j Hj.
    apply in_concat in Hj. destruct Hj as (g & Hg & Hj).
    assert (Hne : existsb (fun g => (0 <? List.length g)%nat) groups = true).
    { apply existsb_exists. exists g. split; auto.
      destruct g; [contradiction|reflexivity]. }
    congruence.
Qed.

(* ------------------------------------------------------------------ *)
(** ** iSED: a numeric rescale factor                                  *)
(* ------------------------------------------------------------------ *)

Lemma ised_reconstruct_num self d kt wt cl nk bz bi bt f n :
  ised_reconstruct self d kt wt cl nk bz bi bt (RescaleNum f) n =
  ised_reconstruct self d kt wt cl nk bz bi bt (RescaleNum 1) n.
Proof. reflexivity. Qed.

Lemma ised_rescale_num f idx st :
  value (ised_rescale (RescaleNum f) idx st) =
  Ok (if (0 <? List.length idx)%nat
      then map (scale_at f idx) (wiggles st) else wiggles st).
Proof.
  unfold ised_rescale. destruct (0 <? List.length idx)%nat; reflexivity.
Qed.

(** C9.  For every trajectory, target (k, omega), direction, grouping and
    number of reconstruction frames, [ised] with rescale_factor = 2.0 ends
    as [ised] with rescale_factor = 1.0 does (it raises the same exception,
    or gives the reconstruction up, or produces a displacement field), and
    the displacement field it produces is, element by element, 2 times the
    one produced with rescale_factor = 1.0. *)
Theorem C9_rescale_factor_2_doubles_the_field self k_dir_spec k_target
    w_target char_len_k_path nk_on_path bz_cov_ised basis_atom_idx_ised
    basis_atom_types_ised n_recon_frames :
  value (ised_displacements self k_dir_spec k_target w_target char_len_k_path
           nk_on_path bz_cov_ised basis_atom_idx_ised basis_atom_types_ised
           (RescaleNum 2) n_recon_frames) =
  match value (ised_displacements self k_dir_spec k_target w_target
                 char_len_k_path nk_on_path bz_cov_ised basis_atom_idx_ised
                 basis_atom_types_ised (RescaleNum 1) n_recon_frames) with
  | Ok (Some field) => Ok (Some (map (map (vscale 2)) field))
  | Ok None => Ok None
  | Raise e => Raise e
  end.
Proof.
  unfold ised_displacements. rewrite !value_bind.
  rewrite (ised_reconstruct_num _ _ _ _ _ _ _ _ _ 2).
  destruct (value (ised_reconstruct _ _ _ _ _ _ _ _ _ _ _))
    as [[[st idx]|]|e] eqn:Hrec; try reflexivity.
  pose proof (ised_reconstruct_zero_outside _ _ _ _ _ _ _ _ _ _ _ _ _ Hrec)
    as Hz.
  rewrite !value_bind, !ised_rescale_num. cbn [value ret snd].
  do 2 f_equal. unfold zero_outside in Hz. rewrite Forall_forall in Hz.
  destruct (0 <? List.length idx)%nat eqn:Hidx.
  - rewrite map_map. apply map_ext_in. intros frame Hin.
    apply scale_at_2_1. intros i Hi. apply (Hz frame Hin).
    now apply names_false_iff.
  - rewrite <- (map_id (wiggles st)) at 1. apply map_ext_in.
    intros frame Hin. apply at_rest_doubles. intros i.
    apply (Hz frame Hin). intros j Hj.
    destruct idx; [contradiction|discriminate].
Qed.

(** *** A reconstruction that goes through *)

Lemma x_axis_components : x_axis = (1 / norm (1, 0, 0), 0 / norm (1, 0, 0), 0 / norm (1, 0, 0)).
Proof. reflexivity. Qed.

Lemma parse_direction_x_axis :
  value (parse_direction (DirSeq [1 / norm (1, 0, 0); 0 / norm (1, 0, 0);
                                  0 / norm (1, 0, 0)])) =
  Ok (vdiv x_axis (norm x_axis)).
Proof.
  unfold parse_direction. rewrite value_bind.
  assert (E : value (SDA.parse_direction
                       (DirSeq [1 / norm (1, 0, 0); 0 / norm (1, 0, 0);
                                0 / norm (1, 0, 0)])) = Ok x_axis).
  { unfold SDA.parse_direction. rewrite value_bind. cbn [value ret snd].
    fold x_axis. rewrite <- x_axis_components.
    replace (Rltb (norm x_axis) 1e-10) with false; [reflexivity|].
    symmetry. apply Rltb_false. unfold x_axis.
    rewrite norm_vdiv_self; [lra|]. rewrite norm_100. lra. }
  rewrite E. reflexivity.
Qed.

(** On the two-atom trajectory, along x, with one k-point, one
    reconstruction frame and all atoms as the group, [ised] produces a
    displacement field: one frame of two atoms. *)
Lemma ised_produces_a_field :
  exists field,
    value (ised_displacements two_atom_calc (DirStr "x" None) 0 0 1 1 1
             None None (RescaleNum 1) 1) = Ok (Some field) /\
    map (@List.length vec3) field = [2%nat].
Proof.
  unfold ised_displacements. rewrite value_bind.
  unfold ised_reconstruct. rewrite value_bind, parse_direction_x.
  rewrite value_bind.
  change (value (recon_groups (n_atoms (traj two_atom_calc))
                   (types (traj two_atom_calc)) None None))
    with (@Ok (list (list Z)) [[0%Z; 1%Z]]).
  cbn [List.length Nat.eqb].
  rewrite value_bind.
  change (let '(x, y, z) := x_axis in DirSeq [x; y; z])
    with (DirSeq [1 / norm (1, 0, 0); 0 / norm (1, 0, 0); 0 / norm (1, 0, 0)]).
  rewrite get_k_path_value, parse_direction_x_axis, recip_extent_lat_1.
  unfold k_mags_of. change (1 <? 1)%Z with false. cbv beta iota.
  set (k0 := if isclose (1 * (2 * PI / 1)) 0 then 0 else 1 * (2 * PI / 1)).
  set (u := vdiv x_axis (norm x_axis)).
  change (1 <? 0)%Z with false. cbv beta iota.
  rewrite value_bind. cbn [argmin map value ret snd argmin_from].
  rewrite value_bind. cbn [index nth_error value ret snd].
  rewrite value_bind. cbn [for_each]. rewrite value_bind.
  unfold ised_group. cbn [List.length Nat.eqb].
  rewrite value_bind, calculate_value.
  destruct (calculate_one_batch_single_group two_atom_calc [k0] (outer [k0] u)
              (Some (BArray 1 [0%Z; 1%Z])) None "coherent" None [0%Z; 1%Z])
    as (arr & Hcalc & Harr); [now left | reflexivity |].
  rewrite Hcalc. cbv beta iota. cbn [freqs sed].
  change ((n_frames (traj two_atom_calc) =? 0)
          || (n_atoms (traj two_atom_calc) =? 0))%nat with false in *.
  cbv beta iota in Harr. cbv beta iota.
  change (fftfreq (n_frames (traj two_atom_calc)) (dt_ps two_atom_calc))
    with [IZR 0 * (1 / (INR 1 * dt_ps two_atom_calc))] in *.
  cbn [List.length Nat.eqb map] in Harr.
  rewrite value_bind. cbn [argmin map value ret snd argmin_from].
  assert (Hc : exists cell0, cells arr = [[cell0]])
    by (subst arr; eexists; reflexivity).
  destruct Hc as [cell0 Hc]. rewrite Hc.
  cbn [for_each index nth_error bind ret app value snd fst is_auto wiggles
       recon_done negb ised_rescale log_error warn].
  change (Z.to_nat 1 =? 0)%nat with false. cbv beta iota.
  cbn [bind ret app value snd fst existsb List.length Nat.ltb Nat.leb orb].
  eexists. split; [reflexivity|]. reflexivity.
Qed.

(* ------------------------------------------------------------------ *)
(** ** The cells of a result fill its shape                            *)
(* ------------------------------------------------------------------ *)

Lemma zeros_wf {A} (z : A) n0 n1 : grid_wf (zeros z n0 n1).
Proof.
  split; cbn [zeros cells dim0 dim1]; [apply repeat_length|].
  apply Forall_forall. intros row Hin. apply repeat_spec in Hin. subst row.
  apply repeat_length.
Qed.

Lemma fft_axis0_length n1 x : List.length (fft_axis0 n1 x) = List.length x.
Proof. unfold fft_axis0. now rewrite length_map, length_seq. Qed.

Lemma sed_for_group_nrows self ks grp mp :
  traj_wf (traj self) ->
  List.length (cells (_calculate_sed_for_group self ks grp mp)) =
  n_frames (traj self).
Proof.
  intros Hwf. unfold _calculate_sed_for_group.
  destruct (List.length grp =? 0)%nat; [apply repeat_length|].
  destruct (0 <? n_frames (traj self))%nat eqn:Hn.
  - cbn [cells]. rewrite length_map, fft_axis0_length, length_map.
    destruct (use_displacements self); rewrite length_map; [reflexivity|].
    exact Hwf.
  - apply Nat.ltb_ge in Hn. cbn. lia.
Qed.

Lemma summed_intensity_nrows self groups mp ks :
  traj_wf (traj self) ->
  List.length (cells (summed_intensity self groups mp (n_frames (traj self)) ks))
  = n_frames (traj self).
Proof.
  intros Hwf. unfold summed_intensity.
  assert (H0 : List.length (cells (zeros 0 (n_frames (traj self))
                                         (List.length ks)))
               = n_frames (traj self)) by apply repeat_length.
  revert H0. generalize (zeros 0 (n_frames (traj self)) (List.length ks)).
  induction groups as [|g groups IH]; intros acc Hacc; cbn [fold_left]; auto.
  apply IH. destruct (List.length g =? 0)%nat; auto.
  cbn [add_power cells]. rewrite zip_with_length, Hacc, sed_for_group_nrows; auto.
  lia.
Qed.

Lemma one_batch_wf {A} (T : list vec3 -> grid A) z nf ks :
  Forall (fun row => List.length row = List.length ks) (cells (T ks)) ->
  List.length (cells (T ks)) = nf ->
  grid_wf (one_batch T z nf ks).
Proof.
  intros Hrows Hn. destruct (Nat.eq_dec (List.length ks) 0) as [Hk|Hk].
  - unfold one_batch. rewrite Hk. apply zeros_wf.
  - rewrite one_batch_cells by (auto; lia). split; cbn [cells dim0 dim1].
    + rewrite zip_with_length, repeat_length. lia.
    + revert Hrows. generalize (cells (T ks)).
      generalize (repeat (repeat z (List.length ks)) nf).
      generalize (List.length ks). clear.
      intros n Z0 R0 H. revert Z0. induction H as [|r R0 Hr H IH];
        intros [|z0 Z0]; cbn; constructor; auto.
Qed.

(** On a trajectory with as many velocity frames as position frames the
    cells of the array that [calculate] returns fill the shape it carries. *)
Lemma calculate_array_wf self kp ks bi bt mode gs c r :
  traj_wf (traj self) ->
  value (calculate self kp ks bi bt mode gs c) = Ok r ->
  sed_array_wf (sed r).
Proof.
  intros Hwf. rewrite calculate_value. unfold calculate_one_batch.
  destruct (negb _); [discriminate|].
  destruct ((n_frames (traj self) =? 0) || (n_atoms (traj self) =? 0))%nat
    eqn:Hdeg.
  - cbn. intros H; injection H as <-. cbn. split; [reflexivity|constructor].
  - rewrite value_bind.
    destruct (value (determine_atom_groups _ _ _ _)) as [groups|e];
      [|discriminate].
    apply orb_false_iff in Hdeg. destruct Hdeg as [Hnt _].
    apply Nat.eqb_neq in Hnt.
    replace (0 <? n_frames (traj self))%nat with true
      by (symmetry; apply Nat.ltb_lt; lia).
    cbn [value ret snd]. intros H; injection H as <-. cbn [sed].
    rewrite fftfreq_length by lia.
    destruct (String.eqb mode "coherent" || (List.length groups <=? 1)%nat)%bool;
      cbn [sed_array_wf].
    + destruct (List.length (final_group_indices groups) =? 0)%nat;
        [apply zeros_wf|].
      apply one_batch_wf; [apply sed_for_group_rows|].
      now apply sed_for_group_nrows.
    + apply one_batch_wf; [apply summed_intensity_rows|].
      now apply summed_intensity_nrows.
Qed.

(* ================================================================== *)
(** * Further properties of the engine                                 *)
(* ================================================================== *)

(* ------------------------------------------------------------------ *)
(** ** [SEDCalculator.__init__]                                        *)
(* ------------------------------------------------------------------ *)

Lemma sqrt_ge_small x : 1 <= x -> 1e-9 <= sqrt x.
Proof.
  intros H. apply Rle_trans with 1; [lra|].
  rewrite <- sqrt_1. apply sqrt_le_1_alt. exact H.
Qed.

(** The construction on the two-atom trajectory, one cell per box edge. *)
Lemma init_two_atom :
  SEDCalculator_init two_atom_traj 1 1 1 false None =
  ([], Ok {| traj := two_atom_traj; use_displacements := false; dt_ps := 1;
             a1 := (10 / 1, 0 / 1, 0 / 1);
             a2 := (0 / 1, 10 / 1, 0 / 1);
             a3 := (0 / 1, 0 / 1, 10 / 1);
             b1 := vscale (2 * PI / Rabs (dot (10 / 1, 0 / 1, 0 / 1)
                      (cross (0 / 1, 10 / 1, 0 / 1) (0 / 1, 0 / 1, 10 / 1))))
                     (cross (0 / 1, 10 / 1, 0 / 1) (0 / 1, 0 / 1, 10 / 1));
             b2 := vscale (2 * PI / Rabs (dot (10 / 1, 0 / 1, 0 / 1)
                      (cross (0 / 1, 10 / 1, 0 / 1) (0 / 1, 0 / 1, 10 / 1))))
                     (cross (0 / 1, 0 / 1, 10 / 1) (10 / 1, 0 / 1, 0 / 1));
             b3 := vscale (2 * PI / Rabs (dot (10 / 1, 0 / 1, 0 / 1)
                      (cross (0 / 1, 10 / 1, 0 / 1) (0 / 1, 0 / 1, 10 / 1))))
                     (cross (10 / 1, 0 / 1, 0 / 1) (0 / 1, 10 / 1, 0 / 1)) |}).
Proof.
  apply (init_succeeds two_atom_traj 1 1 1 false 1); try lia; try reflexivity;
    try lra; unfold norm; cbn [two_atom_traj box_matrix fst snd vdiv dot cross].
  - apply sqrt_ge_small. lra.
  - apply sqrt_ge_small. lra.
  - apply sqrt_ge_small. lra.
  - rewrite Rabs_right; lra.
Qed.

(** X1.  Whenever [SEDCalculator.__init__] returns, the primitive cell has
    a volume of more than 1e-8 in absolute value and the stored vectors
    satisfy b_i . a_j = s * 2 pi * delta_ij, where s = 1 on a right-handed
    cell and s = -1 on a left-handed one; the reciprocal cell itself is
    always right-handed, of volume (2 pi)^3 / |V|. *)
Theorem X1_reciprocal_basis_up_to_orientation tr nx ny nz ud dt self :
  value (SEDCalculator_init tr nx ny nz ud dt) = Ok self ->
  let V := cell_volume self in
  let s := if Rltb 0 V then 1 else -1 in
  1e-8 < Rabs V /\
  dot (b1 self) (a1 self) = s * (2 * PI) /\
  dot (b2 self) (a2 self) = s * (2 * PI) /\
  dot (b3 self) (a3 self) = s * (2 * PI) /\
  dot (b1 self) (a2 self) = 0 /\ dot (b1 self) (a3 self) = 0 /\
  dot (b2 self) (a1 self) = 0 /\ dot (b2 self) (a3 self) = 0 /\
  dot (b3 self) (a1 self) = 0 /\ dot (b3 self) (a2 self) = 0 /\
  dot (b1 self) (cross (b2 self) (b3 self)) = (2 * PI) ^ 3 / Rabs V.
Proof.
  intros Hinit V s.
  pose proof (reciprocal_signed _ _ _ _ _ _ _ Hinit) as H. cbv zeta in H.
  destruct (init_fields _ _ _ _ _ _ _ Hinit) as (_ & _ & _ & E1 & E2 & E3 & HV).
  fold V in H, HV, E1, E2, E3.
  assert (Hs : V / Rabs V = s).
  { unfold s. destruct (Rltb 0 V) eqn:E.
    - apply Rltb_true in E. rewrite Rabs_right by lra. field. lra.
    - apply Rltb_false in E.
      assert (V < 0).
      { destruct (Req_dec V 0) as [Z|NZ]; [|lra].
        rewrite Z, Rabs_R0 in HV. lra. }
      rewrite Rabs_left by lra. field. lra. }
  rewrite Hs in H.
  destruct H as (H1 & H2 & H3 & H4 & H5 & H6 & H7 & H8 & H9).
  repeat split; auto.
  rewrite E1, E2, E3.
  assert (HA : Rabs V * Rabs V = V * V).
  { rewrite <- Rabs_mult. apply Rabs_right. nra. }
  revert HA HV. unfold V, cell_volume.
  destruct (a1 self) as [[x0 x1] x2], (a2 self) as [[y0 y1] y2],
           (a3 self) as [[z0 z1] z2].
  cbn [dot cross vscale].
  set (A := Rabs _). intros HA HV.
  assert (HA0 : A <> 0) by lra.
  apply Rmult_eq_reg_r with (A * A * A).
  2:{ repeat apply Rmult_integral_contrapositive_currified; exact HA0. }
  replace ((2 * PI) ^ 3 / A * (A * A * A)) with ((2 * PI) ^ 3 * (A * A))
    by (field; exact HA0).
  symmetry. rewrite HA at 1. field. exact HA0.
Qed.

Lemma X1_reciprocal_basis_up_to_orientation_witness :
  let self := {| traj := two_atom_traj; use_displacements := false; dt_ps := 1;
             a1 := (10 / 1, 0 / 1, 0 / 1);
             a2 := (0 / 1, 10 / 1, 0 / 1);
             a3 := (0 / 1, 0 / 1, 10 / 1);
             b1 := vscale (2 * PI / Rabs (dot (10 / 1, 0 / 1, 0 / 1)
                      (cross (0 / 1, 10 / 1, 0 / 1) (0 / 1, 0 / 1, 10 / 1))))
                     (cross (0 / 1, 10 / 1, 0 / 1) (0 / 1, 0 / 1, 10 / 1));
             b2 := vscale (2 * PI / Rabs (dot (10 / 1, 0 / 1, 0 / 1)
                      (cross (0 / 1, 10 / 1, 0 / 1) (0 / 1, 0 / 1, 10 / 1))))
                     (cross (0 / 1, 0 / 1, 10 / 1) (10 / 1, 0 / 1, 0 / 1));
             b3 := vscale (2 * PI / Rabs (dot (10 / 1, 0 / 1, 0 / 1)
                      (cross (0 / 1, 10 / 1, 0 / 1) (0 / 1, 0 / 1, 10 / 1))))
                     (cross (10 / 1, 0 / 1, 0 / 1) (0 / 1, 10 / 1, 0 / 1)) |} in
  value (SEDCalculator_init two_atom_traj 1 1 1 false None) = Ok self /\
  1e-8 < Rabs (cell_volume self) /\
  dot (b1 self) (a2 self) = 0.
Proof.
  intros self.
  assert (H : value (SEDCalculator_init two_atom_traj 1 1 1 false None) = Ok self)
    by (rewrite init_two_atom; reflexivity).
  split; [exact H|].
  pose proof (X1_reciprocal_basis_up_to_orientation _ _ _ _ _ _ _ H) as X.
  cbv zeta in X. destruct X as (X0 & _ & _ & _ & X4 & _). split; assumption.
Defined.

(** What a construction returns, the log records apart. *)
Lemma init_value tr nx ny nz ud dt :
  let v1 := fst (fst (prim_vectors tr nx ny nz)) in
  let v2 := snd (fst (prim_vectors tr nx ny nz)) in
  let v3 := snd (prim_vectors tr nx ny nz) in
  let vol_prim := Rabs (dot v1 (cross v2 v3)) in
  value (SEDCalculator_init tr nx ny nz ud dt) =
  if negb ((0 <? nx)%Z && (0 <? ny)%Z && (0 <? nz)%Z) then
    Raise (ValueError "System dimensions (nx, ny, nz) must be positive.")
  else
    match resolved_dt tr dt with
    | None => Raise (ValueError "Timestep dt_ps not found in Trajectory object and not provided to SEDCalculator.")
    | Some d =>
        if Rleb d 0 then Raise (ValueError "Timestep dt_ps must be positive.")
        else if Rltb (norm v1) 1e-9 || Rltb (norm v2) 1e-9
                || Rltb (norm v3) 1e-9 then
          Raise (ValueError "One or more primitive vectors (a1,a2,a3) near zero. Check nx,ny,nz or box matrix.")
        else if Rleb vol_prim 1e-8 then
          Raise (ValueError "Primitive cell vectors coplanar/collinear; volume zero.")
        else
          Ok {| traj := tr; use_displacements := ud; dt_ps := d;
                a1 := v1; a2 := v2; a3 := v3;
                b1 := vscale (2 * PI / vol_prim) (cross v2 v3);
                b2 := vscale (2 * PI / vol_prim) (cross v3 v1);
                b3 := vscale (2 * PI / vol_prim) (cross v1 v2) |}
    end.
Proof.
  unfold prim_vectors, resolved_dt, SEDCalculator_init.
  destruct (box_matrix tr) as [[L1 L2] L3]. cbn [fst snd].
  set (v1 := vdiv L1 (IZR nx)). set (v2 := vdiv L2 (IZR ny)).
  set (v3 := vdiv L3 (IZR nz)). cbv zeta.
  destruct (negb _); [reflexivity|].
  rewrite value_bind.
  assert (Hdt : value (match dt with
                       | Some dt0 =>
                           warn "Explicitly providing dt_ps to SEDCalculator is deprecated." ;;;
                           ret dt0
                       | None =>
                           match traj_dt_ps tr with
                           | Some dt0 => ret dt0
                           | None => raise (ValueError "Timestep dt_ps not found in Trajectory object and not provided to SEDCalculator.")
                           end
                       end) =
                match match dt with Some dt0 => Some dt0 | None => traj_dt_ps tr end with
                | Some d => Ok d
                | None => Raise (ValueError "Timestep dt_ps not found in Trajectory object and not provided to SEDCalculator.")
                end).
  { destruct dt as [d|]; [reflexivity|]. destruct (traj_dt_ps tr); reflexivity. }
  rewrite Hdt. clear Hdt.
  destruct (match dt with Some dt0 => Some dt0 | None => traj_dt_ps tr end)
    as [d|]; [|reflexivity].
  destruct (Rleb d 0); [reflexivity|].
  cbn [existsb]. rewrite orb_false_r, orb_assoc.
  destruct (_ || _ || _)%bool; [reflexivity|].
  rewrite value_bind.
  destruct (isclose (Rabs (dot v1 (cross v2 v3))) 0) eqn:Hc.
  - pose proof Hc as Hc'. apply isclose_0_true in Hc'.
    rewrite Rabs_Rabsolu in Hc'.
    assert (Hdet : isclose (det3 v1 v2 v3) 0 = true).
    { apply isclose_0_true. rewrite det3_triple. exact Hc'. }
    rewrite Hdet, orb_true_r.
    replace (Rleb (Rabs (dot v1 (cross v2 v3))) 1e-8) with true
      by (symmetry; apply Rleb_true; exact Hc').
    reflexivity.
  - apply isclose_0_false in Hc. rewrite Rabs_Rabsolu in Hc.
    replace (Rleb (Rabs (dot v1 (cross v2 v3))) 1e-8) with false
      by (symmetry; apply Rleb_false; exact Hc).
    reflexivity.
Qed.

(** X2.  [SEDCalculator.__init__] returns exactly when nx, ny and nz are
    positive, a timestep is available (the one given, else the one of the
    trajectory) and positive, no primitive vector is shorter than 1e-9 and
    the volume of the primitive cell exceeds 1e-8 in absolute value; the
    calculator returned holds that timestep and the box vectors divided by
    nx, ny and nz.  In particular the branch that only warns about a small
    volume is never taken. *)
Theorem X2_init_returns_iff tr nx ny nz ud dt :
  let v1 := fst (fst (prim_vectors tr nx ny nz)) in
  let v2 := snd (fst (prim_vectors tr nx ny nz)) in
  let v3 := snd (prim_vectors tr nx ny nz) in
  ((exists self, value (SEDCalculator_init tr nx ny nz ud dt) = Ok self) <->
   (exists d,
      (0 < nx)%Z /\ (0 < ny)%Z /\ (0 < nz)%Z /\
      resolved_dt tr dt = Some d /\ 0 < d /\
      1e-9 <= norm v1 /\ 1e-9 <= norm v2 /\ 1e-9 <= norm v3 /\
      1e-8 < Rabs (dot v1 (cross v2 v3)))) /\
  (forall self,
     value (SEDCalculator_init tr nx ny nz ud dt) = Ok self ->
     traj self = tr /\ use_displacements self = ud /\
     resolved_dt tr dt = Some (dt_ps self) /\
     a1 self = v1 /\ a2 self = v2 /\ a3 self = v3) /\
  ~ In (Warning "Primitive cell volume very small.")
       (logged (SEDCalculator_init tr nx ny nz ud dt)).
Proof.
  intros v1 v2 v3. pose proof (init_value tr nx ny nz ud dt) as E.
  cbv zeta in E. fold v1 v2 v3 in E.
  split; [split|split].
  - intros [self H]. rewrite H in E.
    destruct (0 <? nx)%Z eqn:Hx; [|discriminate].
    destruct (0 <? ny)%Z eqn:Hy; [|discriminate].
    destruct (0 <? nz)%Z eqn:Hz; [|discriminate].
    cbn [andb negb] in E. apply Z.ltb_lt in Hx, Hy, Hz.
    destruct (resolved_dt tr dt) as [d|] eqn:Hdt; [|discriminate].
    destruct (Rleb d 0) eqn:Hd; [discriminate|]. apply Rleb_false in Hd.
    destruct (Rltb (norm v1) 1e-9) eqn:N1; [discriminate|].
    destruct (Rltb (norm v2) 1e-9) eqn:N2; [discriminate|].
    destruct (Rltb (norm v3) 1e-9) eqn:N3; [discriminate|].
    apply Rltb_false in N1, N2, N3. cbn [orb] in E.
    destruct (Rleb _ 1e-8) eqn:Hv; [discriminate|]. apply Rleb_false in Hv.
    exists d. repeat (split; [assumption || reflexivity|]). assumption.
  - intros (d & Hx & Hy & Hz & Hdt & Hd & N1 & N2 & N3 & Hv).
    apply Z.ltb_lt in Hx, Hy, Hz. rewrite Hx, Hy, Hz, Hdt in E.
    cbn [andb negb] in E.
    apply Rleb_false in Hd, Hv. apply Rltb_false in N1, N2, N3.
    rewrite Hd, N1, N2, N3, Hv in E. cbn [orb] in E.
    eexists. exact E.
  - intros self H. rewrite H in E.
    destruct (negb _); [discriminate|].
    destruct (resolved_dt tr dt) as [d|] eqn:Hdt; [|discriminate].
    destruct (Rleb d 0); [discriminate|].
    destruct (_ || _ || _)%bool; [discriminate|].
    destruct (Rleb _ 1e-8); [discriminate|].
    injection E as ->. cbn. repeat split.
  - clear E. unfold SEDCalculator_init, logged.
    destruct (negb _); [cbn; tauto|].
    destruct (box_matrix tr) as [[L1 L2] L3].
    set (m := match dt with Some _ => _ | None => _ end).
    assert (Hm : ~ In (Warning "Primitive cell volume very small.") (fst m)).
    { unfold m. destruct dt as [d|]; cbn.
      - intros [H|[]]. discriminate H.
      - destruct (traj_dt_ps tr); cbn; tauto. }
    destruct m as [l0 [d|e]]; cbn [bind fst] in *; [|exact Hm].
    destruct (Rleb d 0); [cbn; rewrite app_nil_r; exact Hm|].
    destruct (existsb _ _); [cbn; rewrite app_nil_r; exact Hm|].
    destruct (isclose (Rabs _) 0) eqn:Hc.
    + apply isclose_0_true in Hc. rewrite Rabs_Rabsolu in Hc.
      assert (Hdet : isclose (det3 (vdiv L1 (IZR nx)) (vdiv L2 (IZR ny))
                                   (vdiv L3 (IZR nz))) 0 = true).
      { apply isclose_0_true. rewrite det3_triple. exact Hc. }
      rewrite Hdet, orb_true_r. cbn. rewrite app_nil_r. exact Hm.
    + cbn. rewrite app_nil_r. exact Hm.
Qed.

Lemma X2_init_returns_iff_witness :
  exists self, value (SEDCalculator_init two_atom_traj 1 1 1 false None) = Ok self.
Proof.
  apply (proj1 (X2_init_returns_iff two_atom_traj 1 1 1 false None)).
  exists 1. cbn [prim_vectors two_atom_traj box_matrix fst snd resolved_dt
                 traj_dt_ps].
  split; [lia|]. split; [lia|]. split; [lia|]. split; [reflexivity|].
  split; [lra|].
  unfold norm; cbn [vdiv dot cross].
  split; [apply sqrt_ge_small; lra|].
  split; [apply sqrt_ge_small; lra|].
  split; [apply sqrt_ge_small; lra|].
  rewrite Rabs_right; lra.
Defined.

(* ------------------------------------------------------------------ *)
(** ** [get_k_path] and [get_k_grid]                                   *)
(* ------------------------------------------------------------------ *)

(** X3.  In [get_k_path] a lattice parameter of at most 1e-6 (zero and
    negative values included) is ignored: the call behaves, log records
    included, as the one without a lattice parameter; a larger one decides
    the path alone, whatever the cell of the calculator. *)
Theorem X3_lat_param_threshold self d bz n_k lat :
  (lat <= 1e-6 ->
   get_k_path self d bz n_k (Some lat) = get_k_path self d bz n_k None) /\
  (1e-6 < lat ->
   forall other, get_k_path self d bz n_k (Some lat) =
                 get_k_path other d bz n_k (Some lat)).
Proof.
  split.
  - intros H. unfold get_k_path. apply Rleb_true in H. rewrite H. reflexivity.
  - intros H other. unfold get_k_path. apply Rleb_false in H. rewrite H.
    reflexivity.
Qed.

Lemma X3_lat_param_threshold_witness :
  get_k_path two_atom_calc (DirStr "x" None) 1 3 (Some 0) =
  get_k_path two_atom_calc (DirStr "x" None) 1 3 None /\
  get_k_path two_atom_calc (DirStr "x" None) 1 3 (Some 1) =
  get_k_path no_frame_calc (DirStr "x" None) 1 3 (Some 1).
Proof.
  split.
  - apply (proj1 (X3_lat_param_threshold two_atom_calc (DirStr "x" None) 1 3 0)).
    lra.
  - apply (proj2 (X3_lat_param_threshold two_atom_calc (DirStr "x" None) 1 3 1)).
    lra.
Defined.

Lemma nth_linspace a b n i :
  (i < n)%nat -> nth i (linspace a b n) 0 = linspace_at a b n i.
Proof.
  intros Hi. destruct n as [|[|n]]; [lia| |].
  - assert (i = 0)%nat as -> by lia. reflexivity.
  - unfold linspace, linspace_at.
    replace (S (S n) - 1)%nat with (S n) by lia.
    set (f := fun i : nat => a + INR i * ((b - a) / INR (S n))).
    destruct (Nat.eq_dec i (S n)) as [->|Hne].
    + rewrite app_nth2 by (rewrite length_map, length_seq; lia).
      rewrite length_map, length_seq, Nat.sub_diag. cbn [nth].
      assert (H0 : INR (S n) <> 0) by (apply not_0_INR; lia).
      field. exact H0.
    + rewrite app_nth1 by (rewrite length_map, length_seq; lia).
      rewrite (nth_indep _ 0 (f 0%nat))
        by (rewrite length_map, length_seq; lia).
      rewrite map_nth, seq_nth by lia. reflexivity.
Qed.

Lemma nth_flat_map_grid {B} (f : R -> R -> B) (xs ys : list R) (d : B) i j :
  (i < List.length xs)%nat -> (j < List.length ys)%nat ->
  nth (i * List.length ys + j) (flat_map (fun x => map (f x) ys) xs) d =
  f (nth i xs 0) (nth j ys 0).
Proof.
  revert i. induction xs as [|x xs IH]; intros i Hi Hj; [cbn in Hi; lia|].
  cbn [flat_map]. destruct i as [|i].
  - cbn [Nat.mul Nat.add nth]. rewrite app_nth1 by (rewrite length_map; lia).
    rewrite (nth_indep _ d (f x 0)) by (rewrite length_map; lia).
    apply (map_nth (f x)).
  - rewrite app_nth2 by (rewrite length_map; lia).
    rewrite length_map.
    replace (S i * List.length ys + j - List.length ys)%nat
      with (i * List.length ys + j)%nat by lia.
    cbn [nth]. apply IH; [cbn in Hi; lia|exact Hj].
Qed.

(** X4.  The k-vectors [get_k_grid] returns are in row-major order: for
    i < n_kx and j < n_ky the vector at position i * n_ky + j is formed
    from sample i of the first range and sample j of the second, the
    samples being evenly spaced with both ends included.  In the "xy" plane
    the samples are the x and y components, in "yz" the y and z components,
    and in "zx" the first range gives the z component and the second the x
    component; the remaining component is the fixed value. *)
Theorem X4_get_k_grid_row_major plane rx ry n_kx n_ky k_fixed mags vecs shape :
  value (get_k_grid plane rx ry n_kx n_ky k_fixed) = Ok (mags, vecs, shape) ->
  forall i j, (i < Z.to_nat n_kx)%nat -> (j < Z.to_nat n_ky)%nat ->
    nth (i * Z.to_nat n_ky + j) vecs vzero =
    grid_vector plane
      (linspace_at (fst rx) (snd rx) (Z.to_nat n_kx) i)
      (linspace_at (fst ry) (snd ry) (Z.to_nat n_ky) j) k_fixed.
Proof.
  unfold get_k_grid, grid_vector.
  destruct (_ || _)%bool; [discriminate|].
  rewrite value_bind.
  set (xs := linspace (fst rx) (snd rx) (Z.to_nat n_kx)).
  set (ys := linspace (fst ry) (snd ry) (Z.to_nat n_ky)).
  assert (G : forall (f : R -> R -> vec3) i j,
             (i < Z.to_nat n_kx)%nat -> (j < Z.to_nat n_ky)%nat ->
             nth (i * Z.to_nat n_ky + j)
                 (flat_map (fun x => map (f x) ys) xs) vzero =
             f (linspace_at (fst rx) (snd rx) (Z.to_nat n_kx) i)
               (linspace_at (fst ry) (snd ry) (Z.to_nat n_ky) j)).
  { intros f i j Hi Hj.
    rewrite <- (linspace_length (fst ry) (snd ry) (Z.to_nat n_ky)) at 1.
    fold ys. rewrite nth_flat_map_grid
      by (unfold xs, ys; rewrite linspace_length; assumption).
    unfold xs, ys. now rewrite !nth_linspace. }
  destruct (String.eqb (lower plane) "xy").
  { cbn [value ret snd]. intros H; injection H as _ <- _. intros i j Hi Hj.
    apply (G (fun u v => (u, v, k_fixed))); assumption. }
  destruct (String.eqb (lower plane) "yz").
  { cbn [value ret snd]. intros H; injection H as _ <- _. intros i j Hi Hj.
    apply (G (fun u v => (k_fixed, u, v))); assumption. }
  destruct (String.eqb (lower plane) "zx"); [|discriminate].
  cbn [value ret snd]. intros H; injection H as _ <- _. intros i j Hi Hj.
  apply (G (fun u v => (v, k_fixed, u))); assumption.
Qed.

Lemma X4_get_k_grid_row_major_witness :
  exists vecs,
    value (get_k_grid "zx" (0, 1) (2, 4) 2 3 7) = Ok ([], vecs, (2, 3)%Z) /\
    nth (1 * Z.to_nat 3 + 2) vecs vzero =
    grid_vector "zx" (linspace_at 0 1 (Z.to_nat 2) 1)
                     (linspace_at 2 4 (Z.to_nat 3) 2) 7.
Proof.
  eexists. split; [reflexivity|].
  apply (X4_get_k_grid_row_major "zx" (0, 1) (2, 4) 2 3 7 []
           _ (2, 3)%Z); [reflexivity| |]; cbn; lia.
Defined.

(* ------------------------------------------------------------------ *)
(** ** [calculate]: what a result holds                                *)
(* ------------------------------------------------------------------ *)

(** A call of [calculate] that returns has a valid summation mode and
    returns the empty entity, on a trajectory without frames or atoms, or
    the array of the atom groups it determined. *)
Lemma calculate_returns self kp ks bi bt mode gs c r :
  value (calculate self kp ks bi bt mode gs c) = Ok r ->
  (mode = "coherent" \/ mode = "incoherent") /\
  (((n_frames (traj self) = 0 \/ n_atoms (traj self) = 0)%nat /\
    r = {| sed := ComplexArr (empty_grid 0); freqs := []; k_points := kp;
           k_vectors := ks; k_grid_shape := gs; is_complex := true;
           phase := None |}) \/
   (exists groups,
      (0 < n_frames (traj self))%nat /\ (0 < n_atoms (traj self))%nat /\
      value (determine_atom_groups self bi bt mode) = Ok groups /\
      r = {| sed := result_array self ks mode groups;
             freqs := fftfreq (n_frames (traj self)) (dt_ps self);
             k_points := kp; k_vectors := ks; k_grid_shape := gs;
             is_complex := String.eqb mode "coherent"
                           || (List.length groups <=? 1)%nat;
             phase := None |})).
Proof.
  rewrite calculate_value. unfold calculate_one_batch.
  destruct (String.eqb mode "coherent") eqn:M1;
    [|destruct (String.eqb mode "incoherent") eqn:M2; [|discriminate]];
    cbn [orb negb].
  all: match goal with
       | H : String.eqb _ _ = true |- _ => pose proof H as Hm;
                                           apply String.eqb_eq in Hm
       end.
  all: destruct (n_frames (traj self) =? 0)%nat eqn:Hnt;
       [apply Nat.eqb_eq in Hnt; cbn; intros E0; injection E0 as <-;
        split; [auto|left; auto]|].
  all: destruct (n_atoms (traj self) =? 0)%nat eqn:Hna;
       [apply Nat.eqb_eq in Hna; cbn; intros E0; injection E0 as <-;
        split; [auto|left; auto]|].
  all: cbn [orb]; rewrite value_bind;
       destruct (value (determine_atom_groups self bi bt mode)) as [groups|e]
         eqn:Hg; [|discriminate].
  all: apply Nat.eqb_neq in Hnt, Hna.
  all: replace (0 <? n_frames (traj self))%nat with true
         by (symmetry; apply Nat.ltb_lt; lia).
  all: cbn [value ret snd]; intros E0; injection E0 as <-;
       split; [auto|]; right; exists groups.
  all: split; [lia|]; split; [lia|]; split; [reflexivity|].
  all: unfold result_array; rewrite M1; try rewrite M2; reflexivity.
Qed.

Lemma pol3_power_nonneg p : 0 <= pol3_power p.
Proof.
  destruct p as [[p0 p1] p2]. unfold pol3_power.
  pose proof (pow2_ge_0 (Cabs p0)). pose proof (pow2_ge_0 (Cabs p1)).
  pose proof (pow2_ge_0 (Cabs p2)). lra.
Qed.

Lemma Forall2_repeat {A} (P : A -> Prop) z n m :
  P z -> Forall (Forall P) (repeat (repeat z n) m).
Proof.
  intros Hz. apply Forall_forall. intros row Hin. apply repeat_spec in Hin.
  subst row. apply Forall_forall. intros x Hx. apply repeat_spec in Hx.
  now subst x.
Qed.

Lemma summed_intensity_nonneg self groups mp nf ks :
  Forall (Forall (fun x => 0 <= x))
         (cells (summed_intensity self groups mp nf ks)).
Proof.
  unfold summed_intensity.
  assert (H0 : Forall (Forall (fun x => 0 <= x))
                      (cells (zeros 0 nf (List.length ks))))
    by (apply Forall2_repeat; lra).
  revert H0. generalize (zeros 0 nf (List.length ks)).
  induction groups as [|g groups IH]; intros acc Hacc; cbn [fold_left]; auto.
  apply IH. destruct (List.length g =? 0)%nat; auto.
  cbn [add_power cells]. revert Hacc.
  generalize (cells (_calculate_sed_for_group self ks g mp)).
  generalize (cells acc). clear.
  intros l G H. revert G. induction H as [|row l Hrow H IH]; intros [|g G];
    cbn [zip_with]; constructor; auto.
  clear -Hrow. revert g. induction Hrow as [|a row Ha Hrow IH]; intros [|p g];
    cbn [zip_with]; constructor; auto.
  pose proof (pol3_power_nonneg p). lra.
Qed.

Lemma one_batch_Forall {A} (P : A -> Prop) (T : list vec3 -> grid A) z nf ks :
  P z -> Forall (Forall P) (cells (T ks)) ->
  Forall (Forall P) (cells (one_batch T z nf ks)).
Proof.
  intros Hz HT. unfold one_batch.
  destruct (List.length ks =? 0)%nat; [now apply Forall2_repeat|].
  cbn [assign_cols cells zeros].
  pose proof (Forall2_repeat P z (List.length ks) nf Hz) as H0.
  revert H0. generalize (repeat (repeat z (List.length ks)) nf).
  revert HT. generalize (cells (T ks)). generalize (List.length ks). clear.
  intros n G HG. induction HG as [|g G Hg HG IH]; intros [|row Z0] HZ;
    cbn [zip_with]; constructor.
  - inversion HZ; subst. unfold set_slice. cbn [firstn app].
    apply Forall_app. split; [exact Hg|].
    rewrite <- (firstn_skipn n row) in H1. apply Forall_app in H1.
    apply H1.
  - apply IH. now inversion HZ.
Qed.

(** X5.  Every entity that [calculate] returns carries no phase, and its
    flag tells the kind of its array: the flag is set exactly when the
    array is the complex, per-polarisation one.  The array is the real,
    polarisation-summed one only for the summation mode "incoherent" with
    at least two atom groups, and then none of its intensities is
    negative. *)
Theorem X5_result_kind_and_flag self k_points_mags k_vectors_3d
    basis_atom_indices basis_atom_types summation_mode grid_shape
    k_chunk_size r :
  value (calculate self k_points_mags k_vectors_3d basis_atom_indices
           basis_atom_types summation_mode grid_shape k_chunk_size) = Ok r ->
  phase r = None /\
  match sed r with
  | ComplexArr _ => is_complex r = true
  | RealArr g =>
      is_complex r = false /\ summation_mode = "incoherent" /\
      (exists groups,
         value (determine_atom_groups self basis_atom_indices
                  basis_atom_types summation_mode) = Ok groups /\
         (2 <= List.length groups)%nat) /\
      Forall (Forall (fun x => 0 <= x)) (cells g)
  end.
Proof.
  intros H. apply calculate_returns in H.
  destruct H as (Hmode & [(_ & ->)|(groups & _ & _ & Hg & ->)]);
    [cbn; auto|].
  cbn [phase sed is_complex]. split; [reflexivity|].
  unfold result_array.
  destruct (String.eqb summation_mode "coherent") eqn:M1; [reflexivity|].
  destruct (List.length groups <=? 1)%nat eqn:L1; [reflexivity|].
  cbn [orb]. apply Nat.leb_gt in L1.
  destruct Hmode as [->| ->]; [discriminate|].
  repeat split.
  - exists groups. split; [exact Hg|lia].
  - cbn [cells]. apply one_batch_Forall; [lra|]. apply summed_intensity_nonneg.
Qed.

Lemma X5_result_kind_and_flag_witness :
  exists r,
    value (calculate two_atom_calc [0] [(0, 0, 0)] None
             (Some (BList [PyInt 1; PyInt 2])) "incoherent" None 500) = Ok r /\
    phase r = None /\
    match sed r with
    | ComplexArr _ => is_complex r = true
    | RealArr g =>
        is_complex r = false /\ "incoherent" = "incoherent" /\
        (exists groups,
           value (determine_atom_groups two_atom_calc None
                    (Some (BList [PyInt 1; PyInt 2])) "incoherent") = Ok groups /\
           (2 <= List.length groups)%nat) /\
        Forall (Forall (fun x => 0 <= x)) (cells g)
    end.
Proof.
  assert (E : exists r,
             value (calculate two_atom_calc [0] [(0, 0, 0)] None
                      (Some (BList [PyInt 1; PyInt 2])) "incoherent" None 500)
             = Ok r).
  { rewrite calculate_value. eexists. reflexivity. }
  destruct E as [r E]. exists r. split; [exact E|].
  exact (X5_result_kind_and_flag _ _ _ _ _ _ _ _ _ E).
Defined.

(* ------------------------------------------------------------------ *)
(** ** [calculate]: the atom groups                                    *)
(* ------------------------------------------------------------------ *)

Lemma where_from_In start mask i :
  In i (where_from start mask) <->
  exists j, i = Z.of_nat (start + j) /\ nth_error mask j = Some true.
Proof.
  revert start. induction mask as [|b mask IH]; intros start;
    cbn [where_from].
  - split; [intros []|]. intros (j & _ & Hj). destruct j; discriminate.
  - assert (Hrest : In i (where_from (S start) mask) <->
                    exists j, i = Z.of_nat (start + S j) /\
                              nth_error mask j = Some true).
    { rewrite IH. split; intros (j & -> & Hj); exists j; split; auto;
        f_equal; lia. }
    destruct b.
    + cbn [In]. rewrite Hrest. split.
      * intros [<-|(j & -> & Hj)].
        -- exists 0%nat. split; [f_equal; lia|reflexivity].
        -- exists (S j). auto.
      * intros ([|j] & -> & Hj).
        -- left. f_equal. lia.
        -- right. exists j. auto.
    + rewrite Hrest. split.
      * intros (j & -> & Hj). exists (S j). auto.
      * intros ([|j] & -> & Hj); [discriminate|]. exists j. auto.
Qed.

(** The atoms selected by a list of types are the atoms whose type is
    listed. *)
Lemma atoms_of_types_In types tg i :
  In i (atoms_of_types types tg) <->
  exists j t, i = Z.of_nat j /\ nth_error types j = Some t /\ In t tg.
Proof.
  unfold atoms_of_types, np_where, np_isin. rewrite where_from_In.
  split.
  - intros (j & -> & Hj). rewrite nth_error_map in Hj.
    destruct (nth_error types j) as [t|] eqn:Ht; [|discriminate].
    cbn in Hj. injection Hj as Hj. apply existsb_exists in Hj.
    destruct Hj as (y & Hy & Hty). apply Z.eqb_eq in Hty. subst y.
    exists j, t. auto.
  - intros (j & t & -> & Ht & Hin). exists j. split; [reflexivity|].
    rewrite nth_error_map, Ht. cbn. f_equal. apply existsb_exists.
    exists t. split; [exact Hin|apply Z.eqb_refl].
Qed.

Lemma atoms_of_types_in_range types tg :
  Forall (fun i => (0 <= i < Z.of_nat (List.length types))%Z)
         (atoms_of_types types tg).
Proof.
  apply Forall_forall. intros i Hi. apply atoms_of_types_In in Hi.
  destruct Hi as (j & t & -> & Ht & _).
  assert (j < List.length types)%nat
    by (apply nth_error_Some; rewrite Ht; discriminate).
  lia.
Qed.

Lemma index_groups_in_range n processed acc groups :
  value (index_groups n processed acc) = Ok groups ->
  Forall (fun g => g <> [] /\ Forall (fun i => (0 <= i < Z.of_nat n)%Z) g) acc ->
  Forall (fun g => g <> [] /\ Forall (fun i => (0 <= i < Z.of_nat n)%Z) g) groups.
Proof.
  intros H Hacc. unfold index_groups in H.
  revert H. apply for_each_invariant; [|exact Hacc].
  intros g s0 s1 _ Hs0.
  destruct (existsb (fun i => (Z.of_nat n <=? i)%Z) g) eqn:E1; [discriminate|].
  destruct (existsb (fun i => (i <? 0)%Z) g) eqn:E2; [discriminate|].
  cbn [orb]. destruct (0 <? List.length g)%nat eqn:E3;
    cbn [value ret snd]; intros E; injection E as <-; [|exact Hs0].
  apply Forall_app. split; [exact Hs0|]. constructor; [|constructor].
  split; [destruct g; [discriminate|discriminate]|].
  apply Forall_forall. intros i Hi.
  assert (F1 : (Z.of_nat n <=? i)%Z = false).
  { destruct (Z.of_nat n <=? i)%Z eqn:F; [|reflexivity].
    assert (X : existsb (fun i => (Z.of_nat n <=? i)%Z) g = true)
      by (apply existsb_exists; eauto).
    congruence. }
  assert (F2 : (i <? 0)%Z = false).
  { destruct (i <? 0)%Z eqn:F; [|reflexivity].
    assert (X : existsb (fun i => (i <? 0)%Z) g = true)
      by (apply existsb_exists; eauto).
    congruence. }
  apply Z.leb_gt in F1. apply Z.ltb_ge in F2. lia.
Qed.

Lemma arange_in_range n :
  Forall (fun i => (0 <= i < Z.of_nat n)%Z) (arange n).
Proof.
  apply Forall_forall. intros i Hi. unfold arange in Hi.
  apply in_map_iff in Hi. destruct Hi as (j & <- & Hj).
  apply in_seq in Hj. lia.
Qed.

Lemma atom_groups_valid self basis_atom_indices basis_atom_types
    summation_mode groups :
  value (determine_atom_groups self basis_atom_indices basis_atom_types
           summation_mode) = Ok groups ->
  groups <> [] /\
  Forall (Forall (fun i => (0 <= i < Z.of_nat (n_atoms (traj self)))%Z)) groups /\
  ((0 < n_atoms (traj self))%nat -> Forall (fun g => g <> []) groups).
Proof.
  rewrite determine_atom_groups_value.
  set (n := n_atoms (traj self)).
  set (P := fun g : list Z =>
              g <> [] /\ Forall (fun i => (0 <= i < Z.of_nat n)%Z) g).
  assert (Hfin : forall gs : list (list Z),
             Forall P gs ->
             let out := if (List.length gs =? 0)%nat
                        then gs ++ [arange n] else gs in
             out <> [] /\
             Forall (Forall (fun i => (0 <= i < Z.of_nat n)%Z)) out /\
             ((0 < n)%nat -> Forall (fun g => g <> []) out)).
  { intros gs Hgs. destruct gs as [|g gs]; cbn.
    - split; [discriminate|]. split.
      + constructor; [apply arange_in_range|constructor].
      + intros Hn. constructor; [|constructor]. unfold arange.
        destruct n; [lia|]. discriminate.
    - split; [discriminate|]. split.
      + eapply Forall_impl; [|exact Hgs]. intros a Ha. apply Ha.
      + intros _. eapply Forall_impl; [|exact Hgs]. intros a Ha. apply Ha. }
  destruct basis_atom_types as [b|].
  - destruct (value (processed_basis_atom_types b summation_mode)) as [p|e];
      [|discriminate].
    intros H; injection H as <-. apply Hfin.
    apply Forall_forall. intros g Hg. apply filter_In in Hg.
    destruct Hg as [Hin Hne]. apply in_map_iff in Hin.
    destruct Hin as (tg & <- & _). split.
    + intros E. rewrite E in Hne. discriminate.
    + apply atoms_of_types_in_range.
  - destruct basis_atom_indices as [b|].
    + rewrite value_bind.
      destruct (value (processed_basis_atom_indices b)) as [p|e];
        [|discriminate].
      destruct (value (index_groups n p [])) as [gs|e] eqn:Hg; [|discriminate].
      intros H; injection H as <-. apply Hfin.
      apply (index_groups_in_range n p [] gs Hg). constructor.
    + intros H; injection H as <-. apply (Hfin []). constructor.
Qed.

(** X6.  The atom groups [calculate] settles on (lines 208-266) are never
    none: a selection that leaves no group is replaced by the single group
    of all the atoms.  Every index in a group is a valid atom index, from 0
    to n_atoms - 1, and, on a trajectory with atoms, no group is empty: the
    indexing of the positions and velocities by a group cannot go out of
    range. *)
Theorem X6_atom_groups_in_range self basis_atom_indices basis_atom_types
    summation_mode groups :
  value (determine_atom_groups self basis_atom_indices basis_atom_types
           summation_mode) = Ok groups ->
  groups <> [] /\
  Forall (Forall (fun i => (0 <= i < Z.of_nat (n_atoms (traj self)))%Z)) groups /\
  ((0 < n_atoms (traj self))%nat -> Forall (fun g => g <> []) groups) /\
  forall kp ks gs c,
    (summation_mode = "coherent" \/ summation_mode = "incoherent") ->
    exists r, value (calculate self kp ks basis_atom_indices basis_atom_types
                       summation_mode gs c) = Ok r.
Proof.
  intros H. destruct (atom_groups_valid _ _ _ _ _ H) as (H1 & H2 & H3).
  repeat split; auto.
  intros kp ks gs c Hmode. rewrite calculate_value. unfold calculate_one_batch.
  replace (negb (String.eqb summation_mode "coherent"
                 || String.eqb summation_mode "incoherent")) with false
    by (destruct Hmode; subst summation_mode; reflexivity).
  destruct (_ || _)%bool; [eexists; reflexivity|].
  rewrite value_bind, H. eexists. reflexivity.
Qed.

Lemma X6_atom_groups_in_range_witness :
  [[0%Z]; [1%Z]] <> [] /\
  Forall (Forall (fun i => (0 <= i < Z.of_nat (n_atoms (traj two_atom_calc)))%Z))
         [[0%Z]; [1%Z]] /\
  ((0 < n_atoms (traj two_atom_calc))%nat ->
   Forall (fun g : list Z => g <> []) [[0%Z]; [1%Z]]) /\
  forall kp ks gs c,
    ("incoherent" = "coherent" \/ "incoherent" = "incoherent") ->
    exists r, value (calculate two_atom_calc kp ks None
                       (Some (BList [PyInt 1; PyInt 2])) "incoherent" gs c)
              = Ok r.
Proof.
  apply (X6_atom_groups_in_range two_atom_calc None
           (Some (BList [PyInt 1; PyInt 2])) "incoherent").
  reflexivity.
Defined.

Lemma type_groups_unmatched types ts :
  (forall x, In x types -> ~ In x ts) ->
  forall processed,
    (forall tg, In tg processed -> incl tg ts) ->
    filter nonempty (map (atoms_of_types types) processed) = [].
Proof.
  intros H processed Hp. induction processed as [|tg p IH]; [reflexivity|].
  cbn [map filter].
  assert (E : atoms_of_types types tg = []).
  { apply atoms_of_types_nil. intros x Hx Hin. apply (H x Hx).
    apply (Hp tg); [now left|exact Hin]. }
  rewrite E. cbn. apply IH. intros tg' Hin. apply Hp. now right.
Qed.

(** X7.  When no atom of the trajectory has any of the types of a flat
    list given as [basis_atom_types], [calculate] does not raise and does
    not return an empty result: in both summation modes it returns exactly
    what the call without any basis returns, the spectrum of all the
    atoms. *)
Theorem X7_unmatched_types_fall_back_to_all_atoms self k_points_mags
    k_vectors_3d basis_atom_indices ts summation_mode grid_shape k_chunk_size :
  (forall x, In x (types (traj self)) -> ~ In x ts) ->
  value (calculate self k_points_mags k_vectors_3d basis_atom_indices
           (Some (BList (map PyInt ts))) summation_mode grid_shape k_chunk_size) =
  value (calculate self k_points_mags k_vectors_3d None None summation_mode
           grid_shape k_chunk_size).
Proof.
  intros H. rewrite !calculate_value. unfold calculate_one_batch.
  destruct (negb _); [reflexivity|].
  destruct (_ || _)%bool; [reflexivity|].
  rewrite !value_bind, !determine_atom_groups_value.
  assert (E : value (processed_basis_atom_types (BList (map PyInt ts))
                       summation_mode) =
              Ok (match ts with
                  | [] => []
                  | _ => if String.eqb summation_mode "incoherent"
                         then map (fun t => [t]) ts else [ts]
                  end)).
  { destruct ts as [|t ts]; [reflexivity|].
    unfold processed_basis_atom_types.
    change (0 <? List.length (map PyInt (t :: ts)))%nat with true.
    change (forallb is_list (map PyInt (t :: ts))) with false.
    rewrite forallb_is_int_PyInt, map_as_int_PyInt.
    destruct (String.eqb summation_mode "incoherent"); [|reflexivity].
    cbn [value ret snd]. f_equal. rewrite map_map. reflexivity. }
  rewrite E.
  rewrite (type_groups_unmatched _ ts H).
  - reflexivity.
  - intros tg Hin. destruct ts as [|t ts]; [destruct Hin|].
    destruct (String.eqb summation_mode "incoherent").
    + apply in_map_iff in Hin. destruct Hin as (t' & <- & Ht').
      intros x [<-|[]]. exact Ht'.
    + destruct Hin as [<-|[]]. apply incl_refl.
Qed.

Lemma X7_unmatched_types_fall_back_to_all_atoms_witness :
  value (calculate two_atom_calc [0] [(0, 0, 0)] None
           (Some (BList (map PyInt [3%Z; 4%Z]))) "incoherent" None 500) =
  value (calculate two_atom_calc [0] [(0, 0, 0)] None None "incoherent"
           None 500).
Proof.
  apply (X7_unmatched_types_fall_back_to_all_atoms two_atom_calc [0]
           [(0, 0, 0)] None [3%Z; 4%Z] "incoherent" None 500).
  cbn. intros x [<-|[<-|[]]]; intros [E|[E|[]]]; discriminate E.
Defined.

(** X8.  Given as [basis_atom_indices], a non-empty flat list of ints with
    an index below 0 or not below n_atoms makes [calculate] raise, when no
    [basis_atom_types] is given, the summation mode is valid and the
    trajectory has frames and atoms: ValueError when every index of the
    list is an int64, a negative index not counting from the end, and
    OverflowError, from the conversion of line 246 that comes before the
    bounds check, as soon as one index of the list is not an int64. *)
Theorem X8_index_out_of_bounds_raises self k_points_mags k_vectors_3d idx i
    summation_mode grid_shape k_chunk_size :
  (summation_mode = "coherent" \/ summation_mode = "incoherent") ->
  (0 < n_frames (traj self))%nat -> (0 < n_atoms (traj self))%nat ->
  In i idx -> (i < 0 \/ Z.of_nat (n_atoms (traj self)) <= i)%Z ->
  value (calculate self k_points_mags k_vectors_3d
           (Some (BList (map PyInt idx))) None summation_mode grid_shape
           k_chunk_size) =
  if forallb is_int64 idx
  then Raise (ValueError "Atom indices in basis out of bounds.")
  else Raise (OverflowError "Python int too large to convert to C long").
Proof.
  intros Hmode Hnt Hna Hin Hi. rewrite calculate_value.
  unfold calculate_one_batch.
  replace (negb (String.eqb summation_mode "coherent"
                 || String.eqb summation_mode "incoherent")) with false
    by (destruct Hmode; subst summation_mode; reflexivity).
  replace ((n_frames (traj self) =? 0) || (n_atoms (traj self) =? 0))%nat
    with false
    by (symmetry; apply orb_false_iff; split; apply Nat.eqb_neq; lia).
  rewrite value_bind, determine_atom_groups_value.
  destruct idx as [|j idx]; [destruct Hin|].
  rewrite value_bind. unfold processed_basis_atom_indices.
  change (List.length (map PyInt (j :: idx)) =? 0)%nat with false.
  change (forallb is_list (map PyInt (j :: idx))) with false.
  rewrite forallb_is_int_PyInt, map_as_int_PyInt.
  cbv iota. rewrite !value_bind. unfold asarray_int.
  destruct (forallb is_int64 (j :: idx)); [|reflexivity].
  cbn [List.length Nat.ltb Nat.leb value ret snd index_groups for_each].
  rewrite value_bind.
  assert (E : existsb (fun i0 => (Z.of_nat (n_atoms (traj self)) <=? i0)%Z)
                      (j :: idx)
              || existsb (fun i0 => (i0 <? 0)%Z) (j :: idx) = true).
  { apply orb_true_iff. destruct Hi as [Hi|Hi].
    - right. apply existsb_exists. exists i. split; [exact Hin|].
      apply Z.ltb_lt. exact Hi.
    - left. apply existsb_exists. exists i. split; [exact Hin|].
      apply Z.leb_le. exact Hi. }
  rewrite E. reflexivity.
Qed.

Lemma X8_index_out_of_bounds_raises_witness :
  value (calculate two_atom_calc [0] [(0, 0, 0)]
           (Some (BList (map PyInt [0%Z; (-1)%Z]))) None "coherent" None 500) =
  Raise (ValueError "Atom indices in basis out of bounds.") /\
  value (calculate two_atom_calc [0] [(0, 0, 0)]
           (Some (BList (map PyInt [0%Z; 9223372036854775808%Z]))) None
           "coherent" None 500) =
  Raise (OverflowError "Python int too large to convert to C long").
Proof.
  split.
  - apply (X8_index_out_of_bounds_raises two_atom_calc [0] [(0, 0, 0)]
             [0%Z; (-1)%Z] (-1)%Z "coherent" None 500).
    + left. reflexivity.
    + cbn. lia.
    + cbn. lia.
    + cbn. auto.
    + left. lia.
  - apply (X8_index_out_of_bounds_raises two_atom_calc [0] [(0, 0, 0)]
             [0%Z; 9223372036854775808%Z] 9223372036854775808%Z "coherent"
             None 500).
    + left. reflexivity.
    + cbn. lia.
    + cbn. lia.
    + cbn. auto.
    + right. cbn. lia.
Defined.

(* ------------------------------------------------------------------ *)
(** ** [calculate]: incoherent and coherent sums                       *)
(* ------------------------------------------------------------------ *)

Lemma nth_zip_with {A B D} (f : A -> B -> D) l m i da db d :
  (i < List.length l)%nat -> (i < List.length m)%nat ->
  nth i (zip_with f l m) d = f (nth i l da) (nth i m db).
Proof.
  revert m i. induction l as [|a l IH]; intros [|b m] i Hl Hm;
    cbn in Hl, Hm; try lia.
  destruct i as [|i]; cbn; [reflexivity|]. apply IH; lia.
Qed.

Lemma one_batch_cell {A} (T : list vec3 -> grid A) z nf ks w k dr d :
  Forall (fun row => List.length row = List.length ks) (cells (T ks)) ->
  List.length (cells (T ks)) = nf ->
  (w < nf)%nat -> (k < List.length ks)%nat ->
  nth k (nth w (cells (one_batch T z nf ks)) dr) d =
  nth k (nth w (cells (T ks)) dr) d.
Proof.
  intros Hrows Hn Hw Hk. rewrite one_batch_cells by (auto; lia).
  cbn [cells].
  rewrite (nth_zip_with _ _ _ w dr dr) by (rewrite ?repeat_length; lia).
  reflexivity.
Qed.

(** The power of one atom group at one (frequency, k) index. *)
Lemma summed_intensity_cell self groups mp ks w k :
  traj_wf (traj self) ->
  Forall (fun g => g <> []) groups ->
  (w < n_frames (traj self))%nat -> (k < List.length ks)%nat ->
  cell_at (cells (summed_intensity self groups mp (n_frames (traj self)) ks)) w k =
  fold_right Rplus 0
    (map (fun g => pol3_power
                     (nth k (nth w (cells (_calculate_sed_for_group self ks g mp))
                                 []) pol3_zero))
         groups).
Proof.
  intros Hwf Hne Hw Hk. unfold summed_intensity.
  set (n := n_frames (traj self)) in *.
  assert (G : forall acc : grid R,
             List.length (cells acc) = n ->
             Forall (fun row => List.length row = List.length ks) (cells acc) ->
             cell_at (cells (fold_left
                (fun summed grp_indices =>
                   if (List.length grp_indices =? 0)%nat then summed
                   else add_power summed
                          (_calculate_sed_for_group self ks grp_indices mp))
                groups acc)) w k =
             cell_at (cells acc) w k +
             fold_right Rplus 0
               (map (fun g => pol3_power
                        (nth k (nth w (cells (_calculate_sed_for_group self ks g mp))
                                    []) pol3_zero))
                    groups)).
  { induction Hne as [|g groups Hg Hne IH]; intros acc Hlen Hrows;
      cbn [fold_left map fold_right]; [lra|].
    destruct g as [|i0 g]; [congruence|].
    change (List.length (i0 :: g) =? 0)%nat with false. cbv iota.
    set (G := _calculate_sed_for_group self ks (i0 :: g) mp).
    assert (HGn : List.length (cells G) = n)
      by (apply sed_for_group_nrows; exact Hwf).
    pose proof (sed_for_group_rows self ks (i0 :: g) mp) as HGr. fold G in HGr.
    rewrite IH.
    - cbn [add_power cells]. unfold cell_at.
      rewrite (nth_zip_with _ _ _ w [] []) by lia.
      assert (R1 : List.length (nth w (cells acc) []) = List.length ks).
      { rewrite Forall_forall in Hrows. apply Hrows. apply nth_In. lia. }
      assert (R2 : List.length (nth w (cells G) []) = List.length ks).
      { rewrite Forall_forall in HGr. apply HGr. apply nth_In. lia. }
      rewrite (nth_zip_with _ _ _ k 0 pol3_zero) by lia.
      lra.
    - cbn [add_power cells]. rewrite zip_with_length. lia.
    - cbn [add_power cells].
      revert Hrows HGr. generalize (cells G). generalize (cells acc).
      generalize (List.length ks). clear.
      intros m l GG H. revert GG. induction H as [|a l Ha H IH];
        intros [|p GG] HG; cbn [zip_with]; constructor.
      + inversion HG; subst. rewrite zip_with_length. lia.
      + apply IH. now inversion HG. }
  rewrite G.
  - unfold cell_at. cbn [zeros cells].
    rewrite (nth_indep _ [] (repeat 0 (List.length ks)))
      by (rewrite repeat_length; lia).
    rewrite nth_repeat, nth_repeat. lra.
  - apply repeat_length.
  - cbn [zeros cells]. apply Forall_forall. intros row Hin.
    apply repeat_spec in Hin. subst row. apply repeat_length.
Qed.

(** The coherent call on one explicit group of valid atom indices. *)
Lemma calculate_coherent_group self kp ks gs c g :
  (0 < n_frames (traj self))%nat -> (0 < n_atoms (traj self))%nat ->
  g <> [] ->
  Forall (fun i => (0 <= i < Z.of_nat (n_atoms (traj self)))%Z) g ->
  value (calculate self kp ks (Some (BArray 1 g)) None "coherent" gs c) =
  Ok {| sed := ComplexArr
                 (one_batch (fun ks' => _calculate_sed_for_group self ks' g
                                          (mean_axis0 (positions (traj self))))
                            pol3_zero
                            (List.length (fftfreq (n_frames (traj self))
                                                  (dt_ps self))) ks);
        freqs := fftfreq (n_frames (traj self)) (dt_ps self);
        k_points := kp; k_vectors := ks; k_grid_shape := gs;
        is_complex := true; phase := None |}.
Proof.
  intros Hnt Hna Hne Hrange. rewrite calculate_value.
  assert (Hg : value (determine_atom_groups self (Some (BArray 1 g)) None
                        "coherent") = Ok [g]).
  { rewrite determine_atom_groups_value, value_bind.
    unfold processed_basis_atom_indices.
    destruct g as [|i0 g]; [congruence|].
    change ((1 =? 1)%nat && (0 <? List.length (i0 :: g))%nat) with true.
    cbn [value ret snd index_groups for_each]. rewrite value_bind.
    assert (E1 : existsb (fun i => (Z.of_nat (n_atoms (traj self)) <=? i)%Z)
                         (i0 :: g) = false).
    { apply not_true_is_false. intros E.
      apply existsb_exists in E. destruct E as (x & Hx & Hb).
      apply Z.leb_le in Hb. rewrite Forall_forall in Hrange.
      specialize (Hrange x Hx). lia. }
    assert (E2 : existsb (fun i => (i <? 0)%Z) (i0 :: g) = false).
    { apply not_true_is_false. intros E.
      apply existsb_exists in E. destruct E as (x & Hx & Hb).
      apply Z.ltb_lt in Hb. rewrite Forall_forall in Hrange.
      specialize (Hrange x Hx). lia. }
    rewrite E1, E2. reflexivity. }
  destruct (calculate_one_batch_single_group self kp ks (Some (BArray 1 g)) None
              "coherent" gs g) as (arr & E & Harr); auto.
  rewrite E. subst arr.
  replace ((n_frames (traj self) =? 0) || (n_atoms (traj self) =? 0))%nat
    with false
    by (symmetry; apply orb_false_iff; split; apply Nat.eqb_neq; lia).
  replace (List.length g =? 0)%nat with false
    by (symmetry; apply Nat.eqb_neq; destruct g; [congruence|discriminate]).
  reflexivity.
Qed.

(** X9.  On a trajectory with frames and atoms whose velocities are given
    for every frame, the incoherent result is the sum of the powers of its
    atom groups: at every (frequency, k) index, the power [calculate]
    returns in the mode "incoherent" is the sum, over the atom groups the
    call settles on, of the power (squared magnitude summed over the
    polarisation axis) that the coherent call on that group alone returns.
    Each of these coherent calls returns. *)
Theorem X9_incoherent_is_sum_of_group_powers self k_points_mags k_vectors_3d
    basis_atom_indices basis_atom_types grid_shape k_chunk_size r :
  traj_wf (traj self) ->
  (0 < n_frames (traj self))%nat -> (0 < n_atoms (traj self))%nat ->
  value (calculate self k_points_mags k_vectors_3d basis_atom_indices
           basis_atom_types "incoherent" grid_shape k_chunk_size) = Ok r ->
  exists groups results,
    value (determine_atom_groups self basis_atom_indices basis_atom_types
             "incoherent") = Ok groups /\
    Forall2 (fun g rg =>
               value (calculate self k_points_mags k_vectors_3d
                        (Some (BArray 1 g)) None "coherent" grid_shape
                        k_chunk_size) = Ok rg)
            groups results /\
    forall w k,
      (w < n_frames (traj self))%nat -> (k < List.length k_vectors_3d)%nat ->
      cell_at (total_power (sed r)) w k =
      fold_right Rplus 0
        (map (fun rg => cell_at (total_power (sed rg)) w k) results).
Proof.
  intros Hwf Hnt Hna H. apply calculate_returns in H.
  destruct H as (_ & [([E|E] & _)|(groups & _ & _ & Hg & ->)]); try lia.
  destruct (atom_groups_valid self _ _ _ _ Hg) as (Hne0 & Hrange & Hne).
  specialize (Hne Hna).
  set (mp := mean_axis0 (positions (traj self))).
  set (nf := List.length (fftfreq (n_frames (traj self)) (dt_ps self))).
  assert (Hnf : nf = n_frames (traj self)) by (apply fftfreq_length; lia).
  set (res := fun g =>
         {| sed := ComplexArr
                     (one_batch (fun ks' => _calculate_sed_for_group self ks' g mp)
                                pol3_zero nf k_vectors_3d);
            freqs := fftfreq (n_frames (traj self)) (dt_ps self);
            k_points := k_points_mags; k_vectors := k_vectors_3d;
            k_grid_shape := grid_shape;
            is_complex := true; phase := None |}).
  exists groups, (map res groups). split; [exact Hg|]. split.
  - clear Hg Hne0. induction groups as [|g groups IH]; cbn [map];
      constructor.
    + inversion Hrange; subst. inversion Hne; subst.
      now apply calculate_coherent_group.
    + apply IH; [now inversion Hrange|now inversion Hne].
  - intros w k Hw Hk. rewrite map_map.
    assert (Hcell : forall g,
               cell_at (total_power (sed (res g))) w k =
               pol3_power (nth k (nth w (cells (_calculate_sed_for_group self
                                                  k_vectors_3d g mp)) [])
                               pol3_zero)).
    { intros g. unfold res, cell_at. cbn [sed total_power].
      set (T := fun ks' => _calculate_sed_for_group self ks' g mp).
      destruct (one_batch_wf T pol3_zero nf k_vectors_3d) as [L R0];
        [apply sed_for_group_rows
        |rewrite Hnf; now apply sed_for_group_nrows|].
      destruct (one_batch_shape T pol3_zero nf k_vectors_3d) as [D0 D1].
      rewrite D0 in L. rewrite D1 in R0.
      assert (Hrow : List.length
                (nth w (cells (one_batch T pol3_zero nf k_vectors_3d)) []) =
                List.length k_vectors_3d).
      { rewrite Forall_forall in R0. apply R0. apply nth_In. lia. }
      rewrite (nth_indep _ [] (map pol3_power []))
        by (rewrite length_map; lia).
      rewrite map_nth.
      rewrite (nth_indep _ 0 (pol3_power pol3_zero))
        by (rewrite length_map, Hrow; exact Hk).
      rewrite map_nth. f_equal.
      apply (one_batch_cell T pol3_zero nf k_vectors_3d w k [] pol3_zero);
        auto; try lia.
      - exact (sed_for_group_rows self k_vectors_3d g mp).
      - rewrite Hnf. exact (sed_for_group_nrows self k_vectors_3d g mp Hwf). }
    rewrite (map_ext _ _ Hcell).
    unfold result_array. cbn [String.eqb Ascii.eqb Bool.eqb orb sed].
    fold mp nf.
    destruct (List.length groups <=? 1)%nat eqn:L1.
    + destruct groups as [|g [|g2 groups]]; [congruence| |discriminate].
      cbn [final_group_indices List.length Nat.ltb Nat.leb map fold_right].
      inversion Hne; subst.
      replace (List.length g =? 0)%nat with false
        by (symmetry; apply Nat.eqb_neq; destruct g; [congruence|discriminate]).
      rewrite <- Hcell. unfold res. cbn [sed]. lra.
    + cbn [total_power]. unfold cell_at at 1.
      set (T := summed_intensity self groups mp nf).
      rewrite one_batch_cell; try lia.
      * unfold T. rewrite Hnf. apply summed_intensity_cell; auto.
      * apply summed_intensity_rows.
      * unfold T. rewrite Hnf. now apply summed_intensity_nrows.
Qed.

Lemma X9_incoherent_is_sum_of_group_powers_witness :
  exists r,
    value (calculate two_atom_calc [0] [(0, 0, 0)] None
             (Some (BList [PyInt 1; PyInt 2])) "incoherent" None 500) = Ok r /\
    exists groups results,
      value (determine_atom_groups two_atom_calc None
               (Some (BList [PyInt 1; PyInt 2])) "incoherent") = Ok groups /\
      Forall2 (fun g rg =>
                 value (calculate two_atom_calc [0] [(0, 0, 0)]
                          (Some (BArray 1 g)) None "coherent" None 500) = Ok rg)
              groups results /\
      forall w k,
        (w < n_frames (traj two_atom_calc))%nat ->
        (k < List.length [(0, 0, 0)])%nat ->
        cell_at (total_power (sed r)) w k =
        fold_right Rplus 0
          (map (fun rg => cell_at (total_power (sed rg)) w k) results).
Proof.
  assert (E : exists r,
             value (calculate two_atom_calc [0] [(0, 0, 0)] None
                      (Some (BList [PyInt 1; PyInt 2])) "incoherent" None 500)
             = Ok r).
  { rewrite calculate_value. eexists. reflexivity. }
  destruct E as [r E]. exists r. split; [exact E|].
  apply (X9_incoherent_is_sum_of_group_powers two_atom_calc [0] [(0, 0, 0)]
           None (Some (BList [PyInt 1; PyInt 2])) None 500 r).
  - reflexivity.
  - cbn. lia.
  - cbn. lia.
  - exact E.
Defined.

(* ------------------------------------------------------------------ *)
(** ** [calculate_chiral_phase]                                        *)
(* ------------------------------------------------------------------ *)

Lemma Ok_inj {A} (a b : A) : Ok a = Ok b -> a = b.
Proof. intros H. now injection H. Qed.

Lemma map_M_Forall {A B} (P : B -> Prop) (f : A -> M B) l out :
  (forall a b, In a l -> value (f a) = Ok b -> P b) ->
  value (map_M f l) = Ok out -> Forall P out.
Proof.
  revert out. induction l as [|a l IH]; intros out Hf; cbn [map_M].
  - cbn. intros H; injection H as <-. constructor.
  - rewrite value_bind. destruct (value (f a)) as [b|e] eqn:Eb; [|discriminate].
    rewrite value_bind.
    destruct (value (map_M f l)) as [bs|e] eqn:Ebs; [|discriminate].
    cbn. intros H; injection H as <-. constructor.
    + apply (Hf a); [now left|exact Eb].
    + apply IH; [|reflexivity]. intros a0 b0 Hin. apply Hf. now right.
Qed.

Lemma map_M_length {A B} (f : A -> M B) l out :
  value (map_M f l) = Ok out -> List.length out = List.length l.
Proof.
  revert out. induction l as [|a l IH]; intros out; cbn [map_M].
  - cbn. intros H; injection H as <-. reflexivity.
  - rewrite value_bind. destruct (value (f a)) as [b|e]; [|discriminate].
    rewrite value_bind.
    destruct (value (map_M f l)) as [bs|e]; [|discriminate].
    cbn. intros H; injection H as <-. cbn. f_equal. now apply IH.
Qed.

Lemma map_M_returns {A B} (f : A -> M B) l :
  (forall a, In a l -> exists b, value (f a) = Ok b) ->
  exists out, value (map_M f l) = Ok out.
Proof.
  induction l as [|a l IH]; intros Hf; cbn [map_M].
  - eexists. reflexivity.
  - destruct (Hf a) as [b Hb]; [now left|].
    destruct IH as [bs Hbs]; [intros a0 Hin; apply Hf; now right|].
    rewrite value_bind, Hb, value_bind, Hbs. eexists. reflexivity.
Qed.

Lemma chiral_cell_returns mode z1 z2 :
  exists x, value (chiral_cell mode z1 z2) = Ok x.
Proof.
  unfold chiral_cell. destruct z1, z2.
  destruct (_ || _)%bool; [eexists; reflexivity|].
  destruct (String.eqb _ "A"); [eexists; reflexivity|].
  destruct (String.eqb _ "B"); eexists; reflexivity.
Qed.

(** One cell of the modes other than "C": the value and its range. *)
Lemma chiral_cell_range mode z1 z2 x :
  value (chiral_cell mode z1 z2) = Ok x ->
  (mode = "A" -> 0 <= x <= PI) /\
  (mode = "B" -> - (PI / 2) <= x <= PI / 2) /\
  (mode <> "A" -> mode <> "B" -> x = 0).
Proof.
  unfold chiral_cell. destruct z1 as [v1r v1i], z2 as [v2r v2i].
  pose proof PI_RGT_0 as Hpi.
  destruct (_ || _)%bool.
  { cbn. intros H; injection H as <-. repeat split; intros; lra. }
  destruct (String.eqb mode "A") eqn:EA.
  { apply String.eqb_eq in EA. subst mode.
    cbn. intros H; injection H as <-. repeat split; try discriminate.
    - apply acos_bound.
    - apply acos_bound.
    - intros NA. congruence. }
  destruct (String.eqb mode "B") eqn:EB.
  { apply String.eqb_eq in EB. subst mode.
    cbn. intros H; injection H as <-. repeat split; try discriminate.
    - apply asin_bound.
    - apply asin_bound.
    - intros _ NB. congruence. }
  rewrite value_bind. cbn. intros H; injection H as <-.
  apply String.eqb_neq in EA, EB. repeat split; intros; congruence || lra.
Qed.

(** X10.  In the modes other than "C", [calculate_chiral_phase] returns
    only for arrays of the same shape that are empty or have two axes; the
    output has the shape of the input, every element lies in [0, pi] for
    the mode "A" and in [-pi/2, pi/2] for the mode "B", and for any other
    mode name every element is 0. *)
Theorem X10_chiral_phase_A_B_range Z1 Z2 angle_range_opt out :
  angle_range_opt <> "C" ->
  value (calculate_chiral_phase Z1 Z2 angle_range_opt) = Ok out ->
  nd_shape Z1 = nd_shape Z2 /\ nd_shape out = nd_shape Z1 /\
  (nd_size Z1 = 0%nat \/ List.length (nd_shape Z1) = 2%nat) /\
  Forall (fun x =>
            (angle_range_opt = "A" -> 0 <= x <= PI) /\
            (angle_range_opt = "B" -> - (PI / 2) <= x <= PI / 2) /\
            (angle_range_opt <> "A" -> angle_range_opt <> "B" -> x = 0))
         (nd_data out).
Proof.
  intros HC. unfold calculate_chiral_phase.
  destruct (list_eq_dec Nat.eq_dec (nd_shape Z1) (nd_shape Z2)) as [E|NE];
    cbn [negb]; [|discriminate].
  destruct (nd_size Z1 =? 0)%nat eqn:Hs.
  { apply Nat.eqb_eq in Hs. cbn. intros H; injection H as <-. cbn. auto. }
  apply String.eqb_neq in HC. rewrite HC.
  destruct (nd_shape Z1) as [|nw [|nk [|n3 rest]]]; try discriminate.
  rewrite value_bind.
  destruct (value (map_M _ _)) as [data|e] eqn:Hd; [|discriminate].
  cbn. intros H; injection H as <-. cbn [nd_shape nd_data].
  repeat split; auto.
  revert Hd. apply map_M_Forall. intros [z1 z2] x _. apply chiral_cell_range.
Qed.

Lemma X10_chiral_phase_A_B_range_witness :
  exists out,
    value (calculate_chiral_phase Z_minus_i Z_one "A") = Ok out /\
    nd_shape out = nd_shape Z_minus_i /\
    Forall (fun x => ("A" = "A" -> 0 <= x <= PI)) (nd_data out).
Proof.
  assert (E : exists out,
             value (calculate_chiral_phase Z_minus_i Z_one "A") = Ok out).
  { unfold calculate_chiral_phase.
    destruct (list_eq_dec Nat.eq_dec (nd_shape Z_minus_i) (nd_shape Z_one))
      as [_|NE]; [|exfalso; apply NE; reflexivity].
    cbn [negb nd_size nd_shape Z_minus_i Z_one fold_right Nat.mul Nat.add
         Nat.eqb String.eqb Ascii.eqb Bool.eqb].
    rewrite value_bind.
    destruct (map_M_returns
                (fun zz : C * C => chiral_cell "A" (fst zz) (snd zz))
                (combine (nd_data Z_minus_i) (nd_data Z_one))) as [data Hd].
    { intros a _. apply chiral_cell_returns. }
    fold Z_minus_i Z_one. rewrite Hd. eexists. reflexivity. }
  destruct E as [out E]. exists out. split; [exact E|].
  assert (NC : "A" <> "C") by discriminate.
  destruct (X10_chiral_phase_A_B_range Z_minus_i Z_one "A" out NC E)
    as (_ & S & _ & F).
  split; [exact S|].
  eapply Forall_impl; [|exact F]. intros x Hx. apply Hx.
Defined.

Lemma wrap_phase_0 x : wrap_phase (x - x) = 0.
Proof.
  pose proof PI_RGT_0 as Hpi. unfold wrap_phase, np_mod.
  replace (Zfloor ((x - x + PI) / (2 * PI))) with 0%Z.
  - lra.
  - symmetry. apply Zfloor_eq.
    replace ((x - x + PI) / (2 * PI)) with (1 / 2) by (field; lra).
    lra.
Qed.

Lemma chiral_cell_same mode z x :
  value (chiral_cell mode z z) = Ok x -> x = 0.
Proof.
  unfold chiral_cell. destruct z as [vr vi].
  destruct (Rltb (vr ^ 2 + vi ^ 2) 1e-18) eqn:Hm.
  { cbn. intros H; injection H as <-. reflexivity. }
  cbn [orb]. apply Rltb_false in Hm.
  assert (Hs : sqrt (vr ^ 2 + vi ^ 2) * sqrt (vr ^ 2 + vi ^ 2) = vr ^ 2 + vi ^ 2)
    by (apply sqrt_sqrt; lra).
  destruct (String.eqb mode "A").
  { rewrite value_ret. intros H; apply Ok_inj in H; subst x. rewrite Hs.
    replace ((vr * vr + vi * vi) / (vr ^ 2 + vi ^ 2)) with 1 by (field; lra).
    unfold clip. rewrite Rmax_left by lra. rewrite Rmin_left by lra.
    apply acos_1. }
  destruct (String.eqb mode "B").
  { rewrite value_ret. intros H; apply Ok_inj in H; subst x. rewrite Hs.
    replace ((vr * vi - vi * vr) / (vr ^ 2 + vi ^ 2)) with 0 by (field; lra).
    unfold clip. rewrite Rmax_left by lra. rewrite Rmin_left by lra.
    apply asin_0. }
  rewrite value_bind. cbn. intros H; injection H as <-. reflexivity.
Qed.

(** X11.  The chiral phase of an array against itself vanishes: in every
    mode, whenever [calculate_chiral_phase] returns for Z1 = Z2, every
    element of the output is 0, and there is one element per element of
    the input (none for an empty array).  The call raises for a non-empty
    array only: in the mode "C" when the array has no axis, in the other
    modes when it does not have two axes. *)
Theorem X11_chiral_phase_of_equal_arrays Z angle_range_opt :
  match value (calculate_chiral_phase Z Z angle_range_opt) with
  | Ok out =>
      nd_shape out = nd_shape Z /\
      Forall (fun x => x = 0) (nd_data out) /\
      List.length (nd_data out) =
        (if (nd_size Z =? 0)%nat then 0%nat else List.length (nd_data Z))
  | Raise _ =>
      nd_size Z <> 0%nat /\
      if String.eqb angle_range_opt "C" then nd_shape Z = []
      else List.length (nd_shape Z) <> 2%nat
  end.
Proof.
  unfold calculate_chiral_phase.
  destruct (list_eq_dec Nat.eq_dec (nd_shape Z) (nd_shape Z)) as [_|NE];
    [|exfalso; apply NE; reflexivity].
  cbn [negb].
  destruct (nd_size Z =? 0)%nat eqn:Hs; [cbn; auto|].
  apply Nat.eqb_neq in Hs.
  destruct (String.eqb angle_range_opt "C") eqn:HC.
  - destruct (nd_shape Z) as [|n0 sh] eqn:Hsh; [cbn; auto|].
    cbn [value ret snd nd_shape nd_data]. split; [reflexivity|]. split.
    + apply Forall_forall. intros x Hx.
      apply in_map_iff in Hx. destruct Hx as (d2 & <- & Hx).
      apply in_map_iff in Hx. destruct Hx as (d1 & <- & Hx).
      apply in_map_iff in Hx. destruct Hx as (d0 & <- & Hx).
      assert (E : exists a, d0 = a - a).
      { revert Hx. generalize (map np_angle (nd_data Z)).
        intros l. induction l as [|a l IH]; cbn; [intros []|].
        intros [<-|H]; [eauto|auto]. }
      destruct E as [a ->]. rewrite wrap_phase_0.
      unfold fold_q2, fold_q3. pose proof PI_RGT_0.
      replace (Rgtb 0 (PI / 2)) with false
        by (symmetry; apply Rltb_false; lra).
      replace (Rltb 0 (- PI / 2)) with false
        by (symmetry; apply Rltb_false; lra).
      reflexivity.
    + rewrite !length_map, zip_with_length, !length_map. lia.
  - destruct (nd_shape Z) as [|nw [|nk [|n3 rest]]] eqn:Hsh;
      try (cbn; repeat split; auto; discriminate).
    rewrite value_bind.
    destruct (value (map_M _ _)) as [data|e] eqn:Hd.
    + cbn [value ret snd nd_shape nd_data]. split; [reflexivity|]. split.
      * revert Hd. apply map_M_Forall. intros [z1 z2] x Hin.
        assert (z1 = z2) as ->.
        { revert Hin. generalize (nd_data Z). intros l.
          induction l as [|a l IH]; cbn; [intros []|].
          intros [H|H]; [congruence|auto]. }
        apply chiral_cell_same.
      * apply map_M_length in Hd. rewrite Hd, length_combine. lia.
    + exfalso.
      destruct (map_M_returns
                  (fun zz : C * C => chiral_cell angle_range_opt (fst zz) (snd zz))
                  (combine (nd_data Z) (nd_data Z))) as [data Hd'].
      { intros a _. apply chiral_cell_returns. }
      congruence.
Qed.

Lemma Rltb_ext a b c d : (a < b <-> c < d) -> Rltb a b = Rltb c d.
Proof.
  intros H. destruct (Rltb c d) eqn:E.
  - apply Rltb_true. apply H. now apply Rltb_true.
  - apply not_true_is_false. intros F. apply Rltb_true in F. apply H in F.
    apply Rltb_true in F. congruence.
Qed.

Lemma Rleb_ext a b c d : (a <= b <-> c <= d) -> Rleb a b = Rleb c d.
Proof.
  intros H. destruct (Rleb c d) eqn:E.
  - apply Rleb_true. apply H. now apply Rleb_true.
  - apply not_true_is_false. intros F. apply Rleb_true in F. apply H in F.
    apply Rleb_true in F. congruence.
Qed.

(** The argument of a complex number does not change when the number is
    multiplied by a positive real. *)
Lemma np_angle_scale s z : 0 < s -> np_angle (Cscale s z) = np_angle z.
Proof.
  intros Hs. destruct z as [x y]. unfold np_angle, Cscale, arctan2.
  cbn [fst snd].
  rewrite (Rltb_ext 0 (s * x) 0 x) by (split; intros; nra).
  rewrite (Rltb_ext (s * x) 0 x 0) by (split; intros; nra).
  rewrite (Rleb_ext 0 (s * y) 0 y) by (split; intros; nra).
  rewrite (Rltb_ext 0 (s * y) 0 y) by (split; intros; nra).
  rewrite (Rltb_ext (s * y) 0 y 0) by (split; intros; nra).
  destruct (Rltb 0 x) eqn:E1.
  { apply Rltb_true in E1. f_equal. field. lra. }
  destruct (Rltb x 0) eqn:E2; [|reflexivity].
  apply Rltb_true in E2.
  replace (s * y / (s * x)) with (y / x) by (field; lra). reflexivity.
Qed.

(** X12.  In the mode "C" the chiral phase depends on the phases of the
    two inputs only: multiplying either array by a positive real changes
    nothing in what [calculate_chiral_phase] returns. *)
Theorem X12_chiral_phase_C_ignores_amplitudes Z1 Z2 s1 s2 :
  0 < s1 -> 0 < s2 ->
  calculate_chiral_phase (nd_scale s1 Z1) (nd_scale s2 Z2) "C" =
  calculate_chiral_phase Z1 Z2 "C".
Proof.
  intros H1 H2. unfold calculate_chiral_phase, nd_scale, nd_size.
  cbn [nd_shape nd_data].
  destruct (list_eq_dec Nat.eq_dec (nd_shape Z1) (nd_shape Z2)); cbn [negb];
    [|reflexivity].
  destruct (_ =? 0)%nat; [reflexivity|].
  cbn [String.eqb Ascii.eqb Bool.eqb].
  rewrite !map_map.
  rewrite (map_ext (fun z => np_angle (Cscale s1 z)) np_angle)
    by (intros z; now apply np_angle_scale).
  rewrite (map_ext (fun z => np_angle (Cscale s2 z)) np_angle)
    by (intros z; now apply np_angle_scale).
  reflexivity.
Qed.

Lemma X12_chiral_phase_C_ignores_amplitudes_witness :
  calculate_chiral_phase (nd_scale 2 Z_minus_i) (nd_scale 3 Z_one) "C" =
  calculate_chiral_phase Z_minus_i Z_one "C".
Proof.
  apply (X12_chiral_phase_C_ignores_amplitudes Z_minus_i Z_one 2 3); lra.
Defined.

(* ------------------------------------------------------------------ *)
(** ** [ised]: the reconstructed field                                 *)
(* ------------------------------------------------------------------ *)

Lemma field_shape_zip_add m na pol grp recon W :
  List.length recon = m -> field_shape m na W ->
  field_shape m na (zip_with (add_at_pol pol grp) recon W).
Proof.
  intros Hr [Hm Hf]. split.
  - rewrite zip_with_length. lia.
  - apply Forall_zip_with_r; [|exact Hf].
    intros xs frame Hframe. unfold add_at_pol.
    now rewrite fancy_assign_length.
Qed.

Lemma field_shape_map_assign m na (g : vec3 -> vec3) idx W :
  field_shape m na W ->
  field_shape m na
    (map (fun frame => fancy_assign idx (map g (take vzero frame idx)) frame) W).
Proof.
  intros [Hm Hf]. split; [now rewrite length_map|].
  apply Forall_forall. intros fr Hin. apply in_map_iff in Hin.
  destruct Hin as (frame & <- & Hin). rewrite fancy_assign_length.
  rewrite Forall_forall in Hf. auto.
Qed.

Lemma zero_outside_map_assign S (g : vec3 -> vec3) idx W :
  (forall j, In j idx -> In j S) ->
  zero_outside S W ->
  zero_outside S
    (map (fun frame => fancy_assign idx (map g (take vzero frame idx)) frame) W).
Proof.
  intros Hsub HW. unfold zero_outside in *.
  apply Forall_forall. intros fr Hin. apply in_map_iff in Hin.
  destruct Hin as (frame & <- & Hin). intros i Hi.
  rewrite nth_fancy_assign_other.
  - rewrite Forall_forall in HW. apply (HW frame Hin), Hi.
  - apply names_false_iff. intros j Hj. apply Hi, Hsub, Hj.
Qed.

Lemma ised_group_shape m na self km kv avg proj tp kmi ka wt rf grp st st' :
  List.length tp = m ->
  field_shape m na (wiggles st) ->
  value (ised_group self km kv avg proj tp kmi ka wt rf grp st) = Ok st' ->
  field_shape m na (wiggles st').
Proof.
  intros Htp Hst. unfold ised_group.
  destruct (List.length grp =? 0)%nat.
  { cbn. intros H; injection H as <-. exact Hst. }
  rewrite value_bind. destruct (value (calculate _ _ _ _ _ _ _ _)) as [so|e];
    [|discriminate].
  rewrite value_bind. destruct (value (argmin _)) as [wmi|e]; [|discriminate].
  rewrite value_bind.
  match goal with
  | |- match value (for_each ?l ?body ?s0) with _ => _ end = _ -> _ =>
      destruct (value (for_each l body s0)) as [wig|e] eqn:Hwig;
        [|discriminate];
      assert (Hz : field_shape m na wig)
  end.
  { eapply (for_each_invariant (field_shape m na)); [|exact Hst|exact Hwig].
    intros pol w0 w1 _ Hw0. cbv beta. rewrite value_bind.
    match goal with
    | |- match ?v with _ => _ end = _ -> _ =>
        destruct v as [amp|e]; [|discriminate]
    end.
    cbn [value ret snd]. intros H; injection H as <-.
    apply field_shape_zip_add; [|exact Hw0]. now rewrite length_map. }
  destruct (is_auto rf).
  - rewrite value_bind. destruct (value (amax_abs _)) as [mx|e]; [|discriminate].
    cbn. intros H; injection H as <-. exact Hz.
  - cbn. intros H; injection H as <-. exact Hz.
Qed.

(** What a reconstruction that goes through has done: the groups, the
    shape of the field, the atoms that have not moved. *)
Lemma ised_reconstruct_returns self d kt wt cl nk bz bi bt rf n st idx :
  value (ised_reconstruct self d kt wt cl nk bz bi bt rf n) = Ok (Some (st, idx)) ->
  exists groups,
    value (recon_groups (n_atoms (traj self)) (types (traj self)) bi bt)
      = Ok groups /\
    groups <> [] /\ (0 < n)%Z /\
    field_shape (Z.to_nat n) (n_atoms (traj self)) (wiggles st) /\
    (forall j, In j idx <-> In j (List.concat groups)) /\
    zero_outside idx (wiggles st).
Proof.
  intros H. pose proof (ised_reconstruct_zero_outside _ _ _ _ _ _ _ _ _ _ _ _ _ H)
    as Hzero.
  revert H. unfold ised_reconstruct. rewrite value_bind.
  destruct (value (parse_direction d)) as [u|e]; [|discriminate].
  rewrite value_bind.
  destruct (value (recon_groups _ _ _ _)) as [groups|e]; [|discriminate].
  destruct (List.length groups =? 0)%nat eqn:Hlen; [cbn; discriminate|].
  rewrite value_bind. destruct (value (get_k_path _ _ _ _ _)) as [[km kv]|e];
    [|discriminate].
  destruct (n <? 0)%Z eqn:Hn; [discriminate|].
  rewrite value_bind. destruct (value (argmin _)) as [kmi|e]; [|discriminate].
  rewrite value_bind. destruct (value (index _ _)) as [ka|e]; [|discriminate].
  rewrite value_bind.
  match goal with
  | |- match value (for_each ?l ?body ?s0) with _ => _ end = _ -> _ =>
      destruct (value (for_each l body s0)) as [st1|e] eqn:Hloop;
        [|discriminate]
  end.
  destruct (negb (recon_done st1)); [cbn; discriminate|].
  rewrite value_bind. destruct (Z.to_nat n =? 0)%nat eqn:Hn0; [discriminate|].
  cbn [value ret snd]. intros H. injection H as <- <-.
  exists groups. split; [reflexivity|].
  split; [destruct groups; [discriminate|discriminate]|].
  apply Nat.eqb_neq in Hn0. split; [lia|]. split; [|split].
  - eapply (for_each_invariant
              (fun s => field_shape (Z.to_nat n) (n_atoms (traj self))
                                    (wiggles s))); [| |exact Hloop].
    + intros grp s0 s1 _ Hs0. apply ised_group_shape; [|exact Hs0].
      unfold linspace_open. now rewrite length_map, length_seq.
    + cbn [wiggles]. split; [apply repeat_length|].
      apply Forall_forall. intros fr Hin. apply repeat_spec in Hin.
      subst fr. apply repeat_length.
  - intros j. destruct (existsb _ groups) eqn:Hex.
    + apply np_unique_In.
    + split; [intros []|]. intros Hj. apply in_concat in Hj.
      destruct Hj as (g & Hg & Hj).
      assert (Hne : existsb (fun g => (0 <? List.length g)%nat) groups = true).
      { apply existsb_exists. exists g. split; auto.
        destruct g; [contradiction|reflexivity]. }
      congruence.
  - exact Hzero.
Qed.

Lemma ised_rescale_returns rf idx st W m na :
  value (ised_rescale rf idx st) = Ok W ->
  field_shape m na (wiggles st) -> zero_outside idx (wiggles st) ->
  field_shape m na W /\ zero_outside idx W.
Proof.
  unfold ised_rescale, scale_at, div_at. intros H Hs Hz. revert H.
  assert (Hstep : forall g W0, field_shape m na W0 -> zero_outside idx W0 ->
            field_shape m na
              (map (fun frame => fancy_assign idx (map g (take vzero frame idx))
                                              frame) W0) /\
            zero_outside idx
              (map (fun frame => fancy_assign idx (map g (take vzero frame idx))
                                              frame) W0)).
  { intros g W0 H1 H2. split.
    - now apply field_shape_map_assign.
    - now apply zero_outside_map_assign. }
  destruct (0 <? List.length idx)%nat.
  - destruct (is_auto rf).
    + destruct (Rgtb (max_wiggle_amp_all st) 1e-9).
      * destruct (Hstep (fun v => vdiv v (max_wiggle_amp_all st)) (wiggles st))
          as [S1 Z1]; auto.
        destruct (Rgtb _ 1e-9); cbn [value ret snd]; intros H;
          apply Ok_inj in H; subst W; [|auto].
        apply Hstep; auto.
      * rewrite value_bind. cbn. intros H; injection H as <-. auto.
    + destruct rf as [s|f|]; cbn [value ret snd]; intros H;
        apply Ok_inj in H; subst W; auto.
  - rewrite value_bind. cbn. intros H; injection H as <-. auto.
Qed.

(** X13.  Whenever [ised] produces a displacement field, whatever the
    rescale factor, the field has n_recon_frames (a positive number of)
    frames of n_atoms atoms each, and every atom that none of the
    reconstructed atom groups names has the displacement zero in every
    frame. *)
Theorem X13_ised_field_shape_and_support self k_dir_spec k_target w_target
    char_len_k_path nk_on_path bz_cov_ised basis_atom_idx_ised
    basis_atom_types_ised rescale_factor n_recon_frames field :
  value (ised_displacements self k_dir_spec k_target w_target char_len_k_path
           nk_on_path bz_cov_ised basis_atom_idx_ised basis_atom_types_ised
           rescale_factor n_recon_frames) = Ok (Some field) ->
  (0 < n_recon_frames)%Z /\
  field_shape (Z.to_nat n_recon_frames) (n_atoms (traj self)) field /\
  exists groups,
    value (recon_groups (n_atoms (traj self)) (types (traj self))
             basis_atom_idx_ised basis_atom_types_ised) = Ok groups /\
    groups <> [] /\
    Forall (fun frame =>
              forall i, (forall g j, In g groups -> In j g -> Z.to_nat j <> i) ->
                        nth i frame vzero = vzero) field.
Proof.
  unfold ised_displacements. rewrite value_bind.
  destruct (value (ised_reconstruct _ _ _ _ _ _ _ _ _ _ _))
    as [[[st idx]|]|e] eqn:Hrec; try discriminate.
  rewrite value_bind.
  destruct (value (ised_rescale rescale_factor idx st)) as [W|e] eqn:Hres;
    [|discriminate].
  cbn [value ret snd]. intros H. injection H as <-.
  destruct (ised_reconstruct_returns _ _ _ _ _ _ _ _ _ _ _ _ _ Hrec)
    as (groups & Hg & Hne & Hn & Hshape & Hidx & Hzero).
  destruct (ised_rescale_returns _ _ _ _ _ _ Hres Hshape Hzero) as [HS HZ].
  split; [exact Hn|]. split; [exact HS|].
  exists groups. split; [exact Hg|]. split; [exact Hne|].
  unfold zero_outside in HZ. eapply Forall_impl; [|exact HZ].
  intros frame Hf i Hi. apply Hf. intros j Hj. apply Hidx in Hj.
  apply in_concat in Hj. destruct Hj as (g & Hgin & Hjg).
  now apply (Hi g j).
Qed.

Lemma X13_ised_field_shape_and_support_witness :
  exists field,
    value (ised_displacements two_atom_calc (DirStr "x" None) 0 0 1 1 1
             None None (RescaleNum 1) 1) = Ok (Some field) /\
    (0 < 1)%Z /\
    field_shape (Z.to_nat 1) (n_atoms (traj two_atom_calc)) field.
Proof.
  destruct ised_produces_a_field as (field & H & _).
  exists field. split; [exact H|].
  destruct (X13_ised_field_shape_and_support _ _ _ _ _ _ _ _ _ _ _ _ H)
    as (H1 & H2 & _).
  split; assumption.
Defined.

(** When the indices are given, the types do not show in the groups. *)
Lemma recon_groups_indices_first n tys bi bt :
  basis_given bi = true ->
  value (recon_groups n tys bi bt) = value (recon_groups n tys bi None).
Proof.
  intros H. unfold recon_groups. rewrite H. rewrite !value_bind.
  match goal with
  | |- match ?v with _ => _ end = _ => destruct v as [groups|e]; [|reflexivity]
  end.
  rewrite !value_bind. destruct (basis_given bt); reflexivity.
Qed.

Lemma ised_displacements_groups self d kt wt cl nk bz bi bt bi' bt' rf n :
  value (recon_groups (n_atoms (traj self)) (types (traj self)) bi bt) =
  value (recon_groups (n_atoms (traj self)) (types (traj self)) bi' bt') ->
  value (ised_displacements self d kt wt cl nk bz bi bt rf n) =
  value (ised_displacements self d kt wt cl nk bz bi' bt' rf n).
Proof.
  intros H. unfold ised_displacements. rewrite !value_bind.
  assert (E : value (ised_reconstruct self d kt wt cl nk bz bi bt rf n) =
              value (ised_reconstruct self d kt wt cl nk bz bi' bt' rf n)).
  { unfold ised_reconstruct. rewrite !value_bind.
    destruct (value (parse_direction d)) as [u|e]; [|reflexivity].
    rewrite !value_bind, H. reflexivity. }
  rewrite E. reflexivity.
Qed.

(** X14.  In [ised] the atom indices take precedence over the atom types:
    when a non-empty [basis_atom_idx_ised] is given, the displacement field
    and the dump are those of the call without [basis_atom_types_ised]
    (the opposite of the precedence in [calculate]); a warning is logged
    for the conflict whenever the groups have been formed. *)
Theorem X14_ised_indices_take_precedence self k_dir_spec k_target w_target
    char_len_k_path nk_on_path bz_cov_ised basis_atom_idx_ised
    basis_atom_types_ised rescale_factor n_recon_frames :
  basis_given basis_atom_idx_ised = true ->
  value (ised self k_dir_spec k_target w_target char_len_k_path nk_on_path
           bz_cov_ised basis_atom_idx_ised basis_atom_types_ised
           rescale_factor n_recon_frames) =
  value (ised self k_dir_spec k_target w_target char_len_k_path nk_on_path
           bz_cov_ised basis_atom_idx_ised None rescale_factor n_recon_frames) /\
  (basis_given basis_atom_types_ised = true ->
   forall groups,
     value (recon_groups (n_atoms (traj self)) (types (traj self))
              basis_atom_idx_ised basis_atom_types_ised) = Ok groups ->
     In (Warning "iSED: atom_indices and atom_types provided. Using atom_indices.")
        (logged (recon_groups (n_atoms (traj self)) (types (traj self))
                   basis_atom_idx_ised basis_atom_types_ised))).
Proof.
  intros H. split.
  - unfold ised. rewrite !value_bind.
    rewrite (ised_displacements_groups self k_dir_spec k_target w_target
               char_len_k_path nk_on_path bz_cov_ised basis_atom_idx_ised
               basis_atom_types_ised basis_atom_idx_ised None)
      by (now apply recon_groups_indices_first).
    reflexivity.
  - intros Ht groups. unfold recon_groups. rewrite H, Ht.
    match goal with
    | |- value (bind ?m _) = _ -> _ => destruct m as [l0 [gs|e]]
    end; [|discriminate].
    intros _. unfold logged. cbn. apply in_or_app. right. now left.
Qed.

Lemma X14_ised_indices_take_precedence_witness :
  value (ised two_atom_calc (DirStr "x" None) 0 0 1 1 1
           (Some (FlatList [0%Z])) (Some (FlatList [2%Z])) (RescaleNum 1) 1) =
  value (ised two_atom_calc (DirStr "x" None) 0 0 1 1 1
           (Some (FlatList [0%Z])) None (RescaleNum 1) 1).
Proof.
  apply (X14_ised_indices_take_precedence two_atom_calc (DirStr "x" None)
           0 0 1 1 1 (Some (FlatList [0%Z])) (Some (FlatList [2%Z]))
           (RescaleNum 1) 1).
  reflexivity.
Defined.

Lemma vscale_vscale_1 f v : vscale f (vscale 1 v) = vscale f v.
Proof. destruct v as [[x y] z]. cbn. f_equal; [f_equal|]; ring. Qed.

Lemma vscale_1 v : vscale 1 v = v.
Proof. destruct v as [[x y] z]. cbn. f_equal; [f_equal|]; ring. Qed.

Lemma scale_at_f_1 f idx frame :
  (forall i, names idx i = false -> nth i frame vzero = vzero) ->
  scale_at f idx frame = map (vscale f) (scale_at 1 idx frame).
Proof.
  intros Hz.
  apply (nth_ext _ _ vzero (vscale f vzero)).
  - unfold scale_at. now rewrite length_map, !fancy_assign_length.
  - intros i Hi. rewrite (map_nth (vscale f)), !nth_scale_at.
    unfold scale_at in Hi. rewrite fancy_assign_length in Hi.
    apply Nat.ltb_lt in Hi. rewrite Hi, andb_true_r.
    destruct (names idx i) eqn:E.
    + now rewrite vscale_vscale_1.
    + rewrite (Hz i E). now rewrite vscale_vzero.
Qed.

Lemma scale_at_1 idx frame : scale_at 1 idx frame = frame.
Proof.
  apply (nth_ext _ _ vzero vzero).
  - unfold scale_at. now rewrite fancy_assign_length.
  - intros i Hi. rewrite nth_scale_at.
    destruct (_ && _)%bool; [apply vscale_1|reflexivity].
Qed.

Lemma at_rest_scales f frame :
  (forall i, nth i frame vzero = vzero) -> frame = map (vscale f) frame.
Proof.
  intros Hz. apply (nth_ext _ _ vzero (vscale f vzero)).
  - now rewrite length_map.
  - intros i _. rewrite (map_nth (vscale f)), Hz. now rewrite vscale_vzero.
Qed.

(** X15.  A numeric rescale factor scales the reconstructed field
    linearly: for every number f, [ised] with rescale_factor = f ends as
    [ised] with rescale_factor = 1.0 does, and the displacement field it
    produces is f times, element by element, the field produced with 1.0,
    which is the field as reconstructed, unscaled. *)
Theorem X15_numeric_rescale_is_linear self k_dir_spec k_target w_target
    char_len_k_path nk_on_path bz_cov_ised basis_atom_idx_ised
    basis_atom_types_ised n_recon_frames f :
  value (ised_displacements self k_dir_spec k_target w_target char_len_k_path
           nk_on_path bz_cov_ised basis_atom_idx_ised basis_atom_types_ised
           (RescaleNum f) n_recon_frames) =
  match value (ised_displacements self k_dir_spec k_target w_target
                 char_len_k_path nk_on_path bz_cov_ised basis_atom_idx_ised
                 basis_atom_types_ised (RescaleNum 1) n_recon_frames) with
  | Ok (Some field) => Ok (Some (map (map (vscale f)) field))
  | Ok None => Ok None
  | Raise e => Raise e
  end /\
  match value (ised_reconstruct self k_dir_spec k_target w_target
                 char_len_k_path nk_on_path bz_cov_ised basis_atom_idx_ised
                 basis_atom_types_ised (RescaleNum 1) n_recon_frames) with
  | Ok (Some (st, _)) =>
      value (ised_displacements self k_dir_spec k_target w_target
               char_len_k_path nk_on_path bz_cov_ised basis_atom_idx_ised
               basis_atom_types_ised (RescaleNum 1) n_recon_frames)
      = Ok (Some (wiggles st))
  | _ => True
  end.
Proof.
  unfold ised_displacements. rewrite !value_bind.
  rewrite (ised_reconstruct_num _ _ _ _ _ _ _ _ _ f).
  destruct (value (ised_reconstruct _ _ _ _ _ _ _ _ _ _ _))
    as [[[st idx]|]|e] eqn:Hrec; try (split; [reflexivity|exact I]).
  pose proof (ised_reconstruct_zero_outside _ _ _ _ _ _ _ _ _ _ _ _ _ Hrec)
    as Hz.
  rewrite !value_bind, !ised_rescale_num. cbn [value ret snd].
  unfold zero_outside in Hz. rewrite Forall_forall in Hz.
  split.
  - do 2 f_equal. destruct (0 <? List.length idx)%nat eqn:Hidx.
    + rewrite map_map. apply map_ext_in. intros frame Hin.
      apply scale_at_f_1. intros i Hi. apply (Hz frame Hin).
      now apply names_false_iff.
    + rewrite <- (map_id (wiggles st)) at 1. apply map_ext_in.
      intros frame Hin. apply at_rest_scales. intros i.
      apply (Hz frame Hin). intros j Hj.
      destruct idx; [contradiction|discriminate].
  - do 2 f_equal. destruct (0 <? List.length idx)%nat; [|reflexivity].
    rewrite <- (map_id (wiggles st)) at 2. apply map_ext. intros frame.
    apply scale_at_1.
Qed.

(** X16.  A rescale factor that is neither a number nor a string reading
    "auto" in any letter case, such as a misspelt "auto", is ignored
    without a warning: [ised] ends as with rescale_factor = 1.0 and
    produces the same displacement field. *)
Theorem X16_other_rescale_factor_is_ignored self k_dir_spec k_target
    w_target char_len_k_path nk_on_path bz_cov_ised basis_atom_idx_ised
    basis_atom_types_ised n_recon_frames rescale_factor :
  is_auto rescale_factor = false ->
  (forall f, rescale_factor <> RescaleNum f) ->
  value (ised_displacements self k_dir_spec k_target w_target char_len_k_path
           nk_on_path bz_cov_ised basis_atom_idx_ised basis_atom_types_ised
           rescale_factor n_recon_frames) =
  value (ised_displacements self k_dir_spec k_target w_target char_len_k_path
           nk_on_path bz_cov_ised basis_atom_idx_ised basis_atom_types_ised
           (RescaleNum 1) n_recon_frames).
Proof.
  intros Ha Hn. unfold ised_displacements. rewrite !value_bind.
  assert (E : ised_reconstruct self k_dir_spec k_target w_target char_len_k_path
                nk_on_path bz_cov_ised basis_atom_idx_ised basis_atom_types_ised
                rescale_factor n_recon_frames =
              ised_reconstruct self k_dir_spec k_target w_target char_len_k_path
                nk_on_path bz_cov_ised basis_atom_idx_ised basis_atom_types_ised
                (RescaleNum 1) n_recon_frames).
  { unfold ised_reconstruct, ised_group. rewrite Ha. reflexivity. }
  rewrite E.
  destruct (value (ised_reconstruct _ _ _ _ _ _ _ _ _ _ _))
    as [[[st idx]|]|e]; try reflexivity.
  rewrite !value_bind, ised_rescale_num.
  assert (R : value (ised_rescale rescale_factor idx st) = Ok (wiggles st)).
  { unfold ised_rescale. rewrite Ha.
    destruct (0 <? List.length idx)%nat; [|reflexivity].
    destruct rescale_factor as [s|f|]; try reflexivity.
    exfalso. now apply (Hn f). }
  rewrite R. cbn [value ret snd]. do 2 f_equal.
  destruct (0 <? List.length idx)%nat; [|reflexivity].
  rewrite <- (map_id (wiggles st)) at 1. apply map_ext. intros frame.
  symmetry. apply scale_at_1.
Qed.

Lemma X16_other_rescale_factor_is_ignored_witness :
  value (ised_displacements two_atom_calc (DirStr "x" None) 0 0 1 1 1
           None None (RescaleStr "atuo") 1) =
  value (ised_displacements two_atom_calc (DirStr "x" None) 0 0 1 1 1
           None None (RescaleNum 1) 1).
Proof.
  apply (X16_other_rescale_factor_is_ignored two_atom_calc (DirStr "x" None)
           0 0 1 1 1 None None 1 (RescaleStr "atuo")).
  - reflexivity.
  - intros f. discriminate.
Defined.

Lemma for_each_skip {A S} (l : list A) (body : A -> S -> M S) (s : S) :
  (forall a, In a l -> exists w, body a s = (w, Ok s)) ->
  exists w, for_each l body s = (w, Ok s).
Proof.
  induction l as [|a l IH]; intros H; cbn [for_each].
  - eexists. reflexivity.
  - destruct (H a) as [w1 E1]; [now left|].
    destruct IH as [w2 E2]; [intros a0 Hin; apply H; now right|].
    rewrite E1. unfold bind. rewrite E2. eexists. reflexivity.
Qed.

(** X17.  When [basis_atom_types_ised] is a non-empty flat list of types
    that no atom of the trajectory has, and no atom indices are given,
    [ised] gives the reconstruction up: once the direction is parsed it
    logs an error and returns without a dump (where [calculate] falls back
    to all the atoms). *)
Theorem X17_ised_unmatched_types_give_up self k_dir_spec k_target w_target
    char_len_k_path nk_on_path bz_cov_ised basis_atom_idx_ised t ts
    rescale_factor n_recon_frames :
  basis_given basis_atom_idx_ised = false ->
  (forall x, In x (types (traj self)) -> ~ In x (t :: ts)) ->
  value (ised self k_dir_spec k_target w_target char_len_k_path nk_on_path
           bz_cov_ised basis_atom_idx_ised (Some (FlatList (t :: ts)))
           rescale_factor n_recon_frames) =
  match value (parse_direction k_dir_spec) with
  | Ok _ => Ok None
  | Raise e => Raise e
  end /\
  (forall u, value (parse_direction k_dir_spec) = Ok u ->
     In (Error "iSED: No atom groups for reconstruction. Aborting.")
        (logged (ised self k_dir_spec k_target w_target char_len_k_path
                   nk_on_path bz_cov_ised basis_atom_idx_ised
                   (Some (FlatList (t :: ts))) rescale_factor n_recon_frames))).
Proof.
  intros Hbi Hno.
  assert (G : forall acc,
             exists l, for_each (map (fun a => [a]) (t :: ts))
               (fun type_grp groups =>
                  if (0 <? List.length
                             (np_where (np_isin (types (traj self)) type_grp)))%nat
                  then ret (groups ++
                            [np_where (np_isin (types (traj self)) type_grp)])
                  else warn "No atoms for type in iSED." ;;; ret groups) acc
             = (l, Ok acc)).
  { intros acc. apply for_each_skip. intros tg Hin.
    apply in_map_iff in Hin. destruct Hin as (a & <- & Ha).
    assert (E : np_where (np_isin (types (traj self)) [a]) = []).
    { apply (atoms_of_types_nil (types (traj self)) [a]).
      intros x Hx [E|[]]. subst x. now apply (Hno a Hx). }
    rewrite E. eexists. reflexivity. }
  destruct (G []) as [l0 E0].
  assert (R : recon_groups (n_atoms (traj self)) (types (traj self))
                basis_atom_idx_ised (Some (FlatList (t :: ts))) = (l0, Ok [])).
  { unfold recon_groups. rewrite Hbi. cbn [basis_given]. cbv zeta. exact E0. }
  unfold ised, ised_displacements, ised_reconstruct. rewrite R.
  destruct (parse_direction k_dir_spec) as [lp [u|e]]; cbn; split;
    try reflexivity.
  - intros u0 _. unfold logged. cbn. rewrite !app_nil_r.
    apply in_or_app. right. apply in_or_app. right. now left.
  - intros u0 H. discriminate H.
Qed.

Lemma X17_ised_unmatched_types_give_up_witness :
  value (ised two_atom_calc (DirStr "x" None) 0 0 1 1 1 None
           (Some (FlatList [3%Z])) (RescaleNum 1) 1) =
  match value (parse_direction (DirStr "x" None)) with
  | Ok _ => Ok None
  | Raise e => Raise e
  end.
Proof.
  apply (X17_ised_unmatched_types_give_up two_atom_calc (DirStr "x" None)
           0 0 1 1 1 None 3%Z [] (RescaleNum 1) 1).
  - reflexivity.
  - cbn. intros x [<-|[<-|[]]]; intros [E|[]]; discriminate E.
Defined.

(* ------------------------------------------------------------------ *)
(** ** The legacy script SDA.py: directions and lattice vectors        *)
(* ------------------------------------------------------------------ *)

Lemma norm_angle_vec angle : norm (angle_vec angle) = 1.
Proof.
  unfold norm, angle_vec. cbn [dot].
  replace (cos (deg2rad angle) * cos (deg2rad angle) +
           sin (deg2rad angle) * sin (deg2rad angle) + 0 * 0) with 1.
  - apply sqrt_1.
  - pose proof (sin2_cos2 (deg2rad angle)) as H. unfold Rsqr in H. lra.
Qed.


Lemma parse_direction_number angle :
  SDA.parse_direction (DirNumber angle) = ([], Ok (angle_vec angle)).
Proof.
  unfold SDA.parse_direction. rewrite bind_ret_l.
  replace (Rltb (norm (angle_vec angle)) 1e-10) with false; [reflexivity|].
  symmetry. apply Rltb_false. rewrite norm_angle_vec. lra.
Qed.



Lemma column_transpose m j :
  (j < 3)%nat ->
  SDA.column (transpose m) j =
  match j with O => fst (fst m) | S O => snd (fst m) | _ => snd m end.
Proof.
  destruct m as [[[[a b] c] [[d e] f]] [[g h] i]].
  intros Hj. destruct j as [|[|[|j]]]; try lia; reflexivity.
Qed.

Lemma init_positive_sizes tr nx ny nz ud dt self :
  value (SEDCalculator_init tr nx ny nz ud dt) = Ok self ->
  (0 < nx)%Z /\ (0 < ny)%Z /\ (0 < nz)%Z.
Proof.
  unfold SEDCalculator_init.
  destruct (0 <? nx)%Z eqn:Hx; [|discriminate].
  destruct (0 <? ny)%Z eqn:Hy; [|discriminate].
  destruct (0 <? nz)%Z eqn:Hz; [|discriminate].
  intros _. apply Z.ltb_lt in Hx, Hy, Hz. auto.
Qed.

(** X20.  The two constructions agree on right-handed cells and differ by
    the sign on left-handed ones.  For a cell matrix whose columns are the
    rows of the trajectory's box matrix, [SDCalculator.__init__] of SDA.py
    returns whenever [SEDCalculator.__init__] does, with the same primitive
    vectors; its reciprocal vectors are those of [SEDCalculator] when the
    cell is right-handed and their opposites when it is left-handed. *)
Theorem X20_constructions_agree_up_to_orientation tr nx ny nz ud dt self :
  value (SEDCalculator_init tr nx ny nz ud dt) = Ok self ->
  exists sd,
    value (SDA.SDCalculator_init (transpose (box_matrix tr)) nx ny nz) = Ok sd /\
    SDA.sd_a1 sd = a1 self /\ SDA.sd_a2 sd = a2 self /\ SDA.sd_a3 sd = a3 self /\
    (0 < cell_volume self -> SDA.recip_vectors sd = recip_vecs_prim self) /\
    (cell_volume self < 0 ->
     SDA.recip_vectors sd = (vneg (b1 self), vneg (b2 self), vneg (b3 self))).
Proof.
  intros H.
  destruct (init_fields _ _ _ _ _ _ _ H) as (A1 & A2 & A3 & B1 & B2 & B3 & HV).
  destruct (init_positive_sizes _ _ _ _ _ _ _ H) as (Hx & Hy & Hz).
  unfold SDA.SDCalculator_init.
  replace ((nx <=? 0) || (ny <=? 0) || (nz <=? 0))%Z with false
    by (symmetry; rewrite !orb_false_iff; repeat split; apply Z.leb_gt; lia).
  rewrite !column_transpose by lia.
  eexists. split; [reflexivity|]. cbn [SDA.sd_a1 SDA.sd_a2 SDA.sd_a3
                                       SDA.recip_vectors].
  rewrite <- A1, <- A2, <- A3. repeat split.
  - intros Hpos. unfold recip_vecs_prim. rewrite B1, B2, B3.
    revert Hpos. unfold cell_volume.
    destruct (a1 self) as [[x0 x1] x2], (a2 self) as [[y0 y1] y2],
             (a3 self) as [[z0 z1] z2].
    cbn [dot cross vscale vdiv]. set (V := _ + _ + _). intros Hpos.
    rewrite (Rabs_right V) by lra.
    assert (E : forall c, 2 * PI * c / V = 2 * PI / V * c)
      by (intros c; field; lra).
    rewrite !E. reflexivity.
  - intros Hneg. unfold vneg. rewrite B1, B2, B3.
    revert Hneg. unfold cell_volume.
    destruct (a1 self) as [[x0 x1] x2], (a2 self) as [[y0 y1] y2],
             (a3 self) as [[z0 z1] z2].
    cbn [dot cross vscale vdiv]. set (V := _ + _ + _). intros Hneg.
    rewrite (Rabs_left V) by lra.
    assert (E : forall c, 2 * PI * c / V = -1 * (2 * PI / - V * c))
      by (intros c; field; lra).
    rewrite !E. reflexivity.
Qed.

Lemma X20_constructions_agree_up_to_orientation_witness :
  exists self sd,
    value (SEDCalculator_init two_atom_traj 1 1 1 false None) = Ok self /\
    value (SDA.SDCalculator_init (transpose (box_matrix two_atom_traj)) 1 1 1)
      = Ok sd /\
    SDA.sd_a1 sd = a1 self.
Proof.
  assert (H : exists self,
             value (SEDCalculator_init two_atom_traj 1 1 1 false None) = Ok self)
    by (rewrite init_two_atom; eexists; reflexivity).
  destruct H as [self H]. exists self.
  destruct (X20_constructions_agree_up_to_orientation _ _ _ _ _ _ _ H)
    as (sd & E & A & _).
  exists sd. repeat split; assumption.
Defined.


(* ------------------------------------------------------------------ *)
(** ** The legacy script SDA.py: the k-path                            *)
(* ------------------------------------------------------------------ *)

Lemma Reqb_false x y : Reqb x y = false <-> x <> y.
Proof. unfold Reqb. destruct (Req_dec_T x y); split; intros; easy. Qed.

Lemma SDA_parse_direction_norm d v :
  value (SDA.parse_direction d) = Ok v -> 1e-10 <= norm v.
Proof.
  unfold SDA.parse_direction. rewrite value_bind.
  match goal with
  | |- match value ?m with _ => _ end = _ -> _ =>
      destruct (value m) as [v0|e]; [|discriminate]
  end.
  destruct (Rltb (norm v0) 1e-10) eqn:N; [discriminate|].
  cbn. intros H; injection H as <-. now apply Rltb_false in N.
Qed.

(** X22.  Whenever [SDCalculator.get_k_path] of SDA.py returns, n_k is not
    negative, there are n_k magnitudes and as many k-vectors, the parsed
    direction has been normalised to a unit vector u, the i-th k-vector is
    the i-th magnitude times u, and its norm is the absolute value of that
    magnitude.  With k_max = bz_coverage * 2 pi / lattice parameter (the
    length of a1 when none is given): for n_k >= 2 the magnitudes start at
    0 and end at k_max; for n_k = 1 the only magnitude is 0 whatever k_max
    is; for n_k = 0 the path is empty, and the call does not raise. *)
Theorem X22_legacy_k_path self direction bz_coverage n_k lattice_parameter
    k_points k_vectors :
  value (Legacy.get_k_path self direction bz_coverage n_k lattice_parameter)
    = Ok (k_points, k_vectors) ->
  exists v,
    value (SDA.parse_direction direction) = Ok v /\
    norm (vdiv v (norm v)) = 1 /\
    lattice_parameter <> Some 0 /\
    (0 <= n_k)%Z /\
    List.length k_points = Z.to_nat n_k /\
    List.length k_vectors = Z.to_nat n_k /\
    (forall i, (i < Z.to_nat n_k)%nat ->
       nth i k_vectors vzero = vscale (nth i k_points 0) (vdiv v (norm v)) /\
       norm (nth i k_vectors vzero) = Rabs (nth i k_points 0)) /\
    (n_k = 1%Z -> k_points = [0]) /\
    ((2 <= n_k)%Z ->
       nth 0 k_points 0 = 0 /\
       last k_points 0 =
       bz_coverage * (2 * PI / match lattice_parameter with
                                | Some l => l
                                | None => norm (SDA.sd_a1 self)
                                end)).
Proof.
  unfold Legacy.get_k_path. rewrite value_bind.
  destruct (value (SDA.parse_direction direction)) as [v|e] eqn:Hv;
    [|discriminate].
  pose proof (SDA_parse_direction_norm _ _ Hv) as Hn.
  rewrite value_bind.
  set (u := vdiv v (norm v)).
  assert (Hu : norm u = 1) by (apply norm_vdiv_self; lra).
  set (lat := match lattice_parameter with
              | Some l => l | None => norm (SDA.sd_a1 self) end).
  assert (Hrecip : match value (match lattice_parameter with
                          | None => ret (2 * PI / norm (SDA.sd_a1 self))
                          | Some l => if Reqb l 0 then raise ZeroDivisionError
                                      else ret (2 * PI / l)
                          end) with
                   | Ok r => r = 2 * PI / lat /\ lattice_parameter <> Some 0
                   | Raise _ => True
                   end).
  { destruct lattice_parameter as [l|]; cbn; [|split; [reflexivity|discriminate]].
    destruct (Reqb l 0) eqn:E; cbn; [exact I|]. apply Reqb_false in E.
    split; [reflexivity|]. intros H; injection H as ->. now apply E. }
  destruct (value (match lattice_parameter with None => _ | Some _ => _ end))
    as [r|e]; [|discriminate].
  destruct Hrecip as [-> Hlat].
  destruct (n_k <? 0)%Z eqn:Hk; [discriminate|]. apply Z.ltb_ge in Hk.
  cbn [value ret snd]. intros H. injection H as <- <-.
  exists v. split; [reflexivity|]. split; [exact Hu|]. split; [exact Hlat|].
  split; [exact Hk|]. split; [apply linspace_length|].
  split; [unfold outer; now rewrite length_map, linspace_length|].
  split; [|split].
  - intros i Hi. unfold outer.
    rewrite (nth_indep _ vzero (vscale 0 u))
      by (now rewrite length_map, linspace_length).
    rewrite (map_nth (fun m => vscale m u)). split; [reflexivity|].
    rewrite norm_vscale, Hu. ring.
  - intros ->. reflexivity.
  - intros H2. split.
    + apply linspace_first. lia.
    + apply linspace_last. lia.
Qed.

Lemma X22_legacy_k_path_witness :
  exists v,
    value (SDA.parse_direction (DirNumber 0)) = Ok v /\
    norm (vdiv v (norm v)) = 1 /\
    List.length (linspace 0 (1 * (2 * PI / 2)) (Z.to_nat 3)) = Z.to_nat 3.
Proof.
  set (sd := {| SDA.sd_a1 := (1, 0, 0); SDA.sd_a2 := (0, 1, 0);
                SDA.sd_a3 := (0, 0, 1);
                SDA.recip_vectors := ((1, 0, 0), (0, 1, 0), (0, 0, 1)) |}).
  assert (E : exists kv,
             value (Legacy.get_k_path sd (DirNumber 0) 1 3 (Some 2)) =
             Ok (linspace 0 (1 * (2 * PI / 2)) (Z.to_nat 3), kv)).
  { unfold Legacy.get_k_path. rewrite value_bind.
    rewrite (parse_direction_number 0). cbn [value snd]. rewrite value_bind.
    replace (Reqb 2 0) with false by (symmetry; apply Reqb_false; lra).
    cbn [value ret snd]. change (3 <? 0)%Z with false.
    eexists. reflexivity. }
  destruct E as [kv E].
  destruct (X22_legacy_k_path _ _ _ _ _ _ _ E) as (v & H1 & H2 & _ & _ & H5 & _).
  exists v. repeat split; assumption.
Defined.

(* ------------------------------------------------------------------ *)
(** ** The legacy script SDA.py: the spectrum                          *)
(* ------------------------------------------------------------------ *)

Lemma upd_upd {A} i (x y : A) l : upd i y (upd i x l) = upd i y l.
Proof.
  revert i. induction l as [|a l IH]; intros [|i]; cbn; auto.
  now rewrite IH.
Qed.

Lemma upd_split {A} i (x : A) l :
  (i < List.length l)%nat -> upd i x l = firstn i l ++ x :: skipn (S i) l.
Proof.
  revert i. induction l as [|a l IH]; intros [|i] Hi; cbn in *; try lia; auto.
  f_equal. apply IH. lia.
Qed.

Lemma take_arange {A} (d : A) l n :
  List.length l = n -> take d l (arange n) = l.
Proof.
  intros <-. unfold take, arange. rewrite map_map.
  apply (nth_ext _ _ d d).
  - now rewrite length_map, length_seq.
  - intros i Hi. rewrite length_map, length_seq in Hi.
    rewrite (nth_indep _ d ((fun x => nth (Z.to_nat (Z.of_nat x)) l d) 0%nat))
      by (now rewrite length_map, length_seq).
    rewrite (map_nth (fun x => nth (Z.to_nat (Z.of_nat x)) l d)).
    rewrite seq_nth by exact Hi. now rewrite Nat2Z.id.
Qed.

Lemma mean_axis0_length frames n :
  frames <> [] -> Forall (fun frame => List.length frame = n) frames ->
  List.length (mean_axis0 frames) = n.
Proof.
  intros Hne Hf. destruct frames as [|f frames]; [congruence|].
  unfold mean_axis0. rewrite length_map.
  apply fold_zip_with_length; [exact Hf|].
  rewrite repeat_length. now inversion Hf.
Qed.

Lemma zip_with_snd_id {A B} (f : A -> B -> B) l m :
  (forall a b, f a b = b) -> List.length l = List.length m ->
  zip_with f l m = m.
Proof.
  intros Hf. revert m. induction l as [|a l IH]; intros [|b m] H;
    cbn in *; try lia; auto.
  rewrite Hf, IH; auto.
Qed.

Lemma dot_comm u v : dot u v = dot v u.
Proof. destruct u as [[a b] c], v as [[d e] f]. cbn. ring. Qed.

Lemma for_each_cons {A S} (a : A) l (body : A -> S -> M S) s :
  for_each (a :: l) body s = bind (body a s) (fun s' => for_each l body s').
Proof. reflexivity. Qed.

(** The three assignments of one k-vector store the cell of every frame. *)
Lemma legacy_store_cell mean data kvec ik nk sed :
  (ik < nk)%nat ->
  Forall (fun row : list pol3 => List.length row = nk) sed ->
  value (for_each [0; 1; 2]%nat
           (fun alpha sed0 =>
              if (ik <? nk)%nat then
                ret (Legacy.assign_column ik alpha
                       (Legacy.projected_sum alpha data
                          (map (fun r => Cexp_i (dot r kvec)) mean)) sed0)
              else raise IndexError) sed) =
  Ok (zip_with (fun frame row => upd ik (legacy_cell mean frame kvec) row)
               data sed).
Proof.
  intros Hik Hrows. apply Nat.ltb_lt in Hik as Hb.
  cbn [for_each]. rewrite Hb. rewrite !bind_ret_l. rewrite value_ret.
  f_equal. unfold Legacy.assign_column, Legacy.projected_sum.
  rewrite !zip_with_map_l, !zip_with_zip_r.
  apply zip_with_ext_Forall
    with (P := fun _ => True) (Q := fun row => List.length row = nk);
    [|apply Forall_forall; auto|exact Hrows].
  intros frame row _ Hrow. unfold legacy_cell.
  assert (Hlt : (ik <? List.length row)%nat = true)
    by (apply Nat.ltb_lt; lia).
  repeat (rewrite ?upd_upd, ?nth_upd, ?upd_length, ?Nat.eqb_refl, ?Hlt;
          cbn [andb]).
  f_equal. destruct (nth ik row pol3_zero) as [[c0 c1] c2].
  reflexivity.
Qed.

(** The loop over the k-vectors stores, for every frame, the cells of the
    k-vectors from position [s] on. *)
Lemma legacy_loop mean data nk kvs s sed :
  (s + List.length kvs <= nk)%nat ->
  List.length data = List.length sed ->
  Forall (fun row : list pol3 => List.length row = nk) sed ->
  value (for_each (combine (seq s (List.length kvs)) kvs)
           (fun ik_kvec sed0 =>
              for_each [0; 1; 2]%nat
                (fun alpha sed1 =>
                   if (fst ik_kvec <? nk)%nat then
                     ret (Legacy.assign_column (fst ik_kvec) alpha
                            (Legacy.projected_sum alpha data
                               (map (fun r => Cexp_i (dot r (snd ik_kvec))) mean))
                            sed1)
                   else raise IndexError)
                sed0)
           sed) =
  Ok (zip_with (fun frame row =>
                  firstn s row ++ map (legacy_cell mean frame) kvs
                  ++ skipn (s + List.length kvs) row)
               data sed).
Proof.
  revert s sed. induction kvs as [|kv kvs IH]; intros s sed Hs Hlen Hrows.
  - cbn [List.length seq combine for_each value ret snd map app].
    f_equal. symmetry. apply zip_with_snd_id; [|exact Hlen].
    intros _ row. rewrite Nat.add_0_r. apply firstn_skipn.
  - cbn [List.length seq combine]. rewrite for_each_cons, value_bind.
    cbv beta. cbn [fst snd]. cbn [List.length] in Hs.
    rewrite (legacy_store_cell mean data kv s nk sed) by (auto; lia).
    rewrite IH.
    + f_equal. rewrite zip_with_zip_r.
      apply zip_with_ext_Forall
        with (P := fun _ => True) (Q := fun row => List.length row = nk);
        [|apply Forall_forall; auto|exact Hrows].
      intros frame row _ Hrow.
      rewrite upd_split by lia.
      rewrite firstn_app, firstn_firstn, length_firstn.
      replace (Nat.min (S s) s) with s by lia.
      replace (Nat.min s (List.length row)) with s by lia.
      replace (S s - s)%nat with 1%nat by lia.
      cbn [firstn map]. rewrite <- !app_assoc. cbn [app]. do 3 f_equal.
      rewrite skipn_app, length_firstn.
      replace (Nat.min s (List.length row)) with s by lia.
      rewrite skipn_all2 by (rewrite length_firstn; lia).
      replace (S s + List.length kvs - s)%nat with (S (List.length kvs)) by lia.
      change (skipn (S (List.length kvs))
                (legacy_cell mean frame kv :: skipn (S s) row))
        with (skipn (List.length kvs) (skipn (S s) row)).
      cbn [app]. rewrite skipn_skipn. f_equal. lia.
    + lia.
    + rewrite zip_with_length. lia.
    + apply Forall_forall. intros row Hin.
      assert (Hall : Forall (fun row : list pol3 => List.length row = nk)
                (zip_with (fun frame row0 => upd s (legacy_cell mean frame kv) row0)
                          data sed)).
      { apply Forall_zip_with_r; [|exact Hrows].
        intros a b Hb. now rewrite upd_length. }
      rewrite Forall_forall in Hall. auto.
Qed.

Lemma fftfreq_rescaled n dt :
  (0 < n)%nat -> dt <> 0 ->
  map (fun f => f * 1e-12) (fftfreq n (dt * 1e-12)) = fftfreq n dt.
Proof.
  intros Hn Hdt. unfold fftfreq. rewrite map_map. apply map_ext. intros i.
  assert (H0 : INR n <> 0) by (apply not_0_INR; lia).
  field. split; assumption.
Qed.

(** What the legacy engine stores before the transform: for every frame of
    the data, the cell of every k-vector. *)
Lemma legacy_spectrum_value tr (use_velocities : bool) dt k_points k_vectors :
  legacy_wf tr -> dt <> 0 ->
  List.length k_points = List.length k_vectors ->
  let mean := mean_axis0 (Legacy.positions tr) in
  let data := if use_velocities then Legacy.velocities tr
              else map (fun frame => zip_with vsub frame mean)
                       (Legacy.positions tr) in
  value (Legacy.calculate_sd tr use_velocities dt k_points k_vectors) =
  Ok (fft_axis0 (List.length k_vectors)
        (map (fun frame => map (legacy_cell mean frame) k_vectors) data),
      fftfreq (Legacy.n_frames tr) dt).
Proof.
  intros (Hnt & Hna & Hp & Hv & Hpf & Hvf) Hdt Hk mean data.
  unfold Legacy.calculate_sd. fold mean. fold data.
  rewrite value_bind, Hk.
  assert (Hdata : List.length data = Legacy.n_frames tr).
  { unfold data. destruct use_velocities; [exact Hv|].
    now rewrite length_map. }
  rewrite (legacy_loop mean data (List.length k_vectors) k_vectors 0).
  - replace (Legacy.n_frames tr =? 0)%nat with false
      by (symmetry; apply Nat.eqb_neq; lia).
    replace (Reqb (INR (Legacy.n_frames tr) * (dt * 1e-12)) 0) with false.
    + cbn [value ret snd]. rewrite fftfreq_rescaled by (auto; lia).
      do 3 f_equal.
      rewrite <- (map_id (repeat (repeat pol3_zero (List.length k_vectors))
                                  (Legacy.n_frames tr))).
      rewrite zip_with_map_r.
      transitivity (zip_with (fun (frame : list vec3) (_ : list pol3) =>
                                map (legacy_cell mean frame) k_vectors)
                      data (repeat (repeat pol3_zero (List.length k_vectors))
                                   (Legacy.n_frames tr))).
      * apply zip_with_ext_Forall
          with (P := fun _ => True)
               (Q := fun row : list pol3 =>
                       List.length row = List.length k_vectors).
        -- intros frame row _ Hrow. cbn [firstn app Nat.add].
           rewrite skipn_all2 by lia. apply app_nil_r.
        -- apply Forall_forall. auto.
        -- apply Forall_forall. intros row Hin. apply repeat_spec in Hin.
           subst row. apply repeat_length.
      * rewrite <- Hdata. clear. induction data as [|fr data IH]; cbn; auto.
        now rewrite IH.
    + symmetry. apply Reqb_false.
      assert (H0 : INR (Legacy.n_frames tr) <> 0) by (apply not_0_INR; lia).
      intros E. apply Rmult_integral in E. destruct E as [E|E]; [auto|].
      apply Rmult_integral in E. destruct E as [E|E]; [auto|lra].
  - cbn. lia.
  - now rewrite repeat_length.
  - apply Forall_forall. intros row Hin. apply repeat_spec in Hin.
    subst row. apply repeat_length.
Qed.

(** X23.  The legacy engine and the new one compute the same spectrum up
    to the normalisation.  On a trajectory with frames and atoms, with as
    many k magnitudes as k-vectors and a non-zero timestep,
    [SDCalculator.calculate_sd] of SDA.py returns; its frequency axis is
    the one of the new engine, and the amplitude that
    [_calculate_sed_for_group] of the new engine gives for the group of
    all the atoms, on the same positions and velocities, is at every
    (frequency, k, polarisation) index the legacy amplitude divided by the
    number of frames. *)
Theorem X23_legacy_spectrum_is_new_times_n_frames tr use_velocities dt
    k_points k_vectors self :
  legacy_wf tr -> dt <> 0 ->
  List.length k_points = List.length k_vectors ->
  positions (traj self) = Legacy.positions tr ->
  velocities (traj self) = Legacy.velocities tr ->
  use_displacements self = negb use_velocities ->
  exists sed_w,
    value (Legacy.calculate_sd tr use_velocities dt k_points k_vectors) =
    Ok (sed_w, fftfreq (Legacy.n_frames tr) dt) /\
    List.length sed_w = Legacy.n_frames tr /\
    cells (_calculate_sed_for_group self k_vectors
             (arange (Legacy.n_atoms tr))
             (mean_axis0 (positions (traj self)))) =
    map (map (fun amp => pol3_div amp (INR (Legacy.n_frames tr)))) sed_w.
Proof.
  intros Hwf Hdt Hk Hpos Hvel Hud.
  pose proof (legacy_spectrum_value tr use_velocities dt k_points k_vectors
                Hwf Hdt Hk) as E. cbv zeta in E.
  destruct Hwf as (Hnt & Hna & Hp & Hv & Hpf & Hvf).
  eexists. split; [exact E|].
  set (mean := mean_axis0 (Legacy.positions tr)) in *.
  assert (Hmean : List.length mean = Legacy.n_atoms tr).
  { apply mean_axis0_length; [|exact Hpf].
    destruct (Legacy.positions tr); [cbn in Hp; lia|discriminate]. }
  split.
  { rewrite fft_axis0_length, length_map.
    destruct use_velocities; [exact Hv|now rewrite length_map]. }
  unfold _calculate_sed_for_group, n_frames. rewrite Hpos, Hvel, Hud.
  fold mean.
  replace (List.length (arange (Legacy.n_atoms tr)) =? 0)%nat with false
    by (symmetry; apply Nat.eqb_neq; unfold arange;
        rewrite length_map, length_seq; lia).
  rewrite Hp.
  replace (0 <? Legacy.n_frames tr)%nat with true
    by (symmetry; apply Nat.ltb_lt; lia).
  cbn [cells]. do 2 f_equal.
  rewrite (take_arange vzero mean) by exact Hmean.
  assert (Hcell : forall frame,
             map (fun phase_k =>
                    (einsum_entry 0 frame phase_k, einsum_entry 1 frame phase_k,
                     einsum_entry 2 frame phase_k))
                 (phase_factors_exp k_vectors mean) =
             map (legacy_cell mean frame) k_vectors).
  { intros frame. unfold phase_factors_exp. rewrite map_map.
    apply map_ext. intros k. unfold legacy_cell, einsum_entry.
    rewrite (map_ext (fun r => Cexp_i (dot k r)) (fun r => Cexp_i (dot r k)))
      by (intros r; now rewrite dot_comm).
    reflexivity. }
  rewrite (map_ext _ _ Hcell). f_equal.
  destruct use_velocities; cbn [negb].
  - rewrite <- (map_id (Legacy.velocities tr)) at 2.
    apply map_ext_in. intros frame Hin.
    rewrite Forall_forall in Hvf. apply take_arange. now apply Hvf.
  - apply map_ext_in. intros frame Hin.
    rewrite Forall_forall in Hpf.
    rewrite (take_arange vzero frame) by (now apply Hpf). reflexivity.
Qed.

Lemma X23_legacy_spectrum_is_new_times_n_frames_witness :
  exists sed_w,
    value (Legacy.calculate_sd legacy_two_atom_traj true 1 [0] [(0, 0, 0)]) =
    Ok (sed_w, fftfreq (Legacy.n_frames legacy_two_atom_traj) 1) /\
    List.length sed_w = Legacy.n_frames legacy_two_atom_traj /\
    cells (_calculate_sed_for_group two_atom_calc [(0, 0, 0)]
             (arange (Legacy.n_atoms legacy_two_atom_traj))
             (mean_axis0 (positions (traj two_atom_calc)))) =
    map (map (fun amp => pol3_div amp
                           (INR (Legacy.n_frames legacy_two_atom_traj))))
        sed_w.
Proof.
  apply (X23_legacy_spectrum_is_new_times_n_frames legacy_two_atom_traj true 1
           [0] [(0, 0, 0)] two_atom_calc).
  - unfold legacy_wf. cbn. repeat split; try lia; repeat constructor.
  - lra.
  - reflexivity.
  - reflexivity.
  - reflexivity.
  - reflexivity.
Defined.

(* ------------------------------------------------------------------ *)
(** ** The legacy script SDA.py: the frequency filter                  *)
(* ------------------------------------------------------------------ *)

Lemma C_eq (z w : C) : fst z = fst w -> snd z = snd w -> z = w.
Proof. destruct z, w. cbn. now intros -> ->. Qed.

Lemma fold_Cadd_scale c l a :
  fold_left Cadd (map (Cscale c) l) (Cscale c a) =
  Cscale c (fold_left Cadd l a).
Proof.
  revert a. induction l as [|x l IH]; intros a; cbn [map fold_left]; auto.
  rewrite <- IH. f_equal. apply C_eq; cbn; ring.
Qed.

Lemma Csum_scale c l : Csum (map (Cscale c) l) = Cscale c (Csum l).
Proof.
  unfold Csum. rewrite <- fold_Cadd_scale. f_equal.
  apply C_eq; cbn; ring.
Qed.

Lemma zip_with_ext {A B D} (f g : A -> B -> D) l m :
  (forall a b, f a b = g a b) -> zip_with f l m = zip_with g l m.
Proof.
  intros H. revert m. induction l as [|a l IH]; intros [|b m]; cbn; auto.
  now rewrite H, IH.
Qed.

Lemma fft_scale c x :
  Legacy.fft (map (Rmult c) x) = map (Cscale c) (Legacy.fft x).
Proof.
  unfold Legacy.fft. rewrite length_map, map_map. apply map_ext. intros w.
  rewrite <- Csum_scale, map_zip_with, zip_with_map_r. f_equal.
  apply zip_with_ext. intros t v. apply C_eq; cbn; ring.
Qed.

Lemma ifft_scale c X :
  Legacy.ifft (map (Cscale c) X) = map (Cscale c) (Legacy.ifft X).
Proof.
  unfold Legacy.ifft. rewrite length_map, map_map. apply map_ext. intros t.
  rewrite zip_with_map_r.
  rewrite (zip_with_ext _ (fun w V => Cscale c
             (Cmul V (Cexp_i (2 * PI * INR w * INR t / INR (List.length X))))))
    by (intros w V; apply C_eq; cbn; ring).
  rewrite <- map_zip_with, Csum_scale.
  apply C_eq; cbn; unfold Rdiv; ring.
Qed.

(** Filtering a series is homogeneous. *)
Lemma filtered_series_scale window c x :
  Legacy.filtered_series window (map (Rmult c) x) =
  map (Rmult c) (Legacy.filtered_series window x).
Proof.
  unfold Legacy.filtered_series. rewrite fft_scale, zip_with_map_l.
  rewrite (zip_with_ext _ (fun v g => Cscale c (Cscale g v)))
    by (intros v g; apply C_eq; cbn; ring).
  rewrite <- map_zip_with, ifft_scale, !map_map. reflexivity.
Qed.

Lemma freq_window_bounds w_center w_sigma freq :
  0 < Legacy.freq_window w_center w_sigma freq <= 1.
Proof.
  unfold Legacy.freq_window. split; [apply exp_pos|].
  set (y := ((freq - w_center) / w_sigma) ^ 2).
  assert (Hy : 0 <= y) by (unfold y; apply pow2_ge_0).
  destruct (Req_dec y 0) as [->|Hne].
  - replace (- 0.5 * 0) with 0 by ring. rewrite exp_0. lra.
  - left. rewrite <- exp_0. apply exp_increasing. lra.
Qed.

(** X24.  [TimeDomainFilter] of SDA.py, built for a positive timestep, on
    data with at least one frame: a band narrower than 6e-14 (a maximum not
    above the minimum included) switches the filter off, the data being
    returned unchanged with a warning; otherwise the output has the shape
    of the data, no frequency is amplified (every Gaussian weight lies in
    (0, 1], and is 1 at the centre of the band), and scaling the data by a
    real factor scales the filtered data by that factor. *)
Theorem X24_time_domain_filter dt self data w_min w_max :
  value (Legacy.TimeDomainFilter_init dt) = Ok self ->
  data <> [] ->
  0 < dt /\
  (w_max - w_min < 6e-14 ->
   Legacy.filter_in_frequency self data w_min w_max =
   ([Warning "Filter width too small; returning original data."], Ok data)) /\
  (6e-14 <= w_max - w_min ->
   (exists out,
      Legacy.filter_in_frequency self data w_min w_max = ([], Ok out) /\
      field_shape (List.length data) (List.length (hd [] data)) out /\
      forall c,
        Legacy.filter_in_frequency self (map (map (vscale c)) data) w_min w_max
        = ([], Ok (map (map (vscale c)) out))) /\
   (forall freq,
      0 < Legacy.freq_window (0.5 * (w_min + w_max)) ((w_max - w_min) / 6) freq
        <= 1) /\
   Legacy.freq_window (0.5 * (w_min + w_max)) ((w_max - w_min) / 6)
                      (0.5 * (w_min + w_max)) = 1).
Proof.
  unfold Legacy.TimeDomainFilter_init.
  destruct (Rleb dt 0) eqn:Hdt; [discriminate|]. apply Rleb_false in Hdt.
  cbn [value ret snd]. intros H Hne. apply Ok_inj in H. subst self.
  split; [exact Hdt|].
  assert (Hn : forall (l : list (list vec3)), l <> [] ->
             Reqb (INR (List.length l) * (dt * 1e-12)) 0 = false).
  { intros l Hl. apply Reqb_false.
    assert (0 < INR (List.length l)).
    { apply lt_0_INR. destruct l; [congruence|cbn; lia]. }
    nra. }
  split; [|intros Hwide; split; [|split]].
  - intros Hnarrow. unfold Legacy.filter_in_frequency. cbn [Legacy.dt_s].
    rewrite (Hn data Hne).
    replace (Rltb (if Rgtb w_max w_min then (w_max - w_min) / 6 else 0) 1e-14)
      with true; [reflexivity|].
    symmetry. apply Rltb_true. destruct (Rgtb w_max w_min); lra.
  - assert (Hs : forall (l : list (list vec3)), l <> [] ->
               Legacy.filter_in_frequency
                 {| Legacy.dt_ps := dt; Legacy.dt_s := dt * 1e-12 |}
                 l w_min w_max =
               ([], Ok
                 (let window :=
                    map (Legacy.freq_window (0.5 * (w_min + w_max))
                                            ((w_max - w_min) / 6))
                        (map (fun f => f * 1e-12)
                             (fftfreq (List.length l) (dt * 1e-12))) in
                  map (fun t =>
                         map (fun i_atom =>
                                (nth t (Legacy.filtered_series window
                                          (map (fun frame => comp 0 (nth i_atom frame vzero)) l)) 0,
                                 nth t (Legacy.filtered_series window
                                          (map (fun frame => comp 1 (nth i_atom frame vzero)) l)) 0,
                                 nth t (Legacy.filtered_series window
                                          (map (fun frame => comp 2 (nth i_atom frame vzero)) l)) 0))
                             (seq 0 (List.length (hd [] l))))
                      (seq 0 (List.length l))))).
    { intros l Hl. unfold Legacy.filter_in_frequency. cbn [Legacy.dt_s].
      rewrite (Hn l Hl).
      replace (Rgtb w_max w_min) with true
        by (symmetry; apply Rgtb_true; lra).
      replace (Rltb ((w_max - w_min) / 6) 1e-14) with false
        by (symmetry; apply Rltb_false; lra).
      reflexivity. }
    eexists. split; [apply (Hs data Hne)|]. split.
    + cbv zeta. split; [now rewrite length_map, length_seq|].
      apply Forall_forall. intros fr Hin. apply in_map_iff in Hin.
      destruct Hin as (t & <- & _). now rewrite length_map, length_seq.
    + intros c. rewrite Hs by (destruct data; [congruence|discriminate]).
      cbv zeta. rewrite !length_map.
      apply (f_equal (fun x : list (list vec3) =>
                        (@nil log_record, Ok x))).
      replace (List.length (hd [] (map (map (vscale c)) data)))
        with (List.length (hd [] data))
        by (destruct data; cbn; [reflexivity|now rewrite length_map]).
      rewrite (map_map _ (map (vscale c))). apply map_ext. intros t.
      rewrite (map_map _ (vscale c)). apply map_ext. intros i_atom.
      set (window := map (Legacy.freq_window _ _) _).
      assert (Hser : forall alpha,
                 map (fun frame => comp alpha (nth i_atom frame vzero))
                     (map (map (vscale c)) data) =
                 map (Rmult c)
                     (map (fun frame => comp alpha (nth i_atom frame vzero))
                          data)).
      { intros alpha. rewrite !map_map. apply map_ext. intros frame.
        rewrite <- (vscale_vzero c) at 1.
        rewrite (map_nth (vscale c)).
        destruct (nth i_atom frame vzero) as [[x y] z].
        destruct alpha as [|[|alpha]]; reflexivity. }
      rewrite !Hser, !filtered_series_scale.
      assert (Hnth : forall s, nth t (map (Rmult c) s) 0 = c * nth t s 0).
      { intros s. rewrite <- (Rmult_0_r c) at 1.
        apply (map_nth (Rmult c)). }
      rewrite !Hnth. reflexivity.
  - intros freq. apply freq_window_bounds.
  - unfold Legacy.freq_window.
    replace (0.5 * (w_min + w_max) - 0.5 * (w_min + w_max)) with 0 by ring.
    replace (- 0.5 * (0 / ((w_max - w_min) / 6)) ^ 2) with 0
      by (unfold Rdiv; ring).
    apply exp_0.
Qed.

Lemma X24_time_domain_filter_witness :
  0 < 1 /\
  (0 - 0 < 6e-14 ->
   Legacy.filter_in_frequency
     {| Legacy.dt_ps := 1; Legacy.dt_s := 1 * 1e-12 |} [[(1, 0, 0)]] 0 0 =
   ([Warning "Filter width too small; returning original data."],
    Ok [[(1, 0, 0)]])).
Proof.
  assert (H : value (Legacy.TimeDomainFilter_init 1) =
              Ok {| Legacy.dt_ps := 1; Legacy.dt_s := 1 * 1e-12 |}).
  { unfold Legacy.TimeDomainFilter_init.
    replace (Rleb 1 0) with false by (symmetry; apply Rleb_false; lra).
    reflexivity. }
  assert (Hne : [[(1, 0, 0)]] <> ([] : list (list vec3))) by discriminate.
  destruct (X24_time_domain_filter 1 _ [[(1, 0, 0)]] 0 0 H Hne) as (H1 & H2 & _).
  split; assumption.
Defined.

(* ------------------------------------------------------------------ *)
(** ** The legacy script SDA.py: gathering the data of a 3D plot       *)
(* ------------------------------------------------------------------ *)

Lemma for_each_measure {A S} (P : nat -> S -> Prop) (c : A -> nat) l
    (body : A -> S -> M S) s s' n :
  (forall a s0 s1 m, In a l -> P m s0 -> value (body a s0) = Ok s1 ->
                     P (m + c a)%nat s1) ->
  P n s -> value (for_each l body s) = Ok s' ->
  P (n + fold_right (fun a acc => c a + acc) 0 l)%nat s'.
Proof.
  revert s n. induction l as [|a l IH]; intros s n Hbody Hs;
    cbn [for_each fold_right].
  - cbn. intros H; injection H as <-. now rewrite Nat.add_0_r.
  - rewrite value_bind. destruct (value (body a s)) as [s1|e] eqn:E;
      [|discriminate].
    intros H. rewrite Nat.add_assoc. apply (IH s1); auto.
    + intros a0 s0 s2 m Hin. apply Hbody. now right.
    + apply (Hbody a s s1 n); auto. now left.
Qed.

Lemma fold_right_const_sum {A} (c : nat) (l : list A) :
  fold_right (fun _ acc => c + acc)%nat 0%nat l = (List.length l * c)%nat.
Proof. induction l as [|a l IH]; cbn; [reflexivity|]. now rewrite IH. Qed.

Lemma index_In {A} (l : list A) i a : value (index l i) = Ok a -> In a l.
Proof.
  unfold index. destruct (nth_error l i) as [x|] eqn:E; [|discriminate].
  cbn. intros H; injection H as <-. eapply nth_error_In; eauto.
Qed.

Lemma amplitude_nonneg cell : 0 <= Legacy.amplitude cell.
Proof.
  destruct cell as [[c0 c1] c2]. unfold Legacy.amplitude, Cabs.
  pose proof (sqrt_pos (fst c0 * fst c0 + snd c0 * snd c0)).
  pose proof (sqrt_pos (fst c1 * fst c1 + snd c1 * snd c1)).
  pose proof (sqrt_pos (fst c2 * fst c2 + snd c2 * snd c2)).
  lra.
Qed.

(** X25.  Whenever [gather_3d_data] of SDA.py returns, its four outputs
    have the same length, one entry for every (frequency, k) pair of every
    data set taken (the three input lists being read in step, up to the
    shortest); no amplitude is negative; and the argument
    [intensity_threshold] has no effect: no point is left out, whatever
    the threshold. *)
Theorem X25_gather_3d_data k_vectors_list freqs_list sed_list
    intensity_threshold g :
  value (Legacy.gather_3d_data k_vectors_list freqs_list sed_list
           intensity_threshold) = Ok g ->
  gathered_ok
    (gathered_count (combine freqs_list (combine k_vectors_list sed_list))) g /\
  forall other_threshold,
    Legacy.gather_3d_data k_vectors_list freqs_list sed_list other_threshold =
    Legacy.gather_3d_data k_vectors_list freqs_list sed_list
      intensity_threshold.
Proof.
  intros H. split; [|reflexivity].
  unfold Legacy.gather_3d_data in H.
  apply (for_each_measure gathered_ok
           (fun dataset => (List.length (fst dataset)
                            * List.length (fst (snd dataset)))%nat)
           _ _ _ _ 0%nat) in H.
  - exact H.
  - intros [freqs [kvecs sed]] s0 s1 m _ Hs0. cbn [fst snd].
    intros H1.
    apply (for_each_measure gathered_ok (fun _ => List.length kvecs)
             _ _ _ _ m) in H1.
    + rewrite fold_right_const_sum, length_seq in H1. exact H1.
    + intros i_f s2 s3 m2 _ Hs2 H2.
      apply (for_each_measure gathered_ok (fun _ => 1%nat) _ _ _ _ m2) in H2.
      * rewrite fold_right_const_sum, length_seq, Nat.mul_1_r in H2. exact H2.
      * intros i_k s4 s5 m3 _ Hs4. rewrite value_bind.
        destruct (value (index (map (map Legacy.amplitude) sed) i_f))
          as [row|e] eqn:Er; [|discriminate].
        rewrite value_bind.
        destruct (value (index row i_k)) as [amp|e] eqn:Ea; [|discriminate].
        rewrite value_bind.
        destruct (value (index kvecs i_k)) as [kvec|e]; [|discriminate].
        rewrite value_bind.
        destruct (value (index freqs i_f)) as [freq|e]; [|discriminate].
        destruct s4 as [[[kx ky] fr] am].
        cbn [value ret snd]. intros E. apply Ok_inj in E. subst s5.
        destruct Hs4 as (L1 & L2 & L3 & L4 & F).
        unfold gathered_ok. rewrite !length_app. cbn [List.length].
        repeat split; try lia.
        apply Forall_app. split; [exact F|]. constructor; [|constructor].
        apply index_In in Er, Ea. apply in_map_iff in Er.
        destruct Er as (r0 & <- & _). apply in_map_iff in Ea.
        destruct Ea as (cell & <- & _). apply amplitude_nonneg.
      * exact Hs2.
    + exact Hs0.
  - cbn. repeat split; auto.
Qed.

Lemma X25_gather_3d_data_witness :
  gathered_ok
    (gathered_count (combine [[1; 2]] (combine [[(0, 0, 0)]]
                                               [[[pol3_zero]; [pol3_zero]]])))
    ([0; 0], [0; 0], [1; 2],
     [Legacy.amplitude pol3_zero; Legacy.amplitude pol3_zero]).
Proof.
  apply (X25_gather_3d_data [[(0, 0, 0)]] [[1; 2]]
           [[[pol3_zero]; [pol3_zero]]] 0).
  reflexivity.
Defined.

(* ------------------------------------------------------------------ *)
(** ** The example script: from the trajectory to the chiral phase     *)
(* ------------------------------------------------------------------ *)

Lemma parse_direction_100 :
  value (parse_direction (DirSeq [1; 0; 0])) = Ok x_axis.
Proof.
  unfold parse_direction. rewrite value_bind.
  assert (E : value (SDA.parse_direction (DirSeq [1; 0; 0])) = Ok (1, 0, 0)).
  { unfold SDA.parse_direction. rewrite value_bind. cbn [value ret snd].
    replace (Rltb (norm (1, 0, 0)) 1e-10) with false; [reflexivity|].
    symmetry. apply Rltb_false. rewrite norm_100. lra. }
  rewrite E. reflexivity.
Qed.

(** In the mode "C" the chiral phase of two arrays of one shape is
    returned, with that shape and within [-pi/2, pi/2]. *)
Lemma chiral_phase_C_returns Z1 Z2 :
  nd_shape Z1 = nd_shape Z2 -> nd_shape Z1 <> [] ->
  exists out,
    value (calculate_chiral_phase Z1 Z2 "C") = Ok out /\
    nd_shape out = nd_shape Z1 /\
    Forall (fun x => - (PI / 2) <= x <= PI / 2) (nd_data out).
Proof.
  intros E Hax. unfold calculate_chiral_phase.
  destruct (list_eq_dec Nat.eq_dec (nd_shape Z1) (nd_shape Z2)) as [_|NE];
    [|contradiction].
  cbn [negb]. destruct (nd_size Z1 =? 0)%nat.
  { eexists. split; [reflexivity|]. cbn. auto. }
  cbn [String.eqb Ascii.eqb Bool.eqb].
  destruct (nd_shape Z1) as [|n0 sh] eqn:Hsh; [congruence|].
  eexists. split; [reflexivity|]. cbn [nd_shape nd_data]. split; [reflexivity|].
  apply Forall_forall. intros x Hx.
  apply in_map_iff in Hx. destruct Hx as (d2 & <- & Hx).
  apply in_map_iff in Hx. destruct Hx as (d1 & <- & Hx).
  apply in_map_iff in Hx. destruct Hx as (d0 & <- & _).
  apply fold_q3_bounds, fold_q2_bounds, wrap_phase_bounds.
Qed.

Lemma init_value_fields tr nx ny nz ud dt self :
  value (SEDCalculator_init tr nx ny nz ud dt) = Ok self ->
  traj self = tr /\ use_displacements self = ud.
Proof.
  intros H. pose proof (init_value tr nx ny nz ud dt) as E. cbv zeta in E.
  rewrite H in E.
  destruct (negb _); [discriminate|].
  destruct (resolved_dt tr dt) as [d|]; [|discriminate].
  destruct (Rleb d 0); [discriminate|].
  destruct (_ || _ || _)%bool; [discriminate|].
  destruct (Rleb _ 1e-8); [discriminate|].
  injection E as ->. cbn. auto.
Qed.

(** X26.  The computation of the example script never fails after the
    calculator is built: whatever the trajectory, if
    SEDCalculator(trajectory, 60, 60, 1) is built then the k-path, the
    coherent SED of the types 1 and 2 and the chiral phase of its x and y
    polarisations are all returned.  The SED is complex with 250 k-points,
    the phase array has the (frequency, k) shape of the SED array and all
    its values lie in [-pi/2, pi/2]; on a trajectory with frames and atoms
    that shape is (n_frames, 250). *)
Theorem X26_chiral_example_goes_through trajectory :
  match value (chiral_example trajectory) with
  | Ok (sed_object, phase) =>
      (exists calculator,
         value (SEDCalculator_init trajectory 60 60 1 false None)
           = Ok calculator) /\
      is_complex sed_object = true /\
      List.length (k_points sed_object) = 250%nat /\
      List.length (k_vectors sed_object) = 250%nat /\
      nd_shape phase = [sed_dim0 (sed sed_object); sed_dim1 (sed sed_object)] /\
      Forall (fun x => - (PI / 2) <= x <= PI / 2) (nd_data phase) /\
      ((0 < n_frames trajectory)%nat -> (0 < n_atoms trajectory)%nat ->
       nd_shape phase = [n_frames trajectory; 250%nat])
  | Raise e =>
      value (SEDCalculator_init trajectory 60 60 1 false None) = Raise e
  end.
Proof.
  unfold chiral_example. rewrite value_bind.
  destruct (value (SEDCalculator_init trajectory 60 60 1 false None))
    as [calc|e] eqn:Hinit; [|reflexivity].
  assert (Htraj : traj calc = trajectory).
  { destruct (init_value_fields _ _ _ _ _ _ _ Hinit) as [H _]. exact H. }
  rewrite value_bind, get_k_path_value, parse_direction_100.
  assert (Hext : recip_extent_of calc x_axis (Some 2.491) =
                 Some (2 * PI / 2.491)).
  { unfold recip_extent_of.
    replace (Rleb 2.491 1e-6) with false; [reflexivity|].
    symmetry. apply Rleb_false. lra. }
  rewrite Hext. change (250 <? 1)%Z with false. cbv iota. cbn [fst snd].
  set (kp := k_mags_of (4 * (2 * PI / 2.491)) 250).
  assert (Hkp : List.length kp = 250%nat)
    by (unfold kp; rewrite k_mags_of_length by lia; reflexivity).
  set (ks := outer kp x_axis).
  assert (Hks : List.length ks = 250%nat)
    by (unfold ks, outer; now rewrite length_map).
  rewrite value_bind.
  assert (Hret : exists r,
             value (calculate calc kp ks None (Some (BList [PyInt 1; PyInt 2]))
                      "coherent" None 500) = Ok r).
  { rewrite calculate_value. unfold calculate_one_batch.
    cbn [String.eqb Ascii.eqb Bool.eqb orb negb].
    destruct (_ || _)%bool; [eexists; reflexivity|].
    rewrite value_bind, determine_atom_groups_value.
    cbn [processed_basis_atom_types List.length Nat.ltb Nat.leb forallb is_list
         is_int andb String.eqb Ascii.eqb Bool.eqb value ret snd].
    eexists. reflexivity. }
  destruct Hret as [r Hr]. rewrite Hr.
  destruct (calculate_returns _ _ _ _ _ _ _ _ _ Hr)
    as (_ & [(Hdeg & ->)|(groups & Hnt & Hna & Hg & ->)]).
  - cbn [sed slice_pol]. rewrite value_bind. cbn [value ret snd].
    rewrite value_bind. cbn [value ret snd]. rewrite value_bind.
    match goal with
    | |- context [calculate_chiral_phase ?a ?b "C"] =>
        destruct (chiral_phase_C_returns a b) as (out & Ho & Hs & Hf);
          [reflexivity|discriminate|]
    end.
    rewrite Ho. cbn [value ret snd is_complex k_points k_vectors sed
                     sed_dim0 sed_dim1 empty_grid dim0 dim1].
    split; [eexists; reflexivity|]. repeat split; auto.
    rewrite <- Htraj. intros H1 H2. destruct Hdeg; lia.
  - unfold result_array. cbn [String.eqb Ascii.eqb Bool.eqb orb sed].
    cbn [slice_pol]. rewrite value_bind. cbn [value ret snd].
    rewrite value_bind. cbn [value ret snd]. rewrite value_bind.
    match goal with
    | |- context [calculate_chiral_phase ?a ?b "C"] =>
        destruct (chiral_phase_C_returns a b) as (out & Ho & Hs & Hf);
          [reflexivity|discriminate|]
    end.
    rewrite Ho. cbn [value ret snd is_complex k_points k_vectors sed
                     sed_dim0 sed_dim1].
    split; [eexists; reflexivity|]. repeat split; auto.
    intros _ _. rewrite Hs. cbn [nd_shape]. rewrite <- Htraj.
    destruct (List.length (final_group_indices groups) =? 0)%nat.
    + cbn [zeros dim0 dim1]. rewrite fftfreq_length by lia. now rewrite Hks.
    + match goal with
      | |- context [one_batch ?T ?z ?nf ?k] =>
          destruct (one_batch_shape T z nf k) as [D0 D1]
      end.
      rewrite D0, D1, fftfreq_length by lia. now rewrite Hks.
Qed.

(* ------------------------------------------------------------------ *)
(** ** [calculate]: the coherent sum does not see the grouping         *)
(* ------------------------------------------------------------------ *)

Lemma increasing_eq l1 l2 :
  increasing l1 -> increasing l2 -> (forall x, In x l1 <-> In x l2) ->
  l1 = l2.
Proof.
  revert l2. induction l1 as [|a l1 IH]; intros [|b l2] H1 H2 H.
  - reflexivity.
  - exfalso. apply (proj2 (H b)). now left.
  - exfalso. apply (proj1 (H a)). now left.
  - destruct H1 as [Ha H1], H2 as [Hb H2].
    assert (a = b).
    { destruct (proj1 (H a) (or_introl eq_refl)) as [E|Hin]; [now subst|].
      destruct (proj2 (H b) (or_introl eq_refl)) as [E|Hin']; [now subst|].
      specialize (Ha b Hin'). specialize (Hb a Hin). lia. }
    subst b. f_equal. apply IH; auto.
    intros x. split; intros Hx.
    + destruct (proj1 (H x) (or_intror Hx)) as [E|Hin]; [|exact Hin].
      subst x. specialize (Ha a Hx). lia.
    + destruct (proj2 (H x) (or_intror Hx)) as [E|Hin]; [|exact Hin].
      subst x. specialize (Hb a Hx). lia.
Qed.

Lemma where_from_increasing start mask : increasing (where_from start mask).
Proof.
  revert start. induction mask as [|b mask IH]; intros start;
    cbn [where_from]; [exact I|].
  destruct b; [|apply IH]. split; [|apply IH].
  intros y Hy. apply where_from_In in Hy. destruct Hy as (j & -> & _). lia.
Qed.

Lemma insert_unique_increasing x l :
  increasing l -> increasing (insert_unique x l).
Proof.
  induction l as [|y l IH]; intros H; cbn [insert_unique].
  - split; [intros y []|exact I].
  - destruct H as [Hy H]. destruct (x <? y)%Z eqn:E1.
    + apply Z.ltb_lt in E1. split; [|split; auto].
      intros z [<-|Hz]; [exact E1|]. specialize (Hy z Hz). lia.
    + destruct (x =? y)%Z eqn:E2; [split; auto|].
      apply Z.ltb_ge in E1. apply Z.eqb_neq in E2.
      split; [|apply IH; exact H].
      intros z Hz. apply insert_unique_In in Hz. destruct Hz as [->|Hz];
        [lia|auto].
Qed.

Lemma np_unique_increasing l : increasing (np_unique l).
Proof.
  induction l as [|x l IH]; cbn; [exact I|].
  now apply insert_unique_increasing.
Qed.

Lemma processed_types_lists tgs mode :
  value (processed_basis_atom_types (BList (map PyList tgs)) mode) = Ok tgs.
Proof.
  destruct tgs as [|tg tgs]; [reflexivity|].
  unfold processed_basis_atom_types.
  change (0 <? List.length (map PyList (tg :: tgs)))%nat with true.
  assert (F : forall l, forallb is_list (map PyList l) = true)
    by (induction l; cbn; auto).
  assert (G : forall l, map as_list (map PyList l) = l)
    by (induction l as [|a l IHl]; cbn; [reflexivity|now rewrite IHl]).
  now rewrite F, G.
Qed.

Lemma processed_types_flat_coherent l :
  value (processed_basis_atom_types (BList (map PyInt l)) "coherent") =
  Ok (match l with [] => [] | _ => [l] end).
Proof.
  destruct l as [|t l]; [reflexivity|].
  apply (proj2 (processed_types_flat t l)).
Qed.

(** The atoms of a coherent sum over type groups are the atoms of the
    listed types taken together. *)
Lemma final_group_of_type_groups tys n tgs :
  final_group_indices
    (with_fallback n (filter nonempty (map (atoms_of_types tys) tgs))) =
  final_group_indices
    (with_fallback n (filter nonempty [atoms_of_types tys (List.concat tgs)])).
Proof.
  set (G := filter nonempty (map (atoms_of_types tys) tgs)).
  set (A := atoms_of_types tys (List.concat tgs)).
  assert (Hmem : forall i, In i (List.concat G) <-> In i A).
  { intros i. unfold G, A. rewrite in_concat, atoms_of_types_In. split.
    - intros (g & Hg & Hi). apply filter_In in Hg. destruct Hg as [Hg _].
      apply in_map_iff in Hg. destruct Hg as (tg & <- & Htg).
      apply atoms_of_types_In in Hi. destruct Hi as (j & t & -> & Hj & Ht).
      exists j, t. repeat split; auto. apply in_concat. eauto.
    - intros (j & t & -> & Hj & Ht). apply in_concat in Ht.
      destruct Ht as (tg & Htg & Ht).
      exists (atoms_of_types tys tg).
      assert (Hi : In (Z.of_nat j) (atoms_of_types tys tg))
        by (apply atoms_of_types_In; eauto).
      split; [|exact Hi]. apply filter_In. split.
      + apply in_map_iff. eauto.
      + unfold nonempty. destruct (atoms_of_types tys tg); [destruct Hi|reflexivity]. }
  assert (HGinc : forall g, In g G -> increasing g /\ g <> []).
  { intros g Hg. unfold G in Hg. apply filter_In in Hg. destruct Hg as [Hg Hne].
    apply in_map_iff in Hg. destruct Hg as (tg & <- & _). split.
    - apply where_from_increasing.
    - intros E. rewrite E in Hne. discriminate. }
  assert (HA : increasing A) by apply where_from_increasing.
  cbn [filter]. destruct G as [|g [|g2 G']] eqn:EG.
  - assert (A = []).
    { destruct A as [|a A']; [reflexivity|]. exfalso.
      apply (proj2 (Hmem a)). now left. }
    rewrite H. reflexivity.
  - assert (g = A).
    { apply increasing_eq; [apply (HGinc g); now left|exact HA|].
      intros x. rewrite <- Hmem. cbn. now rewrite app_nil_r. }
    subst g. destruct (HGinc A) as [_ Hne]; [now left|].
    unfold nonempty. destruct A; [congruence|reflexivity].
  - assert (HneA : A <> []).
    { destruct (HGinc g) as [_ Hne]; [now left|].
      destruct g as [|x g]; [congruence|]. intros E.
      assert (Hx : In x A) by (apply Hmem; cbn; now left).
      rewrite E in Hx. destruct Hx. }
    unfold nonempty. destruct A as [|a A'] eqn:EA; [congruence|].
    cbn [List.length Nat.ltb Nat.leb with_fallback Nat.eqb final_group_indices].
    apply increasing_eq; [apply np_unique_increasing|exact HA|].
    intros x. rewrite np_unique_In. apply Hmem.
Qed.

(** X27.  In the mode "coherent" the grouping of the types does not show:
    [calculate] with [basis_atom_types] given as a list of type lists
    returns exactly what it returns for the flat list of all those types,
    the sum running once over every atom that has one of the types. *)
Theorem X27_coherent_ignores_grouping self k_points_mags k_vectors_3d
    basis_atom_indices tgs grid_shape k_chunk_size :
  value (calculate self k_points_mags k_vectors_3d basis_atom_indices
           (Some (BList (map PyList tgs))) "coherent" grid_shape k_chunk_size) =
  value (calculate self k_points_mags k_vectors_3d basis_atom_indices
           (Some (BList (map PyInt (List.concat tgs)))) "coherent" grid_shape
           k_chunk_size).
Proof.
  rewrite !calculate_value. unfold calculate_one_batch.
  cbn [String.eqb Ascii.eqb Bool.eqb orb negb].
  destruct (_ || _)%bool; [reflexivity|].
  rewrite !value_bind, !determine_atom_groups_value.
  rewrite processed_types_lists, processed_types_flat_coherent.
  pose proof (final_group_of_type_groups (types (traj self))
                (n_atoms (traj self)) tgs) as F.
  unfold with_fallback in F.
  assert (E : filter nonempty
                (map (atoms_of_types (types (traj self)))
                     (match List.concat tgs with
                      | [] => []
                      | _ => [List.concat tgs]
                      end)) =
              filter nonempty
                [atoms_of_types (types (traj self)) (List.concat tgs)]).
  { destruct (List.concat tgs); [|reflexivity].
    assert (N : atoms_of_types (types (traj self)) [] = [])
      by (apply atoms_of_types_nil; intros x _ []).
    rewrite N. reflexivity. }
  rewrite E. cbn [value ret snd]. rewrite F. reflexivity.
Qed.

(* ------------------------------------------------------------------ *)
(** ** [calculate]: every k-vector is treated on its own               *)
(* ------------------------------------------------------------------ *)

Lemma zip_with_fst_length {A B D} (f : A -> D) (l : list A) (m m' : list B) :
  List.length m = List.length m' ->
  zip_with (fun a _ => f a) l m = zip_with (fun a _ => f a) l m'.
Proof.
  revert m m'. induction l as [|a l IH]; intros [|b m] [|b' m'] H;
    cbn in *; try lia; auto.
  f_equal. apply IH. lia.
Qed.

Lemma one_batch_slice {A} (T : list vec3 -> grid A) z nf ks s e :
  (s < e <= List.length ks)%nat ->
  (forall s e, (e <= List.length ks)%nat ->
     cells (T (slice s e ks)) = map (slice s e) (cells (T ks))) ->
  Forall (fun row => List.length row = List.length ks) (cells (T ks)) ->
  cells (one_batch T z nf (slice s e ks)) =
  map (slice s e) (cells (one_batch T z nf ks)).
Proof.
  intros Hse Hslice Hrows.
  assert (Hlen : List.length (slice s e ks) = (e - s)%nat)
    by (apply slice_length; lia).
  rewrite !one_batch_cells; try lia; auto.
  - cbn [cells]. rewrite Hslice by lia. rewrite zip_with_map_l, map_zip_with.
    apply zip_with_fst_length. now rewrite !repeat_length.
  - rewrite Hslice by lia. apply Forall_forall. intros row Hin.
    apply in_map_iff in Hin. destruct Hin as (r0 & <- & Hr0).
    rewrite Forall_forall in Hrows. rewrite Hlen.
    apply slice_length. rewrite (Hrows r0 Hr0). lia.
Qed.

(** X28.  Every k-vector is treated on its own: when [calculate] returns
    for a list of k-vectors, it returns for any non-empty stretch
    k_vectors_3d[s:e] of the list as well, with the same frequency axis and
    the same kind of array, and the array of the stretch consists of the
    columns s to e - 1 of the array of the whole list. *)
Theorem X28_k_vectors_are_independent self k_points_mags k_vectors_3d
    basis_atom_indices basis_atom_types summation_mode grid_shape
    k_chunk_size s e r :
  (s < e <= List.length k_vectors_3d)%nat ->
  value (calculate self k_points_mags k_vectors_3d basis_atom_indices
           basis_atom_types summation_mode grid_shape k_chunk_size) = Ok r ->
  exists r',
    value (calculate self (slice s e k_points_mags) (slice s e k_vectors_3d)
             basis_atom_indices basis_atom_types summation_mode grid_shape
             k_chunk_size) = Ok r' /\
    freqs r' = freqs r /\ is_complex r' = is_complex r /\
    match sed r, sed r' with
    | ComplexArr g, ComplexArr g' => cells g' = map (slice s e) (cells g)
    | RealArr g, RealArr g' => cells g' = map (slice s e) (cells g)
    | _, _ => False
    end.
Proof.
  intros Hse H.
  assert (Hret : exists r',
             value (calculate self (slice s e k_points_mags)
                      (slice s e k_vectors_3d) basis_atom_indices
                      basis_atom_types summation_mode grid_shape k_chunk_size)
             = Ok r').
  { revert H. rewrite !calculate_value. unfold calculate_one_batch.
    destruct (negb _); [discriminate|].
    destruct (_ || _)%bool; [eexists; reflexivity|].
    rewrite !value_bind.
    destruct (value (determine_atom_groups _ _ _ _)); [|discriminate].
    eexists. reflexivity. }
  destruct Hret as [r' H']. exists r'. split; [exact H'|].
  apply calculate_returns in H, H'.
  destruct H as (_ & [(Hdeg & ->)|(groups & Hnt & Hna & Hg & ->)]);
    destruct H' as (_ & [(Hdeg' & ->)|(groups' & Hnt' & Hna' & Hg' & ->)]);
    try (destruct Hdeg; lia); try (destruct Hdeg'; lia).
  { cbn. repeat split; reflexivity. }
  assert (groups' = groups) by congruence. subst groups'.
  cbn [freqs is_complex sed]. split; [reflexivity|]. split; [reflexivity|].
  unfold result_array.
  assert (Hlen : List.length (slice s e k_vectors_3d) = (e - s)%nat)
    by (apply slice_length; lia).
  destruct (String.eqb summation_mode "coherent"
            || (List.length groups <=? 1)%nat)%bool.
  - destruct (List.length (final_group_indices groups) =? 0)%nat.
    + cbn [zeros cells]. rewrite Hlen, map_repeat, slice_repeat by lia.
      reflexivity.
    + apply (one_batch_slice
               (fun ks => _calculate_sed_for_group self ks
                            (final_group_indices groups)
                            (mean_axis0 (positions (traj self))))); auto.
      * intros s0 e0 He0. now apply sed_for_group_slice.
      * apply sed_for_group_rows.
  - apply (one_batch_slice
             (summed_intensity self groups
                (mean_axis0 (positions (traj self)))
                (List.length (fftfreq (n_frames (traj self)) (dt_ps self)))));
      auto.
    + intros s0 e0 He0. now apply summed_intensity_slice.
    + apply summed_intensity_rows.
Qed.

Lemma X28_k_vectors_are_independent_witness :
  exists r r',
    value (calculate two_atom_calc [0; 1] [(0, 0, 0); (1, 0, 0)] None None
             "coherent" None 500) = Ok r /\
    value (calculate two_atom_calc (slice 1 2 [0; 1])
             (slice 1 2 [(0, 0, 0); (1, 0, 0)]) None None "coherent" None 500)
      = Ok r' /\
    freqs r' = freqs r.
Proof.
  assert (E : exists r,
             value (calculate two_atom_calc [0; 1] [(0, 0, 0); (1, 0, 0)]
                      None None "coherent" None 500) = Ok r).
  { rewrite calculate_value. eexists. reflexivity. }
  destruct E as [r E]. exists r.
  assert (Hse : (1 < 2 <= List.length [(0, 0, 0); (1, 0, 0)])%nat)
    by (cbn; lia).
  destruct (X28_k_vectors_are_independent two_atom_calc [0; 1]
              [(0, 0, 0); (1, 0, 0)] None None "coherent" None 500 1 2 r
              Hse E) as (r' & E' & F & _).
  exists r'. repeat split; assumption.
Defined.

(* ------------------------------------------------------------------ *)
(** ** [ised]: what goes into the dump                                 *)
(* ------------------------------------------------------------------ *)

Lemma vadd_vzero_r v : vadd v vzero = v.
Proof. destruct v as [[x y] z]. unfold vadd, vzero. repeat f_equal; ring. Qed.

Lemma nth_map_lt {A B} (f : A -> B) l i d d' :
  (i < List.length l)%nat -> nth i (map f l) d' = f (nth i l d).
Proof.
  intros H. rewrite (nth_indep _ d' (f d)) by (now rewrite length_map).
  apply map_nth.
Qed.

(** Up to 2^24 in absolute value an integer is a [float32]. *)
Lemma float32_of_int_exact n :
  (Z.abs n <= 16777216)%Z -> float32_of_int n = n.
Proof.
  intros H. unfold float32_of_int.
  destruct (Z.eq_dec (Z.abs n) 16777216) as [E|E].
  - assert (Hn : (n = 16777216 \/ n = -16777216)%Z) by lia.
    destruct Hn; subst n; reflexivity.
  - assert (L : (Z.log2 (Z.abs n) - 23 <= 0)%Z).
    { destruct (Z.eq_dec (Z.abs n) 0) as [E0|E0]; [rewrite E0; cbn; lia|].
      assert (Z.log2 (Z.abs n) < 24)%Z; [|lia].
      apply Z.log2_lt_pow2; [lia|]. change (2 ^ 24)%Z with 16777216%Z. lia. }
    cbv zeta. apply Z.leb_le in L. now rewrite L.
Qed.

(** Above 2^24 it need not be: 2^24 + 1 comes back as 2^24, and
    2^24 + 3 as 2^24 + 4. *)
Lemma float32_of_int_alters :
  float32_of_int 16777217 = 16777216%Z /\
  float32_of_int 16777219 = 16777220%Z /\
  float32_of_int (-16777217) = (-16777216)%Z.
Proof. repeat split; reflexivity. Qed.

(** X29.  The dump of [ised].  For a trajectory whose frames hold n_atoms
    positions each, whenever [ised] writes a dump, the dump carries the box
    matrix of the trajectory and one type per atom, the type of the
    trajectory for every atom whose type is at most 2^24 in absolute value
    (the types pass through a float32 array, which alters larger ones); it
    has n_recon_frames frames of n_atoms atoms each, and every atom that
    none of the reconstructed groups names sits at its mean position in
    every frame. *)
Theorem X29_ised_dump_rest_positions self k_dir_spec k_target w_target
    char_len_k_path nk_on_path bz_cov_ised basis_atom_idx_ised
    basis_atom_types_ised rescale_factor n_recon_frames q :
  positions (traj self) <> [] ->
  Forall (fun frame => List.length frame = n_atoms (traj self))
         (positions (traj self)) ->
  value (ised self k_dir_spec k_target w_target char_len_k_path nk_on_path
           bz_cov_ised basis_atom_idx_ised basis_atom_types_ised
           rescale_factor n_recon_frames) = Ok (Some q) ->
  List.length (atom_types_dump q) = n_atoms (traj self) /\
  (forall i, (i < n_atoms (traj self))%nat ->
             (Z.abs (nth i (types (traj self)) 0%Z) <= 16777216)%Z ->
             nth i (atom_types_dump q) 0%Z = nth i (types (traj self)) 0%Z) /\
  dump_box q = box_matrix (traj self) /\
  field_shape (Z.to_nat n_recon_frames) (n_atoms (traj self))
              (final_pos_dump q) /\
  exists groups,
    value (recon_groups (n_atoms (traj self)) (types (traj self))
             basis_atom_idx_ised basis_atom_types_ised) = Ok groups /\
    Forall (fun frame =>
              forall i, (i < n_atoms (traj self))%nat ->
                        (forall g j, In g groups -> In j g -> Z.to_nat j <> i) ->
                        nth i frame vzero =
                        nth i (mean_axis0 (positions (traj self))) vzero)
           (final_pos_dump q).
Proof.
  intros Hne Hpos. unfold ised, ised_displacements. rewrite !value_bind.
  destruct (value (ised_reconstruct _ _ _ _ _ _ _ _ _ _ _))
    as [[[st idx]|]|e] eqn:Hrec; try discriminate.
  rewrite value_bind.
  destruct (value (ised_rescale rescale_factor idx st)) as [W|e] eqn:Hres;
    [|discriminate].
  cbn [value ret snd]. intros H. apply Ok_inj in H.
  injection H as <-. cbn [atom_types_dump dump_box final_pos_dump].
  destruct (ised_reconstruct_returns _ _ _ _ _ _ _ _ _ _ _ _ _ Hrec)
    as (groups & Hg & _ & _ & Hshape & Hidx & Hzero).
  destruct (ised_rescale_returns _ _ _ _ _ _ Hres Hshape Hzero)
    as [[HL HF] HZ].
  pose proof (mean_axis0_length _ _ Hne Hpos) as Hm.
  split; [apply length_map|]. split.
  { intros i Hi Hsmall.
    rewrite (nth_map_lt float32_of_int _ i 0%Z) by exact Hi.
    now apply float32_of_int_exact. }
  split; [reflexivity|]. split.
  - split; [now rewrite length_map|]. apply Forall_map.
    eapply Forall_impl; [|exact HF]. cbn beta. intros frame Hf.
    rewrite zip_with_length, Hm, Hf. apply Nat.min_id.
  - exists groups. split; [exact Hg|]. apply Forall_map.
    unfold zero_outside in HZ. rewrite Forall_forall in HF, HZ.
    apply Forall_forall. intros frame Hin i Hi Hout.
    rewrite (nth_zip_with vadd _ _ i vzero vzero)
      by (rewrite ?Hm, ?(HF frame Hin); exact Hi).
    rewrite (HZ frame Hin i); [apply vadd_vzero_r|].
    intros j Hj. apply Hidx in Hj. apply in_concat in Hj.
    destruct Hj as (g & Hgin & Hjg). now apply (Hout g j).
Qed.

Lemma X29_ised_dump_rest_positions_witness :
  exists q,
    value (ised two_atom_calc (DirStr "x" None) 0 0 1 1 1 None None
             (RescaleNum 1) 1) = Ok (Some q) /\
    List.length (atom_types_dump q) = n_atoms (traj two_atom_calc) /\
    dump_box q = box_matrix (traj two_atom_calc).
Proof.
  destruct ised_produces_a_field as (field & H & _).
  assert (E : exists q,
             value (ised two_atom_calc (DirStr "x" None) 0 0 1 1 1 None None
                      (RescaleNum 1) 1) = Ok (Some q)).
  { unfold ised. rewrite value_bind, H. eexists. reflexivity. }
  destruct E as [q E]. exists q. split; [exact E|].
  assert (Hne : positions (traj two_atom_calc) <> []) by discriminate.
  assert (Hpos : Forall (fun frame => List.length frame
                                      = n_atoms (traj two_atom_calc))
                        (positions (traj two_atom_calc)))
    by (repeat constructor).
  destruct (X29_ised_dump_rest_positions _ _ _ _ _ _ _ _ _ _ _ _ Hne Hpos E)
    as (H1 & _ & H2 & _).
  split; assumption.
Defined.

(* ------------------------------------------------------------------ *)
(** ** Displacements have no static part                               *)
(* ------------------------------------------------------------------ *)

Lemma twiddle_0 n t : twiddle n 0 t = (1, 0).
Proof.
  unfold twiddle, Cexp_i.
  replace (- (2 * PI * INR 0 * INR t / INR n)) with 0
    by (cbn [INR]; unfold Rdiv; ring).
  now rewrite cos_0, sin_0.
Qed.

Lemma pol3_cmul_1 p : pol3_cmul (1, 0) p = p.
Proof.
  destruct p as [[[a b] [c d]] [e f]]. unfold pol3_cmul, Cmul. cbn [fst snd].
  repeat f_equal; ring.
Qed.

Lemma map_combine_snd {A B} (g : A -> B -> B) (l : list A) (m : list B) :
  (forall a b, g a b = b) -> List.length l = List.length m ->
  map (fun p => g (fst p) (snd p)) (combine l m) = m.
Proof.
  intros Hg. revert m. induction l as [|a l IH]; intros [|b m] H;
    cbn in *; try lia; auto.
  rewrite Hg, IH; auto.
Qed.

(** The row of frequency index 0 of the transform is the sum of the rows. *)
Lemma fft_axis0_row0 n1 x :
  x <> [] ->
  hd [] (fft_axis0 n1 x) =
  fold_left (zip_with pol3_add) x (repeat pol3_zero n1).
Proof.
  intros Hx. unfold fft_axis0.
  destruct (List.length x) as [|m] eqn:Hn; [destruct x; [congruence|discriminate]|].
  cbv zeta. change (seq 0 (S m)) with (0%nat :: seq 1 m) at 2.
  cbn [map hd]. f_equal.
  apply (map_combine_snd
           (fun t row => map (pol3_cmul (twiddle (S m) 0 t)) row)).
  - intros t row. rewrite twiddle_0. rewrite <- (map_id row) at 2.
    apply map_ext. apply pol3_cmul_1.
  - now rewrite length_seq.
Qed.

Lemma comp_vadd pol u v : comp pol (vadd u v) = comp pol u + comp pol v.
Proof.
  destruct u as [[u0 u1] u2], v as [[v0 v1] v2].
  destruct pol as [|[|pol]]; reflexivity.
Qed.

Lemma fold_Cadd_zip_add pol D1 D2 (ph : list C) a b :
  List.length D1 = List.length D2 ->
  fold_left Cadd
    (zip_with (fun v p => Cscale (comp pol v) p) (zip_with vadd D1 D2) ph)
    (Cadd a b) =
  Cadd (fold_left Cadd (zip_with (fun v p => Cscale (comp pol v) p) D1 ph) a)
       (fold_left Cadd (zip_with (fun v p => Cscale (comp pol v) p) D2 ph) b).
Proof.
  revert D2 ph a b. induction D1 as [|v1 D1 IH]; intros [|v2 D2] ph a b H;
    cbn in H; try lia; [reflexivity|].
  destruct ph as [|p ph]; [reflexivity|].
  cbn [zip_with fold_left]. rewrite <- IH by lia. f_equal.
  rewrite comp_vadd. apply C_eq; cbn; ring.
Qed.

Lemma einsum_entry_add pol D1 D2 ph :
  List.length D1 = List.length D2 ->
  einsum_entry pol (zip_with vadd D1 D2) ph =
  Cadd (einsum_entry pol D1 ph) (einsum_entry pol D2 ph).
Proof.
  intros H. unfold einsum_entry, Csum.
  rewrite <- (fold_Cadd_zip_add pol D1 D2 ph C0 C0 H). f_equal.
  apply C_eq; cbn; ring.
Qed.

Lemma einsum_entry_zero pol D ph :
  Forall (fun v => v = vzero) D -> einsum_entry pol D ph = C0.
Proof.
  unfold einsum_entry, Csum. intros H. revert ph.
  induction H as [|v D Hv H IH]; intros [|p ph]; cbn [zip_with fold_left];
    auto.
  subst v. rewrite <- (IH ph) at 2. f_equal.
  destruct pol as [|[|pol]]; apply C_eq; cbn; ring.
Qed.

Lemma zip_with_diag {A B} (f : A -> A -> B) l :
  zip_with f l l = map (fun a => f a a) l.
Proof. induction l as [|a l IH]; cbn; auto. now rewrite IH. Qed.

(** Summing the entries over the frames is summing the data first. *)
Lemma fold_einsum_cells (phase : list (list C)) Ds A :
  Forall (fun D => List.length D = List.length A) Ds ->
  fold_left (zip_with pol3_add)
    (map (fun D => map (einsum_cell D) phase) Ds)
    (map (einsum_cell A) phase) =
  map (einsum_cell (fold_left (zip_with vadd) Ds A)) phase.
Proof.
  intros H. revert A H. induction Ds as [|D Ds IH]; intros A H;
    cbn [map fold_left]; [reflexivity|].
  inversion H as [|D' Ds' HD HDs]; subst.
  rewrite <- IH.
  - f_equal. rewrite zip_with_map_l, zip_with_map_r, zip_with_diag.
    apply map_ext. intros ph. unfold einsum_cell, pol3_add.
    now rewrite !einsum_entry_add by auto.
  - eapply Forall_impl; [|exact HDs]. cbn beta. intros D0 HD0.
    rewrite zip_with_length, HD0, HD. symmetry. apply Nat.min_id.
Qed.

Lemma nth_fold_zip_with {A} (op : A -> A -> A) rows init j d :
  Forall (fun r => (j < List.length r)%nat) rows ->
  (j < List.length init)%nat ->
  nth j (fold_left (zip_with op) rows init) d =
  fold_left op (map (fun r => nth j r d) rows) (nth j init d).
Proof.
  intros H. revert init. induction H as [|r rows Hr H IH]; intros init Hi;
    cbn [map fold_left]; [reflexivity|].
  rewrite IH by (rewrite zip_with_length; lia).
  now rewrite (nth_zip_with op init r j d d) by assumption.
Qed.

Lemma fold_vadd_zero vs a :
  Forall (fun v => v = vzero) vs -> fold_left vadd vs a = a.
Proof.
  intros H. revert a. induction H as [|v vs Hv H IH]; intros a;
    cbn [fold_left]; [reflexivity|].
  rewrite IH. subst v. apply vadd_vzero_r.
Qed.

Lemma fold_vadd_sub c vs a :
  fold_left vadd (map (fun v => vsub v c) vs) a =
  vsub (fold_left vadd vs a) (vscale (INR (List.length vs)) c).
Proof.
  revert a. induction vs as [|v vs IH]; intros a.
  - cbn. destruct a as [[a0 a1] a2], c as [[c0 c1] c2].
    unfold vsub, vscale. f_equal; [f_equal|]; ring.
  - cbn [map fold_left List.length]. rewrite IH, S_INR.
    generalize (INR (List.length vs)). intros n.
    assert (E : forall s : vec3,
               vsub s (vscale (n + 1) c) =
               vsub (vadd s (vscale (-1) c)) (vscale n c)).
    { intros [[s0 s1] s2]. destruct c as [[c0 c1] c2].
      unfold vsub, vadd, vscale. f_equal; [f_equal|]; ring. }
    rewrite E. f_equal.
    clear IH E. revert a v.
    assert (G : forall l (a b : vec3),
               fold_left vadd l (vadd a b) = vadd (fold_left vadd l a) b).
    { induction l as [|x l IHl]; intros a b; cbn [fold_left]; [reflexivity|].
      rewrite <- IHl. f_equal.
      destruct a as [[a0 a1] a2], b as [[b0 b1] b2], x as [[x0 x1] x2].
      unfold vadd. f_equal; [f_equal|]; ring. }
    intros a v. rewrite <- G. f_equal.
    destruct a as [[a0 a1] a2], v as [[v0 v1] v2], c as [[c0 c1] c2].
    unfold vadd, vsub, vscale. f_equal; [f_equal|]; ring.
Qed.

(** An entry of the mean over the frames. *)
Lemma nth_mean_axis0 frames na i :
  frames <> [] -> Forall (fun frame => List.length frame = na) frames ->
  nth i (mean_axis0 frames) vzero =
  vdiv (fold_left vadd (map (fun frame => nth i frame vzero) frames) vzero)
       (INR (List.length frames)).
Proof.
  intros Hne Hf.
  assert (Hlen : List.length (fold_left (zip_with vadd) frames
                                (repeat vzero na)) = na)
    by (apply fold_zip_with_length; [exact Hf|apply repeat_length]).
  assert (Hm : mean_axis0 frames =
               map (fun v => vdiv v (INR (List.length frames)))
                   (fold_left (zip_with vadd) frames (repeat vzero na))).
  { destruct frames as [|f frames]; [congruence|]. unfold mean_axis0.
    inversion Hf; subst. reflexivity. }
  rewrite Hm. destruct (Nat.lt_ge_cases i na) as [Hi|Hi].
  - rewrite (nth_map_lt _ _ i vzero) by lia. f_equal.
    rewrite nth_fold_zip_with.
    + now rewrite nth_repeat.
    + eapply Forall_impl; [|exact Hf]. cbn beta. intros; lia.
    + now rewrite repeat_length.
  - rewrite nth_overflow by (rewrite length_map; lia).
    rewrite fold_vadd_zero.
    + unfold vdiv, vzero. unfold Rdiv. f_equal; [f_equal|]; ring.
    + apply Forall_map. eapply Forall_impl; [|exact Hf]. cbn beta.
      intros f Hfl. apply nth_overflow. lia.
Qed.

(** Over the frames, the displacements of every atom sum to zero. *)
Lemma displacements_sum_to_zero frames na g :
  frames <> [] -> Forall (fun frame => List.length frame = na) frames ->
  Forall (fun v => v = vzero)
    (fold_left (zip_with vadd)
       (map (fun frame =>
               zip_with vsub (take vzero frame g)
                             (take vzero (mean_axis0 frames) g)) frames)
       (repeat vzero (List.length g))).
Proof.
  intros Hne Hf.
  set (D := fun frame : list vec3 =>
              zip_with vsub (take vzero frame g)
                            (take vzero (mean_axis0 frames) g)).
  assert (HD : forall frame, List.length (D frame) = List.length g).
  { intros frame. unfold D, take. rewrite zip_with_length, !length_map.
    apply Nat.min_id. }
  assert (Hlen : List.length (fold_left (zip_with vadd) (map D frames)
                                (repeat vzero (List.length g)))
                 = List.length g).
  { apply fold_zip_with_length; [|apply repeat_length].
    apply Forall_map. apply Forall_forall. intros f _. apply HD. }
  apply Forall_nth. intros j d Hj. rewrite Hlen in Hj.
  rewrite (nth_indep _ d vzero) by lia.
  rewrite nth_fold_zip_with.
  2:{ apply Forall_map. apply Forall_forall. intros f _. rewrite HD. exact Hj. }
  2:{ now rewrite repeat_length. }
  rewrite nth_repeat, map_map.
  set (i := Z.to_nat (nth j g 0%Z)).
  assert (E : forall frame,
             nth j (D frame) vzero =
             vsub (nth i frame vzero) (nth i (mean_axis0 frames) vzero)).
  { intros frame. unfold D, take.
    rewrite (nth_zip_with vsub _ _ j vzero vzero)
      by (rewrite length_map; exact Hj).
    now rewrite !(nth_map_lt _ g j 0%Z vzero) by exact Hj. }
  rewrite (map_ext _ _ E).
  rewrite <- (map_map (fun frame => nth i frame vzero)
                      (fun v => vsub v (nth i (mean_axis0 frames) vzero))).
  rewrite fold_vadd_sub, length_map, (nth_mean_axis0 frames na i Hne Hf).
  assert (Hn : INR (List.length frames) <> 0).
  { apply not_0_INR. destruct frames; [congruence|discriminate]. }
  generalize dependent (INR (List.length frames)). intros n Hn.
  destruct (fold_left vadd (map (fun frame => nth i frame vzero) frames) vzero)
    as [[s0 s1] s2].
  unfold vsub, vscale, vdiv, vzero. f_equal; [f_equal|]; field; exact Hn.
Qed.

Lemma Forall_repeat {A} (P : A -> Prop) z n : P z -> Forall P (repeat z n).
Proof.
  intros Hz. apply Forall_forall. intros x Hx. apply repeat_spec in Hx.
  now subst x.
Qed.

Lemma Forall_hd_repeat {A} (P : A -> Prop) z n m :
  P z -> Forall P (hd [] (repeat (repeat z n) m)).
Proof. intros Hz. destruct m; cbn; [constructor|now apply Forall_repeat]. Qed.

Lemma pol3_div_zero s : pol3_div pol3_zero s = pol3_zero.
Proof.
  unfold pol3_div, pol3_zero, Cdiv_real, C0. cbn [fst snd]. unfold Rdiv.
  rewrite Rmult_0_l. reflexivity.
Qed.

Lemma einsum_cell_zero D ph :
  Forall (fun v => v = vzero) D -> einsum_cell D ph = pol3_zero.
Proof.
  intros H. unfold einsum_cell. now rewrite !einsum_entry_zero by exact H.
Qed.

(** With displacements, the row of frequency index 0 of the amplitudes of
    an atom group is zero. *)
Lemma sed_for_group_static self ks g :
  use_displacements self = true ->
  Forall (fun frame => List.length frame = n_atoms (traj self))
         (positions (traj self)) ->
  Forall (fun c => c = pol3_zero)
    (hd [] (cells (_calculate_sed_for_group self ks g
                     (mean_axis0 (positions (traj self)))))).
Proof.
  intros Hu Hf. unfold _calculate_sed_for_group. rewrite Hu.
  destruct (List.length g =? 0)%nat;
    [cbn [zeros cells]; now apply Forall_hd_repeat|].
  destruct (0 <? n_frames (traj self))%nat eqn:Hnt; [|constructor].
  apply Nat.ltb_lt in Hnt. unfold n_frames in *.
  assert (Hne : positions (traj self) <> [])
    by (destruct (positions (traj self)); [cbn in Hnt; lia|discriminate]).
  cbn [cells].
  set (phase := phase_factors_exp ks _).
  set (mp := mean_axis0 (positions (traj self))).
  set (data := map (fun frame => zip_with vsub (take vzero frame g)
                                               (take vzero mp g))
                   (positions (traj self))).
  change (map (fun frame => map (fun phase_k =>
                 (einsum_entry 0 frame phase_k, einsum_entry 1 frame phase_k,
                  einsum_entry 2 frame phase_k)) phase) data)
    with (map (fun D => map (einsum_cell D) phase) data).
  set (X := map (fun D => map (einsum_cell D) phase) data).
  assert (HX : X <> []).
  { unfold X, data. destruct (positions (traj self)); [congruence|discriminate]. }
  destruct (fft_axis0 (List.length ks) X) as [|row0 rows] eqn:EF;
    [constructor|].
  pose proof (fft_axis0_row0 (List.length ks) X HX) as H0.
  rewrite EF in H0. cbn [hd] in H0. cbn [map hd]. subst row0.
  assert (Hz : repeat pol3_zero (List.length ks) =
               map (einsum_cell (repeat vzero (List.length g))) phase).
  { replace (List.length ks) with (List.length phase)
      by (unfold phase, phase_factors_exp; apply length_map).
    rewrite <- map_const. apply map_ext. intros ph. symmetry.
    apply einsum_cell_zero. now apply Forall_repeat. }
  unfold X. rewrite Hz, fold_einsum_cells.
  - apply Forall_map, Forall_map. apply Forall_forall. intros ph _.
    rewrite einsum_cell_zero; [apply pol3_div_zero|].
    unfold data, mp. now apply (displacements_sum_to_zero _ (n_atoms (traj self))).
  - unfold data. apply Forall_map. apply Forall_forall. intros frame _.
    unfold take. rewrite zip_with_length, !length_map, repeat_length.
    apply Nat.min_id.
Qed.

Lemma Forall_hd_zip_fst {A B} (P : list A -> Prop) (l : list (list A))
    (m : list B) :
  P [] -> P (hd [] l) -> P (hd [] (zip_with (fun r _ => r) l m)).
Proof. intros H0 H. destruct l, m; cbn; auto. Qed.

Lemma one_batch_row0 {A} (P : A -> Prop) (T : list vec3 -> grid A) z nf ks :
  P z ->
  Forall (fun row => List.length row = List.length ks) (cells (T ks)) ->
  Forall P (hd [] (cells (T ks))) ->
  Forall P (hd [] (cells (one_batch T z nf ks))).
Proof.
  intros Hz Hrows H. destruct (Nat.eq_dec (List.length ks) 0) as [Hk|Hk].
  - unfold one_batch. rewrite Hk. cbn [Nat.eqb zeros cells].
    now apply Forall_hd_repeat.
  - rewrite one_batch_cells by (auto; lia). cbn [cells].
    apply (Forall_hd_zip_fst (Forall P)); [constructor|exact H].
Qed.

Lemma pol3_power_zero : pol3_power pol3_zero = 0.
Proof.
  unfold pol3_power, pol3_zero, Cabs, C0. cbn [fst snd].
  rewrite Rmult_0_l, Rplus_0_l, sqrt_0. ring.
Qed.

Lemma summed_intensity_static self groups nf ks :
  use_displacements self = true ->
  Forall (fun frame => List.length frame = n_atoms (traj self))
         (positions (traj self)) ->
  Forall (fun x => x = 0)
    (hd [] (cells (summed_intensity self groups
                     (mean_axis0 (positions (traj self))) nf ks))).
Proof.
  intros Hu Hf. unfold summed_intensity.
  assert (H0 : Forall (fun x => x = 0)
                 (hd [] (cells (zeros 0 nf (List.length ks)))))
    by (cbn [zeros cells]; now apply Forall_hd_repeat).
  revert H0. generalize (zeros 0 nf (List.length ks)).
  induction groups as [|g groups IH]; intros acc Hacc; cbn [fold_left]; auto.
  apply IH. destruct (List.length g =? 0)%nat; auto.
  cbn [add_power cells].
  pose proof (sed_for_group_static self ks g Hu Hf) as HG. revert Hacc HG.
  generalize (cells (_calculate_sed_for_group self ks g
                       (mean_axis0 (positions (traj self))))).
  generalize (cells acc). clear.
  intros [|r l] [|p G]; cbn [zip_with hd]; try constructor.
  intros Hr Hp. revert p Hp. induction Hr as [|x r Hx Hr IHr];
    intros [|c p] Hp; cbn [zip_with]; constructor.
  - inversion Hp; subst. rewrite pol3_power_zero. ring.
  - apply IHr. now inversion Hp.
Qed.

(** X30.  Displacements have no static part.  With the floating point
    numbers idealised as reals, for a calculator with
    [use_displacements] on a trajectory whose frames hold n_atoms positions
    each, the row of frequency index 0 of every array that [calculate]
    returns is zero, amplitudes and intensities alike, whatever the
    k-vectors, the atom groups and the summation mode are: the positions
    enter as deviations from their mean over the frames, and these sum to
    zero for every atom. *)
Theorem X30_displacements_have_no_static_part self k_points_mags
    k_vectors_3d basis_atom_indices basis_atom_types summation_mode
    grid_shape k_chunk_size r :
  use_displacements self = true ->
  Forall (fun frame => List.length frame = n_atoms (traj self))
         (positions (traj self)) ->
  value (calculate self k_points_mags k_vectors_3d basis_atom_indices
           basis_atom_types summation_mode grid_shape k_chunk_size) = Ok r ->
  match sed r with
  | ComplexArr g => Forall (fun c => c = pol3_zero) (hd [] (cells g))
  | RealArr g => Forall (fun x => x = 0) (hd [] (cells g))
  end /\
  (traj_wf (traj self) ->
   (0 < n_frames (traj self))%nat -> (0 < n_atoms (traj self))%nat ->
   match sed r with
   | ComplexArr g => List.length (hd [] (cells g))
   | RealArr g => List.length (hd [] (cells g))
   end = List.length k_vectors_3d).
Proof.
  intros Hu Hf H. apply calculate_returns in H.
  destruct H as (_ & [(Hdeg & ->)|(groups & Hnt & Hna & _ & ->)]).
  { cbn. split; [constructor|]. intros; lia. }
  cbn [sed]. unfold result_array.
  set (mp := mean_axis0 (positions (traj self))).
  set (nf := List.length (fftfreq (n_frames (traj self)) (dt_ps self))).
  assert (Hnf : nf = n_frames (traj self))
    by (apply fftfreq_length; lia).
  clearbody nf.
  destruct (String.eqb summation_mode "coherent"
            || (List.length groups <=? 1)%nat)%bool.
  - destruct (List.length (final_group_indices groups) =? 0)%nat.
    + split.
      * cbn [zeros cells]. now apply Forall_hd_repeat.
      * intros Hwf _ _. cbn [zeros cells]. rewrite Hnf.
        destruct (n_frames (traj self)); [lia|]. cbn. apply repeat_length.
    + split.
      * apply (one_batch_row0 (fun c => c = pol3_zero)); auto.
        -- apply sed_for_group_rows.
        -- now apply sed_for_group_static.
      * intros Hwf _ _.
        assert (W : grid_wf (one_batch
                      (fun ks => _calculate_sed_for_group self ks
                                   (final_group_indices groups) mp)
                      pol3_zero nf k_vectors_3d)).
        { apply one_batch_wf; [apply sed_for_group_rows|].
          rewrite Hnf. now apply sed_for_group_nrows. }
        destruct W as [W0 W1].
        rewrite (proj1 (one_batch_shape _ _ _ _)) in W0.
        rewrite (proj2 (one_batch_shape _ _ _ _)) in W1.
        destruct (cells (one_batch _ pol3_zero nf k_vectors_3d));
          [cbn in W0; lia|]. cbn [hd]. now inversion W1.
  - split.
    + apply (one_batch_row0 (fun x => x = 0)); auto.
      * apply summed_intensity_rows.
      * now apply summed_intensity_static.
    + intros Hwf _ _.
      assert (W : grid_wf (one_batch (summed_intensity self groups mp nf)
                             0 nf k_vectors_3d)).
      { apply one_batch_wf; [apply summed_intensity_rows|].
        rewrite Hnf. now apply summed_intensity_nrows. }
      destruct W as [W0 W1].
      rewrite (proj1 (one_batch_shape _ _ _ _)) in W0.
      rewrite (proj2 (one_batch_shape _ _ _ _)) in W1.
      destruct (cells (one_batch _ 0 nf k_vectors_3d));
        [cbn in W0; lia|]. cbn [hd]. now inversion W1.
Qed.

Lemma X30_displacements_have_no_static_part_witness :
  exists r,
    value (calculate two_atom_displacement_calc [0] [(1, 0, 0)] None None
             "incoherent" None 500) = Ok r /\
    match sed r with
    | ComplexArr g => Forall (fun c => c = pol3_zero) (hd [] (cells g))
    | RealArr g => Forall (fun x => x = 0) (hd [] (cells g))
    end.
Proof.
  assert (E : exists r,
             value (calculate two_atom_displacement_calc [0] [(1, 0, 0)]
                      None None "incoherent" None 500) = Ok r).
  { rewrite calculate_value. eexists. reflexivity. }
  destruct E as [r E]. exists r. split; [exact E|].
  assert (Hu : use_displacements two_atom_displacement_calc = true)
    by reflexivity.
  assert (Hf : Forall (fun frame => List.length frame
                                    = n_atoms (traj two_atom_displacement_calc))
                      (positions (traj two_atom_displacement_calc)))
    by (repeat constructor).
  exact (proj1 (X30_displacements_have_no_static_part _ _ _ _ _ _ _ _ _
                  Hu Hf E)).
Defined.
